(** * Dielectric schemes for the uniform electron gas: a shallow embedding

    The development follows the C sources of the STLS solver (the static
    solver, the input reader, the dynamic QSTLS-IET engine) and the C++
    classes [Rpa], [SsfHF] and [Ssf].

    Conventions of the embedding.
    - Where a value, a formula or a limit is at stake, a C [double] is
      read as a real number ([R]): [exp], [log], [cosh], [sqrt], [fabs] and
      [pow] become [exp], [ln], [cosh], [sqrt], [Rabs] and [Rpower]. This
      reading leaves out rounding, NaN and signed zeros; the one place
      where the source relies on an infinite value (the sentinel of the
      fixed-kernel tensor) has a data type of its own.
    - Where rounding or NaN can change a discrete outcome (a run accepted
      or refused, a loop continued or stopped, the number of points of a
      grid), the functions are embedded again over binary64: executably,
      with [PrimFloat.float], in the module [B64] and in the class
      [Input]; and over the reals with an explicit rounding operator in
      the module [Rnd].
    - The parallel region of the dynamic engine is embedded twice: as the
      run of one thread, and as a set of threads stepped by a schedule.
    - A C [int] is an integer of [Z]; conversions that C leaves undefined
      return [None].
    - A C array is a list, read with [rd] and written with [wr]; a
      [for (ii = 0; ii < n; ii++)] loop is [for_loop n].
    - [exit], [abort] and a failed [assert] end the run: functions that can
      reach one return an [outcome]. *)

From Stdlib Require Import String Reals Lra Lia ZArith List Bool Psatz.
From Stdlib Require PrimFloat FloatOps FloatAxioms SpecFloat.
Import ListNotations.

Open Scope R_scope.

(** ** Outcomes of a run *)

Inductive outcome (A : Type) : Type :=
| Done (a : A)          (* the call returns *)
| Fatal (msg : string)  (* exit(EXIT_FAILURE), abort, a thrown error *)
| OutOfFuel.            (* the model's loop budget ran out *)

Arguments Done {A} a.
Arguments Fatal {A} msg.
Arguments OutOfFuel {A}.

(** ** Comparisons of doubles *)

Definition Rgtb (a b : R) : bool := if Rgt_dec a b then true else false.
Definition Rltb (a b : R) : bool := if Rlt_dec a b then true else false.
Definition Reqb (a b : R) : bool := if Req_dec_T a b then true else false.

(** ** Arrays and counted loops *)

Section Arrays.
Context {A : Type}.
Variable d : A.

Fixpoint upd (a : list A) (n : nat) (v : A) : list A :=
  match a, n with
  | [], _ => []
  | _ :: t, O => v :: t
  | h :: t, S n' => h :: upd t n' v
  end.

(** [a[i]]: the default stands for the indeterminate value C gives
    outside the array. *)
Definition rd (a : list A) (i : Z) : A :=
  if (i <? 0)%Z then d else nth (Z.to_nat i) a d.

(** [a[i] = v] *)
Definition wr (a : list A) (i : Z) (v : A) : list A :=
  if (i <? 0)%Z then a else upd a (Z.to_nat i) v.
End Arrays.

(** [for (int i = 0; i < n; i++) s = body i s] *)
Definition for_loop {St : Type} (n : Z) (body : Z -> St -> St) (s : St) : St :=
  fold_left (fun s i => body (Z.of_nat i) s) (seq 0 (Z.to_nat n)) s.

(** [for (int i = lo; i < hi; i++) s = body i s] *)
Definition for_range {St : Type} (lo hi : Z) (body : Z -> St -> St) (s : St) : St :=
  for_loop (hi - lo) (fun k => body (lo + k)%Z) s.

(** Sum of [f 0], ..., [f (n-1)]. *)
Fixpoint sum_upto (n : nat) (f : Z -> R) : R :=
  match n with
  | O => 0
  | S k => sum_upto k f + f (Z.of_nat k)
  end.

Definition sum_Z (n : Z) (f : Z -> R) : R := sum_upto (Z.to_nat n) f.

(** [while (cond s) s = body s], with a budget of iterations. *)
Fixpoint while_loop {St : Type} (fuel : nat) (cond : St -> bool)
         (body : St -> St) (s : St) : option St :=
  if cond s then
    match fuel with
    | O => None
    | S fuel' => while_loop fuel' cond body (body s)
    end
  else Some s.

(** ** The input record *)

(** Modelled from the spec: the declaration of [struct input] (read_input.h)
    is not among the sources. The fields are those the sources assign in
    [set_default_parse_opt], plus [nx], [nW], [mu], [dyn_adr_file] and
    [phi_file], which the solvers read and write; strings stand for the
    [char*] fields. *)
Record input : Type := mkInput {
  stls_guess_file : string;
  qstls_guess_file : string;
  qstls_fixed_file : string;
  qstls_iet_fixed_file : string;
  qstls_iet_static : Z;
  Theta : R;
  rs : R;
  dx : R;
  err_min_iter : R;
  a_mix : R;
  mu_lo : R;
  mu_hi : R;
  mu : R;
  xmax : R;
  nl : Z;
  nx : Z;
  nIter : Z;
  theory : string;
  nThreads : Z;
  mode : string;
  guess_file1 : string;
  guess_file2 : string;
  iet_mapping : string;
  vs_drs : R;
  vs_dt : R;
  vs_alpha : R;
  vs_thermo_file : string;
  vs_err_min_iter : R;
  vs_a_mix : R;
  vs_solve_csr : Z;
  dyn_dW : R;
  dyn_Wmax : R;
  dyn_xtarget : R;
  nW : Z;
  dyn_adr_file : string;
  phi_file : string
}.

(** The defaults of [set_default_parse_opt]; the fields it leaves alone are
    given neutral values. *)
Definition default_input : input := {|
  stls_guess_file := "NO_FILE";
  qstls_guess_file := "NO_FILE";
  qstls_fixed_file := "NO_FILE";
  qstls_iet_fixed_file := "NO_FILE";
  qstls_iet_static := 0;
  Theta := 1;
  rs := 1;
  dx := 1 / 10;
  err_min_iter := 1 / 100000;
  a_mix := 1 / 10;
  mu_lo := -10;
  mu_hi := 10;
  mu := 0;
  xmax := 20;
  nl := 128;
  nx := 0;
  nIter := 1000;
  theory := "STLS";
  nThreads := 1;
  mode := "static";
  guess_file1 := "NO_FILE";
  guess_file2 := "NO_FILE";
  iet_mapping := "standard";
  vs_drs := 1 / 100;
  vs_dt := 1 / 100;
  vs_alpha := 1 / 2;
  vs_thermo_file := "NO_FILE";
  vs_err_min_iter := 1 / 1000;
  vs_a_mix := 1;
  vs_solve_csr := 1;
  dyn_dW := 1 / 10;
  dyn_Wmax := 20;
  dyn_xtarget := 1;
  nW := 0;
  dyn_adr_file := "NO_FILE";
  phi_file := "NO_FILE"
|}.

(** ** The static solver *)

Definition idx2 (xx yy x_size : Z) : Z := (yy * x_size + xx)%Z.

(** [pow(4.0/(9.0*M_PI), 1.0/3.0)] *)
Definition lambda : R := Rpower (4 / (9 * PI)) (1 / 3).

(** *** Static local field correction *)

Definition slfc (yy xx SS : R) : R :=
  let yy2 := yy * yy in
  let xx2 := xx * xx in
  if Rgtb xx 0 && Rgtb yy 0 then
    if Rgtb xx yy then
      -3 / 4 * yy2 * (SS - 1)
      * (1 + (xx2 - yy2) / (2 * xx * yy) * ln ((xx + yy) / (xx - yy)))
    else if Rltb xx yy then
      -3 / 4 * yy2 * (SS - 1)
      * (1 + (xx2 - yy2) / (2 * xx * yy) * ln ((xx + yy) / (yy - xx)))
    else
      yy2 * (SS - 1)
  else 0.

Definition compute_slfc (GG SS xx : list R) (inp : input) : list R :=
  for_loop (nx inp)
    (fun ii GG =>
       let GG := wr GG ii 0 in
       let GG :=
         for_loop (nx inp - 1)
           (fun jj GG =>
              wr GG ii (rd 0 GG ii + slfc (rd 0 xx jj) (rd 0 xx ii) (rd 0 SS jj)))
           GG in
       wr GG ii (rd 0 GG ii * dx inp))
    GG.

(** [Rpa::computeSlfc]: [for (auto& s : slfc) { s = 0; }] *)
Definition Rpa_computeSlfc (slfc_ : list R) : list R :=
  map (fun _ => 0) slfc_.

(** *** Hartree-Fock integrand *)

Definition ssfHF (yy xx : R) (inp : input) : R :=
  let yy2 := yy * yy in
  let ypx := yy + xx in
  let ymx := yy - xx in
  if Rgtb xx 0 then
    -3 * Theta inp / (4 * xx) * yy / (exp (yy2 / Theta inp - mu inp) + 1)
    * ln ((1 + exp (mu inp - ymx * ymx / Theta inp))
          / (1 + exp (mu inp - ypx * ypx / Theta inp)))
  else
    -3 / 2 * yy2 / (1 + cosh (yy2 / Theta inp - mu inp)).

(** [SsfHF::integrand], a member of a class holding [x], [Theta], [mu]. *)
Definition SsfHF_integrand (x Theta_ mu_ : R) (y : R) : R :=
  let y2 := y * y in
  let ypx := y + x in
  let ymx := y - x in
  if Rgtb x 0 then
    -3 * Theta_ / (4 * x) * y / (exp (y2 / Theta_ - mu_) + 1)
    * ln ((1 + exp (mu_ - ymx * ymx / Theta_))
          / (1 + exp (mu_ - ypx * ypx / Theta_)))
  else
    -3 * y2 / ((1 + exp (y2 / Theta_ - mu_)) * (1 + exp (y2 / Theta_ - mu_))).

(** *** Static structure factor *)

Definition compute_ssf (SS SSHF GG phi xx : list R) (inp : input) : list R :=
  let lambda := Rpower (4 / (9 * PI)) (1 / 3) in
  let pilambda := PI * lambda in
  let ff := 4 * lambda * lambda * rs inp in
  let ff3_2T := 3 * Theta inp * ff / 2 in
  for_loop (nx inp)
    (fun ii SS =>
       let xx2 := rd 0 xx ii * rd 0 xx ii in
       let BB := 0 in
       if Rgtb (rd 0 xx ii) 0 then
         let BB :=
           for_loop (nl inp)
             (fun ll BB =>
                let phixl := rd 0 phi (idx2 ii ll (nx inp)) in
                let BB_tmp :=
                  phixl * phixl / (pilambda * xx2 + ff * (1 - rd 0 GG ii) * phixl) in
                let BB_tmp := if (ll >? 0)%Z then BB_tmp * 2 else BB_tmp in
                BB + BB_tmp)
             BB in
         wr SS ii (rd 0 SSHF ii - ff3_2T * (1 - rd 0 GG ii) * BB)
       else
         wr SS ii 0)
    SS.

(** [Ssf::get], a member of a class holding [x], [Theta], [rs], [ssfHF],
    [slfc], [nl] and the row [idr] of the ideal density response. The
    constant [lambda] comes from a header that is not among the sources; it
    is the constant the C solver computes. *)
Definition Ssf_get (x Theta_ rs_ ssfHF_ slfc_ : R) (nl_ : Z) (idr : list R)
  : outcome R :=
  if negb (Rgtb Theta_ 0) then Fatal "assert(Theta > 0.0)"
  else if Reqb rs_ 0 then Done ssfHF_
  else if Reqb x 0 then Done 0
  else
    let fact1 := 4 * lambda * rs_ / PI in
    let x2 := x * x in
    let fact2 :=
      for_loop nl_
        (fun l fact2 =>
           let fact3 := 1 + fact1 / x2 * (1 - slfc_) * rd 0 idr l in
           let fact4 := rd 0 idr l * rd 0 idr l / fact3 in
           let fact4 := if (l >? 0)%Z then fact4 * 2 else fact4 in
           fact2 + fact4)
        0 in
    Done (ssfHF_ - 15 / 10 * fact1 / x2 * Theta_ * (1 - slfc_) * fact2).

(** The dielectric formula in the words of the specification: the weights
    [w_0 = 1], [w_l = 2] for [l >= 1], and
    [S = S_HF - (3/2) Theta f (1-G) Sum_l w_l phi_l^2 / (pi lambda x^2 + f (1-G) phi_l)]
    with [f = 4 lambda^2 rs]. *)
Definition w_matsubara (l : Z) : R := if (l >? 0)%Z then 2 else 1.

Definition ssf_formula (Theta_ rs_ x S_HF G : R) (nl_ : Z) (phi_i : Z -> R) : R :=
  let f := 4 * (lambda * lambda) * rs_ in
  S_HF - 3 / 2 * Theta_ * f * (1 - G)
         * sum_Z nl_ (fun l =>
             w_matsubara l * (phi_i l * phi_i l)
             / (PI * lambda * (x * x) + f * (1 - G) * phi_i l)).

(** *** The fixed-point driver

    [solve_stls] without its allocation, set-up and output: the initial
    guess, the loop and its state. The arrays [GG], [GG_new] and [SS] come
    from [alloc_stls_arrays]. The loop test on binary64, where [iter_err]
    can be a NaN, is [B64.stls_cond]. *)

Record stls_state : Type := mkStls {
  st_GG : list R;
  st_GG_new : list R;
  st_SS : list R;
  st_iter_err : R;
  st_iter_counter : Z
}.

Definition stls_initial_guess (GG GG_new SS SSHF phi xx : list R) (inp : input)
  : stls_state :=
  let '(GG, GG_new) :=
    for_loop (nx inp)
      (fun ii '(GG, GG_new) => (wr GG ii 0, wr GG_new ii 1))
      (GG, GG_new) in
  let SS := compute_ssf SS SSHF GG phi xx inp in
  {| st_GG := GG; st_GG_new := GG_new; st_SS := SS;
     st_iter_err := 1; st_iter_counter := 0 |}.

Definition stls_cond (inp : input) (s : stls_state) : bool :=
  (st_iter_counter s <? nIter inp)%Z && Rgtb (st_iter_err s) (err_min_iter inp).

Definition stls_body (SSHF phi xx : list R) (inp : input) (s : stls_state)
  : stls_state :=
  let GG_new := compute_slfc (st_GG_new s) (st_SS s) xx inp in
  let iter_err := 0 in
  let iter_counter := (st_iter_counter s + 1)%Z in
  let '(iter_err, GG) :=
    for_loop (nx inp)
      (fun ii '(iter_err, GG) =>
         (iter_err + (rd 0 GG_new ii - rd 0 GG ii) * (rd 0 GG_new ii - rd 0 GG ii),
          wr GG ii (a_mix inp * rd 0 GG_new ii + (1 - a_mix inp) * rd 0 GG ii)))
      (iter_err, st_GG s) in
  let iter_err := sqrt iter_err in
  let SS := compute_ssf (st_SS s) SSHF GG phi xx inp in
  {| st_GG := GG; st_GG_new := GG_new; st_SS := SS;
     st_iter_err := iter_err; st_iter_counter := iter_counter |}.

Definition solve_stls (fuel : nat) (GG GG_new SS SSHF phi xx : list R)
           (inp : input) : option stls_state :=
  while_loop fuel (stls_cond inp) (stls_body SSHF phi xx inp)
    (stls_initial_guess GG GG_new SS SSHF phi xx inp).

(** The 2-norm of [G_new - G] over the grid, as the specification writes it. *)
Definition residual2 (n : Z) (G_new G : list R) : R :=
  sqrt (sum_Z n (fun i => (rd 0 G_new i - rd 0 G i) * (rd 0 G_new i - rd 0 G i))).

(** ** The wave-vector grid *)

Definition INT_MAX : Z := 2147483647.
Definition INT_MIN : Z := -2147483648.

(** [floor] on doubles. *)
Definition c_floor (r : R) : R := IZR (Int_part r).

(** [(int) r]: truncation toward zero, undefined outside the range of [int]. *)
Definition int_of_double (r : R) : option Z :=
  let z := if Rltb r 0 then (- Int_part (- r))%Z else Int_part r in
  if ((INT_MIN <=? z) && (z <=? INT_MAX))%Z then Some z else None.

Definition set_nx (v : Z) (i : input) : input :=
  mkInput (stls_guess_file i) (qstls_guess_file i) (qstls_fixed_file i)
    (qstls_iet_fixed_file i) (qstls_iet_static i) (Theta i) (rs i) (dx i)
    (err_min_iter i) (a_mix i) (mu_lo i) (mu_hi i) (mu i) (xmax i) (nl i)
    v (nIter i) (theory i) (nThreads i) (mode i) (guess_file1 i)
    (guess_file2 i) (iet_mapping i) (vs_drs i) (vs_dt i) (vs_alpha i)
    (vs_thermo_file i) (vs_err_min_iter i) (vs_a_mix i) (vs_solve_csr i)
    (dyn_dW i) (dyn_Wmax i) (dyn_xtarget i) (nW i) (dyn_adr_file i) (phi_file i).

(** [in->nx = (int)floor(in->xmax/in->dx);] with the quotient of the
    reals. The quotient as C rounds it is in [Rnd.get_grid_size] and
    [B64.get_grid_size]. *)
Definition get_grid_size (inp : input) : option input :=
  match int_of_double (c_floor (xmax inp / dx inp)) with
  | Some n => Some (set_nx n inp)
  | None => None
  end.

(** [xx] has the [nx] cells of [alloc_stls_arrays]. *)
Definition wave_vector_grid (xx : list R) (inp : input) : list R :=
  let xx := wr xx 0 (dx inp / 2) in
  for_range 1 (nx inp) (fun ii xx => wr xx ii (rd 0 xx (ii - 1) + dx inp)) xx.

(** [Rpa::buildWvGrid] with the sums of the reals. [wvg] is empty when the
    constructor calls it. The sums as C++ rounds them are in
    [Rnd.Rpa_buildWvGrid] and [B64.Rpa_buildWvGrid]. *)
Definition Rpa_buildWvGrid (fuel : nat) (dx_ xmax_ : R) : outcome (list R) :=
  let wvg := [] ++ [0] in
  if Rltb xmax_ dx_ then
    Fatal "The wave-vector grid cutoff must be larger than the resolution"
  else
    match while_loop fuel
            (fun wvg => Rltb (last wvg 0) xmax_)
            (fun wvg => wvg ++ [last wvg 0 + dx_])
            wvg with
    | Some wvg => Done wvg
    | None => OutOfFuel
    end.

(** ** The chemical potential *)

(** [pow(x, y)] for [y > 0]: [Rpower] where [x > 0], and [pow(0, y) = 0]. *)
Definition c_pow (x y : R) : R := if Rltb 0 x then Rpower x y else 0.

(** The GSL routines that [compute_mu] calls. GSL is an external library:
    the solver is written against this interface. [gsl_root_fsolver_set]
    returns a status that the caller drops; it is [Fatal] when the error
    handler of the library ends the run. *)
Inductive gsl_status : Type := GSL_SUCCESS | GSL_CONTINUE | GSL_FAILURE.

Definition is_GSL_CONTINUE (s : gsl_status) : bool :=
  match s with GSL_CONTINUE => true | _ => false end.

Record gsl : Type := mkGsl {
  gsl_sf_gamma : R -> R;
  gsl_sf_fermi_dirac_half : R -> R;
  gsl_root_fsolver : Type;
  gsl_root_fsolver_set : (R -> R) -> R -> R -> outcome gsl_root_fsolver;
  gsl_root_fsolver_iterate : gsl_root_fsolver -> gsl_root_fsolver;
  gsl_root_fsolver_root : gsl_root_fsolver -> R;
  gsl_root_fsolver_x_lower : gsl_root_fsolver -> R;
  gsl_root_fsolver_x_upper : gsl_root_fsolver -> R;
  gsl_root_test_interval : R -> R -> R -> R -> gsl_status
}.

Definition normalization_condition (G : gsl) (mu_ : R) (Theta_ : R) : R :=
  gsl_sf_gamma G (15 / 10) * gsl_sf_fermi_dirac_half G mu_
  - 2 / (3 * c_pow Theta_ (3 / 2)).

(** The [do ... while (status == GSL_CONTINUE && iter < max_iter)] loop of
    [compute_mu]. [iter] is the loop counter; the result holds the last
    root estimate and the final value of the counter. *)
Fixpoint compute_mu_loop (G : gsl) (fuel : nat) (rs_ : gsl_root_fsolver G)
         (iter : Z) : outcome (R * Z) :=
  match fuel with
  | O => OutOfFuel
  | S fuel' =>
      let max_iter := 100%Z in
      let rs_ := gsl_root_fsolver_iterate G rs_ in
      let mu_ := gsl_root_fsolver_root G rs_ in
      let mu_lo := gsl_root_fsolver_x_lower G rs_ in
      let mu_hi := gsl_root_fsolver_x_upper G rs_ in
      let status := gsl_root_test_interval G mu_lo mu_hi 0 (1 / 10 ^ 10) in
      let iter := (iter + 1)%Z in
      if is_GSL_CONTINUE status && (iter <? max_iter)%Z
      then compute_mu_loop G fuel' rs_ iter
      else Done (mu_, iter)
  end.

(** [compute_mu]. The source declares [int status, iter;] and never assigns
    [iter] before the loop increments and tests it: [iter0] is the value the
    variable happens to hold. *)
Definition compute_mu_trace (G : gsl) (fuel : nat) (iter0 : Z) (inp : input)
  : outcome (R * Z) :=
  let mu_lo := -10 in
  let mu_hi := 10 in
  let ff_root := fun mu_ => normalization_condition G mu_ (Theta inp) in
  match gsl_root_fsolver_set G ff_root mu_lo mu_hi with
  | Done rs_ => compute_mu_loop G fuel rs_ iter0
  | Fatal msg => Fatal msg
  | OutOfFuel => OutOfFuel
  end.

Definition compute_mu (G : gsl) (fuel : nat) (iter0 : Z) (inp : input)
  : outcome R :=
  match compute_mu_trace G fuel iter0 inp with
  | Done (mu_, _) => Done mu_
  | Fatal msg => Fatal msg
  | OutOfFuel => OutOfFuel
  end.

(** *** An instance of the interface

    The bisection solver and the interval test as the GSL manual describes
    them, under the default error handler (which aborts), for any pair of
    special functions. In [gsl_model] the special functions are stand-ins:
    the value [Gamma(3/2) = sqrt(pi)/2] and the classical limit [exp] of the
    Fermi-Dirac integral. *)

Record bisection_state : Type := mkBisection {
  b_f : R -> R;
  b_root : R;
  b_x_lower : R;
  b_x_upper : R;
  b_f_lower : R;
  b_f_upper : R
}.

Definition bisection_init (f : R -> R) (x_lower x_upper : R)
  : outcome bisection_state :=
  let f_lower := f x_lower in
  let f_upper := f x_upper in
  if (Rltb f_lower 0 && Rltb f_upper 0) || (Rgtb f_lower 0 && Rgtb f_upper 0)
  then Fatal "endpoints do not straddle y=0"
  else Done (mkBisection f (5 / 10 * (x_lower + x_upper)) x_lower x_upper
               f_lower f_upper).

Definition bisection_iterate (s : bisection_state) : bisection_state :=
  let x_left := b_x_lower s in
  let x_right := b_x_upper s in
  let f_lower := b_f_lower s in
  let f_upper := b_f_upper s in
  if Reqb f_lower 0 then
    mkBisection (b_f s) x_left x_left x_left f_lower f_upper
  else if Reqb f_upper 0 then
    mkBisection (b_f s) x_right x_right x_right f_lower f_upper
  else
    let x_bisect := (x_left + x_right) / 2 in
    let f_bisect := b_f s x_bisect in
    if Reqb f_bisect 0 then
      mkBisection (b_f s) x_bisect x_bisect x_bisect f_lower f_upper
    else if (Rgtb f_lower 0 && Rltb f_bisect 0) || (Rltb f_lower 0 && Rgtb f_bisect 0)
    then
      mkBisection (b_f s) (5 / 10 * (x_left + x_bisect)) x_left x_bisect
        f_lower f_bisect
    else
      mkBisection (b_f s) (5 / 10 * (x_bisect + x_right)) x_bisect x_right
        f_bisect f_upper.

Definition root_test_interval (x_lower x_upper epsabs epsrel : R) : gsl_status :=
  let abs_lower := Rabs x_lower in
  let abs_upper := Rabs x_upper in
  if Rltb epsrel 0 || Rltb epsabs 0 || Rgtb x_lower x_upper then GSL_FAILURE
  else
    let min_abs :=
      if (Rgtb x_lower 0 && Rgtb x_upper 0) || (Rltb x_lower 0 && Rltb x_upper 0)
      then Rmin abs_lower abs_upper
      else 0 in
    let tolerance := epsabs + epsrel * min_abs in
    if Rltb (Rabs (x_upper - x_lower)) tolerance then GSL_SUCCESS
    else GSL_CONTINUE.

Definition gsl_bisection (gamma fermi_dirac_half : R -> R) : gsl := {|
  gsl_sf_gamma := gamma;
  gsl_sf_fermi_dirac_half := fermi_dirac_half;
  gsl_root_fsolver := bisection_state;
  gsl_root_fsolver_set := bisection_init;
  gsl_root_fsolver_iterate := bisection_iterate;
  gsl_root_fsolver_root := b_root;
  gsl_root_fsolver_x_lower := b_x_lower;
  gsl_root_fsolver_x_upper := b_x_upper;
  gsl_root_test_interval := root_test_interval
|}.


(** ** The binary restart file *)

Definition set_Theta (v : R) (i : input) : input :=
  mkInput (stls_guess_file i) (qstls_guess_file i) (qstls_fixed_file i)
    (qstls_iet_fixed_file i) (qstls_iet_static i) v (rs i) (dx i)
    (err_min_iter i) (a_mix i) (mu_lo i) (mu_hi i) (mu i) (xmax i) (nl i)
    (nx i) (nIter i) (theory i) (nThreads i) (mode i) (guess_file1 i)
    (guess_file2 i) (iet_mapping i) (vs_drs i) (vs_dt i) (vs_alpha i)
    (vs_thermo_file i) (vs_err_min_iter i) (vs_a_mix i) (vs_solve_csr i)
    (dyn_dW i) (dyn_Wmax i) (dyn_xtarget i) (nW i) (dyn_adr_file i) (phi_file i).

Definition set_dx (v : R) (i : input) : input :=
  mkInput (stls_guess_file i) (qstls_guess_file i) (qstls_fixed_file i)
    (qstls_iet_fixed_file i) (qstls_iet_static i) (Theta i) (rs i) v
    (err_min_iter i) (a_mix i) (mu_lo i) (mu_hi i) (mu i) (xmax i) (nl i)
    (nx i) (nIter i) (theory i) (nThreads i) (mode i) (guess_file1 i)
    (guess_file2 i) (iet_mapping i) (vs_drs i) (vs_dt i) (vs_alpha i)
    (vs_thermo_file i) (vs_err_min_iter i) (vs_a_mix i) (vs_solve_csr i)
    (dyn_dW i) (dyn_Wmax i) (dyn_xtarget i) (nW i) (dyn_adr_file i) (phi_file i).

Definition set_xmax (v : R) (i : input) : input :=
  mkInput (stls_guess_file i) (qstls_guess_file i) (qstls_fixed_file i)
    (qstls_iet_fixed_file i) (qstls_iet_static i) (Theta i) (rs i) (dx i)
    (err_min_iter i) (a_mix i) (mu_lo i) (mu_hi i) (mu i) v (nl i)
    (nx i) (nIter i) (theory i) (nThreads i) (mode i) (guess_file1 i)
    (guess_file2 i) (iet_mapping i) (vs_drs i) (vs_dt i) (vs_alpha i)
    (vs_thermo_file i) (vs_err_min_iter i) (vs_a_mix i) (vs_solve_csr i)
    (dyn_dW i) (dyn_Wmax i) (dyn_xtarget i) (nW i) (dyn_adr_file i) (phi_file i).

Definition set_nl (v : Z) (i : input) : input :=
  mkInput (stls_guess_file i) (qstls_guess_file i) (qstls_fixed_file i)
    (qstls_iet_fixed_file i) (qstls_iet_static i) (Theta i) (rs i) (dx i)
    (err_min_iter i) (a_mix i) (mu_lo i) (mu_hi i) (mu i) (xmax i) v
    (nx i) (nIter i) (theory i) (nThreads i) (mode i) (guess_file1 i)
    (guess_file2 i) (iet_mapping i) (vs_drs i) (vs_dt i) (vs_alpha i)
    (vs_thermo_file i) (vs_err_min_iter i) (vs_a_mix i) (vs_solve_csr i)
    (dyn_dW i) (dyn_Wmax i) (dyn_xtarget i) (nW i) (dyn_adr_file i) (phi_file i).

Definition set_mu (v : R) (i : input) : input :=
  mkInput (stls_guess_file i) (qstls_guess_file i) (qstls_fixed_file i)
    (qstls_iet_fixed_file i) (qstls_iet_static i) (Theta i) (rs i) (dx i)
    (err_min_iter i) (a_mix i) (mu_lo i) (mu_hi i) v (xmax i) (nl i)
    (nx i) (nIter i) (theory i) (nThreads i) (mode i) (guess_file1 i)
    (guess_file2 i) (iet_mapping i) (vs_drs i) (vs_dt i) (vs_alpha i)
    (vs_thermo_file i) (vs_err_min_iter i) (vs_a_mix i) (vs_solve_csr i)
    (dyn_dW i) (dyn_Wmax i) (dyn_xtarget i) (nW i) (dyn_adr_file i) (phi_file i).

Record stls_arrays : Type := mkArrays {
  a_xx : list R;
  a_phi : list R;
  a_GG : list R;
  a_GG_new : list R;
  a_SS : list R;
  a_SSHF : list R
}.

(** [malloc(sizeof(double) * n)]: [n] cells of indeterminate content, for
    which [junk] stands. *)
Definition malloc_doubles (junk : R) (n : Z) : list R := repeat junk (Z.to_nat n).

Definition alloc_stls_arrays (junk : R) (inp : input) : stls_arrays :=
  {| a_xx := malloc_doubles junk (nx inp);
     a_phi := malloc_doubles junk (nx inp * nl inp);
     a_SSHF := malloc_doubles junk (nx inp);
     a_GG := malloc_doubles junk (nx inp);
     a_GG_new := malloc_doubles junk (nx inp);
     a_SS := malloc_doubles junk (nx inp) |}.

(** What [write_bin] leaves on disk: the image of the input record, then
    the doubles of [phi] and of [SSHF]. The layout of the record in bytes is
    outside the model. *)
Record bin_file : Type := mkBin {
  bin_input : input;
  bin_doubles : list R
}.


(** [fread(buf, sizeof(double), count, fid)] on the doubles still unread:
    the new buffer and the doubles left. *)
Definition fread_doubles (buf : list R) (count : Z) (data : list R)
  : list R * list R :=
  let k := Nat.min (Z.to_nat count) (length data) in
  (firstn k data ++ skipn k buf, skipn k data).

(** [read_bin]. [fopen] maps a file name to its content, if the file can be
    opened; the results of [fread] are not checked by the source. *)
Definition read_bin (G : gsl) (fuel : nat) (iter0 : Z) (junk : R)
           (fopen : string -> option bin_file) (inp : input)
  : outcome (input * stls_arrays) :=
  match fopen (phi_file inp) with
  | None => Fatal "Error while opening file with density response"
  | Some fid =>
      let in_load := bin_input fid in
      let local := alloc_stls_arrays junk in_load in
      match compute_mu G fuel iter0 in_load with
      | Done mu_ =>
          let in_load := set_mu mu_ in_load in
          let xx_local := wave_vector_grid (a_xx local) in_load in
          let '(phi_local, rest) :=
            fread_doubles (a_phi local) (nx in_load * nl in_load) (bin_doubles fid) in
          let '(SSHF_local, _) := fread_doubles (a_SSHF local) (nx in_load) rest in
          let inp := set_Theta (Theta in_load) inp in
          let inp := set_dx (dx in_load) inp in
          let inp := set_xmax (xmax in_load) inp in
          let inp := set_nx (nx in_load) inp in
          let inp := set_nl (nl in_load) inp in
          let inp := set_mu (mu in_load) inp in
          Done (inp,
                {| a_xx := xx_local; a_phi := phi_local; a_GG := a_GG local;
                   a_GG_new := a_GG_new local; a_SS := a_SS local;
                   a_SSHF := SSHF_local |})
      | Fatal msg => Fatal msg
      | OutOfFuel => OutOfFuel
      end
  end.

(** Inputs used to instantiate the statements below. *)
Definition stls_witness_input : input := set_nx 1 default_input.
Definition slfc_witness_input : input := set_nx 2 default_input.

(** ** The partially dynamic QSTLS-IET iteration *)

(** Modelled from the spec: the macro [idx3] comes from a header that is not
    among the sources. It continues the layout of [idx2], whose first index
    runs fastest, so that entry [0] of the slot [(i, j, _)] is the cell
    [idx2 i j nx]. *)
Definition idx3 (xx yy zz x_size y_size : Z) : Z :=
  (zz * x_size * y_size + yy * x_size + xx)%Z.

(** The cells of the fixed-kernel tensor. The tensor is the one array of
    the model that holds the value [INFINITY], and is used before all of it
    has been written: a cell is [None] until it is assigned. *)
Inductive dval : Type :=
| Finite (r : R)
| PosInf
| NotFinite.

Definition cell : Type := option dval.

(** [c != INFINITY]; an indeterminate cell is taken to differ. *)
Definition differs_from_INFINITY (c : cell) : bool :=
  match c with
  | Some PosInf => false
  | _ => true
  end.

(** The numerical routines behind the pass: the value that
    [compute_dynamic_adr_iet_re_lev2] stores in cell [kk] of its output for
    the wave-vector index [ii] and the frequency index [jj] (it depends on
    arrays that stay fixed during the iteration), and the result of
    [gsl_integration_cquad] on the splines of [int_lev1_1] and [int_lev1_2]. *)
Record iet_numerics : Type := mkIetNumerics {
  lev2_value : Z -> Z -> Z -> dval;
  cquad_lev1 : list R -> list cell -> R
}.

Definition compute_dynamic_adr_iet_re_lev2 (N : iet_numerics)
           (int_lev1 : list cell) (jj ii : Z) (inp : input) : list cell :=
  for_loop (nx inp)
    (fun kk int_lev1 => wr int_lev1 kk (Some (lev2_value N ii jj kk)))
    int_lev1.

Definition compute_dynamic_adr_iet_re_lev1_1
           (int_lev1_1 psi_re phi_re SS bf : list R) (inp : input) : list R :=
  for_loop (nx inp)
    (fun ii int_lev1_1 =>
       if (ii =? 0)%Z then wr int_lev1_1 ii 0
       else
         let psi_phi :=
           rd 0 psi_re (idx2 ii 0 (nx inp)) / rd 0 phi_re (idx2 ii 0 (nx inp)) in
         wr int_lev1_1 ii
            (rd 0 SS ii * (1 - rd 0 bf ii) - psi_phi * (rd 0 SS ii - 1)))
    int_lev1_1.

Definition read_dynamic_adr_iet_fixed (var psi_re_fixed : list cell)
           (ii jj : Z) (inp : input) : list cell :=
  for_loop (nx inp)
    (fun kk var =>
       wr var kk (rd None psi_re_fixed (idx3 ii jj kk (nx inp) (nW inp))))
    var.

Definition write_dynamic_adr_iet_fixed (var psi_re_fixed : list cell)
           (ii jj : Z) (inp : input) : list cell :=
  for_loop (nx inp)
    (fun kk psi_re_fixed =>
       wr psi_re_fixed (idx3 ii jj kk (nx inp) (nW inp)) (rd None var kk))
    psi_re_fixed.

(** The arrays that one pass of [compute_dynamic_adr_iet_re_lev1] updates. *)
Record lev1_state : Type := mkLev1 {
  l_psi_re_new : list R;
  l_psi_re_fixed : list cell;
  l_int_lev1_1 : list R;
  l_int_lev1_2 : list cell
}.

(** [compute_dynamic_adr_iet_re_lev1] as one thread runs it: one test of
    [psi_re_fixed[0]], then the iterations of the loop in index order. The
    region with several threads is [omp_parallel] below. *)
Definition compute_dynamic_adr_iet_re_lev1 (N : iet_numerics) (junk : R)
           (psi_re_new psi_re : list R) (psi_re_fixed : list cell)
           (phi_re SS bf : list R) (inp : input) : list R * list cell :=
  let compute_fixed := true in
  let int_lev1_1 := malloc_doubles junk (nx inp) in
  let int_lev1_2 := repeat (@None dval) (Z.to_nat (nx inp)) in
  let compute_fixed :=
    if differs_from_INFINITY (rd None psi_re_fixed 0) then false
    else compute_fixed in
  let s :=
    for_loop (nx inp)
      (fun ii s =>
         for_loop (nW inp)
           (fun jj s =>
              let int_lev1_1 :=
                compute_dynamic_adr_iet_re_lev1_1 (l_int_lev1_1 s) psi_re phi_re
                  SS bf inp in
              let '(int_lev1_2, psi_re_fixed) :=
                if compute_fixed then
                  let int_lev1_2 :=
                    compute_dynamic_adr_iet_re_lev2 N (l_int_lev1_2 s) jj ii inp in
                  (int_lev1_2,
                   write_dynamic_adr_iet_fixed int_lev1_2 (l_psi_re_fixed s)
                     ii jj inp)
                else
                  (read_dynamic_adr_iet_fixed (l_int_lev1_2 s)
                     (l_psi_re_fixed s) ii jj inp,
                   l_psi_re_fixed s) in
              let psi_re_new :=
                wr (l_psi_re_new s) (idx2 ii jj (nx inp))
                   (cquad_lev1 N int_lev1_1 int_lev1_2) in
              mkLev1 psi_re_new psi_re_fixed int_lev1_1 int_lev1_2)
           s)
      (mkLev1 psi_re_new psi_re_fixed int_lev1_1 int_lev1_2) in
  (l_psi_re_new s, l_psi_re_fixed s).

Definition adr_iet_err (psi_re psi_re_new : list R) (inp : input) : R :=
  let err :=
    for_loop (nx inp)
      (fun ii err =>
         let err_tmp :=
           rd 0 psi_re (idx2 ii 0 (nx inp)) - rd 0 psi_re_new (idx2 ii 0 (nx inp)) in
         err + err_tmp * err_tmp)
      0 in
  sqrt err.

Definition adr_iet_update (psi_re psi_re_new : list R) (inp : input) : list R :=
  for_loop (nx inp)
    (fun ii psi_re =>
       for_loop (nW inp)
         (fun jj psi_re =>
            wr psi_re (idx2 ii jj (nx inp))
               (a_mix inp * rd 0 psi_re_new (idx2 ii jj (nx inp))
                + (1 - a_mix inp) * rd 0 psi_re (idx2 ii jj (nx inp))))
         psi_re)
    psi_re.

(** The state of the loop of [compute_dynamic_adr_iet_pd]. *)
Record pd_state : Type := mkPd {
  pd_psi_re : list R;
  pd_psi_re_new : list R;
  pd_psi_re_fixed : list cell;
  pd_iter_counter : Z;
  pd_iter_err : R
}.

(** The allocation and the initialisation loop of
    [compute_dynamic_adr_iet_pd]. *)
Definition pd_initial_state (junk : R) (psi_re : list R) (inp : input) : pd_state :=
  let psi_re_new := malloc_doubles junk (nx inp * nW inp) in
  let psi_re_fixed := repeat (@None dval) (Z.to_nat (nx inp * nW inp * nx inp)) in
  let '(psi_re, psi_re_fixed) :=
    for_loop (nx inp)
      (fun ii s =>
         for_loop (nW inp)
           (fun jj '(psi_re, psi_re_fixed) =>
              (wr psi_re (idx2 ii jj (nx inp)) 0,
               wr psi_re_fixed (idx2 ii jj (nx inp)) (Some PosInf)))
           s)
      (psi_re, psi_re_fixed) in
  mkPd psi_re psi_re_new psi_re_fixed 0 1.

Definition pd_cond (inp : input) (s : pd_state) : bool :=
  (pd_iter_counter s <? nIter inp)%Z && Rgtb (pd_iter_err s) (err_min_iter inp).

Definition pd_body (N : iet_numerics) (junk : R) (phi_re SS bf : list R)
           (inp : input) (s : pd_state) : pd_state :=
  let '(psi_re_new, psi_re_fixed) :=
    compute_dynamic_adr_iet_re_lev1 N junk (pd_psi_re_new s) (pd_psi_re s)
      (pd_psi_re_fixed s) phi_re SS bf inp in
  let iter_counter := (pd_iter_counter s + 1)%Z in
  let iter_err := adr_iet_err (pd_psi_re s) psi_re_new inp in
  let psi_re := adr_iet_update (pd_psi_re s) psi_re_new inp in
  mkPd psi_re psi_re_new psi_re_fixed iter_counter iter_err.

(** The iteration of [compute_dynamic_adr_iet_pd], up to the point where the
    imaginary part is computed and the tensor is freed. *)
Definition compute_dynamic_adr_iet_pd (N : iet_numerics) (fuel : nat) (junk : R)
           (psi_re phi_re SS bf : list R) (inp : input) : option pd_state :=
  while_loop fuel (pd_cond inp) (pd_body N junk phi_re SS bf inp)
    (pd_initial_state junk psi_re inp).

(** The two states of a slot [(i, j, _)] of the tensor, in the words of the
    specification. *)
Definition slot_sentinel (psi_re_fixed : list cell) (inp : input) (i j : Z) : Prop :=
  rd None psi_re_fixed (idx3 i j 0 (nx inp) (nW inp)) = Some PosInf.

Definition slot_populated (N : iet_numerics) (psi_re_fixed : list cell)
           (inp : input) (i j : Z) : Prop :=
  forall k, (0 <= k < nx inp)%Z ->
    rd None psi_re_fixed (idx3 i j k (nx inp) (nW inp))
    = Some (lev2_value N i j k).

Definition set_nW (v : Z) (i : input) : input :=
  mkInput (stls_guess_file i) (qstls_guess_file i) (qstls_fixed_file i)
    (qstls_iet_fixed_file i) (qstls_iet_static i) (Theta i) (rs i) (dx i)
    (err_min_iter i) (a_mix i) (mu_lo i) (mu_hi i) (mu i) (xmax i) (nl i)
    (nx i) (nIter i) (theory i) (nThreads i) (mode i) (guess_file1 i)
    (guess_file2 i) (iet_mapping i) (vs_drs i) (vs_dt i) (vs_alpha i)
    (vs_thermo_file i) (vs_err_min_iter i) (vs_a_mix i) (vs_solve_csr i)
    (dyn_dW i) (dyn_Wmax i) (dyn_xtarget i) v (dyn_adr_file i) (phi_file i).

(** *** The parallel region with several threads

    [compute_dynamic_adr_iet_re_lev1] above takes the iterations of the
    parallel loop in index order after one test of [psi_re_fixed[0]]: it is
    the run of the region by one thread. With several threads every thread
    executes the body of [#pragma omp parallel]: it allocates its own
    [int_lev1_1] and [int_lev1_2], makes the test of [psi_re_fixed[0]] for
    itself, and then runs the iterations [ii] that [#pragma omp for] hands
    to it. Nothing orders the test of one thread and the iterations of
    another: the only barrier is the one that ends the loop. A schedule
    lists the threads in the order in which they take their next step, a
    step being the set-up with the test, or one iteration [ii] with its
    loop over [jj]. *)

Record omp_thread : Type := mkThread {
  th_compute_fixed : bool;
  th_tested : bool;            (* the thread is past the test of [psi_re_fixed[0]] *)
  th_int_lev1_1 : list R;
  th_int_lev1_2 : list cell;
  th_iterations : list Z       (* the iterations [ii] it has still to run, in order *)
}.

Record omp_region : Type := mkRegion {
  rg_psi_re_new : list R;
  rg_psi_re_fixed : list cell;
  rg_threads : list omp_thread
}.

(** The body of the loop over the wave-vectors for one index [ii], in a
    thread whose flag is [compute_fixed]. *)
Definition lev1_iteration (N : iet_numerics) (psi_re phi_re SS bf : list R)
           (inp : input) (compute_fixed : bool) (ii : Z) (s : lev1_state)
  : lev1_state :=
  for_loop (nW inp)
    (fun jj s =>
       let int_lev1_1 :=
         compute_dynamic_adr_iet_re_lev1_1 (l_int_lev1_1 s) psi_re phi_re
           SS bf inp in
       let '(int_lev1_2, psi_re_fixed) :=
         if compute_fixed then
           let int_lev1_2 :=
             compute_dynamic_adr_iet_re_lev2 N (l_int_lev1_2 s) jj ii inp in
           (int_lev1_2,
            write_dynamic_adr_iet_fixed int_lev1_2 (l_psi_re_fixed s)
              ii jj inp)
         else
           (read_dynamic_adr_iet_fixed (l_int_lev1_2 s)
              (l_psi_re_fixed s) ii jj inp,
            l_psi_re_fixed s) in
       let psi_re_new :=
         wr (l_psi_re_new s) (idx2 ii jj (nx inp))
            (cquad_lev1 N int_lev1_1 int_lev1_2) in
       mkLev1 psi_re_new psi_re_fixed int_lev1_1 int_lev1_2)
    s.

(** A thread on entry to the region: [compute_fixed = true], its two
    arrays allocated, the test not yet made. *)
Definition omp_thread_start (junk : R) (inp : input) (iterations : list Z)
  : omp_thread :=
  mkThread true false (malloc_doubles junk (nx inp))
    (repeat (@None dval) (Z.to_nat (nx inp))) iterations.

(** The next step of thread [t]. *)
Definition omp_step (N : iet_numerics) (psi_re phi_re SS bf : list R)
           (inp : input) (t : nat) (r : omp_region) : omp_region :=
  match nth_error (rg_threads r) t with
  | None => r
  | Some th =>
      if negb (th_tested th) then
        let compute_fixed :=
          if differs_from_INFINITY (rd None (rg_psi_re_fixed r) 0) then false
          else th_compute_fixed th in
        mkRegion (rg_psi_re_new r) (rg_psi_re_fixed r)
          (upd (rg_threads r) t
             (mkThread compute_fixed true (th_int_lev1_1 th) (th_int_lev1_2 th)
                (th_iterations th)))
      else
        match th_iterations th with
        | [] => r
        | ii :: rest =>
            let s :=
              lev1_iteration N psi_re phi_re SS bf inp (th_compute_fixed th) ii
                (mkLev1 (rg_psi_re_new r) (rg_psi_re_fixed r)
                   (th_int_lev1_1 th) (th_int_lev1_2 th)) in
            mkRegion (l_psi_re_new s) (l_psi_re_fixed s)
              (upd (rg_threads r) t
                 (mkThread (th_compute_fixed th) true (l_int_lev1_1 s)
                    (l_int_lev1_2 s) rest))
        end
  end.

(** The region run by the threads of [chunks] (for each thread, the
    iterations [ii] that the work-sharing loop hands to it) under a
    schedule. *)
Definition omp_parallel (N : iet_numerics) (junk : R)
           (psi_re_new psi_re : list R) (psi_re_fixed : list cell)
           (phi_re SS bf : list R) (inp : input)
           (chunks : list (list Z)) (schedule : list nat) : omp_region :=
  fold_left (fun r t => omp_step N psi_re phi_re SS bf inp t r) schedule
    (mkRegion psi_re_new psi_re_fixed (map (omp_thread_start junk inp) chunks)).

(** Every thread has made its test and run all its iterations: the region
    can end. *)
Definition omp_finished (r : omp_region) : bool :=
  forallb
    (fun th =>
       th_tested th && match th_iterations th with [] => true | _ => false end)
    (rg_threads r).

(** A region of two threads after a late test: the first thread is past
    its test with [compute_fixed = true] and owns the iterations [own0],
    the second is past its test with [compute_fixed = false], entry [0] of
    the tensor differs from [INFINITY], and the tensor differs from [T0] at
    most in the slots of [own0]. *)
Definition race_invariant (inp : input) (T0 : list cell) (own0 : list Z)
           (r : omp_region) : Prop :=
  exists th0 th1,
    rg_threads r = [th0; th1] /\
    th_tested th0 = true /\ th_compute_fixed th0 = true /\
    (forall i, In i (th_iterations th0) -> In i own0) /\
    (nx inp <= Z.of_nat (length (th_int_lev1_2 th0)))%Z /\
    th_tested th1 = true /\ th_compute_fixed th1 = false /\
    Z.of_nat (length (rg_psi_re_fixed r)) = (nx inp * nW inp * nx inp)%Z /\
    differs_from_INFINITY (rd None (rg_psi_re_fixed r) 0) = true /\
    (forall c,
       (forall i j k, In i own0 -> (0 <= j < nW inp)%Z -> (0 <= k < nx inp)%Z ->
                      c <> idx3 i j k (nx inp) (nW inp)) ->
       rd None (rg_psi_re_fixed r) c = rd None T0 c).

(** ** The fixed-kernel file of the dynamic QSTLS-IET scheme *)

(** Modelled from the spec: the macro [DBL_TOL] comes from a header that is
    not among the sources; the specification gives the tolerance [1e-15]. *)
Definition DBL_TOL : R := 1 / 10 ^ 15.

(** A byte of a file. An [int] is stored as four plain bytes, least
    significant first, in two's complement. The encoding of a [double] is
    kept symbolic: the eight bytes of the double [d] are [DoubleByte d 0],
    ..., [DoubleByte d 7]. *)
Inductive fbyte : Type :=
| Byte (b : Z)
| DoubleByte (d : R) (k : nat).

Definition fbyte_eqb (x y : fbyte) : bool :=
  match x, y with
  | Byte a, Byte b => (a =? b)%Z
  | DoubleByte d k, DoubleByte e l => Reqb d e && (k =? l)%nat
  | _, _ => false
  end.

Fixpoint fbytes_eqb (l m : list fbyte) : bool :=
  match l, m with
  | [], [] => true
  | x :: l', y :: m' => fbyte_eqb x y && fbytes_eqb l' m'
  | _, _ => false
  end.

Definition encode_int (z : Z) : list fbyte :=
  let u0 := (z mod 4294967296)%Z in
  let u1 := (u0 / 256)%Z in
  let u2 := (u1 / 256)%Z in
  let u3 := (u2 / 256)%Z in
  [Byte (u0 mod 256); Byte (u1 mod 256); Byte (u2 mod 256); Byte (u3 mod 256)].

Definition decode_int (l : list fbyte) : option Z :=
  match l with
  | [Byte b0; Byte b1; Byte b2; Byte b3] =>
      let u := (b0 + 256 * (b1 + 256 * (b2 + 256 * b3)))%Z in
      Some (if (u <? 2147483648)%Z then u else (u - 4294967296)%Z)
  | _ => None
  end.

Definition encode_double (d : R) : list fbyte := map (DoubleByte d) (seq 0 8).

Definition decode_double (l : list fbyte) : option R :=
  match l with
  | DoubleByte d O :: _ => if fbytes_eqb l (encode_double d) then Some d else None
  | _ => None
  end.

(** An open stream: the bytes not yet read and the end-of-file indicator. *)
Record FILE : Type := mkFILE {
  f_rest : list fbyte;
  f_eof : bool
}.

(** [fread(ptr, size, nmemb, fid)]: the complete items read, in order, and
    the stream afterwards. A read that meets the end of the file consumes
    what is left and sets the indicator. *)
Fixpoint fread (size nmemb : nat) (fid : FILE) : list (list fbyte) * FILE :=
  match nmemb with
  | O => ([], fid)
  | S n =>
      if (size <=? length (f_rest fid))%nat then
        let '(items, fid') :=
          fread size n (mkFILE (skipn size (f_rest fid)) (f_eof fid)) in
        (firstn size (f_rest fid) :: items, fid')
      else ([], mkFILE [] true)
  end.

Definition feof (fid : FILE) : bool := f_eof fid.

(** The conversion of an [int] to [size_t]. *)
Definition size_t_of_int (z : Z) : nat := Z.to_nat (z mod 18446744073709551616).

(** The variable that receives one [int] (one [double]) from [fread]: it
    keeps its former, indeterminate, value when no item was read. *)
Definition load_int (old : Z) (items : list (list fbyte)) : Z :=
  match items with
  | [it] => match decode_int it with Some v => v | None => old end
  | _ => old
  end.

Definition load_double (old : R) (items : list (list fbyte)) : R :=
  match items with
  | [it] => match decode_double it with Some v => v | None => old end
  | _ => old
  end.

(** The array that receives the items of one [fread]. *)
Fixpoint store_doubles (buf : list R) (items : list (list fbyte)) : list R :=
  match items, buf with
  | [], _ => buf
  | _ :: _, [] => []
  | it :: items', b :: buf' =>
      match decode_double it with Some v => v | None => b end
      :: store_doubles buf' items'
  end.

(** [fwrite(a, sizeof(double), n, fid)] *)
Definition fwrite_doubles (a : list R) (n : nat) : list fbyte :=
  flat_map encode_double (firstn n a).

(** [write_fixed_dynamic_qstls_iet]: the content of the file it creates. *)
Definition write_fixed_dynamic_qstls_iet (phi_re phi_im psi_re psi_im : list R)
           (inp : input) : list fbyte :=
  encode_int (nx inp)
  ++ encode_double (dx inp)
  ++ encode_double (xmax inp)
  ++ encode_int (nW inp)
  ++ encode_double (dyn_dW inp)
  ++ encode_double (dyn_Wmax inp)
  ++ encode_double (Theta inp)
  ++ encode_double (rs inp)
  ++ fwrite_doubles phi_re (size_t_of_int (nx inp * nW inp))
  ++ fwrite_doubles phi_im (size_t_of_int (nx inp * nW inp))
  ++ fwrite_doubles psi_re (size_t_of_int (nx inp * nW inp))
  ++ fwrite_doubles psi_im (size_t_of_int (nx inp * nW inp)).

(** [check_dynamic_qstls_iet]: the stream after the checks, or the error
    that ends the run. *)
Definition check_dynamic_qstls_iet (dx_ : R) (nx_ : Z) (xmax_ : R)
           (dW : R) (nW_ : Z) (Wmax : R) (Theta_ rs_ : R)
           (inp : input) (it_read it_expected : nat) (fid : FILE)
           (check_grid check_items check_eof : bool) : outcome FILE :=
  if check_grid
     && (negb (nx_ =? nx inp)%Z
         || Rgtb (Rabs (dx_ - dx inp)) DBL_TOL
         || Rgtb (Rabs (xmax_ - xmax inp)) DBL_TOL)
  then Fatal "Wave-vector grid from imported file is incompatible with input"
  else if check_grid
     && (negb (nW_ =? nW inp)%Z
         || Rgtb (Rabs (dW - dyn_dW inp)) DBL_TOL
         || Rgtb (Rabs (Wmax - dyn_Wmax inp)) DBL_TOL)
  then Fatal "Frequency grid from imported file is incompatible with input"
  else if check_grid
     && (Rgtb (Rabs (Theta_ - Theta inp)) DBL_TOL
         || Rgtb (Rabs (rs_ - rs inp)) DBL_TOL)
  then Fatal "State point from imported file is incompatible with input"
  else if check_items && negb (it_read =? it_expected)%nat
  then Fatal "Error while reading file for the density response."
  else if check_eof then
    let '(_, fid) := fread 4 1 fid in
    if negb (feof fid)
    then Fatal "Expected end of file, but there is still data left to read."
    else Done fid
  else Done fid.

(** The header variables of [read_fixed_dynamic_qstls_iet]. *)
Record file_header : Type := mkHeader {
  nx_file : Z;
  dx_file : R;
  xmax_file : R;
  nW_file : Z;
  dW_file : R;
  Wmax_file : R;
  Theta_file : R;
  rs_file : R
}.

Record adr_arrays : Type := mkAdr {
  adr_phi_re : list R;
  adr_phi_im : list R;
  adr_psi_re : list R;
  adr_psi_im : list R
}.

(** [read_fixed_dynamic_qstls_iet]. [fopen] maps a file name to the content
    of the file, if it can be opened; [uninit] holds the values the header
    variables have before anything is read into them. *)
Definition read_fixed_dynamic_qstls_iet (uninit : file_header)
           (fopen : string -> option (list fbyte))
           (phi_re phi_im psi_re psi_im : list R) (inp : input)
  : outcome adr_arrays :=
  match fopen (dyn_adr_file inp) with
  | None => Fatal "Error while opening file for initial guess or restart"
  | Some content =>
      let fid := mkFILE content false in
      let it_read := 0%nat in
      let '(items, fid) := fread 4 1 fid in
      let it_read := (it_read + length items)%nat in
      let nx_file := load_int (nx_file uninit) items in
      let '(items, fid) := fread 8 1 fid in
      let it_read := (it_read + length items)%nat in
      let dx_file := load_double (dx_file uninit) items in
      let '(items, fid) := fread 8 1 fid in
      let it_read := (it_read + length items)%nat in
      let xmax_file := load_double (xmax_file uninit) items in
      let '(items, fid) := fread 4 1 fid in
      let it_read := (it_read + length items)%nat in
      let nW_file := load_int (nW_file uninit) items in
      let '(items, fid) := fread 8 1 fid in
      let it_read := (it_read + length items)%nat in
      let dW_file := load_double (dW_file uninit) items in
      let '(items, fid) := fread 8 1 fid in
      let it_read := (it_read + length items)%nat in
      let Wmax_file := load_double (Wmax_file uninit) items in
      let '(items, fid) := fread 8 1 fid in
      let it_read := (it_read + length items)%nat in
      let Theta_file := load_double (Theta_file uninit) items in
      let '(items, fid) := fread 8 1 fid in
      let it_read := (it_read + length items)%nat in
      let rs_file := load_double (rs_file uninit) items in
      match check_dynamic_qstls_iet dx_file nx_file xmax_file
              dW_file nW_file Wmax_file Theta_file rs_file
              inp it_read 8 fid true true false with
      | Done fid =>
          let n := size_t_of_int (nx_file * nW_file) in
          let '(items, fid) := fread 8 n fid in
          let it_read := (it_read + length items)%nat in
          let phi_re := store_doubles phi_re items in
          let '(items, fid) := fread 8 n fid in
          let it_read := (it_read + length items)%nat in
          let phi_im := store_doubles phi_im items in
          let '(items, fid) := fread 8 n fid in
          let it_read := (it_read + length items)%nat in
          let psi_re := store_doubles psi_re items in
          let '(items, fid) := fread 8 n fid in
          let it_read := (it_read + length items)%nat in
          let psi_im := store_doubles psi_im items in
          match check_dynamic_qstls_iet dx_file nx_file xmax_file
                  dW_file nW_file Wmax_file Theta_file rs_file
                  inp it_read (size_t_of_int (4 * nx_file * nW_file + 8)) fid
                  false true true with
          | Done _ => Done (mkAdr phi_re phi_im psi_re psi_im)
          | Fatal msg => Fatal msg
          | OutOfFuel => OutOfFuel
          end
      | Fatal msg => Fatal msg
      | OutOfFuel => OutOfFuel
      end
  end.

(** The header of a file written for the input [w] agrees with the input
    [inp] of the reader: the integers are equal and the doubles differ by at
    most [DBL_TOL]. *)
Definition header_agrees (w inp : input) : Prop :=
  nx w = nx inp /\ Rabs (dx w - dx inp) <= DBL_TOL /\
  Rabs (xmax w - xmax inp) <= DBL_TOL /\
  nW w = nW inp /\ Rabs (dyn_dW w - dyn_dW inp) <= DBL_TOL /\
  Rabs (dyn_Wmax w - dyn_Wmax inp) <= DBL_TOL /\
  Rabs (Theta w - Theta inp) <= DBL_TOL /\ Rabs (rs w - rs inp) <= DBL_TOL.

Definition adr_witness_input : input := set_nW 1 (set_nx 1 default_input).
Definition adr_witness_file : list fbyte :=
  write_fixed_dynamic_qstls_iet [1] [2] [3] [4] adr_witness_input.

(** ** The static solver, continued: ideal density response, Hartree-Fock
    structure factor, internal energy *)

Definition phixl (yy xx : R) (ll : Z) (inp : input) : R :=
  let yy2 := yy * yy in
  let xx2 := xx * xx in
  let txy := 2 * xx * yy in
  let tplT := 2 * PI * IZR ll * Theta inp in
  let tplT2 := tplT * tplT in
  if Rgtb xx 0 then
    1 / (2 * xx) * yy / (exp (yy2 / Theta inp - mu inp) + 1)
    * ln (((xx2 + txy) * (xx2 + txy) + tplT2) / ((xx2 - txy) * (xx2 - txy) + tplT2))
  else 0.

Definition phix0 (yy xx : R) (inp : input) : R :=
  let yy2 := yy * yy in
  let xx2 := xx * xx in
  let xy := xx * yy in
  if Rgtb xx 0 then
    if Rltb xx (2 * yy) then
      1 / (Theta inp * xx)
      * ((yy2 - xx2 / 4) * ln ((2 * yy + xx) / (2 * yy - xx)) + xy)
      * yy / (exp (yy2 / Theta inp - mu inp) + exp (- yy2 / Theta inp + mu inp) + 2)
    else if Rgtb xx (2 * yy) then
      1 / (Theta inp * xx)
      * ((yy2 - xx2 / 4) * ln ((2 * yy + xx) / (xx - 2 * yy)) + xy)
      * yy / (exp (yy2 / Theta inp - mu inp) + exp (- yy2 / Theta inp + mu inp) + 2)
    else
      1 / Theta inp * yy2
      / (exp (yy2 / Theta inp - mu inp) + exp (- yy2 / Theta inp + mu inp) + 2)
  else
    2 / Theta inp * yy2
    / (exp (yy2 / Theta inp - mu inp) + exp (- yy2 / Theta inp + mu inp) + 2).

(** [Idr::integrand(y, l)] and [Idr::integrand(y)], members of a class
    holding [x], [Theta] and [mu]. *)
Definition Idr_integrand_l (x Theta_ mu_ : R) (y : R) (l : Z) : R :=
  let y2 := y * y in
  let x2 := x * x in
  let txy := 2 * x * y in
  let tplT := 2 * PI * IZR l * Theta_ in
  let tplT2 := tplT * tplT in
  if Rgtb x 0 then
    1 / (2 * x) * y / (exp (y2 / Theta_ - mu_) + 1)
    * ln (((x2 + txy) * (x2 + txy) + tplT2) / ((x2 - txy) * (x2 - txy) + tplT2))
  else 0.

Definition Idr_integrand_0 (x Theta_ mu_ : R) (y : R) : R :=
  let y2 := y * y in
  let x2 := x * x in
  let xy := x * y in
  if Rgtb x 0 then
    if Rltb x (2 * y) then
      1 / (Theta_ * x) * ((y2 - x2 / 4) * ln ((2 * y + x) / (2 * y - x)) + xy)
      * y / (exp (y2 / Theta_ - mu_) + exp (- y2 / Theta_ + mu_) + 2)
    else if Rgtb x (2 * y) then
      1 / (Theta_ * x) * ((y2 - x2 / 4) * ln ((2 * y + x) / (x - 2 * y)) + xy)
      * y / (exp (y2 / Theta_ - mu_) + exp (- y2 / Theta_ + mu_) + 2)
    else
      1 / Theta_ * y2 / (exp (y2 / Theta_ - mu_) + exp (- y2 / Theta_ + mu_) + 2)
  else
    2 / Theta_ * y2 / (exp (y2 / Theta_ - mu_) + exp (- y2 / Theta_ + mu_) + 2).

Definition compute_phil (phil xx : list R) (ll : Z) (inp : input) : list R :=
  for_loop (nx inp)
    (fun ii phil =>
       let phil := wr phil ii 0 in
       if (ll =? 0)%Z then
         let phil :=
           for_loop (nx inp - 1)
             (fun jj phil =>
                wr phil ii (rd 0 phil ii + phix0 (rd 0 xx jj) (rd 0 xx ii) inp))
             phil in
         wr phil ii (rd 0 phil ii * dx inp)
       else
         let phil :=
           for_loop (nx inp - 1)
             (fun jj phil =>
                wr phil ii (rd 0 phil ii + phixl (rd 0 xx jj) (rd 0 xx ii) ll inp))
             phil in
         wr phil ii (rd 0 phil ii * dx inp))
    phil.

(** [compute_phi]; [junk] stands for the content of the temporary array
    when it is allocated. The progress lines printed when [verbose] is set
    are output only. *)
Definition compute_phi (junk : R) (phi xx : list R) (inp : input) : list R :=
  let phil := malloc_doubles junk (nx inp) in
  snd
    (for_loop (nl inp)
       (fun ll '(phil, phi) =>
          let phil := compute_phil phil xx ll inp in
          let phi :=
            for_loop (nx inp)
              (fun ii phi => wr phi (idx2 ii ll (nx inp)) (rd 0 phil ii))
              phi in
          (phil, phi))
       (phil, phi)).

Definition compute_ssfHF (SS xx : list R) (inp : input) : list R :=
  for_loop (nx inp)
    (fun ii SS =>
       let SS := wr SS ii 0 in
       let SS :=
         for_loop (nx inp - 1)
           (fun jj SS =>
              wr SS ii (rd 0 SS ii + ssfHF (rd 0 xx jj) (rd 0 xx ii) inp))
           SS in
       let SS := wr SS ii (rd 0 SS ii * dx inp) in
       wr SS ii (rd 0 SS ii + 1))
    SS.

Definition uex (SS : R) : R := SS - 1.

Definition compute_internal_energy (SS : list R) (inp : input) : R :=
  let lambda := Rpower (4 / (9 * PI)) (1 / 3) in
  let ie := 0 in
  let ie := for_loop (nx inp - 1) (fun jj ie => ie + uex (rd 0 SS jj)) ie in
  let ie := ie * dx inp in
  ie / (PI * rs inp * lambda).

(** ** The input reader

    The command-line reader of [read_input.c]. The parsing library (argp)
    and the conversions [atof] and [atoi] of the C library are external:
    the reader is written against the interface [libc], and a command line
    is taken as the list of its long options [--name=value]. *)

From Stdlib Require Import Ascii.

Definition Rleb (a b : R) : bool := if Rle_dec a b then true else false.

(** The keys of the options. *)
Definition ARGUMENT_THETA_SHORT : Z := 128.  (* 0x80 *)
Definition ARGUMENT_RS_SHORT : Z := 129.  (* 0x81 *)
Definition ARGUMENT_XMAX_SHORT : Z := 130.  (* 0x82 *)
Definition ARGUMENT_DX_SHORT : Z := 131.  (* 0x83 *)
Definition ARGUMENT_NL_SHORT : Z := 132.  (* 0x84 *)
Definition ARGUMENT_ITER_SHORT : Z := 133.  (* 0x85 *)
Definition ARGUMENT_MIN_ERR_SHORT : Z := 134.  (* 0x86 *)
Definition ARGUMENT_MIX_SHORT : Z := 135.  (* 0x87 *)
Definition ARGUMENT_MU_GUESS_SHORT : Z := 136.  (* 0x88 *)
Definition ARGUMENT_STLS_GUESS_SHORT : Z := 137.  (* 0x89 *)
Definition ARGUMENT_THEORY_SHORT : Z := 144.  (* 0x90 *)
Definition ARGUMENT_OMP_SHORT : Z := 145.  (* 0x91 *)
Definition ARGUMENT_QSTLS_GUESS_SHORT : Z := 146.  (* 0x92 *)
Definition ARGUMENT_QSTLS_FIXED_SHORT : Z := 147.  (* 0x93 *)
Definition ARGUMENT_QSTLS_IET_FIXED_SHORT : Z := 148.  (* 0x94 *)
Definition ARGUMENT_QSTLS_IET_STATIC_SHORT : Z := 149.  (* 0x95 *)
Definition ARGUMENT_DEBUG_SHORT : Z := 150.  (* 0x96 *)
Definition ARGUMENT_MODE_SHORT : Z := 151.  (* 0x97 *)
Definition ARGUMENT_GUESS_FILES_SHORT : Z := 152.  (* 0x98 *)
Definition ARGUMENT_IET_MAPPING_SHORT : Z := 153.  (* 0x99 *)
Definition ARGUMENT_VS_DRS_SHORT : Z := 256.  (* 0x100 *)
Definition ARGUMENT_VS_DT_SHORT : Z := 257.  (* 0x101 *)
Definition ARGUMENT_VS_ALPHA_SHORT : Z := 258.  (* 0x102 *)
Definition ARGUMENT_VS_THERMO_SHORT : Z := 259.  (* 0x103 *)
Definition ARGUMENT_VS_MIN_ERR_SHORT : Z := 260.  (* 0x104 *)
Definition ARGUMENT_VS_SOLVE_CSR_SHORT : Z := 261.  (* 0x105 *)
Definition ARGUMENT_VS_MIX_SHORT : Z := 262.  (* 0x106 *)
Definition ARGUMENT_DYN_DW_SHORT : Z := 263.  (* 0x107 *)
Definition ARGUMENT_DYN_WMAX_SHORT : Z := 264.  (* 0x108 *)
Definition ARGUMENT_DYN_XTARGET_SHORT : Z := 265.  (* 0x109 *)

(** [ARGP_KEY_ARG] and [ARGP_ERR_UNKNOWN] as glibc defines them. *)
Definition ARGP_KEY_ARG : Z := 0.

Inductive error_t : Type := NO_ERROR | ARGP_ERR_UNKNOWN.

Record argp_option : Type := mkOption {
  o_name : string;
  o_key : Z;
  o_arg : string;
  o_flags : Z;
  o_doc : string
}.

Definition options : list argp_option := [
  mkOption "Theta" ARGUMENT_THETA_SHORT "1.0" 0
    "Quantum degeneracy parameter";
  mkOption "rs" ARGUMENT_RS_SHORT "1.0" 0
    "Quantum coupling parameter";
  mkOption "xmax" ARGUMENT_XMAX_SHORT "20.0" 0
    "Cutoff for wave-vector grid";
  mkOption "dx" ARGUMENT_DX_SHORT "0.1" 0
    "Resolution for wave-vector grid";
  mkOption "nl" ARGUMENT_NL_SHORT "128" 0
    "Number of Matsubara frequencies";
  mkOption "iter" ARGUMENT_ITER_SHORT "1000" 0
    "Maximum number of iterations";
  mkOption "min-err" ARGUMENT_MIN_ERR_SHORT "1e-5" 0
    "Minimum error for convergence in the iterations";
  mkOption "mix" ARGUMENT_MIX_SHORT "0.1" 0
    "Mixing parameter for iterative solution";
  mkOption "mu-guess" ARGUMENT_MU_GUESS_SHORT "-10,10" 0
    "Initial guess for chemical potential";
  mkOption "stls-guess" ARGUMENT_STLS_GUESS_SHORT "file" 0
    "File used to load the stls and stls-iet schemes";
  mkOption "qstls-guess" ARGUMENT_QSTLS_GUESS_SHORT "file" 0
    "File used to load the qstls and qstls-iet schemes";
  mkOption "qstls-fix" ARGUMENT_QSTLS_FIXED_SHORT "file" 0
    "File used to load the fixed component of the density response function for the qslts scheme";
  mkOption "qstls-iet-fix" ARGUMENT_QSTLS_IET_FIXED_SHORT "file" 0
    "File used to load fixed component of the density response function for the qslts-iet scheme";
  mkOption "qstls-iet-static" ARGUMENT_QSTLS_IET_FIXED_SHORT "0" 0
    "Use static approximation to compute the auxiliary density response in the qstls-iet scheme (0 = off, 1 = on)";
  mkOption "theory" ARGUMENT_THEORY_SHORT "STLS" 0
    "Scheme to be solved";
  mkOption "omp" ARGUMENT_OMP_SHORT "1" 0
    "Number of omp threads to use in the solution";
  mkOption "debug-input" ARGUMENT_DEBUG_SHORT "0" 0
    "Print content of the input structure on screen (0 = off, 1 = on)";
  mkOption "mode" ARGUMENT_MODE_SHORT "static" 0
    "Select working mode of the code (static, dynamic, guess)";
  mkOption "guess-files" ARGUMENT_GUESS_FILES_SHORT "file1,file2" 0
    "Name of the two text files used to write binary restart files";
  mkOption "iet-mapping" ARGUMENT_IET_MAPPING_SHORT "standard" 0
    "Mapping between quantum and classical state points for IET-based schemes";
  mkOption "vs-drs" ARGUMENT_VS_DRS_SHORT "0.01" 0
    "Resolution of the coupling parameter grid for the VS schemes";
  mkOption "vs-dt" ARGUMENT_VS_DT_SHORT "0.01" 0
    "Resolution of the degeneracy parameter grid for the VS schemes";
  mkOption "vs-alpha" ARGUMENT_VS_ALPHA_SHORT "0.5" 0
    "Initial guess for the free parameter in the VS schemes";
  mkOption "vs-thermo-file" ARGUMENT_VS_THERMO_SHORT "file" 0
    "File used to load the thermodynamic integration data for the VS schemes";
  mkOption "vs-min-err" ARGUMENT_VS_MIN_ERR_SHORT "1e-3" 0
    "Minimum error for convergence in the iterations for the VS schemes ";
  mkOption "vs-mix" ARGUMENT_VS_MIX_SHORT "1.0" 0
    "Mixing parameter for iterative solution in the VS schemes ";
  mkOption "vs-solve-csr" ARGUMENT_VS_SOLVE_CSR_SHORT "1" 0
    "Enforce CSR in the VS schemes (0 = off, 1 = on)";
  mkOption "dyn-dw" ARGUMENT_DYN_DW_SHORT "0.1" 0
    "Resolution for the frequency grid for the dynamic properties";
  mkOption "dyn-wmax" ARGUMENT_DYN_WMAX_SHORT "20.0" 0
    "Cutoff for the frequency grid for the dynamic properties";
  mkOption "dyn-xtarget" ARGUMENT_DYN_XTARGET_SHORT "1.0" 0
    "Wave-vector used to compute the dynamic properties"
].
(** Assignments to the fields of the input record. *)
Definition set_stls_guess_file (v : string) (i : input) : input :=
  mkInput v (qstls_guess_file i) (qstls_fixed_file i) (qstls_iet_fixed_file i)
    (qstls_iet_static i) (Theta i) (rs i) (dx i) (err_min_iter i) (a_mix i)
    (mu_lo i) (mu_hi i) (mu i) (xmax i) (nl i) (nx i) (nIter i) (theory i)
    (nThreads i) (mode i) (guess_file1 i) (guess_file2 i) (iet_mapping i)
    (vs_drs i) (vs_dt i) (vs_alpha i) (vs_thermo_file i) (vs_err_min_iter i)
    (vs_a_mix i) (vs_solve_csr i) (dyn_dW i) (dyn_Wmax i) (dyn_xtarget i)
    (nW i) (dyn_adr_file i) (phi_file i).

Definition set_qstls_guess_file (v : string) (i : input) : input :=
  mkInput (stls_guess_file i) v (qstls_fixed_file i) (qstls_iet_fixed_file i)
    (qstls_iet_static i) (Theta i) (rs i) (dx i) (err_min_iter i) (a_mix i)
    (mu_lo i) (mu_hi i) (mu i) (xmax i) (nl i) (nx i) (nIter i) (theory i)
    (nThreads i) (mode i) (guess_file1 i) (guess_file2 i) (iet_mapping i)
    (vs_drs i) (vs_dt i) (vs_alpha i) (vs_thermo_file i) (vs_err_min_iter i)
    (vs_a_mix i) (vs_solve_csr i) (dyn_dW i) (dyn_Wmax i) (dyn_xtarget i)
    (nW i) (dyn_adr_file i) (phi_file i).

Definition set_qstls_fixed_file (v : string) (i : input) : input :=
  mkInput (stls_guess_file i) (qstls_guess_file i) v (qstls_iet_fixed_file i)
    (qstls_iet_static i) (Theta i) (rs i) (dx i) (err_min_iter i) (a_mix i)
    (mu_lo i) (mu_hi i) (mu i) (xmax i) (nl i) (nx i) (nIter i) (theory i)
    (nThreads i) (mode i) (guess_file1 i) (guess_file2 i) (iet_mapping i)
    (vs_drs i) (vs_dt i) (vs_alpha i) (vs_thermo_file i) (vs_err_min_iter i)
    (vs_a_mix i) (vs_solve_csr i) (dyn_dW i) (dyn_Wmax i) (dyn_xtarget i)
    (nW i) (dyn_adr_file i) (phi_file i).

Definition set_qstls_iet_fixed_file (v : string) (i : input) : input :=
  mkInput (stls_guess_file i) (qstls_guess_file i) (qstls_fixed_file i) v
    (qstls_iet_static i) (Theta i) (rs i) (dx i) (err_min_iter i) (a_mix i)
    (mu_lo i) (mu_hi i) (mu i) (xmax i) (nl i) (nx i) (nIter i) (theory i)
    (nThreads i) (mode i) (guess_file1 i) (guess_file2 i) (iet_mapping i)
    (vs_drs i) (vs_dt i) (vs_alpha i) (vs_thermo_file i) (vs_err_min_iter i)
    (vs_a_mix i) (vs_solve_csr i) (dyn_dW i) (dyn_Wmax i) (dyn_xtarget i)
    (nW i) (dyn_adr_file i) (phi_file i).

Definition set_qstls_iet_static (v : Z) (i : input) : input :=
  mkInput (stls_guess_file i) (qstls_guess_file i) (qstls_fixed_file i)
    (qstls_iet_fixed_file i) v (Theta i) (rs i) (dx i) (err_min_iter i)
    (a_mix i) (mu_lo i) (mu_hi i) (mu i) (xmax i) (nl i) (nx i) (nIter i)
    (theory i) (nThreads i) (mode i) (guess_file1 i) (guess_file2 i)
    (iet_mapping i) (vs_drs i) (vs_dt i) (vs_alpha i) (vs_thermo_file i)
    (vs_err_min_iter i) (vs_a_mix i) (vs_solve_csr i) (dyn_dW i) (dyn_Wmax i)
    (dyn_xtarget i) (nW i) (dyn_adr_file i) (phi_file i).

Definition set_rs (v : R) (i : input) : input :=
  mkInput (stls_guess_file i) (qstls_guess_file i) (qstls_fixed_file i)
    (qstls_iet_fixed_file i) (qstls_iet_static i) (Theta i) v (dx i)
    (err_min_iter i) (a_mix i) (mu_lo i) (mu_hi i) (mu i) (xmax i) (nl i)
    (nx i) (nIter i) (theory i) (nThreads i) (mode i) (guess_file1 i)
    (guess_file2 i) (iet_mapping i) (vs_drs i) (vs_dt i) (vs_alpha i)
    (vs_thermo_file i) (vs_err_min_iter i) (vs_a_mix i) (vs_solve_csr i)
    (dyn_dW i) (dyn_Wmax i) (dyn_xtarget i) (nW i) (dyn_adr_file i)
    (phi_file i).

Definition set_err_min_iter (v : R) (i : input) : input :=
  mkInput (stls_guess_file i) (qstls_guess_file i) (qstls_fixed_file i)
    (qstls_iet_fixed_file i) (qstls_iet_static i) (Theta i) (rs i) (dx i) v
    (a_mix i) (mu_lo i) (mu_hi i) (mu i) (xmax i) (nl i) (nx i) (nIter i)
    (theory i) (nThreads i) (mode i) (guess_file1 i) (guess_file2 i)
    (iet_mapping i) (vs_drs i) (vs_dt i) (vs_alpha i) (vs_thermo_file i)
    (vs_err_min_iter i) (vs_a_mix i) (vs_solve_csr i) (dyn_dW i) (dyn_Wmax i)
    (dyn_xtarget i) (nW i) (dyn_adr_file i) (phi_file i).

Definition set_a_mix (v : R) (i : input) : input :=
  mkInput (stls_guess_file i) (qstls_guess_file i) (qstls_fixed_file i)
    (qstls_iet_fixed_file i) (qstls_iet_static i) (Theta i) (rs i) (dx i)
    (err_min_iter i) v (mu_lo i) (mu_hi i) (mu i) (xmax i) (nl i) (nx i)
    (nIter i) (theory i) (nThreads i) (mode i) (guess_file1 i) (guess_file2 i)
    (iet_mapping i) (vs_drs i) (vs_dt i) (vs_alpha i) (vs_thermo_file i)
    (vs_err_min_iter i) (vs_a_mix i) (vs_solve_csr i) (dyn_dW i) (dyn_Wmax i)
    (dyn_xtarget i) (nW i) (dyn_adr_file i) (phi_file i).

Definition set_mu_lo (v : R) (i : input) : input :=
  mkInput (stls_guess_file i) (qstls_guess_file i) (qstls_fixed_file i)
    (qstls_iet_fixed_file i) (qstls_iet_static i) (Theta i) (rs i) (dx i)
    (err_min_iter i) (a_mix i) v (mu_hi i) (mu i) (xmax i) (nl i) (nx i)
    (nIter i) (theory i) (nThreads i) (mode i) (guess_file1 i) (guess_file2 i)
    (iet_mapping i) (vs_drs i) (vs_dt i) (vs_alpha i) (vs_thermo_file i)
    (vs_err_min_iter i) (vs_a_mix i) (vs_solve_csr i) (dyn_dW i) (dyn_Wmax i)
    (dyn_xtarget i) (nW i) (dyn_adr_file i) (phi_file i).

Definition set_mu_hi (v : R) (i : input) : input :=
  mkInput (stls_guess_file i) (qstls_guess_file i) (qstls_fixed_file i)
    (qstls_iet_fixed_file i) (qstls_iet_static i) (Theta i) (rs i) (dx i)
    (err_min_iter i) (a_mix i) (mu_lo i) v (mu i) (xmax i) (nl i) (nx i)
    (nIter i) (theory i) (nThreads i) (mode i) (guess_file1 i) (guess_file2 i)
    (iet_mapping i) (vs_drs i) (vs_dt i) (vs_alpha i) (vs_thermo_file i)
    (vs_err_min_iter i) (vs_a_mix i) (vs_solve_csr i) (dyn_dW i) (dyn_Wmax i)
    (dyn_xtarget i) (nW i) (dyn_adr_file i) (phi_file i).

Definition set_nIter (v : Z) (i : input) : input :=
  mkInput (stls_guess_file i) (qstls_guess_file i) (qstls_fixed_file i)
    (qstls_iet_fixed_file i) (qstls_iet_static i) (Theta i) (rs i) (dx i)
    (err_min_iter i) (a_mix i) (mu_lo i) (mu_hi i) (mu i) (xmax i) (nl i)
    (nx i) v (theory i) (nThreads i) (mode i) (guess_file1 i) (guess_file2 i)
    (iet_mapping i) (vs_drs i) (vs_dt i) (vs_alpha i) (vs_thermo_file i)
    (vs_err_min_iter i) (vs_a_mix i) (vs_solve_csr i) (dyn_dW i) (dyn_Wmax i)
    (dyn_xtarget i) (nW i) (dyn_adr_file i) (phi_file i).

Definition set_theory (v : string) (i : input) : input :=
  mkInput (stls_guess_file i) (qstls_guess_file i) (qstls_fixed_file i)
    (qstls_iet_fixed_file i) (qstls_iet_static i) (Theta i) (rs i) (dx i)
    (err_min_iter i) (a_mix i) (mu_lo i) (mu_hi i) (mu i) (xmax i) (nl i)
    (nx i) (nIter i) v (nThreads i) (mode i) (guess_file1 i) (guess_file2 i)
    (iet_mapping i) (vs_drs i) (vs_dt i) (vs_alpha i) (vs_thermo_file i)
    (vs_err_min_iter i) (vs_a_mix i) (vs_solve_csr i) (dyn_dW i) (dyn_Wmax i)
    (dyn_xtarget i) (nW i) (dyn_adr_file i) (phi_file i).

Definition set_nThreads (v : Z) (i : input) : input :=
  mkInput (stls_guess_file i) (qstls_guess_file i) (qstls_fixed_file i)
    (qstls_iet_fixed_file i) (qstls_iet_static i) (Theta i) (rs i) (dx i)
    (err_min_iter i) (a_mix i) (mu_lo i) (mu_hi i) (mu i) (xmax i) (nl i)
    (nx i) (nIter i) (theory i) v (mode i) (guess_file1 i) (guess_file2 i)
    (iet_mapping i) (vs_drs i) (vs_dt i) (vs_alpha i) (vs_thermo_file i)
    (vs_err_min_iter i) (vs_a_mix i) (vs_solve_csr i) (dyn_dW i) (dyn_Wmax i)
    (dyn_xtarget i) (nW i) (dyn_adr_file i) (phi_file i).

Definition set_mode (v : string) (i : input) : input :=
  mkInput (stls_guess_file i) (qstls_guess_file i) (qstls_fixed_file i)
    (qstls_iet_fixed_file i) (qstls_iet_static i) (Theta i) (rs i) (dx i)
    (err_min_iter i) (a_mix i) (mu_lo i) (mu_hi i) (mu i) (xmax i) (nl i)
    (nx i) (nIter i) (theory i) (nThreads i) v (guess_file1 i) (guess_file2 i)
    (iet_mapping i) (vs_drs i) (vs_dt i) (vs_alpha i) (vs_thermo_file i)
    (vs_err_min_iter i) (vs_a_mix i) (vs_solve_csr i) (dyn_dW i) (dyn_Wmax i)
    (dyn_xtarget i) (nW i) (dyn_adr_file i) (phi_file i).

Definition set_guess_file1 (v : string) (i : input) : input :=
  mkInput (stls_guess_file i) (qstls_guess_file i) (qstls_fixed_file i)
    (qstls_iet_fixed_file i) (qstls_iet_static i) (Theta i) (rs i) (dx i)
    (err_min_iter i) (a_mix i) (mu_lo i) (mu_hi i) (mu i) (xmax i) (nl i)
    (nx i) (nIter i) (theory i) (nThreads i) (mode i) v (guess_file2 i)
    (iet_mapping i) (vs_drs i) (vs_dt i) (vs_alpha i) (vs_thermo_file i)
    (vs_err_min_iter i) (vs_a_mix i) (vs_solve_csr i) (dyn_dW i) (dyn_Wmax i)
    (dyn_xtarget i) (nW i) (dyn_adr_file i) (phi_file i).

Definition set_guess_file2 (v : string) (i : input) : input :=
  mkInput (stls_guess_file i) (qstls_guess_file i) (qstls_fixed_file i)
    (qstls_iet_fixed_file i) (qstls_iet_static i) (Theta i) (rs i) (dx i)
    (err_min_iter i) (a_mix i) (mu_lo i) (mu_hi i) (mu i) (xmax i) (nl i)
    (nx i) (nIter i) (theory i) (nThreads i) (mode i) (guess_file1 i) v
    (iet_mapping i) (vs_drs i) (vs_dt i) (vs_alpha i) (vs_thermo_file i)
    (vs_err_min_iter i) (vs_a_mix i) (vs_solve_csr i) (dyn_dW i) (dyn_Wmax i)
    (dyn_xtarget i) (nW i) (dyn_adr_file i) (phi_file i).

Definition set_iet_mapping (v : string) (i : input) : input :=
  mkInput (stls_guess_file i) (qstls_guess_file i) (qstls_fixed_file i)
    (qstls_iet_fixed_file i) (qstls_iet_static i) (Theta i) (rs i) (dx i)
    (err_min_iter i) (a_mix i) (mu_lo i) (mu_hi i) (mu i) (xmax i) (nl i)
    (nx i) (nIter i) (theory i) (nThreads i) (mode i) (guess_file1 i)
    (guess_file2 i) v (vs_drs i) (vs_dt i) (vs_alpha i) (vs_thermo_file i)
    (vs_err_min_iter i) (vs_a_mix i) (vs_solve_csr i) (dyn_dW i) (dyn_Wmax i)
    (dyn_xtarget i) (nW i) (dyn_adr_file i) (phi_file i).

Definition set_vs_drs (v : R) (i : input) : input :=
  mkInput (stls_guess_file i) (qstls_guess_file i) (qstls_fixed_file i)
    (qstls_iet_fixed_file i) (qstls_iet_static i) (Theta i) (rs i) (dx i)
    (err_min_iter i) (a_mix i) (mu_lo i) (mu_hi i) (mu i) (xmax i) (nl i)
    (nx i) (nIter i) (theory i) (nThreads i) (mode i) (guess_file1 i)
    (guess_file2 i) (iet_mapping i) v (vs_dt i) (vs_alpha i)
    (vs_thermo_file i) (vs_err_min_iter i) (vs_a_mix i) (vs_solve_csr i)
    (dyn_dW i) (dyn_Wmax i) (dyn_xtarget i) (nW i) (dyn_adr_file i)
    (phi_file i).

Definition set_vs_dt (v : R) (i : input) : input :=
  mkInput (stls_guess_file i) (qstls_guess_file i) (qstls_fixed_file i)
    (qstls_iet_fixed_file i) (qstls_iet_static i) (Theta i) (rs i) (dx i)
    (err_min_iter i) (a_mix i) (mu_lo i) (mu_hi i) (mu i) (xmax i) (nl i)
    (nx i) (nIter i) (theory i) (nThreads i) (mode i) (guess_file1 i)
    (guess_file2 i) (iet_mapping i) (vs_drs i) v (vs_alpha i)
    (vs_thermo_file i) (vs_err_min_iter i) (vs_a_mix i) (vs_solve_csr i)
    (dyn_dW i) (dyn_Wmax i) (dyn_xtarget i) (nW i) (dyn_adr_file i)
    (phi_file i).

Definition set_vs_alpha (v : R) (i : input) : input :=
  mkInput (stls_guess_file i) (qstls_guess_file i) (qstls_fixed_file i)
    (qstls_iet_fixed_file i) (qstls_iet_static i) (Theta i) (rs i) (dx i)
    (err_min_iter i) (a_mix i) (mu_lo i) (mu_hi i) (mu i) (xmax i) (nl i)
    (nx i) (nIter i) (theory i) (nThreads i) (mode i) (guess_file1 i)
    (guess_file2 i) (iet_mapping i) (vs_drs i) (vs_dt i) v (vs_thermo_file i)
    (vs_err_min_iter i) (vs_a_mix i) (vs_solve_csr i) (dyn_dW i) (dyn_Wmax i)
    (dyn_xtarget i) (nW i) (dyn_adr_file i) (phi_file i).

Definition set_vs_thermo_file (v : string) (i : input) : input :=
  mkInput (stls_guess_file i) (qstls_guess_file i) (qstls_fixed_file i)
    (qstls_iet_fixed_file i) (qstls_iet_static i) (Theta i) (rs i) (dx i)
    (err_min_iter i) (a_mix i) (mu_lo i) (mu_hi i) (mu i) (xmax i) (nl i)
    (nx i) (nIter i) (theory i) (nThreads i) (mode i) (guess_file1 i)
    (guess_file2 i) (iet_mapping i) (vs_drs i) (vs_dt i) (vs_alpha i) v
    (vs_err_min_iter i) (vs_a_mix i) (vs_solve_csr i) (dyn_dW i) (dyn_Wmax i)
    (dyn_xtarget i) (nW i) (dyn_adr_file i) (phi_file i).

Definition set_vs_err_min_iter (v : R) (i : input) : input :=
  mkInput (stls_guess_file i) (qstls_guess_file i) (qstls_fixed_file i)
    (qstls_iet_fixed_file i) (qstls_iet_static i) (Theta i) (rs i) (dx i)
    (err_min_iter i) (a_mix i) (mu_lo i) (mu_hi i) (mu i) (xmax i) (nl i)
    (nx i) (nIter i) (theory i) (nThreads i) (mode i) (guess_file1 i)
    (guess_file2 i) (iet_mapping i) (vs_drs i) (vs_dt i) (vs_alpha i)
    (vs_thermo_file i) v (vs_a_mix i) (vs_solve_csr i) (dyn_dW i) (dyn_Wmax i)
    (dyn_xtarget i) (nW i) (dyn_adr_file i) (phi_file i).

Definition set_vs_a_mix (v : R) (i : input) : input :=
  mkInput (stls_guess_file i) (qstls_guess_file i) (qstls_fixed_file i)
    (qstls_iet_fixed_file i) (qstls_iet_static i) (Theta i) (rs i) (dx i)
    (err_min_iter i) (a_mix i) (mu_lo i) (mu_hi i) (mu i) (xmax i) (nl i)
    (nx i) (nIter i) (theory i) (nThreads i) (mode i) (guess_file1 i)
    (guess_file2 i) (iet_mapping i) (vs_drs i) (vs_dt i) (vs_alpha i)
    (vs_thermo_file i) (vs_err_min_iter i) v (vs_solve_csr i) (dyn_dW i)
    (dyn_Wmax i) (dyn_xtarget i) (nW i) (dyn_adr_file i) (phi_file i).

Definition set_vs_solve_csr (v : Z) (i : input) : input :=
  mkInput (stls_guess_file i) (qstls_guess_file i) (qstls_fixed_file i)
    (qstls_iet_fixed_file i) (qstls_iet_static i) (Theta i) (rs i) (dx i)
    (err_min_iter i) (a_mix i) (mu_lo i) (mu_hi i) (mu i) (xmax i) (nl i)
    (nx i) (nIter i) (theory i) (nThreads i) (mode i) (guess_file1 i)
    (guess_file2 i) (iet_mapping i) (vs_drs i) (vs_dt i) (vs_alpha i)
    (vs_thermo_file i) (vs_err_min_iter i) (vs_a_mix i) v (dyn_dW i)
    (dyn_Wmax i) (dyn_xtarget i) (nW i) (dyn_adr_file i) (phi_file i).

Definition set_dyn_dW (v : R) (i : input) : input :=
  mkInput (stls_guess_file i) (qstls_guess_file i) (qstls_fixed_file i)
    (qstls_iet_fixed_file i) (qstls_iet_static i) (Theta i) (rs i) (dx i)
    (err_min_iter i) (a_mix i) (mu_lo i) (mu_hi i) (mu i) (xmax i) (nl i)
    (nx i) (nIter i) (theory i) (nThreads i) (mode i) (guess_file1 i)
    (guess_file2 i) (iet_mapping i) (vs_drs i) (vs_dt i) (vs_alpha i)
    (vs_thermo_file i) (vs_err_min_iter i) (vs_a_mix i) (vs_solve_csr i) v
    (dyn_Wmax i) (dyn_xtarget i) (nW i) (dyn_adr_file i) (phi_file i).

Definition set_dyn_Wmax (v : R) (i : input) : input :=
  mkInput (stls_guess_file i) (qstls_guess_file i) (qstls_fixed_file i)
    (qstls_iet_fixed_file i) (qstls_iet_static i) (Theta i) (rs i) (dx i)
    (err_min_iter i) (a_mix i) (mu_lo i) (mu_hi i) (mu i) (xmax i) (nl i)
    (nx i) (nIter i) (theory i) (nThreads i) (mode i) (guess_file1 i)
    (guess_file2 i) (iet_mapping i) (vs_drs i) (vs_dt i) (vs_alpha i)
    (vs_thermo_file i) (vs_err_min_iter i) (vs_a_mix i) (vs_solve_csr i)
    (dyn_dW i) v (dyn_xtarget i) (nW i) (dyn_adr_file i) (phi_file i).

Definition set_dyn_xtarget (v : R) (i : input) : input :=
  mkInput (stls_guess_file i) (qstls_guess_file i) (qstls_fixed_file i)
    (qstls_iet_fixed_file i) (qstls_iet_static i) (Theta i) (rs i) (dx i)
    (err_min_iter i) (a_mix i) (mu_lo i) (mu_hi i) (mu i) (xmax i) (nl i)
    (nx i) (nIter i) (theory i) (nThreads i) (mode i) (guess_file1 i)
    (guess_file2 i) (iet_mapping i) (vs_drs i) (vs_dt i) (vs_alpha i)
    (vs_thermo_file i) (vs_err_min_iter i) (vs_a_mix i) (vs_solve_csr i)
    (dyn_dW i) (dyn_Wmax i) v (nW i) (dyn_adr_file i) (phi_file i).

(** The conversions of the C library that the reader calls. *)
Record libc : Type := mkLibc {
  atof : string -> R;
  atoi : string -> Z
}.

(** [strtok] with the delimiter set [","], as the C standard describes it.
    [strtok_from s] is a call that scans the text [s] (the argument of the
    first call, or the text that the previous call left to scan): leading
    delimiters are skipped; when nothing is left the result is the null
    pointer; otherwise the token runs up to the next delimiter, which is
    overwritten, and the scan resumes after it. *)
Definition is_delim (c : ascii) : bool := Ascii.eqb c ","%char.

Fixpoint skip_delims (s : string) : string :=
  match s with
  | EmptyString => EmptyString
  | String c s' => if is_delim c then skip_delims s' else s
  end.

Fixpoint take_token (s : string) : string * string :=
  match s with
  | EmptyString => (EmptyString, EmptyString)
  | String c s' =>
      if is_delim c then (EmptyString, s')
      else let '(tok, rest) := take_token s' in (String c tok, rest)
  end.

Definition strtok_from (s : string) : option (string * string) :=
  match skip_delims s with
  | EmptyString => None
  | s' => Some (take_token s')
  end.

(** The state the parser works on: the input record behind [state->input]
    and the file-level flag [debug_input]. *)
Record reader_state : Type := mkReader {
  r_in : input;
  debug_input : bool
}.

Definition on_input (f : input -> input) (s : reader_state) : reader_state :=
  mkReader (f (r_in s)) (debug_input s).

(** [parse_opt]. [arg_num] is [state->arg_num]; [argp_usage] prints the
    usage message and ends the run. *)
Definition parse_opt (L : libc) (key : Z) (arg : string) (arg_num : Z)
           (s : reader_state) : outcome (error_t * reader_state) :=
  if (key =? ARGUMENT_DX_SHORT)%Z then
    Done (NO_ERROR, on_input (set_dx (atof L arg)) s)
  else if (key =? ARGUMENT_MIN_ERR_SHORT)%Z then
    Done (NO_ERROR, on_input (set_err_min_iter (atof L arg)) s)
  else if (key =? ARGUMENT_STLS_GUESS_SHORT)%Z then
    Done (NO_ERROR, on_input (set_stls_guess_file arg) s)
  else if (key =? ARGUMENT_QSTLS_GUESS_SHORT)%Z then
    Done (NO_ERROR, on_input (set_qstls_guess_file arg) s)
  else if (key =? ARGUMENT_QSTLS_FIXED_SHORT)%Z then
    Done (NO_ERROR, on_input (set_qstls_fixed_file arg) s)
  else if (key =? ARGUMENT_QSTLS_IET_FIXED_SHORT)%Z then
    Done (NO_ERROR, on_input (set_qstls_iet_fixed_file arg) s)
  else if (key =? ARGUMENT_QSTLS_IET_STATIC_SHORT)%Z then
    Done (NO_ERROR, on_input (set_qstls_iet_static (atoi L arg)) s)
  else if (key =? ARGUMENT_MU_GUESS_SHORT)%Z then
    match strtok_from arg with
    | Some (value, saved) =>
        let s := on_input (set_mu_lo (atof L value)) s in
        match strtok_from saved with
        | Some (value, _) =>
            Done (NO_ERROR, on_input (set_mu_hi (atof L value)) s)
        | None => Fatal "exit(EXIT_FAILURE)"
        end
    | None => Fatal "exit(EXIT_FAILURE)"
    end
  else if (key =? ARGUMENT_ITER_SHORT)%Z then
    Done (NO_ERROR, on_input (set_nIter (atoi L arg)) s)
  else if (key =? ARGUMENT_NL_SHORT)%Z then
    Done (NO_ERROR, on_input (set_nl (atoi L arg)) s)
  else if (key =? ARGUMENT_MIX_SHORT)%Z then
    Done (NO_ERROR, on_input (set_a_mix (atof L arg)) s)
  else if (key =? ARGUMENT_OMP_SHORT)%Z then
    Done (NO_ERROR, on_input (set_nThreads (atoi L arg)) s)
  else if (key =? ARGUMENT_RS_SHORT)%Z then
    Done (NO_ERROR, on_input (set_rs (atof L arg)) s)
  else if (key =? ARGUMENT_THETA_SHORT)%Z then
    Done (NO_ERROR, on_input (set_Theta (atof L arg)) s)
  else if (key =? ARGUMENT_THEORY_SHORT)%Z then
    Done (NO_ERROR, on_input (set_theory arg) s)
  else if (key =? ARGUMENT_XMAX_SHORT)%Z then
    Done (NO_ERROR, on_input (set_xmax (atof L arg)) s)
  else if (key =? ARGUMENT_DEBUG_SHORT)%Z then
    Done (NO_ERROR, mkReader (r_in s) (negb (atoi L arg =? 0)%Z))
  else if (key =? ARGUMENT_MODE_SHORT)%Z then
    Done (NO_ERROR, on_input (set_mode arg) s)
  else if (key =? ARGUMENT_GUESS_FILES_SHORT)%Z then
    match strtok_from arg with
    | Some (value, saved) =>
        let s := on_input (set_guess_file1 value) s in
        match strtok_from saved with
        | Some (value, _) =>
            Done (NO_ERROR, on_input (set_guess_file2 value) s)
        | None => Fatal "exit(EXIT_FAILURE)"
        end
    | None => Fatal "exit(EXIT_FAILURE)"
    end
  else if (key =? ARGUMENT_IET_MAPPING_SHORT)%Z then
    Done (NO_ERROR, on_input (set_iet_mapping arg) s)
  else if (key =? ARGUMENT_VS_DRS_SHORT)%Z then
    Done (NO_ERROR, on_input (set_vs_drs (atof L arg)) s)
  else if (key =? ARGUMENT_VS_DT_SHORT)%Z then
    Done (NO_ERROR, on_input (set_vs_dt (atof L arg)) s)
  else if (key =? ARGUMENT_VS_ALPHA_SHORT)%Z then
    Done (NO_ERROR, on_input (set_vs_alpha (atof L arg)) s)
  else if (key =? ARGUMENT_VS_THERMO_SHORT)%Z then
    Done (NO_ERROR, on_input (set_vs_thermo_file arg) s)
  else if (key =? ARGUMENT_VS_MIN_ERR_SHORT)%Z then
    Done (NO_ERROR, on_input (set_vs_err_min_iter (atof L arg)) s)
  else if (key =? ARGUMENT_VS_MIX_SHORT)%Z then
    Done (NO_ERROR, on_input (set_vs_a_mix (atof L arg)) s)
  else if (key =? ARGUMENT_VS_SOLVE_CSR_SHORT)%Z then
    Done (NO_ERROR, on_input (set_vs_solve_csr (atoi L arg)) s)
  else if (key =? ARGUMENT_DYN_DW_SHORT)%Z then
    Done (NO_ERROR, on_input (set_dyn_dW (atof L arg)) s)
  else if (key =? ARGUMENT_DYN_WMAX_SHORT)%Z then
    Done (NO_ERROR, on_input (set_dyn_Wmax (atof L arg)) s)
  else if (key =? ARGUMENT_DYN_XTARGET_SHORT)%Z then
    Done (NO_ERROR, on_input (set_dyn_xtarget (atof L arg)) s)
  else if (key =? ARGP_KEY_ARG)%Z then
    if (arg_num >? 0)%Z then Fatal "argp_usage" else Done (NO_ERROR, s)
  else Done (ARGP_ERR_UNKNOWN, s).

(** What [argp_parse] does with a command line made of long options
    [--name=value], taken in order: it looks the name up in [options] and
    calls [parse_opt] with the key of the entry it finds; an unknown name,
    or a key that the parser does not know, ends the run with an error. *)
Definition argp_find (name : string) : option argp_option :=
  find (fun o => String.eqb (o_name o) name) options.

Fixpoint argp_parse (L : libc) (argv : list (string * string))
         (s : reader_state) : outcome reader_state :=
  match argv with
  | [] => Done s
  | (name, value) :: argv' =>
      match argp_find name with
      | None => Fatal "unrecognized option"
      | Some o =>
          match parse_opt L (o_key o) value 0 s with
          | Done (NO_ERROR, s') => argp_parse L argv' s'
          | Done (ARGP_ERR_UNKNOWN, _) => Fatal "unrecognized option"
          | Fatal msg => Fatal msg
          | OutOfFuel => OutOfFuel
          end
      end
  end.

(** [set_default_parse_opt]. Modelled from the spec: the macro
    [NO_FILE_STR] comes from a header that is not among the sources. The
    fields that the function does not assign keep the content of the
    caller's record. *)
Definition NO_FILE_STR : string := "NO_FILE".

Definition set_default_parse_opt (s : reader_state) : reader_state :=
  let inp := r_in s in
  mkReader
    {| stls_guess_file := NO_FILE_STR;
       qstls_guess_file := NO_FILE_STR;
       qstls_fixed_file := NO_FILE_STR;
       qstls_iet_fixed_file := NO_FILE_STR;
       qstls_iet_static := 0;
       Theta := 1;
       rs := 1;
       dx := 1 / 10;
       err_min_iter := 1 / 100000;
       a_mix := 1 / 10;
       mu_lo := -10;
       mu_hi := 10;
       mu := mu inp;
       xmax := 20;
       nl := 128;
       nx := nx inp;
       nIter := 1000;
       theory := "STLS";
       nThreads := 1;
       mode := "static";
       guess_file1 := NO_FILE_STR;
       guess_file2 := NO_FILE_STR;
       iet_mapping := "standard";
       vs_drs := 1 / 100;
       vs_dt := 1 / 100;
       vs_alpha := 1 / 2;
       vs_thermo_file := NO_FILE_STR;
       vs_err_min_iter := 1 / 1000;
       vs_a_mix := 1;
       vs_solve_csr := 1;
       dyn_dW := 1 / 10;
       dyn_Wmax := 20;
       dyn_xtarget := 1;
       nW := nW inp;
       dyn_adr_file := dyn_adr_file inp;
       phi_file := phi_file inp |}
    false.

(** [check_input]: one test of the form
    [if (cond) { fprintf(stderr, msg); invalid_input = true; }], on the
    pair of what was written to [stderr] and the flag [invalid_input]. *)
Definition check (cond : bool) (msg : string) (st : list string * bool)
  : list string * bool :=
  if cond then (fst st ++ [msg], true) else st.

(** [check_input]: the lines written to [stderr], and [Fatal] when the
    function ends the run. An [int] compared with [0.0] is converted to
    [double]. The fields are real numbers here, so none of them is a NaN;
    [B64.check_input] is the function on binary64 fields. *)
Definition check_input (inp : input) : list string * outcome unit :=
  let st := ([], false) in
  let st := check (Rleb (dx inp) 0)
    "The resolution of the wave vector grid must be larger than zero" st in
  let st := check (Rleb (xmax inp) 0)
    "The cutoff of the wave vector grid must be larger than zero" st in
  let st := check (Rltb (IZR (nIter inp)) 0)
    "The number of iterations must be a positive number" st in
  let st := check (Rleb (err_min_iter inp) 0)
    "The minimum error for convergence must be larger than zero" st in
  let st := check (Rleb (a_mix inp) 0)
    "The mixing parameter must be larger than 0.0" st in
  let st := check (Rleb (IZR (nl inp)) 0)
    "The number of Matsubara frequencies must be larger than zero" st in
  let st := check (Rleb (IZR (nThreads inp)) 0)
    "The number of OMP threads must be larger than zero" st in
  let st := check (Rltb (rs inp) 0)
    "The quantum coupling parameter must be larger than zero" st in
  let st := check (Rltb (Theta inp) 0)
    "The quantum degeneracy parameter must be positive" st in
  let st := check (Rleb (vs_drs inp) 0)
    "The resolution of the coupling parameter grid must be larger than zero" st in
  let st := check (Rleb (vs_dt inp) 0)
    "The resolution of the degeneracy parameter grid must be larger than zero" st in
  let st := check (Rleb (vs_alpha inp) 0)
    "The free parameter for the VS schemes must be larger than zero" st in
  let st := check (Rleb (vs_err_min_iter inp) 0)
    "The minimum error for convergence must be larger than zero" st in
  let st := check (Rleb (vs_a_mix inp) 0)
    "The mixing parameter must be larger than 0.0" st in
  let st := check (Rleb (dyn_dW inp) 0)
    "The resolution of the frequency grid must be larger than zero" st in
  let st := check (Rleb (dyn_Wmax inp) 0)
    "The cutoff of the frequency grid must be larger than zero" st in
  let st := check (Rleb (dyn_xtarget inp) 0)
    "The wave-vector used to compute the dynamic properties  must be larger than zero" st in
  if snd st then (fst st, Fatal "exit(EXIT_FAILURE)") else (fst st, Done tt).

(** [get_input], from the caller's record [inp]: the lines written to
    [stderr] and the record it leaves, or the error that ends the run. The
    result is [None] when the conversion in [get_grid_size] is undefined.
    [print_input] only writes to the standard output. *)
Definition get_input (L : libc) (argv : list (string * string)) (inp : input)
  : option (list string * outcome input) :=
  let s := set_default_parse_opt (mkReader inp false) in
  match argp_parse L argv s with
  | Done s =>
      match get_grid_size (r_in s) with
      | Some inp =>
          match check_input inp with
          | (err, Done _) => Some (err, Done inp)
          | (err, Fatal msg) => Some (err, Fatal msg)
          | (err, OutOfFuel) => Some (err, OutOfFuel)
          end
      | None => None
      end
  | Fatal msg => Some ([], Fatal msg)
  | OutOfFuel => Some ([], OutOfFuel)
  end.

(** ** The C++ classes: ground state *)

(** [SsfHFGround::get], a member of a class holding [x]. *)
Definition SsfHFGround_get (x : R) : R :=
  if Rltb x 2 then x / 16 * (12 - x * x) else 1.

(** [IdrGround::im0], a member of a class holding [Omega] and [x]. *)
Definition IdrGround_im0 (Omega x : R) : R :=
  let preFactor := 0 in
  let adder1 := 0 in
  let adder2 := 0 in
  if Rgtb x 0 then
    let x_2 := x / 2 in
    let Omega_2x := Omega / (2 * x) in
    let sumFactor := x_2 + Omega_2x in
    let diffFactor := x_2 - Omega_2x in
    let sumFactor2 := sumFactor * sumFactor in
    let diffFactor2 := diffFactor * diffFactor in
    let preFactor := - PI / (4 * x) in
    let adder1 := if Rltb sumFactor2 1 then 1 - sumFactor2 else adder1 in
    let adder2 := if Rltb diffFactor2 1 then 1 - diffFactor2 else adder2 in
    preFactor * (adder1 - adder2)
  else preFactor * (adder1 - adder2).

(** ** The C++ classes: the input of a scheme *)

(** The data members of [class Input]. The setters decide whether a value
    is stored, which for a [double] depends on whether it is NaN: the
    [double] members are binary64 numbers ([PrimFloat.float]), and
    [PrimFloat.ltb], [PrimFloat.leb] are the comparisons [<] and [<=] of
    IEEE 754, false when an operand is NaN. *)
Record Input : Type := mkInputClass {
  Input_int2DScheme : string;
  Input_intError : PrimFloat.float;
  Input_isClassicTheory : bool;
  Input_isQuantumTheory : bool;
  Input_nThreads : Z;
  Input_rs : PrimFloat.float;
  Input_theory : string;
  Input_Theta : PrimFloat.float
}.

(** [count(v.begin(), v.end(), s)] *)
Definition count (v : list string) (s : string) : nat := count_occ string_dec v s.

(** A member function that can throw returns the object as the call leaves
    it, and how the call ends. Modelled from the spec: [MPI::throwError]
    comes from a file that is not among the sources; it raises the error
    with the given message and does not return. *)
Definition Input_setCoupling (rs_ : PrimFloat.float) (this : Input)
  : Input * outcome unit :=
  if PrimFloat.ltb rs_ PrimFloat.zero then
    (this, Fatal "The quantum coupling parameter can't be negative")
  else
    (mkInputClass (Input_int2DScheme this) (Input_intError this)
       (Input_isClassicTheory this) (Input_isQuantumTheory this)
       (Input_nThreads this) rs_ (Input_theory this) (Input_Theta this),
     Done tt).

Definition Input_setDegeneracy (Theta_ : PrimFloat.float) (this : Input)
  : Input * outcome unit :=
  if PrimFloat.ltb Theta_ PrimFloat.zero then
    (this, Fatal "The quantum degeneracy parameter can't be negative")
  else
    (mkInputClass (Input_int2DScheme this) (Input_intError this)
       (Input_isClassicTheory this) (Input_isQuantumTheory this)
       (Input_nThreads this) (Input_rs this) (Input_theory this) Theta_,
     Done tt).

Definition cTheories : list string :=
  ["RPA"; "ESA"; "STLS"; "STLS-HNC"; "STLS-IOI"; "STLS-LCT"; "VSSTLS"]%string.

Definition qTheories : list string :=
  ["QSTLS"; "QSTLS-HNC"; "QSTLS-IOI"; "QSTLS-LCT"; "QVSSTLS"]%string.

Definition Input_setTheory (theory_ : string) (this : Input) : Input * outcome unit :=
  let isClassicTheory := negb (count cTheories theory_ =? 0)%nat in
  let isQuantumTheory := negb (count qTheories theory_ =? 0)%nat in
  let this :=
    mkInputClass (Input_int2DScheme this) (Input_intError this)
      isClassicTheory isQuantumTheory
      (Input_nThreads this) (Input_rs this) (Input_theory this) (Input_Theta this) in
  if negb isClassicTheory && negb isQuantumTheory then
    (this, Fatal ("Invalid dielectric theory: " ++ theory_))
  else if negb (negb isClassicTheory || negb isQuantumTheory) then
    (this, Fatal "assert(!isClassicTheory || !isQuantumTheory)")
  else
    (mkInputClass (Input_int2DScheme this) (Input_intError this)
       (Input_isClassicTheory this) (Input_isQuantumTheory this)
       (Input_nThreads this) (Input_rs this) theory_ (Input_Theta this),
     Done tt).

Definition Input_setInt2DScheme (int2DScheme : string) (this : Input)
  : Input * outcome unit :=
  let schemes := ["full"; "segregated"]%string in
  if (count schemes int2DScheme =? 0)%nat then
    (this, Fatal ("Unknown scheme for 2D integrals: " ++ int2DScheme))
  else
    (mkInputClass int2DScheme (Input_intError this)
       (Input_isClassicTheory this) (Input_isQuantumTheory this)
       (Input_nThreads this) (Input_rs this) (Input_theory this) (Input_Theta this),
     Done tt).

Definition Input_setIntError (intError : PrimFloat.float) (this : Input)
  : Input * outcome unit :=
  if PrimFloat.leb intError PrimFloat.zero then
    (this,
     Fatal "The accuracy for the integral computations must be larger than zero")
  else
    (mkInputClass (Input_int2DScheme this) intError
       (Input_isClassicTheory this) (Input_isQuantumTheory this)
       (Input_nThreads this) (Input_rs this) (Input_theory this) (Input_Theta this),
     Done tt).

Definition Input_setNThreads (nThreads : Z) (this : Input) : Input * outcome unit :=
  if (nThreads <=? 0)%Z then
    (this, Fatal "The number of threads must be larger than zero")
  else
    (mkInputClass (Input_int2DScheme this) (Input_intError this)
       (Input_isClassicTheory this) (Input_isQuantumTheory this)
       nThreads (Input_rs this) (Input_theory this) (Input_Theta this),
     Done tt).

(** A call of one of the setters of [Input], and a sequence of calls on
    one object, each made whether or not the one before threw. *)
Inductive Input_call : Type :=
| call_setCoupling (rs_ : PrimFloat.float)
| call_setDegeneracy (Theta_ : PrimFloat.float)
| call_setTheory (theory_ : string)
| call_setInt2DScheme (int2DScheme : string)
| call_setIntError (intError : PrimFloat.float)
| call_setNThreads (nThreads : Z).

Definition Input_do (c : Input_call) (this : Input) : Input * outcome unit :=
  match c with
  | call_setCoupling rs_ => Input_setCoupling rs_ this
  | call_setDegeneracy Theta_ => Input_setDegeneracy Theta_ this
  | call_setTheory theory_ => Input_setTheory theory_ this
  | call_setInt2DScheme s => Input_setInt2DScheme s this
  | call_setIntError e => Input_setIntError e this
  | call_setNThreads n => Input_setNThreads n this
  end.

Definition Input_do_all (cs : list Input_call) (this : Input) : Input :=
  fold_left (fun obj c => fst (Input_do c obj)) cs this.

(** ** The input reader, continued: the debug output *)

(** [printf] is external: a formatted line is the format string, kept as the
    source writes it, applied to its arguments. *)
Inductive printf_arg : Type :=
| arg_s (s : string)
| arg_d (z : Z)
| arg_f (r : R).

(** [print_input]: the lines it writes to the standard output, in order. *)
Definition print_input (printf : string -> list printf_arg -> string)
           (inp : input) : list string :=
  [
    printf "------ Input parameters -------------\n"%string
      [];
    printf "File for initial guess (STLS): %s\n"%string
      [arg_s (stls_guess_file inp)];
    printf "File for initial guess (qSTLS): %s\n"%string
      [arg_s (qstls_guess_file inp)];
    printf "File for fixed component (qSTLS): %s\n"%string
      [arg_s (qstls_fixed_file inp)];
    printf "File for fixed component (qSTLS-IET): %s\n"%string
      [arg_s (qstls_iet_fixed_file inp)];
    printf "Static approximation (qSTLS-IET): %d\n"%string
      [arg_d (qstls_iet_static inp)];
    printf "Theory: %s\n"%string
      [arg_s (theory inp)];
    printf "Quantum degeneracy parameter: %f\n"%string
      [arg_f (Theta inp)];
    printf "Quantum coupling parameter: %f\n"%string
      [arg_f (rs inp)];
    printf "Wave-vector resolution: %f\n"%string
      [arg_f (dx inp)];
    printf "Error for convergence: %.5e\n"%string
      [arg_f (err_min_iter inp)];
    printf "Mixing parameter: %f\n"%string
      [arg_f (a_mix inp)];
    printf "Chemical potential (low and high bound): %f %f\n"%string
      [arg_f (mu_lo inp); arg_f (mu_hi inp)];
    printf "Wave-vector cutoff: %f\n"%string
      [arg_f (xmax inp)];
    printf "Number of Matsubara frequencies: %d\n"%string
      [arg_d (nl inp)];
    printf "Number of grid points: %d\n"%string
      [arg_d (nIter inp)];
    printf "Maximum number of iterations: %d\n"%string
      [arg_d (nIter inp)];
    printf "Number of threads: %d\n"%string
      [arg_d (nThreads inp)];
    printf "Mode: %s\n"%string
      [arg_s (mode inp)];
    printf "Guess file 1: %s\n"%string
      [arg_s (guess_file1 inp)];
    printf "Guess file 2: %s\n"%string
      [arg_s (guess_file2 inp)];
    printf "IET mapping: %s\n"%string
      [arg_s (iet_mapping inp)];
    printf "Coupling parameter resolution (VS schemes): %f\n"%string
      [arg_f (vs_drs inp)];
    printf "Degeneracy parameter resolution (VS schemes): %f\n"%string
      [arg_f (vs_dt inp)];
    printf "Free parameter for VS schemes: %f\n"%string
      [arg_f (vs_alpha inp)];
    printf "File for thermodynamic integration (VS): %s\n"%string
      [arg_s (vs_thermo_file inp)];
    printf "Error for convergence (VS): %f\n"%string
      [arg_f (vs_err_min_iter inp)];
    printf "Mixing parameter (VS): %f\n"%string
      [arg_f (vs_a_mix inp)];
    printf "Enforce CSR (VS): %d\n"%string
      [arg_d (vs_solve_csr inp)];
    printf "Frequency resolution (dynamic): %f\n"%string
      [arg_f (dyn_dW inp)];
    printf "Frequency cutoff (dynamic): %f\n"%string
      [arg_f (dyn_Wmax inp)];
    printf "Target wave-vector (dynamic): %f\n"%string
      [arg_f (dyn_xtarget inp)];
    printf "-------------------------------------\n"%string
      []
  ].

(** ** The C++ classes: integration limits of the ground-state structure
    factor *)

(** The limits [yMin] and [yMax] that [Rpa::computeSsfGround] passes to
    [SsfGround] for the wave-vector [x]. *)
Definition Rpa_computeSsfGround_limits (x : R) : R * R :=
  let yMin := 0 in
  let yMin := if Rgtb x 2 then x * (x - 2) else yMin in
  let yMax := x * (x + 2) in
  (yMin, yMax).

(** ** The program over binary64

    Whether a run is accepted or refused, whether a loop goes on or stops
    and how many points a grid has are discrete outcomes: they can depend
    on rounding and on NaN, which the reading of a [double] as a real
    number leaves out. The functions that decide them are embedded a
    second time, under their own names in the module [B64], with [double]
    the binary64 numbers of IEEE 754 ([PrimFloat.float]): [+], [-], [*],
    [/] and [sqrt] round to nearest, ties to even, each operation on its
    own (no fused multiply-add, no extended precision), and a comparison
    with a NaN operand is false. An [int] compared with [0.0] is converted
    exactly, so the comparison is the one of the integers. *)

Module B64.
Import PrimFloat.
Local Open Scope float_scope.

(** [(int)floor(x)]: undefined for a NaN, an infinity and a value whose
    floor is outside the range of [int]. A finite double is
    [(-1)^s * m * 2^e], and [Z.shiftl z e] is [floor (z * 2^e)]. *)
Definition int_of_floor (x : float) : option Z :=
  match FloatOps.Prim2SF x with
  | SpecFloat.S754_zero _ => Some 0%Z
  | SpecFloat.S754_finite s m e =>
      let z := Z.shiftl (if s then Z.neg m else Z.pos m) e in
      if ((INT_MIN <=? z) && (z <=? INT_MAX))%Z then Some z else None
  | _ => None
  end.

(** [M_PI] of math.h, 3.14159265358979323846 rounded to binary64. *)
Definition M_PI : float := 0x1.921fb54442d18p+1.

(** The functions of the C mathematical library that the static solver
    calls. They are external, and their rounding is not fixed by the
    language: the solver is written against this interface. *)
Record libm : Type := mkLibm {
  log : float -> float;
  pow : float -> float -> float
}.

(** What a test [x <= 0.0], respectively [x < 0.0], lets pass. *)
Definition positive_or_nan (x : float) : Prop :=
  (0 <? x) = true \/ is_nan x = true.

Definition not_negative_or_nan (x : float) : Prop :=
  (0 <=? x) = true \/ is_nan x = true.

(** *** The input record *)

Record input : Type := mkInput {
  stls_guess_file : string;
  qstls_guess_file : string;
  qstls_fixed_file : string;
  qstls_iet_fixed_file : string;
  qstls_iet_static : Z;
  Theta : float;
  rs : float;
  dx : float;
  err_min_iter : float;
  a_mix : float;
  mu_lo : float;
  mu_hi : float;
  mu : float;
  xmax : float;
  nl : Z;
  nx : Z;
  nIter : Z;
  theory : string;
  nThreads : Z;
  mode : string;
  guess_file1 : string;
  guess_file2 : string;
  iet_mapping : string;
  vs_drs : float;
  vs_dt : float;
  vs_alpha : float;
  vs_thermo_file : string;
  vs_err_min_iter : float;
  vs_a_mix : float;
  vs_solve_csr : Z;
  dyn_dW : float;
  dyn_Wmax : float;
  dyn_xtarget : float;
  nW : Z;
  dyn_adr_file : string;
  phi_file : string
}.

Definition set_nx (v : Z) (i : input) : input :=
  {| stls_guess_file := stls_guess_file i;
     qstls_guess_file := qstls_guess_file i;
     qstls_fixed_file := qstls_fixed_file i;
     qstls_iet_fixed_file := qstls_iet_fixed_file i;
     qstls_iet_static := qstls_iet_static i;
     Theta := Theta i;
     rs := rs i;
     dx := dx i;
     err_min_iter := err_min_iter i;
     a_mix := a_mix i;
     mu_lo := mu_lo i;
     mu_hi := mu_hi i;
     mu := mu i;
     xmax := xmax i;
     nl := nl i;
     nx := v;
     nIter := nIter i;
     theory := theory i;
     nThreads := nThreads i;
     mode := mode i;
     guess_file1 := guess_file1 i;
     guess_file2 := guess_file2 i;
     iet_mapping := iet_mapping i;
     vs_drs := vs_drs i;
     vs_dt := vs_dt i;
     vs_alpha := vs_alpha i;
     vs_thermo_file := vs_thermo_file i;
     vs_err_min_iter := vs_err_min_iter i;
     vs_a_mix := vs_a_mix i;
     vs_solve_csr := vs_solve_csr i;
     dyn_dW := dyn_dW i;
     dyn_Wmax := dyn_Wmax i;
     dyn_xtarget := dyn_xtarget i;
     nW := nW i;
     dyn_adr_file := dyn_adr_file i;
     phi_file := phi_file i |}.

Definition set_dx (v : float) (i : input) : input :=
  {| stls_guess_file := stls_guess_file i;
     qstls_guess_file := qstls_guess_file i;
     qstls_fixed_file := qstls_fixed_file i;
     qstls_iet_fixed_file := qstls_iet_fixed_file i;
     qstls_iet_static := qstls_iet_static i;
     Theta := Theta i;
     rs := rs i;
     dx := v;
     err_min_iter := err_min_iter i;
     a_mix := a_mix i;
     mu_lo := mu_lo i;
     mu_hi := mu_hi i;
     mu := mu i;
     xmax := xmax i;
     nl := nl i;
     nx := nx i;
     nIter := nIter i;
     theory := theory i;
     nThreads := nThreads i;
     mode := mode i;
     guess_file1 := guess_file1 i;
     guess_file2 := guess_file2 i;
     iet_mapping := iet_mapping i;
     vs_drs := vs_drs i;
     vs_dt := vs_dt i;
     vs_alpha := vs_alpha i;
     vs_thermo_file := vs_thermo_file i;
     vs_err_min_iter := vs_err_min_iter i;
     vs_a_mix := vs_a_mix i;
     vs_solve_csr := vs_solve_csr i;
     dyn_dW := dyn_dW i;
     dyn_Wmax := dyn_Wmax i;
     dyn_xtarget := dyn_xtarget i;
     nW := nW i;
     dyn_adr_file := dyn_adr_file i;
     phi_file := phi_file i |}.

Definition set_xmax (v : float) (i : input) : input :=
  {| stls_guess_file := stls_guess_file i;
     qstls_guess_file := qstls_guess_file i;
     qstls_fixed_file := qstls_fixed_file i;
     qstls_iet_fixed_file := qstls_iet_fixed_file i;
     qstls_iet_static := qstls_iet_static i;
     Theta := Theta i;
     rs := rs i;
     dx := dx i;
     err_min_iter := err_min_iter i;
     a_mix := a_mix i;
     mu_lo := mu_lo i;
     mu_hi := mu_hi i;
     mu := mu i;
     xmax := v;
     nl := nl i;
     nx := nx i;
     nIter := nIter i;
     theory := theory i;
     nThreads := nThreads i;
     mode := mode i;
     guess_file1 := guess_file1 i;
     guess_file2 := guess_file2 i;
     iet_mapping := iet_mapping i;
     vs_drs := vs_drs i;
     vs_dt := vs_dt i;
     vs_alpha := vs_alpha i;
     vs_thermo_file := vs_thermo_file i;
     vs_err_min_iter := vs_err_min_iter i;
     vs_a_mix := vs_a_mix i;
     vs_solve_csr := vs_solve_csr i;
     dyn_dW := dyn_dW i;
     dyn_Wmax := dyn_Wmax i;
     dyn_xtarget := dyn_xtarget i;
     nW := nW i;
     dyn_adr_file := dyn_adr_file i;
     phi_file := phi_file i |}.

Definition set_err_min_iter (v : float) (i : input) : input :=
  {| stls_guess_file := stls_guess_file i;
     qstls_guess_file := qstls_guess_file i;
     qstls_fixed_file := qstls_fixed_file i;
     qstls_iet_fixed_file := qstls_iet_fixed_file i;
     qstls_iet_static := qstls_iet_static i;
     Theta := Theta i;
     rs := rs i;
     dx := dx i;
     err_min_iter := v;
     a_mix := a_mix i;
     mu_lo := mu_lo i;
     mu_hi := mu_hi i;
     mu := mu i;
     xmax := xmax i;
     nl := nl i;
     nx := nx i;
     nIter := nIter i;
     theory := theory i;
     nThreads := nThreads i;
     mode := mode i;
     guess_file1 := guess_file1 i;
     guess_file2 := guess_file2 i;
     iet_mapping := iet_mapping i;
     vs_drs := vs_drs i;
     vs_dt := vs_dt i;
     vs_alpha := vs_alpha i;
     vs_thermo_file := vs_thermo_file i;
     vs_err_min_iter := vs_err_min_iter i;
     vs_a_mix := vs_a_mix i;
     vs_solve_csr := vs_solve_csr i;
     dyn_dW := dyn_dW i;
     dyn_Wmax := dyn_Wmax i;
     dyn_xtarget := dyn_xtarget i;
     nW := nW i;
     dyn_adr_file := dyn_adr_file i;
     phi_file := phi_file i |}.

Definition set_nIter (v : Z) (i : input) : input :=
  {| stls_guess_file := stls_guess_file i;
     qstls_guess_file := qstls_guess_file i;
     qstls_fixed_file := qstls_fixed_file i;
     qstls_iet_fixed_file := qstls_iet_fixed_file i;
     qstls_iet_static := qstls_iet_static i;
     Theta := Theta i;
     rs := rs i;
     dx := dx i;
     err_min_iter := err_min_iter i;
     a_mix := a_mix i;
     mu_lo := mu_lo i;
     mu_hi := mu_hi i;
     mu := mu i;
     xmax := xmax i;
     nl := nl i;
     nx := nx i;
     nIter := v;
     theory := theory i;
     nThreads := nThreads i;
     mode := mode i;
     guess_file1 := guess_file1 i;
     guess_file2 := guess_file2 i;
     iet_mapping := iet_mapping i;
     vs_drs := vs_drs i;
     vs_dt := vs_dt i;
     vs_alpha := vs_alpha i;
     vs_thermo_file := vs_thermo_file i;
     vs_err_min_iter := vs_err_min_iter i;
     vs_a_mix := vs_a_mix i;
     vs_solve_csr := vs_solve_csr i;
     dyn_dW := dyn_dW i;
     dyn_Wmax := dyn_Wmax i;
     dyn_xtarget := dyn_xtarget i;
     nW := nW i;
     dyn_adr_file := dyn_adr_file i;
     phi_file := phi_file i |}.

Definition set_rs (v : float) (i : input) : input :=
  {| stls_guess_file := stls_guess_file i;
     qstls_guess_file := qstls_guess_file i;
     qstls_fixed_file := qstls_fixed_file i;
     qstls_iet_fixed_file := qstls_iet_fixed_file i;
     qstls_iet_static := qstls_iet_static i;
     Theta := Theta i;
     rs := v;
     dx := dx i;
     err_min_iter := err_min_iter i;
     a_mix := a_mix i;
     mu_lo := mu_lo i;
     mu_hi := mu_hi i;
     mu := mu i;
     xmax := xmax i;
     nl := nl i;
     nx := nx i;
     nIter := nIter i;
     theory := theory i;
     nThreads := nThreads i;
     mode := mode i;
     guess_file1 := guess_file1 i;
     guess_file2 := guess_file2 i;
     iet_mapping := iet_mapping i;
     vs_drs := vs_drs i;
     vs_dt := vs_dt i;
     vs_alpha := vs_alpha i;
     vs_thermo_file := vs_thermo_file i;
     vs_err_min_iter := vs_err_min_iter i;
     vs_a_mix := vs_a_mix i;
     vs_solve_csr := vs_solve_csr i;
     dyn_dW := dyn_dW i;
     dyn_Wmax := dyn_Wmax i;
     dyn_xtarget := dyn_xtarget i;
     nW := nW i;
     dyn_adr_file := dyn_adr_file i;
     phi_file := phi_file i |}.

Definition set_Theta (v : float) (i : input) : input :=
  {| stls_guess_file := stls_guess_file i;
     qstls_guess_file := qstls_guess_file i;
     qstls_fixed_file := qstls_fixed_file i;
     qstls_iet_fixed_file := qstls_iet_fixed_file i;
     qstls_iet_static := qstls_iet_static i;
     Theta := v;
     rs := rs i;
     dx := dx i;
     err_min_iter := err_min_iter i;
     a_mix := a_mix i;
     mu_lo := mu_lo i;
     mu_hi := mu_hi i;
     mu := mu i;
     xmax := xmax i;
     nl := nl i;
     nx := nx i;
     nIter := nIter i;
     theory := theory i;
     nThreads := nThreads i;
     mode := mode i;
     guess_file1 := guess_file1 i;
     guess_file2 := guess_file2 i;
     iet_mapping := iet_mapping i;
     vs_drs := vs_drs i;
     vs_dt := vs_dt i;
     vs_alpha := vs_alpha i;
     vs_thermo_file := vs_thermo_file i;
     vs_err_min_iter := vs_err_min_iter i;
     vs_a_mix := vs_a_mix i;
     vs_solve_csr := vs_solve_csr i;
     dyn_dW := dyn_dW i;
     dyn_Wmax := dyn_Wmax i;
     dyn_xtarget := dyn_xtarget i;
     nW := nW i;
     dyn_adr_file := dyn_adr_file i;
     phi_file := phi_file i |}.

(** The record that [set_default_parse_opt] leaves: [0.1] is the double
    [0x1.999999999999ap-4], [1e-5] is [0x1.4f8b588e368f1p-17], [0.01] is
    [0x1.47ae147ae147bp-7] and [1e-3] is [0x1.0624dd2f1a9fcp-10]. The
    fields it does not assign ([nx], [nW], [mu] and two file names) are
    given neutral values. *)
Definition default_input : input := {|
  stls_guess_file := NO_FILE_STR;
  qstls_guess_file := NO_FILE_STR;
  qstls_fixed_file := NO_FILE_STR;
  qstls_iet_fixed_file := NO_FILE_STR;
  qstls_iet_static := 0;
  Theta := 1;
  rs := 1;
  dx := 0x1.999999999999ap-4;
  err_min_iter := 0x1.4f8b588e368f1p-17;
  a_mix := 0x1.999999999999ap-4;
  mu_lo := -10;
  mu_hi := 10;
  mu := 0;
  xmax := 20;
  nl := 128;
  nx := 0;
  nIter := 1000;
  theory := "STLS";
  nThreads := 1;
  mode := "static";
  guess_file1 := NO_FILE_STR;
  guess_file2 := NO_FILE_STR;
  iet_mapping := "standard";
  vs_drs := 0x1.47ae147ae147bp-7;
  vs_dt := 0x1.47ae147ae147bp-7;
  vs_alpha := 0.5;
  vs_thermo_file := NO_FILE_STR;
  vs_err_min_iter := 0x1.0624dd2f1a9fcp-10;
  vs_a_mix := 1;
  vs_solve_csr := 1;
  dyn_dW := 0x1.999999999999ap-4;
  dyn_Wmax := 20;
  dyn_xtarget := 1;
  nW := 0;
  dyn_adr_file := NO_FILE_STR;
  phi_file := NO_FILE_STR
|}.

(** *** The input reader *)

(** [check_input]: the lines written to [stderr], and [Fatal] when the
    function ends the run. *)
Definition check_input (inp : input) : list string * outcome unit :=
  let st := ([], false) in
  let st := check (dx inp <=? 0)
    "The resolution of the wave vector grid must be larger than zero" st in
  let st := check (xmax inp <=? 0)
    "The cutoff of the wave vector grid must be larger than zero" st in
  let st := check (nIter inp <? 0)%Z
    "The number of iterations must be a positive number" st in
  let st := check (err_min_iter inp <=? 0)
    "The minimum error for convergence must be larger than zero" st in
  let st := check (a_mix inp <=? 0)
    "The mixing parameter must be larger than 0.0" st in
  let st := check (nl inp <=? 0)%Z
    "The number of Matsubara frequencies must be larger than zero" st in
  let st := check (nThreads inp <=? 0)%Z
    "The number of OMP threads must be larger than zero" st in
  let st := check (rs inp <? 0)
    "The quantum coupling parameter must be larger than zero" st in
  let st := check (Theta inp <? 0)
    "The quantum degeneracy parameter must be positive" st in
  let st := check (vs_drs inp <=? 0)
    "The resolution of the coupling parameter grid must be larger than zero" st in
  let st := check (vs_dt inp <=? 0)
    "The resolution of the degeneracy parameter grid must be larger than zero" st in
  let st := check (vs_alpha inp <=? 0)
    "The free parameter for the VS schemes must be larger than zero" st in
  let st := check (vs_err_min_iter inp <=? 0)
    "The minimum error for convergence must be larger than zero" st in
  let st := check (vs_a_mix inp <=? 0)
    "The mixing parameter must be larger than 0.0" st in
  let st := check (dyn_dW inp <=? 0)
    "The resolution of the frequency grid must be larger than zero" st in
  let st := check (dyn_Wmax inp <=? 0)
    "The cutoff of the frequency grid must be larger than zero" st in
  let st := check (dyn_xtarget inp <=? 0)
    "The wave-vector used to compute the dynamic properties  must be larger than zero" st in
  if snd st then (fst st, Fatal "exit(EXIT_FAILURE)") else (fst st, Done tt).

(** *** The wave-vector grid *)

(** [in->nx = (int)floor(in->xmax/in->dx);] *)
Definition get_grid_size (inp : input) : option input :=
  match int_of_floor (xmax inp / dx inp) with
  | Some n => Some (set_nx n inp)
  | None => None
  end.

(** [xx] has the [nx] cells of [alloc_stls_arrays]. *)
Definition wave_vector_grid (xx : list float) (inp : input) : list float :=
  let xx := wr xx 0 (dx inp / 2) in
  for_range 1 (nx inp) (fun ii xx => wr xx ii (rd 0 xx (ii - 1) + dx inp)) xx.

(** [Rpa::buildWvGrid]. [wvg] is empty when the constructor calls it. *)
Definition Rpa_buildWvGrid (fuel : nat) (dx_ xmax_ : float) : outcome (list float) :=
  let wvg := [] ++ [0] in
  if xmax_ <? dx_ then
    Fatal "The wave-vector grid cutoff must be larger than the resolution"
  else
    match while_loop fuel
            (fun wvg => last wvg 0 <? xmax_)
            (fun wvg => wvg ++ [last wvg 0 + dx_])
            wvg with
    | Some wvg => Done wvg
    | None => OutOfFuel
    end.

(** *** The static solver *)

Definition slfc (M : libm) (yy xx SS : float) : float :=
  let yy2 := yy * yy in
  let xx2 := xx * xx in
  if (0 <? xx) && (0 <? yy) then
    if yy <? xx then
      -3 / 4 * yy2 * (SS - 1)
      * (1 + (xx2 - yy2) / (2 * xx * yy) * log M ((xx + yy) / (xx - yy)))
    else if xx <? yy then
      -3 / 4 * yy2 * (SS - 1)
      * (1 + (xx2 - yy2) / (2 * xx * yy) * log M ((xx + yy) / (yy - xx)))
    else
      yy2 * (SS - 1)
  else 0.

Definition compute_slfc (M : libm) (GG SS xx : list float) (inp : input)
  : list float :=
  for_loop (nx inp)
    (fun ii GG =>
       let GG := wr GG ii 0 in
       let GG :=
         for_loop (nx inp - 1)
           (fun jj GG =>
              wr GG ii (rd 0 GG ii + slfc M (rd 0 xx jj) (rd 0 xx ii) (rd 0 SS jj)))
           GG in
       wr GG ii (rd 0 GG ii * dx inp))
    GG.

Definition compute_ssf (M : libm) (SS SSHF GG phi xx : list float) (inp : input)
  : list float :=
  let lambda := pow M (4 / (9 * M_PI)) (1 / 3) in
  let pilambda := M_PI * lambda in
  let ff := 4 * lambda * lambda * rs inp in
  let ff3_2T := 3 * Theta inp * ff / 2 in
  for_loop (nx inp)
    (fun ii SS =>
       let xx2 := rd 0 xx ii * rd 0 xx ii in
       let BB := 0 in
       if 0 <? rd 0 xx ii then
         let BB :=
           for_loop (nl inp)
             (fun ll BB =>
                let phixl := rd 0 phi (idx2 ii ll (nx inp)) in
                let BB_tmp :=
                  phixl * phixl / (pilambda * xx2 + ff * (1 - rd 0 GG ii) * phixl) in
                let BB_tmp := if (ll >? 0)%Z then BB_tmp * 2 else BB_tmp in
                BB + BB_tmp)
             BB in
         wr SS ii (rd 0 SSHF ii - ff3_2T * (1 - rd 0 GG ii) * BB)
       else
         wr SS ii 0)
    SS.

(** The loop of [solve_stls] and its state. *)
Record stls_state : Type := mkStls {
  st_GG : list float;
  st_GG_new : list float;
  st_SS : list float;
  st_iter_err : float;
  st_iter_counter : Z
}.

Definition stls_initial_guess (M : libm) (GG GG_new SS SSHF phi xx : list float)
           (inp : input) : stls_state :=
  let '(GG, GG_new) :=
    for_loop (nx inp)
      (fun ii '(GG, GG_new) => (wr GG ii 0, wr GG_new ii 1))
      (GG, GG_new) in
  let SS := compute_ssf M SS SSHF GG phi xx inp in
  {| st_GG := GG; st_GG_new := GG_new; st_SS := SS;
     st_iter_err := 1; st_iter_counter := 0 |}.

(** [iter_counter < in.nIter && iter_err > in.err_min_iter] *)
Definition stls_cond (inp : input) (s : stls_state) : bool :=
  (st_iter_counter s <? nIter inp)%Z && (err_min_iter inp <? st_iter_err s).

Definition stls_body (M : libm) (SSHF phi xx : list float) (inp : input)
           (s : stls_state) : stls_state :=
  let GG_new := compute_slfc M (st_GG_new s) (st_SS s) xx inp in
  let iter_err := 0 in
  let iter_counter := (st_iter_counter s + 1)%Z in
  let '(iter_err, GG) :=
    for_loop (nx inp)
      (fun ii '(iter_err, GG) =>
         (iter_err + (rd 0 GG_new ii - rd 0 GG ii) * (rd 0 GG_new ii - rd 0 GG ii),
          wr GG ii (a_mix inp * rd 0 GG_new ii + (1 - a_mix inp) * rd 0 GG ii)))
      (iter_err, st_GG s) in
  let iter_err := sqrt iter_err in
  let SS := compute_ssf M (st_SS s) SSHF GG phi xx inp in
  {| st_GG := GG; st_GG_new := GG_new; st_SS := SS;
     st_iter_err := iter_err; st_iter_counter := iter_counter |}.

Definition solve_stls (M : libm) (fuel : nat) (GG GG_new SS SSHF phi xx : list float)
           (inp : input) : option stls_state :=
  while_loop fuel (stls_cond inp) (stls_body M SSHF phi xx inp)
    (stls_initial_guess M GG GG_new SS SSHF phi xx inp).

(** The sum [sum_{i < n} (G_new[i] - G[i])^2] as the loop accumulates it,
    from index 0 upwards, and its square root: the residual
    [||G_new - G||_2] in binary64. *)
Fixpoint sum_sq_upto (n : nat) (G_new G : list float) : float :=
  match n with
  | O => 0
  | S k =>
      sum_sq_upto k G_new G
      + (rd 0 G_new (Z.of_nat k) - rd 0 G (Z.of_nat k))
        * (rd 0 G_new (Z.of_nat k) - rd 0 G (Z.of_nat k))
  end.

Definition residual2 (n : Z) (G_new G : list float) : float :=
  sqrt (sum_sq_upto (Z.to_nat n) G_new G).

End B64.

(** ** The wave-vector grid under rounding

    The number of points of a grid is decided by rounded results: the
    quotient [xmax/dx] in [get_grid_size], the running sums in
    [wave_vector_grid] and [Rpa::buildWvGrid]. Here the three functions are
    embedded with every arithmetic result passed through [fl], the rounding
    of a real number to a double; only [floor], whose result is exact, is
    left as it is. The theorems about them assume of [fl] what rounding to nearest in
    binary64 satisfies as long as no result overflows or falls in the
    subnormal range: it is monotone, it leaves the integers up to [2^53]
    unchanged, and its relative error is at most [unit_roundoff]. With the
    identity for [fl] the functions are those of the exact reading. *)

Definition unit_roundoff : R := / 2 ^ 53.

Module Rnd.
Section Rounding.
Variable fl : R -> R.

(** [in->nx = (int)floor(in->xmax/in->dx);] *)
Definition get_grid_size (inp : input) : option input :=
  match int_of_double (c_floor (fl (xmax inp / dx inp))) with
  | Some n => Some (set_nx n inp)
  | None => None
  end.

(** [xx] has the [nx] cells of [alloc_stls_arrays]. *)
Definition wave_vector_grid (xx : list R) (inp : input) : list R :=
  let xx := wr xx 0 (fl (dx inp / 2)) in
  for_range 1 (nx inp) (fun ii xx => wr xx ii (fl (rd 0 xx (ii - 1) + dx inp))) xx.

(** The value reached from [x0] by [k] rounded additions of [dx_]: what the
    loops [xx[ii] = xx[ii-1] + in.dx] and
    [wvg.push_back(wvg.back() + dx)] store in their [k]-th pass. *)
Definition running_sum (x0 dx_ : R) (k : nat) : R :=
  Nat.iter k (fun v => fl (v + dx_)) x0.

(** [Rpa::buildWvGrid]. [wvg] is empty when the constructor calls it. *)
Definition Rpa_buildWvGrid (fuel : nat) (dx_ xmax_ : R) : outcome (list R) :=
  let wvg := [] ++ [0] in
  if Rltb xmax_ dx_ then
    Fatal "The wave-vector grid cutoff must be larger than the resolution"
  else
    match while_loop fuel
            (fun wvg => Rltb (last wvg 0) xmax_)
            (fun wvg => wvg ++ [fl (last wvg 0 + dx_)])
            wvg with
    | Some wvg => Done wvg
    | None => OutOfFuel
    end.

End Rounding.
End Rnd.

(* ================================================================== *)
(** * Properties                                                       *)
(* ================================================================== *)

(** ** Comparisons *)

Lemma Rgtb_true a b : Rgtb a b = true <-> a > b.
Proof. unfold Rgtb; destruct (Rgt_dec a b); split; intros; try easy. Qed.
Lemma Rgtb_false a b : Rgtb a b = false <-> ~ a > b.
Proof. unfold Rgtb; destruct (Rgt_dec a b); split; intros; try easy. Qed.
Lemma Rltb_true a b : Rltb a b = true <-> a < b.
Proof. unfold Rltb; destruct (Rlt_dec a b); split; intros; try easy. Qed.
Lemma Rltb_false a b : Rltb a b = false <-> ~ a < b.
Proof. unfold Rltb; destruct (Rlt_dec a b); split; intros; try easy. Qed.
Lemma Reqb_true a b : Reqb a b = true <-> a = b.
Proof. unfold Reqb; destruct (Req_dec_T a b); split; intros; try easy. Qed.
Lemma Reqb_false a b : Reqb a b = false <-> a <> b.
Proof. unfold Reqb; destruct (Req_dec_T a b); split; intros; try easy. Qed.

(** ** Arrays and loops *)

Section ArrayFacts.
Context {A : Type}.
Variable d : A.

Lemma length_upd (a : list A) n v : length (upd a n v) = length a.
Proof. revert n; induction a as [|h t IH]; intros [|n]; simpl; auto. Qed.

Lemma nth_upd_eq (a : list A) n v : (n < length a)%nat -> nth n (upd a n v) d = v.
Proof.
  revert n; induction a as [|h t IH]; intros [|n] H; simpl in *; try lia; auto.
  apply IH. lia.
Qed.

Lemma nth_upd_neq (a : list A) n m v : n <> m -> nth m (upd a n v) d = nth m a d.
Proof.
  revert n m; induction a as [|h t IH]; intros [|n] [|m] H; simpl; auto; try lia.
Qed.

Lemma upd_upd (a : list A) n v w : upd (upd a n v) n w = upd a n w.
Proof. revert n; induction a as [|h t IH]; intros [|n]; simpl; auto. now rewrite IH. Qed.

Lemma length_wr (a : list A) i v : length (wr a i v) = length a.
Proof. unfold wr. destruct (i <? 0)%Z; auto using length_upd. Qed.

Lemma rd_wr_eq (a : list A) i v :
  (0 <= i < Z.of_nat (length a))%Z -> rd d (wr a i v) i = v.
Proof.
  intros H. unfold rd, wr. destruct (Z.ltb_spec i 0); [lia|].
  apply nth_upd_eq. lia.
Qed.

Lemma rd_wr_neq (a : list A) i j v : i <> j -> rd d (wr a i v) j = rd d a j.
Proof.
  intros H. unfold rd, wr.
  destruct (Z.ltb_spec j 0); auto. destruct (Z.ltb_spec i 0); auto.
  apply nth_upd_neq. lia.
Qed.

Lemma wr_wr (a : list A) i v w : wr (wr a i v) i w = wr a i w.
Proof. unfold wr. destruct (i <? 0)%Z; auto using upd_upd. Qed.
End ArrayFacts.

Lemma for_loop_nonpos {St} (n : Z) (body : Z -> St -> St) s :
  (n <= 0)%Z -> for_loop n body s = s.
Proof.
  intros H. unfold for_loop. replace (Z.to_nat n) with 0%nat by lia. reflexivity.
Qed.

Lemma for_loop_succ {St} (n : Z) (body : Z -> St -> St) s :
  (0 <= n)%Z -> for_loop (n + 1) body s = body n (for_loop n body s).
Proof.
  intros H. unfold for_loop.
  replace (Z.to_nat (n + 1)) with (S (Z.to_nat n)) by lia.
  rewrite seq_S, fold_left_app. simpl. now rewrite Z2Nat.id.
Qed.

(** The loop-invariant rule of [for_loop]. *)
Lemma for_loop_inv {St} (P : Z -> St -> Prop) (n : Z) (body : Z -> St -> St) s :
  (0 <= n)%Z ->
  P 0%Z s ->
  (forall i t, (0 <= i < n)%Z -> P i t -> P (i + 1)%Z (body i t)) ->
  P n (for_loop n body s).
Proof.
  intros Hn H0 Hstep.
  rewrite <- (Z2Nat.id n Hn).
  assert (Hk : (Z.to_nat n <= Z.to_nat n)%nat) by lia.
  revert Hk. generalize (Z.to_nat n) at 1 3 4 as k.
  induction k as [|k IH]; intros Hk.
  - simpl. rewrite for_loop_nonpos by lia. exact H0.
  - rewrite Nat2Z.inj_succ. unfold Z.succ.
    rewrite for_loop_succ by lia. apply Hstep; [lia|]. apply IH. lia.
Qed.

Lemma for_loop_ext {St} (n : Z) (f g : Z -> St -> St) s :
  (forall i t, (0 <= i < n)%Z -> f i t = g i t) ->
  for_loop n f s = for_loop n g s.
Proof.
  intros H. destruct (Z.le_gt_cases 0 n) as [Hn|Hn].
  - apply (for_loop_inv (fun k t => t = for_loop k g s) n f s Hn).
    + now rewrite for_loop_nonpos by lia.
    + intros i t Hi ->. rewrite for_loop_succ by lia. apply H. lia.
  - now rewrite !for_loop_nonpos by lia.
Qed.


Lemma sum_Z_succ n f : (0 <= n)%Z -> sum_Z (n + 1) f = sum_Z n f + f n.
Proof.
  intros H. unfold sum_Z. replace (Z.to_nat (n + 1)) with (S (Z.to_nat n)) by lia.
  simpl. now rewrite Z2Nat.id.
Qed.

Lemma for_loop_sum (n : Z) (f : Z -> R) (acc : R) :
  for_loop n (fun i s => s + f i) acc = acc + sum_Z n f.
Proof.
  destruct (Z.le_gt_cases 0 n) as [Hn|Hn].
  - apply (for_loop_inv (fun k t => t = acc + sum_Z k f) n _ acc Hn).
    + unfold sum_Z. simpl. ring.
    + intros i t Hi ->. rewrite sum_Z_succ by lia. ring.
  - rewrite for_loop_nonpos by lia. unfold sum_Z. replace (Z.to_nat n) with 0%nat by lia. simpl. ring.
Qed.

(** A loop that stores [F i] in cell [i]. *)
Lemma for_loop_fill (n : Z) (F : Z -> R) (a : list R) :
  (n <= Z.of_nat (length a))%Z ->
  let r := for_loop n (fun i a => wr a i (F i)) a in
  length r = length a /\
  (forall i, (0 <= i < n)%Z -> rd 0 r i = F i) /\
  (forall i, (n <= i)%Z -> rd 0 r i = rd 0 a i).
Proof.
  intros Hlen r. subst r.
  destruct (Z.le_gt_cases 0 n) as [Hn|Hn].
  - apply (for_loop_inv (fun k t => (k <= n)%Z -> length t = length a /\
        (forall i, (0 <= i < k)%Z -> rd 0 t i = F i) /\
        (forall i, (k <= i)%Z -> rd 0 t i = rd 0 a i)) n _ a Hn); [ | | lia].
    + intros _. repeat split; auto. intros; lia.
    + intros i t Hi IH _. destruct IH as (L & Hlo & Hhi); [lia|].
      split; [now rewrite length_wr|]. split.
      * intros j Hj. destruct (Z.eq_dec j i) as [->|Hne].
        -- apply rd_wr_eq. lia.
        -- rewrite rd_wr_neq by lia. apply Hlo. lia.
      * intros j Hj. rewrite rd_wr_neq by lia. apply Hhi. lia.
  - rewrite for_loop_nonpos by lia. repeat split; auto. intros; lia.
Qed.

Lemma sum_Z_ext n f g :
  (forall i, (0 <= i < n)%Z -> f i = g i) -> sum_Z n f = sum_Z n g.
Proof.
  unfold sum_Z. intros H.
  assert (Hk : forall k, (k <= Z.to_nat n)%nat -> sum_upto k f = sum_upto k g).
  { induction k as [|k IH]; intros Hk; simpl; [reflexivity|].
    rewrite IH by lia. rewrite H by lia. reflexivity. }
  apply Hk. lia.
Qed.

Lemma sum_Z_scal n c f : c * sum_Z n f = sum_Z n (fun i => c * f i).
Proof.
  unfold sum_Z. induction (Z.to_nat n) as [|k IH]; simpl; [ring|].
  rewrite <- IH. ring.
Qed.

Lemma lambda_pos : 0 < lambda.
Proof. unfold lambda, Rpower. apply exp_pos. Qed.

Lemma compute_ssf_cell (SS SSHF GG phi xx : list R) (inp : input) (i : Z) :
  (nx inp <= Z.of_nat (length SS))%Z ->
  (0 <= i < nx inp)%Z ->
  rd 0 (compute_ssf SS SSHF GG phi xx inp) i =
  if Rgtb (rd 0 xx i) 0
  then ssf_formula (Theta inp) (rs inp) (rd 0 xx i) (rd 0 SSHF i) (rd 0 GG i)
         (nl inp) (fun l => rd 0 phi (idx2 i l (nx inp)))
  else 0.
Proof.
  intros Hlen Hi. unfold compute_ssf. fold lambda.
  set (F := fun ii : Z =>
    if Rgtb (rd 0 xx ii) 0
    then ssf_formula (Theta inp) (rs inp) (rd 0 xx ii) (rd 0 SSHF ii) (rd 0 GG ii)
           (nl inp) (fun l => rd 0 phi (idx2 ii l (nx inp)))
    else 0).
  rewrite (for_loop_ext _ _ (fun ii a => wr a ii (F ii))).
  - destruct (for_loop_fill (nx inp) F SS Hlen) as (_ & H & _). now apply H.
  - intros ii t Hii. unfold F. destruct (Rgtb (rd 0 xx ii) 0); [|reflexivity].
    f_equal. unfold ssf_formula.
    rewrite (for_loop_ext _ _ (fun ll BB => BB +
       w_matsubara ll * (rd 0 phi (idx2 ii ll (nx inp)) * rd 0 phi (idx2 ii ll (nx inp)))
       / (PI * lambda * (rd 0 xx ii * rd 0 xx ii)
          + 4 * (lambda * lambda) * rs inp * (1 - rd 0 GG ii) * rd 0 phi (idx2 ii ll (nx inp))))).
    + rewrite for_loop_sum. field.
    + intros l B Hl. f_equal. unfold w_matsubara.
      replace (4 * lambda * lambda * rs inp) with (4 * (lambda * lambda) * rs inp) by ring.
      destruct (l >? 0)%Z; unfold Rdiv; ring.
Qed.

Lemma Ssf_get_value (x Theta_ rs_ S_HF G : R) (nl_ : Z) (idr : list R) :
  Theta_ > 0 ->
  Ssf_get x Theta_ rs_ S_HF G nl_ idr =
  Done (if Reqb rs_ 0 then S_HF
        else if Reqb x 0 then 0
        else ssf_formula Theta_ rs_ x S_HF G nl_ (rd 0 idr)).
Proof.
  intros HT. unfold Ssf_get.
  assert (E : Rgtb Theta_ 0 = true) by now apply Rgtb_true.
  rewrite E. cbn [negb].
  destruct (Reqb rs_ 0); [reflexivity|].
  destruct (Reqb x 0) eqn:Ex; [reflexivity|].
  apply Reqb_false in Ex. f_equal.
  pose proof lambda_pos as HL. pose proof PI_RGT_0 as HP.
  set (P := PI * lambda * (x * x)).
  assert (Hxx : 0 < x * x) by (apply (Rsqr_pos_lt x Ex)).
  assert (HPpos : 0 < P).
  { unfold P. apply Rmult_lt_0_compat; [apply Rmult_lt_0_compat|]; lra. }
  assert (HPne : P <> 0) by lra.
  set (f := 4 * (lambda * lambda) * rs_).
  rewrite (for_loop_ext _ _ (fun l acc => acc +
       P * (w_matsubara l * (rd 0 idr l * rd 0 idr l) / (P + f * (1 - G) * rd 0 idr l)))).
  - rewrite for_loop_sum. rewrite <- sum_Z_scal. unfold ssf_formula. fold f. fold P.
    replace (15 / 10 * (4 * lambda * rs_ / PI) / (x * x)) with (3 / 2 * f / P).
    2:{ unfold f, P. field. repeat split; lra. }
    field. exact HPne.
  - intros l acc Hl. f_equal.
    replace (1 + 4 * lambda * rs_ / PI / (x * x) * (1 - G) * rd 0 idr l)
      with ((P + f * (1 - G) * rd 0 idr l) / P).
    2:{ unfold f, P. field. repeat split; lra. }
    unfold w_matsubara, Rdiv. rewrite Rinv_mult, Rinv_inv.
    destruct (l >? 0)%Z; ring.
Qed.

Lemma ssf_formula_rs0 Theta_ x S_HF G nl_ phi_i :
  ssf_formula Theta_ 0 x S_HF G nl_ phi_i = S_HF.
Proof. unfold ssf_formula. ring. Qed.

Lemma wr_rd_same (a : list R) i : wr a i (rd 0 a i) = a.
Proof.
  unfold wr, rd. destruct (i <? 0)%Z; [reflexivity|].
  generalize (Z.to_nat i) as n. induction a as [|h t IH]; intros [|n]; simpl; auto.
  now rewrite IH.
Qed.

(** A loop that accumulates into one cell. *)
Lemma for_loop_accumulate (m i : Z) (s : Z -> R) (a : list R) :
  (0 <= i < Z.of_nat (length a))%Z ->
  for_loop m (fun jj G => wr G i (rd 0 G i + s jj)) a
  = wr a i (rd 0 a i + sum_Z m s).
Proof.
  intros Hi. destruct (Z.le_gt_cases 0 m) as [Hm|Hm].
  - apply (for_loop_inv (fun k t => t = wr a i (rd 0 a i + sum_Z k s)) m _ a Hm).
    + unfold sum_Z; simpl. rewrite Rplus_0_r. symmetry; apply wr_rd_same.
    + intros j t Hj ->. rewrite wr_wr, rd_wr_eq by assumption.
      rewrite sum_Z_succ by lia. f_equal. ring.
  - rewrite for_loop_nonpos by lia. unfold sum_Z.
    replace (Z.to_nat m) with 0%nat by lia. simpl. rewrite Rplus_0_r.
    symmetry; apply wr_rd_same.
Qed.

Lemma compute_slfc_fill (GG SS xx : list R) (inp : input) :
  (nx inp <= Z.of_nat (length GG))%Z ->
  let r := compute_slfc GG SS xx inp in
  length r = length GG /\
  forall i, (0 <= i < nx inp)%Z ->
    rd 0 r i =
    sum_Z (nx inp - 1) (fun j => slfc (rd 0 xx j) (rd 0 xx i) (rd 0 SS j)) * dx inp.
Proof.
  intros Hlen r. subst r.
  set (F := fun i => sum_Z (nx inp - 1)
                (fun j => slfc (rd 0 xx j) (rd 0 xx i) (rd 0 SS j)) * dx inp).
  assert (E : compute_slfc GG SS xx inp
     = for_loop (nx inp) (fun ii a => wr a ii (F ii)) GG).
  { unfold compute_slfc.
    destruct (Z.le_gt_cases 0 (nx inp)) as [Hn|Hn]; [|now rewrite !for_loop_nonpos by lia].
    apply (for_loop_inv (fun k t => length t = length GG /\
              t = for_loop k (fun ii a => wr a ii (F ii)) GG) (nx inp) _ GG Hn).
    - split; [reflexivity|]. now rewrite for_loop_nonpos by lia.
    - intros i t Hi [Hl ->]. split; [now rewrite !length_wr, for_loop_accumulate, !length_wr
         by (rewrite length_wr; lia)|].
      rewrite for_loop_succ by lia. cbv zeta.
      rewrite for_loop_accumulate by (rewrite length_wr; lia).
      rewrite !wr_wr. rewrite rd_wr_eq by lia. rewrite rd_wr_eq by lia.
      f_equal. unfold F. ring. }
  rewrite E. destruct (for_loop_fill (nx inp) F GG Hlen) as (L & H & _).
  split; [exact L | exact H].
Qed.

Lemma slfc_x_nonpos y x S : x <= 0 -> slfc y x S = 0.
Proof.
  intros Hx. unfold slfc.
  assert (E : Rgtb x 0 = false) by (apply Rgtb_false; lra).
  now rewrite E.
Qed.

Lemma sum_Z_zero n f : (forall i, (0 <= i < n)%Z -> f i = 0) -> sum_Z n f = 0.
Proof.
  intros H. rewrite (sum_Z_ext n f (fun _ => 0) H).
  unfold sum_Z. induction (Z.to_nat n); simpl; lra.
Qed.

Lemma Rpa_computeSlfc_zero s i : rd 0 (Rpa_computeSlfc s) i = 0.
Proof.
  unfold rd, Rpa_computeSlfc. destruct (i <? 0)%Z; [reflexivity|].
  generalize (Z.to_nat i) as n. induction s as [|h t IH]; intros [|n]; simpl; auto.
Qed.

(** ** The closure kernel near its diagonal *)

Lemma slfc_diag y S : y > 0 -> slfc y y S = y * y * (S - 1).
Proof.
  intros Hy. unfold slfc.
  assert (H1 : Rgtb y 0 = true) by (apply Rgtb_true; lra).
  assert (H2 : Rgtb y y = false) by (apply Rgtb_false; lra).
  assert (H3 : Rltb y y = false) by (apply Rltb_false; lra).
  rewrite H1, H2, H3. reflexivity.
Qed.

Lemma ln_le_pred s : 0 < s -> ln s <= s - 1.
Proof.
  intros Hs. destruct (Req_dec_T (ln s) 0) as [E|N].
  - assert (s = 1). { apply ln_inv; try lra. rewrite ln_1. exact E. } subst. lra.
  - pose proof (exp_ineq1 (ln s) N) as H. rewrite exp_ln in H by assumption. lra.
Qed.

Lemma ln_le_2sqrt u : 0 < u -> ln u <= 2 * sqrt u.
Proof.
  intros Hu. pose proof (sqrt_lt_R0 u Hu) as Hs.
  rewrite <- (sqrt_sqrt u) at 1 by lra.
  rewrite ln_mult by assumption.
  pose proof (ln_le_pred (sqrt u) Hs). lra.
Qed.

Lemma t_ln_bound t a : 0 < t -> t < a -> 0 <= t * ln (a / t) <= 2 * sqrt (a * t).
Proof.
  intros Ht Hta.
  assert (Hq : 1 < a / t).
  { apply Rmult_lt_reg_r with t; [assumption|]. unfold Rdiv. rewrite Rmult_assoc, Rinv_l by lra. lra. }
  assert (Hln : 0 < ln (a / t)). { rewrite <- ln_1. apply ln_increasing; lra. }
  split. { apply Rmult_le_pos; lra. }
  pose proof (ln_le_2sqrt (a / t)) as H. 
  assert (Hsq : t * sqrt (a / t) = sqrt (a * t)).
  { rewrite <- (sqrt_square t) at 1 by lra.
    rewrite <- sqrt_mult; [ | nra | lra].
    f_equal. field. lra. }
  rewrite <- Hsq.
  assert (t * ln (a / t) <= t * (2 * sqrt (a / t))).
  { apply Rmult_le_compat_l; [lra|]. apply H. lra. }
  lra.
Qed.

(** off the diagonal, with L the prefactor *)
Lemma slfc_off_diag y x S :
  0 < y -> 0 < x -> x <> y ->
  slfc y x S =
  -3 / 4 * (y * y) * (S - 1)
  * (1 + (x * x - y * y) / (2 * x * y) * ln ((x + y) / Rabs (x - y))).
Proof.
  intros Hy Hx Hne. unfold slfc.
  assert (H1 : Rgtb x 0 = true) by (apply Rgtb_true; lra).
  assert (H2 : Rgtb y 0 = true) by (apply Rgtb_true; lra).
  rewrite H1, H2. cbn [andb].
  destruct (Rgtb x y) eqn:E.
  - apply Rgtb_true in E. rewrite Rabs_pos_eq by lra. reflexivity.
  - apply Rgtb_false in E. 
    assert (E2 : Rltb x y = true) by (apply Rltb_true; lra).
    rewrite E2. rewrite Rabs_left by lra.
    replace (- (x - y)) with (y - x) by ring. reflexivity.
Qed.

Lemma slfc_log_term_small y : 0 < y ->
  forall eps, 0 < eps -> exists delta, 0 < delta /\
   forall x, x <> y -> Rabs (x - y) < delta ->
     0 < x /\ Rabs ((x * x - y * y) / (2 * x * y) * ln ((x + y) / Rabs (x - y))) < eps.
Proof.
  intros Hy eps Heps.
  set (e1 := eps * y / 6).
  assert (He1 : 0 < e1). { unfold e1. apply Rdiv_lt_0_compat; nra. }
  exists (Rmin (y / 2) (e1 * e1 / (3 * y))).
  split.
  { apply Rmin_glb_lt; [lra|]. apply Rdiv_lt_0_compat; nra. }
  intros x Hne Hd.
  pose proof (Rmin_l (y / 2) (e1 * e1 / (3 * y))) as Hm1.
  pose proof (Rmin_r (y / 2) (e1 * e1 / (3 * y))) as Hm2.
  set (t := Rabs (x - y)) in *.
  assert (Ht : 0 < t). { unfold t. apply Rabs_pos_lt. lra. }
  assert (Hx : y / 2 < x < 3 * y / 2).
  { unfold t in Hd. assert (Rabs (x - y) < y / 2) by lra.
    apply Rabs_def2 in H. lra. }
  split; [lra|].
  assert (Hxy : 0 < x * y) by (apply Rmult_lt_0_compat; lra).
  assert (Hxy2 : 0 < 2 * x * y) by lra.
  assert (Hta : t < x + y). { unfold t in *. assert (Rabs (x - y) < y / 2) by lra. lra. }
  destruct (t_ln_bound t (x + y) Ht Hta) as [Hb0 Hb1].
  assert (Hsq : sqrt ((x + y) * t) < e1).
  { rewrite <- (sqrt_square e1) by lra.
    apply sqrt_lt_1_alt. split; [nra|].
    assert (t < e1 * e1 / (3 * y)) by lra.
    assert (3 * y * t < e1 * e1).
    { apply Rmult_lt_compat_l with (r := 3 * y) in H; [|lra].
      replace (3 * y * (e1 * e1 / (3 * y))) with (e1 * e1) in H by (field; lra). lra. }
    nra. }
  assert (Hfact : Rabs ((x * x - y * y) / (2 * x * y)) = t * ((x + y) / (2 * x * y))).
  { replace ((x * x - y * y) / (2 * x * y)) with ((x - y) * ((x + y) / (2 * x * y))) by (field; lra).
    rewrite Rabs_mult. fold t. f_equal. apply Rabs_pos_eq.
    apply Rlt_le. apply Rdiv_lt_0_compat; lra. }
  rewrite Rabs_mult, Hfact.
  assert (Hlnpos : 0 <= ln ((x + y) / t)).
  { assert (0 <= t * ln ((x + y) / t)) by lra. nra. }
  rewrite (Rabs_pos_eq (ln _)) by assumption.
  replace (t * ((x + y) / (2 * x * y)) * ln ((x + y) / t))
    with ((x + y) / (2 * x * y) * (t * ln ((x + y) / t))) by ring.
  assert (Hc : 0 < (x + y) / (2 * x * y) < 3 / y).
  { split. { apply Rdiv_lt_0_compat; lra. }
    apply Rmult_lt_reg_r with (2 * x * y * y); [nra|].
    replace ((x + y) / (2 * x * y) * (2 * x * y * y)) with ((x + y) * y) by (field; lra).
    replace (3 / y * (2 * x * y * y)) with (6 * x * y) by (field; lra).
    nra. }
  assert (Hprod : (x + y) / (2 * x * y) * (t * ln ((x + y) / t)) <= 3 / y * (2 * e1)).
  { apply Rmult_le_compat; lra. }
  assert (3 / y * (2 * e1) = eps). { unfold e1. field. lra. }
  destruct (Req_dec_T (t * ln ((x + y) / t)) 0) as [Z0|NZ].
  - rewrite Z0. lra.
  - assert ((x + y) / (2 * x * y) * (t * ln ((x + y) / t)) < 3 / y * (2 * e1)).
    { apply Rmult_le_0_lt_compat; lra. }
    lra.
Qed.

Lemma slfc_limit y S : 0 < y ->
  forall eps, 0 < eps -> exists delta, 0 < delta /\
   forall x, x <> y -> Rabs (x - y) < delta ->
     Rabs (slfc y x S - (-3 / 4 * (y * y) * (S - 1))) < eps.
Proof.
  intros Hy eps Heps.
  set (L := -3 / 4 * (y * y) * (S - 1)).
  set (M := Rabs L + 1).
  assert (HM : 0 < M). { unfold M. pose proof (Rabs_pos L). lra. }
  destruct (slfc_log_term_small y Hy (eps / M)) as [delta [Hd Hx]].
  { apply Rdiv_lt_0_compat; lra. }
  exists delta. split; [assumption|].
  intros x Hne Hclose. destruct (Hx x Hne Hclose) as [Hxpos Hsmall].
  rewrite slfc_off_diag by assumption. fold L.
  match goal with |- Rabs (L * (1 + ?g) - L) < _ => set (G := g) in * end.
  replace (L * (1 + G) - L) with (L * G) by ring.
  rewrite Rabs_mult.
  assert (Rabs L * Rabs G <= Rabs L * (eps / M)).
  { apply Rmult_le_compat_l; [apply Rabs_pos | lra]. }
  assert (Rabs L * (eps / M) < eps).
  { unfold M. pose proof (Rabs_pos L).
    apply Rmult_lt_reg_r with (Rabs L + 1); [lra|].
    replace (Rabs L * (eps / (Rabs L + 1)) * (Rabs L + 1)) with (Rabs L * eps) by (field; lra).
    nra. }
  lra.
Qed.

(** Comparisons between explicit numbers. *)
Ltac Rdecide :=
  repeat match goal with
  | |- context [Rgtb ?a ?b] =>
      first [ rewrite (proj2 (Rgtb_true a b)) by lra
            | rewrite (proj2 (Rgtb_false a b)) by lra ]
  | |- context [Rltb ?a ?b] =>
      first [ rewrite (proj2 (Rltb_true a b)) by lra
            | rewrite (proj2 (Rltb_false a b)) by lra ]
  | |- context [Reqb ?a ?b] =>
      first [ rewrite (proj2 (Reqb_true a b)) by lra
            | rewrite (proj2 (Reqb_false a b)) by lra ]
  end.

(** ** While loops *)

Lemma while_loop_iter {St} (cond : St -> bool) (body : St -> St) :
  forall (k fuel : nat) (s : St),
    (k <= fuel)%nat ->
    (forall j, (j < k)%nat -> cond (Nat.iter j body s) = true) ->
    cond (Nat.iter k body s) = false ->
    while_loop fuel cond body s = Some (Nat.iter k body s).
Proof.
  induction k as [|k IH]; intros fuel s Hk Hlt Hstop.
  - simpl in Hstop. destruct fuel; simpl; now rewrite Hstop.
  - destruct fuel as [|fuel]; [lia|].
    assert (H0 : cond s = true) by (apply (Hlt 0%nat); lia).
    cbn [while_loop]. rewrite H0.
    rewrite Nat.iter_succ_r. apply IH; [lia| |now rewrite <- Nat.iter_succ_r].
    intros j Hj. rewrite <- Nat.iter_succ_r. apply Hlt. lia.
Qed.

Lemma first_stop_or_none {St} (cond : St -> bool) (body : St -> St) (s : St) :
  forall N,
    (exists k, (k <= N)%nat /\ cond (Nat.iter k body s) = false /\
               forall j, (j < k)%nat -> cond (Nat.iter j body s) = true)
    \/ (forall j, (j <= N)%nat -> cond (Nat.iter j body s) = true).
Proof.
  induction N as [|N [(k & Hk & Hs & Hl) | Hall]].
  - destruct (cond (Nat.iter 0 body s)) eqn:E.
    + right. intros j Hj. now replace j with 0%nat by lia.
    + left. exists 0%nat. repeat split; auto. intros; lia.
  - left. exists k. repeat split; auto.
  - destruct (cond (Nat.iter (S N) body s)) eqn:E.
    + right. intros j Hj. destruct (Nat.eq_dec j (S N)) as [->|Hne]; [exact E|].
      apply Hall. lia.
    + left. exists (S N). repeat split; auto. intros j Hj. apply Hall. lia.
Qed.

Lemma first_stop {St} (cond : St -> bool) (body : St -> St) (s : St) (N : nat) :
  cond (Nat.iter N body s) = false ->
  exists k, (k <= N)%nat /\ cond (Nat.iter k body s) = false /\
            forall j, (j < k)%nat -> cond (Nat.iter j body s) = true.
Proof.
  intros Hstop.
  destruct (first_stop_or_none cond body s N) as [H | Hall]; [exact H|].
  rewrite Hall in Hstop by lia. discriminate.
Qed.

Lemma mixing_loop (n : Z) (a : R) (GG_new GG : list R) :
  (n <= Z.of_nat (length GG))%Z ->
  let r := for_loop n
      (fun ii '(iter_err, G) =>
         (iter_err + (rd 0 GG_new ii - rd 0 G ii) * (rd 0 GG_new ii - rd 0 G ii),
          wr G ii (a * rd 0 GG_new ii + (1 - a) * rd 0 G ii)))
      (0, GG) in
  fst r = sum_Z n (fun i => (rd 0 GG_new i - rd 0 GG i) * (rd 0 GG_new i - rd 0 GG i)) /\
  length (snd r) = length GG /\
  (forall i, (0 <= i < n)%Z ->
     rd 0 (snd r) i = a * rd 0 GG_new i + (1 - a) * rd 0 GG i) /\
  (forall i, (n <= i)%Z -> rd 0 (snd r) i = rd 0 GG i).
Proof.
  intros Hlen r. subst r.
  destruct (Z.le_gt_cases 0 n) as [Hn|Hn].
  2:{ rewrite for_loop_nonpos by lia. simpl. unfold sum_Z.
      replace (Z.to_nat n) with 0%nat by lia. repeat split; auto. intros; lia. }
  apply (for_loop_inv (fun k (t : R * list R) => (k <= n)%Z ->
     fst t = sum_Z k (fun i => (rd 0 GG_new i - rd 0 GG i) * (rd 0 GG_new i - rd 0 GG i)) /\
     length (snd t) = length GG /\
     (forall i, (0 <= i < k)%Z ->
        rd 0 (snd t) i = a * rd 0 GG_new i + (1 - a) * rd 0 GG i) /\
     (forall i, (k <= i)%Z -> rd 0 (snd t) i = rd 0 GG i)) n _ _ Hn); [ | | lia].
  - intros _. simpl. repeat split; auto. intros; lia.
  - intros i [e G] Hi IH _. destruct IH as (He & Hl & Hlo & Hhi); [lia|].
    simpl in *. rewrite sum_Z_succ by lia. rewrite (Hhi i) by lia.
    split; [now rewrite He|]. split; [now rewrite length_wr|]. split.
    + intros j Hj. destruct (Z.eq_dec j i) as [->|Hne].
      * apply rd_wr_eq. lia.
      * rewrite rd_wr_neq by lia. apply Hlo. lia.
    + intros j Hj. rewrite rd_wr_neq by lia. apply Hhi. lia.
Qed.

(** One pass of the loop body, in the words of the specification. *)
Lemma stls_body_step (SSHF phi xx : list R) (inp : input) (s : stls_state) :
  (nx inp <= Z.of_nat (length (st_GG s)))%Z ->
  let s' := stls_body SSHF phi xx inp s in
  st_GG_new s' = compute_slfc (st_GG_new s) (st_SS s) xx inp /\
  st_iter_err s' = residual2 (nx inp) (st_GG_new s') (st_GG s) /\
  (forall i, (0 <= i < nx inp)%Z ->
     rd 0 (st_GG s') i
     = a_mix inp * rd 0 (st_GG_new s') i + (1 - a_mix inp) * rd 0 (st_GG s) i) /\
  st_SS s' = compute_ssf (st_SS s) SSHF (st_GG s') phi xx inp /\
  st_iter_counter s' = (st_iter_counter s + 1)%Z /\
  length (st_GG s') = length (st_GG s).
Proof.
  intros Hlen s'. subst s'. unfold stls_body.
  pose proof (mixing_loop (nx inp) (a_mix inp)
                (compute_slfc (st_GG_new s) (st_SS s) xx inp) (st_GG s) Hlen) as H.
  cbv zeta in H. destruct (for_loop _ _ _) as [e G]. simpl in *.
  destruct H as (He & Hl & Hlo & _). unfold residual2. rewrite He.
  repeat split; auto.
Qed.

(** ** The wave-vector grid *)

Lemma Int_part_unique (r : R) (k : Z) : IZR k <= r < IZR k + 1 -> Int_part r = k.
Proof.
  intros [Hlo Hhi]. destruct (base_Int_part r) as [A B].
  assert (H1 : (Int_part r < k + 1)%Z).
  { apply lt_IZR. rewrite plus_IZR. simpl. lra. }
  assert (H2 : (k < Int_part r + 1)%Z).
  { apply lt_IZR. rewrite plus_IZR. simpl. lra. }
  lia.
Qed.

Lemma Int_part_IZR (z : Z) : Int_part (IZR z) = z.
Proof. apply Int_part_unique. lra. Qed.

Lemma int_of_double_floor (r : R) :
  (INT_MIN <= Int_part r <= INT_MAX)%Z ->
  int_of_double (c_floor r) = Some (Int_part r).
Proof.
  intros [Hlo Hhi]. unfold int_of_double, c_floor.
  assert (E : (if Rltb (IZR (Int_part r)) 0
               then (- Int_part (- IZR (Int_part r)))%Z
               else Int_part (IZR (Int_part r))) = Int_part r).
  { destruct (Rltb _ _).
    - rewrite <- opp_IZR, Int_part_IZR. lia.
    - apply Int_part_IZR. }
  rewrite E.
  assert (A : (INT_MIN <=? Int_part r)%Z = true) by (apply Z.leb_le; lia).
  assert (B : (Int_part r <=? INT_MAX)%Z = true) by (apply Z.leb_le; lia).
  now rewrite A, B.
Qed.

Lemma for_range_inv {St} (P : Z -> St -> Prop) (lo hi : Z) (body : Z -> St -> St) s :
  (lo <= hi)%Z ->
  P lo s ->
  (forall i t, (lo <= i < hi)%Z -> P i t -> P (i + 1)%Z (body i t)) ->
  P hi (for_range lo hi body s).
Proof.
  intros Hle H0 Hstep. unfold for_range.
  replace hi with (lo + (hi - lo))%Z at 1 by lia.
  apply (for_loop_inv (fun k t => P (lo + k)%Z t)); [lia | | ].
  - now rewrite Z.add_0_r.
  - intros i t Hi Ht. rewrite Z.add_assoc. apply Hstep; [lia | exact Ht].
Qed.

Lemma wave_vector_grid_cells (xx0 : list R) (inp : input) :
  (1 <= nx inp)%Z ->
  (nx inp <= Z.of_nat (length xx0))%Z ->
  let xx := wave_vector_grid xx0 inp in
  length xx = length xx0 /\
  forall i, (0 <= i < nx inp)%Z -> rd 0 xx i = (IZR i + 1 / 2) * dx inp.
Proof.
  intros Hn Hlen xx. subst xx. unfold wave_vector_grid.
  apply (for_range_inv (fun k t => length t = length xx0 /\
           forall i, (0 <= i < k)%Z -> rd 0 t i = (IZR i + 1 / 2) * dx inp)
           1 (nx inp)); [lia | | ].
  - split; [apply length_wr|]. intros i Hi. replace i with 0%Z by lia.
    rewrite rd_wr_eq by lia. lra.
  - intros i t Hi [L H]. split; [now rewrite length_wr|].
    intros j Hj. destruct (Z.eq_dec j i) as [->|Hne].
    + rewrite rd_wr_eq by lia. rewrite H by lia. rewrite minus_IZR. lra.
    + rewrite rd_wr_neq by lia. apply H. lia.
Qed.

(** C4, as stated, fails on [Rpa::buildWvGrid]: with [dx = 1] and
    [xmax = 2] the grid is [0, 1, 2]. *)
Lemma buildWvGrid_not_cell_centered :
  ~ (forall (dx_ xmax_ : R) (fuel : nat) (g : list R),
       dx_ > 0 -> xmax_ > dx_ ->
       Rpa_buildWvGrid fuel dx_ xmax_ = Done g ->
       Z.of_nat (length g) = Int_part (xmax_ / dx_) /\
       forall i, (0 <= i < Z.of_nat (length g))%Z ->
         rd 0 g i = (IZR i + 1 / 2) * dx_ /\ 0 < rd 0 g i).
Proof.
  intros H.
  assert (E : Rpa_buildWvGrid 2 1 2 = Done [0; 0 + 1; 0 + 1 + 1]).
  { unfold Rpa_buildWvGrid. Rdecide. simpl. Rdecide. reflexivity. }
  destruct (H 1 2 2%nat _ ltac:(lra) ltac:(lra) E) as [_ Hc].
  destruct (Hc 0%Z) as [_ Hpos]; [simpl; lia|].
  unfold rd in Hpos. simpl in Hpos. lra.
Qed.

(** ** The static structure factor *)

Lemma ssf_formula_ext (Theta_ rs_ x S_HF G : R) (nl_ : Z) (f g : Z -> R) :
  (forall l, (0 <= l < nl_)%Z -> f l = g l) ->
  ssf_formula Theta_ rs_ x S_HF G nl_ f = ssf_formula Theta_ rs_ x S_HF G nl_ g.
Proof.
  intros H. unfold ssf_formula. f_equal. f_equal.
  apply sum_Z_ext. intros l Hl. now rewrite H.
Qed.

(** C1 (amended). For [Theta > 0] and a grid point [x[i] > 0], [compute_ssf]
    and [Ssf::get] both return
    [S_HF[i] - (3/2) Theta f (1 - G[i]) Sum_l w_l phi[i,l]^2 / (pi lambda x[i]^2 + f (1 - G[i]) phi[i,l])],
    so the two forms agree there. For [x[i] <= 0], [compute_ssf] returns 0;
    [Ssf::get] returns 0 at [x = 0] when [rs <> 0], and [S_HF] whenever
    [rs = 0], its test on [rs] coming first. *)
Theorem ssf_dielectric_formula
  (inp : input) (SS SSHF GG phi xx idr : list R) (i : Z) :
  Theta inp > 0 ->
  (nx inp <= Z.of_nat (length SS))%Z ->
  (0 <= i < nx inp)%Z ->
  (forall l, (0 <= l < nl inp)%Z -> rd 0 idr l = rd 0 phi (idx2 i l (nx inp))) ->
  let x := rd 0 xx i in
  let formula :=
    ssf_formula (Theta inp) (rs inp) x (rd 0 SSHF i) (rd 0 GG i) (nl inp)
      (fun l => rd 0 phi (idx2 i l (nx inp))) in
  let S_c := rd 0 (compute_ssf SS SSHF GG phi xx inp) i in
  let S_cpp :=
    Ssf_get x (Theta inp) (rs inp) (rd 0 SSHF i) (rd 0 GG i) (nl inp) idr in
  (x > 0 -> S_c = formula /\ S_cpp = Done formula) /\
  (x <= 0 -> S_c = 0) /\
  (x = 0 -> rs inp <> 0 -> S_cpp = Done 0) /\
  (rs inp = 0 -> S_cpp = Done (rd 0 SSHF i)).
Proof.
  intros HT Hlen Hi Hidr x formula S_c S_cpp.
  assert (Hc : S_c = if Rgtb x 0 then formula else 0)
    by (apply compute_ssf_cell; assumption).
  assert (Hcpp : S_cpp = Done (if Reqb (rs inp) 0 then rd 0 SSHF i
                               else if Reqb x 0 then 0 else formula)).
  { unfold S_cpp. rewrite Ssf_get_value by assumption.
    unfold formula. now rewrite (ssf_formula_ext _ _ _ _ _ _ _ _ Hidr). }
  split; [|split; [|split]].
  - intros Hx. split.
    + rewrite Hc. now rewrite (proj2 (Rgtb_true x 0) Hx).
    + rewrite Hcpp. destruct (Reqb (rs inp) 0) eqn:E.
      * apply Reqb_true in E. unfold formula. rewrite E.
        now rewrite ssf_formula_rs0.
      * rewrite (proj2 (Reqb_false x 0)) by lra. reflexivity.
  - intros Hx. rewrite Hc. rewrite (proj2 (Rgtb_false x 0)) by lra. reflexivity.
  - intros Hx Hrs. rewrite Hcpp.
    rewrite (proj2 (Reqb_false (rs inp) 0) Hrs).
    now rewrite (proj2 (Reqb_true x 0) Hx).
  - intros Hrs. rewrite Hcpp. now rewrite (proj2 (Reqb_true (rs inp) 0) Hrs).
Qed.

Lemma ssf_dielectric_formula_witness :
  rd 0 (compute_ssf [0] [1] [0] (repeat 0 128) [1 / 20] stls_witness_input) 0
  = ssf_formula 1 1 (1 / 20) 1 0 128 (fun l => rd 0 (repeat 0 128) (idx2 0 l 1)).
Proof.
  destruct (ssf_dielectric_formula stls_witness_input
              [0] [1] [0] (repeat 0 128) [1 / 20] (repeat 0 128) 0%Z)
    as (H & _).
  - simpl. lra.
  - simpl. lia.
  - simpl. lia.
  - intros l Hl. unfold idx2. cbn [nx stls_witness_input set_nx]. f_equal. lia.
  - destruct H as [Hc _].
    + unfold rd. simpl. lra.
    + exact Hc.
Defined.

(** C1, as stated, fails on [Ssf::get]: at a grid point [x = 0] with
    [rs = 0] it returns [S_HF], not 0. *)
Lemma Ssf_get_not_zero_at_origin :
  ~ (forall (x Theta_ rs_ S_HF G : R) (nl_ : Z) (idr : list R),
       Theta_ > 0 -> x <= 0 ->
       Ssf_get x Theta_ rs_ S_HF G nl_ idr = Done 0).
Proof.
  intros H.
  specialize (H 0 1 0 1 0 1%Z [0] ltac:(lra) ltac:(lra)).
  unfold Ssf_get in H. revert H. Rdecide. cbn. intros H.
  injection H. lra.
Qed.

(** ** The static local field correction *)

(** C8 (amended). [Rpa::computeSlfc] sets every cell of [G] to 0. Under the
    STLS closure [G[0]] is [dx] times the sum of [slfc(x[j], x[0], S[j])]
    over [j < nx - 1]; it is 0 when the first grid point is not positive. *)
Theorem slfc_first_cell (inp : input) (GG SS xx slfc_ : list R) :
  (1 <= nx inp)%Z ->
  (nx inp <= Z.of_nat (length GG))%Z ->
  (forall i, rd 0 (Rpa_computeSlfc slfc_) i = 0) /\
  rd 0 (compute_slfc GG SS xx inp) 0
  = sum_Z (nx inp - 1) (fun j => slfc (rd 0 xx j) (rd 0 xx 0) (rd 0 SS j)) * dx inp /\
  (rd 0 xx 0 <= 0 -> rd 0 (compute_slfc GG SS xx inp) 0 = 0).
Proof.
  intros Hn Hlen.
  destruct (compute_slfc_fill GG SS xx inp Hlen) as [_ H].
  split; [apply Rpa_computeSlfc_zero|]. split.
  - apply H. lia.
  - intros Hx. rewrite H by lia.
    rewrite sum_Z_zero; [ring|]. intros j _. now apply slfc_x_nonpos.
Qed.

Lemma slfc_first_cell_witness :
  rd 0 (compute_slfc [0; 0] [0; 0] [0; 1 / 10] slfc_witness_input) 0 = 0.
Proof.
  destruct (slfc_first_cell slfc_witness_input [0; 0] [0; 0] [0; 1 / 10] [])
    as (_ & _ & H).
  - simpl. lia.
  - simpl. lia.
  - apply H. unfold rd. simpl. lra.
Defined.

(** C8, as stated, fails for the STLS closure on the cell-centred grid:
    with two points, [dx = 1/10] and [S = 0], [G[0] = -1/4000]. *)
Lemma compute_slfc_first_cell_nonzero :
  ~ (forall (inp : input) (GG SS xx : list R),
       (1 <= nx inp)%Z ->
       (nx inp <= Z.of_nat (length GG))%Z ->
       (forall i, (0 <= i < nx inp)%Z -> rd 0 xx i = (IZR i + 1 / 2) * dx inp) ->
       rd 0 (compute_slfc GG SS xx inp) 0 = 0).
Proof.
  intros H.
  specialize (H slfc_witness_input [0; 0] [0; 0] [1 / 20; 3 / 20]).
  assert (Hlen : (nx slfc_witness_input <= Z.of_nat (length [0; 0]))%Z) by (simpl; lia).
  destruct (compute_slfc_fill [0; 0] [0; 0] [1 / 20; 3 / 20] slfc_witness_input Hlen)
    as [_ Hv].
  rewrite (Hv 0%Z) in H by (simpl; lia).
  assert (Hval : sum_Z (nx slfc_witness_input - 1)
            (fun j => slfc (rd 0 [1 / 20; 3 / 20] j) (rd 0 [1 / 20; 3 / 20] 0)
                        (rd 0 [0; 0] j)) * dx slfc_witness_input = -1 / 4000).
  { unfold sum_Z. simpl. unfold rd. simpl.
    rewrite slfc_diag by lra. lra. }
  rewrite Hval in H.
  assert (-1 / 4000 = 0); [|lra].
  apply H; [simpl; lia | simpl; lia |].
  intros i Hi. simpl in Hi.
  assert (Hcases : i = 0%Z \/ i = 1%Z) by lia.
  destruct Hcases as [-> | ->]; unfold rd; simpl; lra.
Qed.

(** ** The closure kernel on its diagonal *)

Lemma slfc_limit1_in (y S : R) :
  0 < y ->
  limit1_in (fun x => slfc y x S) (fun x => x <> y) (-3 / 4 * (y * y) * (S - 1)) y.
Proof.
  intros Hy eps Heps.
  destruct (slfc_limit y S Hy eps Heps) as (delta & Hd & H).
  exists delta. split; [exact Hd|].
  intros x [Hne Hdist]. apply H; assumption.
Qed.

(** C7 at [y = 1], [S = 0]: on the diagonal [slfc] returns [y^2 (S - 1) = -1],
    while its off-diagonal branches tend to [-(3/4) y^2 (S - 1) = 3/4] as
    [x] tends to [y]. *)
Theorem slfc_diagonal_differs_from_limit :
  slfc 1 1 0 = -1 /\
  limit1_in (fun x => slfc 1 x 0) (fun x => x <> 1) (3 / 4) 1.
Proof.
  split.
  - rewrite slfc_diag by lra. lra.
  - replace (3 / 4) with (-3 / 4 * (1 * 1) * (0 - 1)) by lra.
    apply slfc_limit1_in. lra.
Qed.

(** ** The Hartree-Fock integrand *)

Lemma ssfHF_pos_branch (y x : R) (inp : input) :
  x > 0 -> ssfHF y x inp = SsfHF_integrand x (Theta inp) (mu inp) y.
Proof.
  intros Hx. unfold ssfHF, SsfHF_integrand.
  now rewrite (proj2 (Rgtb_true x 0) Hx).
Qed.

Lemma one_plus_cosh (a : R) : 1 + cosh a = (1 + exp a) * (1 + exp a) / (2 * exp a).
Proof.
  unfold cosh. rewrite exp_Ropp. pose proof (exp_pos a). field. lra.
Qed.

Lemma ssfHF_zero_branch (y x : R) (inp : input) :
  x <= 0 ->
  ssfHF y x inp
  = exp (y * y / Theta inp - mu inp) * SsfHF_integrand x (Theta inp) (mu inp) y.
Proof.
  intros Hx. unfold ssfHF, SsfHF_integrand.
  rewrite (proj2 (Rgtb_false x 0)) by lra.
  rewrite one_plus_cosh.
  pose proof (exp_pos (y * y / Theta inp - mu inp)). field. lra.
Qed.

(** ** The chemical potential *)

Section ChemicalPotential.
Variable G : gsl.

(** The loop body runs once whatever the solver reports when the counter
    starts at 99 or above. *)
Lemma compute_mu_loop_late_counter (fuel : nat) (rs_ : gsl_root_fsolver G) (iter0 : Z) :
  (99 <= iter0)%Z ->
  compute_mu_loop G (S fuel) rs_ iter0
  = Done (gsl_root_fsolver_root G (gsl_root_fsolver_iterate G rs_), (iter0 + 1)%Z).
Proof.
  intros H. cbn [compute_mu_loop].
  replace (iter0 + 1 <? 100)%Z with false by (symmetry; apply Z.ltb_ge; lia).
  now rewrite andb_false_r.
Qed.

(** The loop ends within [100 - iter0] passes (one pass at least), and the
    counter it returns tells how many ran. *)
Lemma compute_mu_loop_terminates (fuel : nat) :
  forall (rs_ : gsl_root_fsolver G) (iter0 : Z),
    (Z.to_nat (100 - iter0) <= fuel)%nat -> (1 <= fuel)%nat ->
    exists mu_ iter_,
      compute_mu_loop G fuel rs_ iter0 = Done (mu_, iter_) /\
      (iter0 < iter_)%Z /\ (iter_ <= Z.max 100 (iter0 + 1))%Z.
Proof.
  induction fuel as [|fuel IH]; intros rs_ iter0 Hfuel H1; [lia|].
  cbn [compute_mu_loop].
  destruct (is_GSL_CONTINUE _ && (iter0 + 1 <? 100)%Z) eqn:E.
  - apply andb_true_iff in E. destruct E as [_ E]. apply Z.ltb_lt in E.
    destruct (IH (gsl_root_fsolver_iterate G rs_) (iter0 + 1)%Z) as (m & it & Hr & Hlo & Hhi);
      [lia | lia |].
    exists m, it. split; [exact Hr|]. lia.
  - eexists _, _. split; [reflexivity|]. lia.
Qed.

(** When the solver keeps answering [GSL_CONTINUE], the loop runs until the
    counter reaches 100: [100 - iter0] passes. *)
Lemma compute_mu_loop_runs_to_bound (n : nat) :
  forall (rs_ : gsl_root_fsolver G) (iter0 : Z),
    (forall a b c d, gsl_root_test_interval G a b c d = GSL_CONTINUE) ->
    (iter0 + Z.of_nat n = 99)%Z ->
    exists mu_, compute_mu_loop G (S n) rs_ iter0 = Done (mu_, 100%Z).
Proof.
  induction n as [|n IH]; intros rs_ iter0 Hc Hn.
  - rewrite compute_mu_loop_late_counter by lia.
    replace (iter0 + 1)%Z with 100%Z by lia. eauto.
  - cbn [compute_mu_loop]. rewrite Hc. cbn [is_GSL_CONTINUE andb].
    replace (iter0 + 1 <? 100)%Z with true by (symmetry; apply Z.ltb_lt; lia).
    apply IH; [exact Hc | lia].
Qed.


End ChemicalPotential.

(** With the bisection solver under the default error handler, a bracket
    whose end values have the same strict sign ends the run inside
    [gsl_root_fsolver_set], whatever the counter holds. *)
Lemma compute_mu_bracket_failure (gamma fermi_dirac_half : R -> R)
      (fuel : nat) (iter0 : Z) (inp : input) :
  let G := gsl_bisection gamma fermi_dirac_half in
  let f := fun mu_ => normalization_condition G mu_ (Theta inp) in
  (f (-10) < 0 /\ f 10 < 0) \/ (f (-10) > 0 /\ f 10 > 0) ->
  compute_mu G fuel iter0 inp = Fatal "endpoints do not straddle y=0".
Proof.
  intros G f H. unfold compute_mu, compute_mu_trace.
  unfold f, G in *. clear f G. cbv beta in H.
  cbn [gsl_bisection gsl_root_fsolver_set]. unfold bisection_init.
  destruct H as [[H1 H2] | [H1 H2]].
  - rewrite (proj2 (Rltb_true _ _) H1), (proj2 (Rltb_true _ _) H2). reflexivity.
  - rewrite (proj2 (Rgtb_true _ _) H1), (proj2 (Rgtb_true _ _) H2).
    cbn [andb]. now rewrite orb_true_r.
Qed.

(** C3 with the loop counter starting at 99 (it is never assigned before
    the loop): whatever the solver and the tolerance test answer, the loop
    makes exactly one pass and [compute_mu] returns the root estimate of
    that single step. With the counter starting at -1 and a test that never
    succeeds, the loop makes 101 passes. *)
Theorem compute_mu_counter_not_initialised :
  (forall (G : gsl) (fuel : nat) (inp : input),
     compute_mu G (S fuel) 99 inp
     = match gsl_root_fsolver_set G
               (fun mu_ => normalization_condition G mu_ (Theta inp)) (-10) 10 with
       | Done rs_ =>
           Done (gsl_root_fsolver_root G (gsl_root_fsolver_iterate G rs_))
       | Fatal msg => Fatal msg
       | OutOfFuel => OutOfFuel
       end) /\
  (forall (G : gsl) (fuel : nat) (rs_ : gsl_root_fsolver G),
     compute_mu_loop G (S fuel) rs_ 99
     = Done (gsl_root_fsolver_root G (gsl_root_fsolver_iterate G rs_), 100%Z)) /\
  (exists (G : gsl) (rs_ : gsl_root_fsolver G) (mu_ : R),
     compute_mu_loop G 100 rs_ (-1) = OutOfFuel /\
     compute_mu_loop G 101 rs_ (-1) = Done (mu_, 100%Z)).
Proof.
  split; [|split].
  - intros G fuel inp. unfold compute_mu, compute_mu_trace.
    destruct (gsl_root_fsolver_set G _ _ _); try reflexivity.
    now rewrite compute_mu_loop_late_counter by lia.
  - intros G fuel rs_. now rewrite compute_mu_loop_late_counter by lia.
  - set (G := mkGsl (fun _ => 1) exp unit (fun _ _ _ => Done tt) (fun s => s)
                 (fun _ => 0) (fun _ => -10) (fun _ => 10)
                 (fun _ _ _ _ => GSL_CONTINUE)).
    exists G, tt, 0. split.
    + vm_compute. reflexivity.
    + vm_compute. reflexivity.
Qed.

(** ** The binary restart file *)


(** With a budget of [max 1 (100 - iter0)] passes the model of [read_bin]
    does not run out of fuel: it returns or the run ends. *)
Lemma read_bin_enough_fuel
  (G : gsl) (fuel : nat) (iter0 : Z) (junk : R)
  (fopen : string -> option bin_file) (inp : input) :
  (forall f a b, gsl_root_fsolver_set G f a b <> OutOfFuel) ->
  (Z.to_nat (100 - iter0) <= fuel)%nat -> (1 <= fuel)%nat ->
  read_bin G fuel iter0 junk fopen inp <> OutOfFuel.
Proof.
  intros Hset Hfuel H1. unfold read_bin.
  destruct (fopen (phi_file inp)) as [fid|]; [|discriminate].
  unfold compute_mu, compute_mu_trace.
  destruct (gsl_root_fsolver_set G _ (-10) 10) as [s|msg|] eqn:E.
  - destruct (compute_mu_loop_terminates G fuel s iter0 Hfuel H1) as (m & it & Hr & _).
    rewrite Hr.
    destruct (fread_doubles _ _ _) as [p r]. destruct (fread_doubles _ _ r) as [q r'].
    discriminate.
  - discriminate.
  - exfalso. exact (Hset _ _ _ E).
Qed.




(** ** The fixed-kernel tensor *)

Lemma for_loop_inv_max {St} (P : Z -> St -> Prop) (n : Z) (body : Z -> St -> St) s :
  P 0%Z s ->
  (forall i t, (0 <= i < n)%Z -> P i t -> P (i + 1)%Z (body i t)) ->
  P (Z.max 0 n) (for_loop n body s).
Proof.
  intros H0 Hstep. destruct (Z.le_gt_cases 0 n) as [Hn|Hn].
  - rewrite Z.max_r by lia. now apply for_loop_inv.
  - rewrite Z.max_l by lia. now rewrite for_loop_nonpos by lia.
Qed.

Lemma idx3_entry_0 (i j x_size y_size : Z) :
  idx3 i j 0 x_size y_size = idx2 i j x_size.
Proof. unfold idx3, idx2. lia. Qed.

Lemma idx3_bound (i j k n m : Z) :
  (0 <= i < n)%Z -> (0 <= j < m)%Z -> (0 <= k < n)%Z ->
  (0 <= idx3 i j k n m < n * m * n)%Z.
Proof.
  unfold idx3. intros Hi Hj Hk.
  assert (H1 : (0 <= n * m)%Z) by (apply Z.mul_nonneg_nonneg; lia).
  assert (H2 : (0 <= k * (n * m) <= (n - 1) * (n * m))%Z).
  { split; [apply Z.mul_nonneg_nonneg; lia|].
    apply Z.mul_le_mono_nonneg_r; lia. }
  assert (H3 : (0 <= j * n <= (m - 1) * n)%Z).
  { split; [apply Z.mul_nonneg_nonneg; lia|].
    apply Z.mul_le_mono_nonneg_r; lia. }
  replace (k * n * m)%Z with (k * (n * m))%Z by ring.
  replace (n * m * n)%Z with ((n - 1) * (n * m) + (m - 1) * n + n)%Z by ring.
  lia.
Qed.

Lemma idx3_inj (i j k i' j' k' n m : Z) :
  (0 <= i < n)%Z -> (0 <= j < m)%Z -> (0 <= k < n)%Z ->
  (0 <= i' < n)%Z -> (0 <= j' < m)%Z -> (0 <= k' < n)%Z ->
  idx3 i j k n m = idx3 i' j' k' n m ->
  i = i' /\ j = j' /\ k = k'.
Proof.
  unfold idx3. intros Hi Hj Hk Hi' Hj' Hk' E.
  set (r := (j * n + i)%Z). set (r' := (j' * n + i')%Z).
  assert (Hr : (0 <= r < n * m)%Z).
  { unfold r. assert (0 <= j * n <= (m - 1) * n)%Z.
    { split; [apply Z.mul_nonneg_nonneg; lia|]. apply Z.mul_le_mono_nonneg_r; lia. }
    replace (n * m)%Z with ((m - 1) * n + n)%Z by ring. lia. }
  assert (Hr' : (0 <= r' < n * m)%Z).
  { unfold r'. assert (0 <= j' * n <= (m - 1) * n)%Z.
    { split; [apply Z.mul_nonneg_nonneg; lia|]. apply Z.mul_le_mono_nonneg_r; lia. }
    replace (n * m)%Z with ((m - 1) * n + n)%Z by ring. lia. }
  assert (E1 : (k * (n * m) + r = k' * (n * m) + r')%Z) by (unfold r, r'; lia).
  assert (Hkk : k = k' /\ r = r').
  { assert (Hq : ((k * (n * m) + r) / (n * m) = k)%Z)
      by (rewrite Z.div_add_l by lia; rewrite Z.div_small by lia; lia).
    assert (Hq' : ((k' * (n * m) + r') / (n * m) = k')%Z)
      by (rewrite Z.div_add_l by lia; rewrite Z.div_small by lia; lia).
    rewrite E1 in Hq. split; lia. }
  destruct Hkk as [-> Er]. unfold r, r' in Er.
  assert (Hjj : j = j').
  { assert (Hq : ((j * n + i) / n = j)%Z)
      by (rewrite Z.div_add_l by lia; rewrite Z.div_small by lia; lia).
    assert (Hq' : ((j' * n + i') / n = j')%Z)
      by (rewrite Z.div_add_l by lia; rewrite Z.div_small by lia; lia).
    rewrite Er in Hq. lia. }
  subst j'. repeat split. lia.
Qed.

Lemma length_repeat_Z {A} (x : A) (n : Z) :
  Z.of_nat (length (repeat x (Z.to_nat n))) = Z.max 0 n.
Proof. rewrite repeat_length. lia. Qed.

(** [compute_dynamic_adr_iet_re_lev2] stores a value in each of the [nx]
    cells of its output. *)
Lemma lev2_fills (N : iet_numerics) (buf : list cell) (jj ii : Z) (inp : input) :
  (nx inp <= Z.of_nat (length buf))%Z ->
  let r := compute_dynamic_adr_iet_re_lev2 N buf jj ii inp in
  length r = length buf /\
  forall k, (0 <= k < nx inp)%Z -> rd None r k = Some (lev2_value N ii jj k).
Proof.
  intros Hlen r. subst r. unfold compute_dynamic_adr_iet_re_lev2.
  pose proof (for_loop_inv_max
    (fun a t => length t = length buf /\
       forall k, (0 <= k < a)%Z -> rd None t k = Some (lev2_value N ii jj k))
    (nx inp)
    (fun kk int_lev1 => wr int_lev1 kk (Some (lev2_value N ii jj kk))) buf) as H.
  destruct H as [L H].
  - split; [reflexivity|]. intros; lia.
  - intros i t Hi [L H]. split; [now rewrite length_wr|].
    intros k Hk. destruct (Z.eq_dec k i) as [->|Hne].
    + apply rd_wr_eq. lia.
    + rewrite rd_wr_neq by lia. apply H. lia.
  - split; [exact L|]. intros k Hk. apply H. lia.
Qed.

(** [write_dynamic_adr_iet_fixed] copies the [nx] cells of [var] into the
    slot [(ii, jj, _)] and leaves every other cell alone. *)
Lemma write_fixed_slot (var t : list cell) (ii jj : Z) (inp : input) :
  (0 <= ii < nx inp)%Z -> (0 <= jj < nW inp)%Z ->
  Z.of_nat (length t) = (nx inp * nW inp * nx inp)%Z ->
  let r := write_dynamic_adr_iet_fixed var t ii jj inp in
  length r = length t /\
  (forall k, (0 <= k < nx inp)%Z ->
     rd None r (idx3 ii jj k (nx inp) (nW inp)) = rd None var k) /\
  (forall c, (forall k, (0 <= k < nx inp)%Z -> c <> idx3 ii jj k (nx inp) (nW inp)) ->
     rd None r c = rd None t c).
Proof.
  intros Hi Hj Hlen r. subst r. unfold write_dynamic_adr_iet_fixed.
  pose proof (for_loop_inv_max
    (fun a r => length r = length t /\
       (forall k, (0 <= k < a)%Z ->
          rd None r (idx3 ii jj k (nx inp) (nW inp)) = rd None var k) /\
       (forall c, (forall k, (0 <= k < a)%Z -> c <> idx3 ii jj k (nx inp) (nW inp)) ->
          rd None r c = rd None t c))
    (nx inp)
    (fun kk f => wr f (idx3 ii jj kk (nx inp) (nW inp)) (rd None var kk)) t) as H.
  destruct H as (L & Hin & Hout).
  - split; [reflexivity|]. split; [intros; lia | reflexivity].
  - intros a r Ha (L & Hin & Hout). split; [now rewrite length_wr|]. split.
    + intros k Hk. destruct (Z.eq_dec k a) as [->|Hne].
      * apply rd_wr_eq. rewrite L, Hlen. apply idx3_bound; lia.
      * rewrite rd_wr_neq; [apply Hin; lia|].
        intros E. apply idx3_inj in E; lia.
    + intros c Hc. rewrite rd_wr_neq.
      * apply Hout. intros k Hk. apply Hc. lia.
      * intros E. apply (Hc a); [lia | now symmetry].
  - rewrite Z.max_r in * by lia. repeat split; assumption.
Qed.

(** What one pass does to the tensor when the fixed component is computed:
    the nested loops, restricted to the tensor and the scratch array. *)
Lemma lev1_loops_populate (N : iet_numerics) (psi_re phi_re SS bf : list R)
      (inp : input) (s0 : lev1_state) :
  Z.of_nat (length (l_psi_re_fixed s0)) = (nx inp * nW inp * nx inp)%Z ->
  (nx inp <= Z.of_nat (length (l_int_lev1_2 s0)))%Z ->
  let s :=
    for_loop (nx inp)
      (fun ii s =>
         for_loop (nW inp)
           (fun jj s =>
              let int_lev1_1 :=
                compute_dynamic_adr_iet_re_lev1_1 (l_int_lev1_1 s) psi_re phi_re
                  SS bf inp in
              let '(int_lev1_2, psi_re_fixed) :=
                let int_lev1_2 :=
                  compute_dynamic_adr_iet_re_lev2 N (l_int_lev1_2 s) jj ii inp in
                (int_lev1_2,
                 write_dynamic_adr_iet_fixed int_lev1_2 (l_psi_re_fixed s) ii jj inp) in
              let psi_re_new :=
                wr (l_psi_re_new s) (idx2 ii jj (nx inp))
                   (cquad_lev1 N int_lev1_1 int_lev1_2) in
              mkLev1 psi_re_new psi_re_fixed int_lev1_1 int_lev1_2)
           s)
      s0 in
  length (l_psi_re_fixed s) = length (l_psi_re_fixed s0) /\
  forall i j, (0 <= i < nx inp)%Z -> (0 <= j < nW inp)%Z ->
    slot_populated N (l_psi_re_fixed s) inp i j.
Proof.
  intros Hlen Hbuf s. subst s.
  set (inner := fun ii jj s =>
              let int_lev1_1 :=
                compute_dynamic_adr_iet_re_lev1_1 (l_int_lev1_1 s) psi_re phi_re
                  SS bf inp in
              let '(int_lev1_2, psi_re_fixed) :=
                let int_lev1_2 :=
                  compute_dynamic_adr_iet_re_lev2 N (l_int_lev1_2 s) jj ii inp in
                (int_lev1_2,
                 write_dynamic_adr_iet_fixed int_lev1_2 (l_psi_re_fixed s) ii jj inp) in
              let psi_re_new :=
                wr (l_psi_re_new s) (idx2 ii jj (nx inp))
                   (cquad_lev1 N int_lev1_1 int_lev1_2) in
              mkLev1 psi_re_new psi_re_fixed int_lev1_1 int_lev1_2).
  (* the invariant: sizes, and the slots already visited are populated *)
  set (Inv := fun (visited : Z -> Z -> Prop) (s : lev1_state) =>
     length (l_psi_re_fixed s) = length (l_psi_re_fixed s0) /\
     (nx inp <= Z.of_nat (length (l_int_lev1_2 s)))%Z /\
     forall i j, (0 <= i < nx inp)%Z -> (0 <= j < nW inp)%Z -> visited i j ->
       slot_populated N (l_psi_re_fixed s) inp i j).
  assert (Hstep : forall ii jj s (visited : Z -> Z -> Prop),
    (0 <= ii < nx inp)%Z -> (0 <= jj < nW inp)%Z ->
    Inv visited s ->
    Inv (fun i j => visited i j \/ (i = ii /\ j = jj)) (inner ii jj s)).
  { intros ii jj s visited Hii Hjj (L & B & Hpop). unfold Inv, inner.
    cbn [l_psi_re_fixed l_int_lev1_2 l_psi_re_new l_int_lev1_1].
    destruct (lev2_fills N (l_int_lev1_2 s) jj ii inp B) as [L2 F2].
    destruct (write_fixed_slot
                (compute_dynamic_adr_iet_re_lev2 N (l_int_lev1_2 s) jj ii inp)
                (l_psi_re_fixed s) ii jj inp Hii Hjj) as (Lw & Hin & Hout).
    { rewrite L. exact Hlen. }
    split; [now rewrite Lw|]. split; [now rewrite L2|].
    intros i j Hi Hj [Hv | [-> ->]] k Hk.
    - destruct (Z.eq_dec i ii) as [->|Hne1]; [destruct (Z.eq_dec j jj) as [->|Hne2]|].
      + rewrite Hin by exact Hk. now apply F2.
      + rewrite Hout; [now apply Hpop|].
        intros k' Hk' E. apply idx3_inj in E; lia.
      + rewrite Hout; [now apply Hpop|].
        intros k' Hk' E. apply idx3_inj in E; lia.
    - rewrite Hin by exact Hk. now apply F2. }
  pose proof (for_loop_inv_max
    (fun a s => Inv (fun i j => (i < a)%Z) s) (nx inp)
    (fun ii s => for_loop (nW inp) (inner ii) s) s0) as Houter.
  destruct Houter as (L & _ & Hpop).
  - split; [reflexivity|]. split; [exact Hbuf|]. intros; lia.
  - intros a s Ha HI.
    pose proof (for_loop_inv_max
      (fun b s => Inv (fun i j => (i < a)%Z \/ (i = a /\ j < b)%Z) s) (nW inp)
      (inner a) s) as Hinner.
    destruct Hinner as (L & B & Hpop).
    + destruct HI as (L & B & Hpop). split; [exact L|]. split; [exact B|].
      intros i j Hi Hj [Hlt | [_ Hlt]]; [now apply Hpop | lia].
    + intros b t Hb HIb.
      destruct (Hstep a b t _ Ha Hb HIb) as (L & B & Hpop).
      split; [exact L|]. split; [exact B|].
      intros i j Hi Hj Hv. apply Hpop; try assumption.
      destruct Hv as [Hv | [-> Hv]]; [left; now left|].
      destruct (Z.eq_dec j b) as [->|Hne]; [right; split; reflexivity|].
      left. right. split; [reflexivity | lia].
    + split; [exact L|]. split; [exact B|].
      intros i j Hi Hj Hv. apply Hpop; try assumption.
      destruct (Z.eq_dec i a) as [->|Hne]; [right; split; [reflexivity | lia] | left; lia].
  - split; [exact L|]. intros i j Hi Hj. apply Hpop; try assumption. lia.
Qed.

(** What one pass does to the tensor when the fixed component is read. *)
Lemma lev1_loops_read (N : iet_numerics) (psi_re phi_re SS bf : list R)
      (inp : input) (s0 : lev1_state) :
  l_psi_re_fixed
    (for_loop (nx inp)
      (fun ii s =>
         for_loop (nW inp)
           (fun jj s =>
              let int_lev1_1 :=
                compute_dynamic_adr_iet_re_lev1_1 (l_int_lev1_1 s) psi_re phi_re
                  SS bf inp in
              let '(int_lev1_2, psi_re_fixed) :=
                (read_dynamic_adr_iet_fixed (l_int_lev1_2 s)
                   (l_psi_re_fixed s) ii jj inp,
                 l_psi_re_fixed s) in
              let psi_re_new :=
                wr (l_psi_re_new s) (idx2 ii jj (nx inp))
                   (cquad_lev1 N int_lev1_1 int_lev1_2) in
              mkLev1 psi_re_new psi_re_fixed int_lev1_1 int_lev1_2)
           s)
      s0)
  = l_psi_re_fixed s0.
Proof.
  apply (for_loop_inv_max (fun _ s => l_psi_re_fixed s = l_psi_re_fixed s0)).
  - reflexivity.
  - intros a s _ Hs.
    apply (for_loop_inv_max (fun _ t => l_psi_re_fixed t = l_psi_re_fixed s0)).
    + exact Hs.
    + intros b t _ Ht. exact Ht.
Qed.

(** One pass of [compute_dynamic_adr_iet_re_lev1], seen from the tensor. *)
Lemma lev1_pass_tensor (N : iet_numerics) (junk : R)
      (psi_re_new psi_re : list R) (t : list cell)
      (phi_re SS bf : list R) (inp : input) :
  let r := snd (compute_dynamic_adr_iet_re_lev1 N junk psi_re_new psi_re t
                  phi_re SS bf inp) in
  (differs_from_INFINITY (rd None t 0) = true -> r = t) /\
  (differs_from_INFINITY (rd None t 0) = false ->
   Z.of_nat (length t) = (nx inp * nW inp * nx inp)%Z ->
   length r = length t /\
   forall i j, (0 <= i < nx inp)%Z -> (0 <= j < nW inp)%Z ->
     slot_populated N r inp i j).
Proof.
  intros r. subst r. unfold compute_dynamic_adr_iet_re_lev1.
  cbv zeta. cbn [snd].
  destruct (differs_from_INFINITY (rd None t 0)); split; try discriminate.
  - intros _.
    exact (lev1_loops_read N psi_re phi_re SS bf inp
             (mkLev1 psi_re_new t (malloc_doubles junk (nx inp))
                (repeat None (Z.to_nat (nx inp))))).
  - intros _ Hlen.
    refine (lev1_loops_populate N psi_re phi_re SS bf inp
             (mkLev1 psi_re_new t (malloc_doubles junk (nx inp))
                (repeat None (Z.to_nat (nx inp)))) Hlen _).
    cbn [l_int_lev1_2]. rewrite length_repeat_Z. lia.
Qed.

(** The initialisation loop stores the sentinel in entry [0] of each slot. *)
Lemma pd_initial_state_tensor (junk : R) (psi_re : list R) (inp : input) :
  let s0 := pd_initial_state junk psi_re inp in
  Z.of_nat (length (pd_psi_re_fixed s0)) = Z.max 0 (nx inp * nW inp * nx inp) /\
  forall i j, (0 <= i < nx inp)%Z -> (0 <= j < nW inp)%Z ->
    slot_sentinel (pd_psi_re_fixed s0) inp i j.
Proof.
  intros s0. subst s0. unfold pd_initial_state.
  set (t0 := repeat (@None dval) (Z.to_nat (nx inp * nW inp * nx inp))).
  set (Inv := fun (visited : Z -> Z -> Prop) (s : list R * list cell) =>
     length (snd s) = length t0 /\
     forall i j, (0 <= i < nx inp)%Z -> (0 <= j < nW inp)%Z -> visited i j ->
       rd None (snd s) (idx2 i j (nx inp)) = Some PosInf).
  set (inner := fun (ii jj : Z) (s : list R * list cell) =>
     let '(psi_re, psi_re_fixed) := s in
     (wr psi_re (idx2 ii jj (nx inp)) 0,
      wr psi_re_fixed (idx2 ii jj (nx inp)) (Some PosInf))).
  assert (Hcell : forall i j, (0 <= i < nx inp)%Z -> (0 <= j < nW inp)%Z ->
            (0 <= idx2 i j (nx inp) < Z.of_nat (length t0))%Z).
  { intros i j Hi Hj. unfold t0. rewrite length_repeat_Z.
    rewrite <- idx3_entry_0 with (y_size := nW inp).
    pose proof (idx3_bound i j 0 (nx inp) (nW inp) Hi Hj ltac:(lia)). lia. }
  assert (Hstep : forall ii jj s (visited : Z -> Z -> Prop),
    (0 <= ii < nx inp)%Z -> (0 <= jj < nW inp)%Z ->
    Inv visited s ->
    Inv (fun i j => visited i j \/ (i = ii /\ j = jj)) (inner ii jj s)).
  { intros ii jj [p f] visited Hii Hjj [L H]. unfold Inv, inner. cbn [snd] in *.
    unfold cell in *.
    split; [now rewrite length_wr|].
    intros i j Hi Hj Hv.
    destruct (Z.eq_dec (idx2 i j (nx inp)) (idx2 ii jj (nx inp))) as [E|Hne].
    - rewrite E. apply rd_wr_eq. rewrite L. now apply Hcell.
    - rewrite rd_wr_neq by (intros E; apply Hne; now symmetry).
      destruct Hv as [Hv | [-> ->]]; [now apply H | congruence]. }
  change (for_loop (nx inp)
            (fun ii s =>
               for_loop (nW inp)
                 (fun jj '(psi_re0, psi_re_fixed) =>
                    (wr psi_re0 (idx2 ii jj (nx inp)) 0,
                     wr psi_re_fixed (idx2 ii jj (nx inp)) (Some PosInf)))
                 s)
            (psi_re, t0))
    with (for_loop (nx inp) (fun ii s => for_loop (nW inp) (inner ii) s) (psi_re, t0)).
  pose proof (for_loop_inv_max
    (fun a s => Inv (fun i j => (i < a)%Z) s) (nx inp)
    (fun ii s => for_loop (nW inp) (inner ii) s) (psi_re, t0)) as Houter.
  destruct Houter as [L H].
  - split; [reflexivity|]. intros; lia.
  - intros a s Ha HI.
    pose proof (for_loop_inv_max
      (fun b s => Inv (fun i j => (i < a)%Z \/ (i = a /\ j < b)%Z) s) (nW inp)
      (inner a) s) as Hinner.
    destruct Hinner as [L H].
    + destruct HI as [L H]. split; [exact L|].
      intros i j Hi Hj [Hlt | [_ Hlt]]; [now apply H | lia].
    + intros b t Hb HIb.
      destruct (Hstep a b t _ Ha Hb HIb) as [L H].
      split; [exact L|].
      intros i j Hi Hj Hv. apply H; try assumption.
      destruct Hv as [Hv | [-> Hv]]; [left; now left|].
      destruct (Z.eq_dec j b) as [->|Hne]; [right; split; reflexivity|].
      left. right. split; [reflexivity | lia].
    + split; [exact L|].
      intros i j Hi Hj Hv. apply H; try assumption.
      destruct (Z.eq_dec i a) as [->|Hne]; [right; split; [reflexivity | lia] | left; lia].
  - destruct (for_loop (nx inp) (fun ii s => for_loop (nW inp) (inner ii) s) (psi_re, t0))
      as [p f] eqn:E.
    cbn [snd pd_psi_re_fixed] in *. unfold cell in *. split.
    + rewrite L. unfold t0. apply length_repeat_Z.
    + intros i j Hi Hj. unfold slot_sentinel. rewrite idx3_entry_0.
      apply H; try assumption. lia.
Qed.

(** ** The fixed-kernel file *)

Lemma decode_encode_int (z : Z) :
  (INT_MIN <= z <= INT_MAX)%Z -> decode_int (encode_int z) = Some z.
Proof.
  unfold INT_MIN, INT_MAX. intros Hz. unfold encode_int, decode_int. cbv zeta.
  f_equal.
  set (u0 := (z mod 4294967296)%Z).
  assert (Hu0 : (0 <= u0 < 4294967296)%Z) by (apply Z.mod_pos_bound; lia).
  assert (Hrec : (u0 mod 256 + 256 * ((u0 / 256) mod 256
                   + 256 * ((u0 / 256 / 256) mod 256
                   + 256 * ((u0 / 256 / 256 / 256) mod 256))) = u0)%Z).
  { pose proof (Z.div_mod u0 256 ltac:(lia)).
    pose proof (Z.div_mod (u0 / 256) 256 ltac:(lia)).
    pose proof (Z.div_mod (u0 / 256 / 256) 256 ltac:(lia)).
    assert (0 <= u0 / 256 / 256 / 256 < 256)%Z.
    { split; [repeat apply Z.div_pos; lia|].
      repeat (apply Z.div_lt_upper_bound; [lia|]). lia. }
    rewrite (Z.mod_small (u0 / 256 / 256 / 256) 256) by lia. lia. }
  rewrite Hrec.
  assert (Hcases : ((0 <= z /\ u0 = z) \/ (z < 0 /\ u0 = z + 4294967296))%Z).
  { unfold u0. destruct (Z.lt_ge_cases z 0) as [Hn|Hp].
    - right. split; [lia|].
      symmetry. apply (Z.mod_unique_pos _ _ (-1)); lia.
    - left. split; [lia|]. apply Z.mod_small. lia. }
  destruct Hcases as [[H1 H2] | [H1 H2]]; rewrite H2.
  - replace (z <? 2147483648)%Z with true by (symmetry; apply Z.ltb_lt; lia). reflexivity.
  - replace (z + 4294967296 <? 2147483648)%Z with false by (symmetry; apply Z.ltb_ge; lia).
    lia.
Qed.

Lemma decode_encode_double (d : R) : decode_double (encode_double d) = Some d.
Proof.
  unfold decode_double, encode_double. cbn [seq map].
  cbn [fbytes_eqb fbyte_eqb Nat.eqb].
  rewrite (proj2 (Reqb_true d d) eq_refl). reflexivity.
Qed.

Lemma length_encode_int (z : Z) : length (encode_int z) = 4%nat.
Proof. reflexivity. Qed.

Lemma length_encode_double (d : R) : length (encode_double d) = 8%nat.
Proof. reflexivity. Qed.

Lemma fread_one (size : nat) (item rest : list fbyte) (e : bool) :
  length item = size ->
  fread size 1 (mkFILE (item ++ rest) e) = ([item], mkFILE rest e).
Proof.
  intros H. cbn [fread f_rest f_eof].
  replace (size <=? length (item ++ rest))%nat with true
    by (symmetry; apply Nat.leb_le; rewrite length_app; lia).
  rewrite <- H, firstn_app, Nat.sub_diag, firstn_all, firstn_O, app_nil_r.
  rewrite skipn_app, Nat.sub_diag, skipn_all. reflexivity.
Qed.

Lemma fread_doubles_all (l : list R) (rest : list fbyte) (e : bool) :
  fread 8 (length l) (mkFILE (flat_map encode_double l ++ rest) e)
  = (map encode_double l, mkFILE rest e).
Proof.
  revert e. induction l as [|d l IH]; intros e; [reflexivity|].
  cbn [length flat_map map]. rewrite <- app_assoc.
  cbn [fread f_rest f_eof].
  replace (8 <=? length (encode_double d ++ flat_map encode_double l ++ rest))%nat
    with true by (symmetry; apply Nat.leb_le; rewrite length_app, length_encode_double; lia).
  change (firstn 8 (encode_double d ++ flat_map encode_double l ++ rest))
    with (encode_double d).
  change (skipn 8 (encode_double d ++ flat_map encode_double l ++ rest))
    with (flat_map encode_double l ++ rest).
  now rewrite IH.
Qed.

Lemma fread_doubles_n (n : nat) (l : list R) (rest : list fbyte) (e : bool) :
  length l = n ->
  fread 8 n (mkFILE (flat_map encode_double l ++ rest) e)
  = (map encode_double l, mkFILE rest e).
Proof. intros <-. apply fread_doubles_all. Qed.

Lemma store_doubles_encoded (buf l : list R) :
  length buf = length l -> store_doubles buf (map encode_double l) = l.
Proof.
  revert buf. induction l as [|d l IH]; intros [|b buf] H; simpl in H; try lia;
    [reflexivity|].
  cbn [map store_doubles]. rewrite decode_encode_double. f_equal. apply IH. lia.
Qed.

(** The probe for the end of the file reads one [int]: it sets the
    indicator exactly when fewer than four bytes are left. *)
Lemma feof_after_probe (rest : list fbyte) :
  feof (snd (fread 4 1 (mkFILE rest false))) = (length rest <? 4)%nat.
Proof.
  cbn [fread f_rest f_eof].
  destruct (Nat.leb_spec 4 (length rest)) as [H|H];
    cbn [snd feof f_eof]; symmetry; [apply Nat.ltb_ge | apply Nat.ltb_lt]; exact H.
Qed.

Lemma Rabs_self_le_tol (x : R) : Rgtb (Rabs (x - x)) DBL_TOL = false.
Proof.
  apply Rgtb_false. replace (x - x) with 0 by ring. rewrite Rabs_R0.
  unfold DBL_TOL. assert (0 < 1 / 10 ^ 15); [|lra].
  apply Rdiv_lt_0_compat; [lra | apply pow_lt; lra].
Qed.

Lemma size_t_of_int_small (z : Z) :
  (0 <= z <= INT_MAX)%Z -> size_t_of_int z = Z.to_nat z.
Proof.
  unfold INT_MAX, size_t_of_int. intros H. now rewrite Z.mod_small by lia.
Qed.

Lemma header_agrees_refl (inp : input) : header_agrees inp inp.
Proof.
  unfold header_agrees.
  repeat split; try reflexivity;
    apply Rnot_gt_le; apply Rgtb_false; apply Rabs_self_le_tol.
Qed.

Ltac read_header :=
  unfold read_fixed_dynamic_qstls_iet;
  match goal with H : _ = Some _ |- _ => rewrite H end;
  unfold write_fixed_dynamic_qstls_iet;
  rewrite <- !app_assoc;
  rewrite (fread_one 4 (encode_int _)) by reflexivity; cbv beta iota zeta;
  rewrite (fread_one 8 (encode_double _)) by reflexivity; cbv beta iota zeta;
  rewrite (fread_one 8 (encode_double _)) by reflexivity; cbv beta iota zeta;
  rewrite (fread_one 4 (encode_int _)) by reflexivity; cbv beta iota zeta;
  rewrite (fread_one 8 (encode_double _)) by reflexivity; cbv beta iota zeta;
  rewrite (fread_one 8 (encode_double _)) by reflexivity; cbv beta iota zeta;
  rewrite (fread_one 8 (encode_double _)) by reflexivity; cbv beta iota zeta;
  rewrite (fread_one 8 (encode_double _)) by reflexivity; cbv beta iota zeta;
  unfold load_int, load_double;
  rewrite !decode_encode_double;
  rewrite !decode_encode_int by (unfold INT_MIN, INT_MAX in *; lia).

(** Reading a file that [write_fixed_dynamic_qstls_iet] produced for an
    input [w] whose header agrees with the reader's input, followed by any
    bytes: the load succeeds, and returns the arrays as written, exactly
    when fewer than four bytes follow. *)
Lemma read_fixed_of_written
      (uninit : file_header) (fopen : string -> option (list fbyte))
      (b_phi_re b_phi_im b_psi_re b_psi_im : list R)
      (phi_re phi_im psi_re psi_im : list R) (w inp : input)
      (trailing : list fbyte) :
  (0 <= nx w <= INT_MAX)%Z ->
  (0 <= nW w <= INT_MAX)%Z ->
  (4 * nx w * nW w + 8 <= INT_MAX)%Z ->
  length phi_re = Z.to_nat (nx w * nW w) ->
  length phi_im = Z.to_nat (nx w * nW w) ->
  length psi_re = Z.to_nat (nx w * nW w) ->
  length psi_im = Z.to_nat (nx w * nW w) ->
  length b_phi_re = Z.to_nat (nx w * nW w) ->
  length b_phi_im = Z.to_nat (nx w * nW w) ->
  length b_psi_re = Z.to_nat (nx w * nW w) ->
  length b_psi_im = Z.to_nat (nx w * nW w) ->
  header_agrees w inp ->
  fopen (dyn_adr_file inp)
  = Some (write_fixed_dynamic_qstls_iet phi_re phi_im psi_re psi_im w ++ trailing) ->
  read_fixed_dynamic_qstls_iet uninit fopen b_phi_re b_phi_im b_psi_re b_psi_im inp
  = if (length trailing <? 4)%nat
    then Done (mkAdr phi_re phi_im psi_re psi_im)
    else Fatal "Expected end of file, but there is still data left to read.".
Proof.
  intros Hnx HnW Hov L1 L2 L3 L4 B1 B2 B3 B4 Hagree Hopen.
  destruct Hagree as (A1 & A2 & A3 & A4 & A5 & A6 & A7 & A8).
  assert (Hprod : (0 <= nx w * nW w)%Z) by (apply Z.mul_nonneg_nonneg; lia).
  assert (Hn : size_t_of_int (nx w * nW w) = Z.to_nat (nx w * nW w)).
  { apply size_t_of_int_small. unfold INT_MAX in *. lia. }
  assert (Hexp : size_t_of_int (4 * nx w * nW w + 8)
                 = (8 + Z.to_nat (nx w * nW w) + Z.to_nat (nx w * nW w)
                    + Z.to_nat (nx w * nW w) + Z.to_nat (nx w * nW w))%nat).
  { rewrite size_t_of_int_small by (unfold INT_MAX in *; lia). lia. }
  read_header.
  unfold check_dynamic_qstls_iet at 1.
  rewrite A1, A4, !Z.eqb_refl.
  rewrite (proj2 (Rgtb_false _ _) (Rle_not_gt _ _ A2)).
  rewrite (proj2 (Rgtb_false _ _) (Rle_not_gt _ _ A3)).
  rewrite (proj2 (Rgtb_false _ _) (Rle_not_gt _ _ A5)).
  rewrite (proj2 (Rgtb_false _ _) (Rle_not_gt _ _ A6)).
  rewrite (proj2 (Rgtb_false _ _) (Rle_not_gt _ _ A7)).
  rewrite (proj2 (Rgtb_false _ _) (Rle_not_gt _ _ A8)).
  cbn [negb orb andb length Nat.add Nat.eqb].
  rewrite <- A1, <- A4.
  unfold fwrite_doubles. rewrite Hn, Hexp.
  rewrite !firstn_all2 by lia.
  rewrite (fread_doubles_n _ phi_re) by assumption. cbv beta iota zeta.
  rewrite (fread_doubles_n _ phi_im) by assumption. cbv beta iota zeta.
  rewrite (fread_doubles_n _ psi_re) by assumption. cbv beta iota zeta.
  rewrite (fread_doubles_n _ psi_im) by assumption. cbv beta iota zeta.
  rewrite !length_map.
  rewrite !store_doubles_encoded by congruence.
  unfold check_dynamic_qstls_iet.
  cbn [andb].
  rewrite L1, L2, L3, L4, Nat.eqb_refl. cbn [negb].
  pose proof (feof_after_probe trailing) as Hp.
  destruct (fread 4 1 (mkFILE trailing false)) as [it fid']. cbn [snd] in Hp.
  rewrite Hp. now destruct (length trailing <? 4)%nat.
Qed.


(** C5 on a file with bytes after the fourth array: the file written for
    [nx = nW = 1] with the arrays [1], [2], [3], [4] loads and returns these
    arrays; the same file followed by one more byte loads as well, although
    the end of the file does not come exactly after the fourth array; with
    four bytes more the load is refused. *)
Theorem read_fixed_accepts_trailing_bytes :
  forall uninit : file_header,
    read_fixed_dynamic_qstls_iet uninit (fun _ => Some adr_witness_file)
      [0] [0] [0] [0] adr_witness_input
    = Done (mkAdr [1] [2] [3] [4]) /\
    read_fixed_dynamic_qstls_iet uninit
      (fun _ => Some (adr_witness_file ++ [Byte 0]))
      [0] [0] [0] [0] adr_witness_input
    = Done (mkAdr [1] [2] [3] [4]) /\
    read_fixed_dynamic_qstls_iet uninit
      (fun _ => Some (adr_witness_file ++ [Byte 0; Byte 0; Byte 0; Byte 0]))
      [0] [0] [0] [0] adr_witness_input
    = Fatal "Expected end of file, but there is still data left to read.".
Proof.
  intros uninit.
  assert (H : forall trailing,
    read_fixed_dynamic_qstls_iet uninit
      (fun _ => Some (adr_witness_file ++ trailing))
      [0] [0] [0] [0] adr_witness_input
    = if (length trailing <? 4)%nat
      then Done (mkAdr [1] [2] [3] [4])
      else Fatal "Expected end of file, but there is still data left to read.").
  { intros trailing.
    apply (read_fixed_of_written uninit _ [0] [0] [0] [0] [1] [2] [3] [4]
             adr_witness_input adr_witness_input trailing);
      try reflexivity; try (unfold INT_MAX; simpl; lia).
    apply header_agrees_refl. }
  split; [|split].
  - rewrite <- (app_nil_r adr_witness_file). apply (H []).
  - apply (H [Byte 0]).
  - apply (H [Byte 0; Byte 0; Byte 0; Byte 0]).
Qed.

(** ** The Hartree-Fock integrand at small wave-vectors *)

Section SmallWaveVector.
Variables y Theta_ mu_ : R.
Hypothesis Theta_pos : 0 < Theta_.

Lemma dlim_exponent (s : R) :
  derivable_pt_lim (fun s => mu_ - s * s / Theta_) s (- (2 * s / Theta_)).
Proof.
  intros eps Heps.
  assert (Hd : 0 < eps * Theta_) by (apply Rmult_lt_0_compat; lra).
  exists (mkposreal _ Hd). intros h Hh Hlt. cbn [pos] in Hlt.
  replace ((mu_ - (s + h) * (s + h) / Theta_ - (mu_ - s * s / Theta_)) / h
           - - (2 * s / Theta_)) with (- (h / Theta_)) by (field; lra).
  rewrite Rabs_Ropp. unfold Rdiv. rewrite Rabs_mult.
  rewrite (Rabs_pos_eq (/ Theta_)) by (apply Rlt_le, Rinv_0_lt_compat; lra).
  apply Rmult_lt_reg_r with Theta_; [lra|].
  rewrite Rmult_assoc, Rinv_l by lra. lra.
Qed.

Lemma dlim_log_term (s : R) :
  derivable_pt_lim (fun s => ln (1 + exp (mu_ - s * s / Theta_))) s
    (/ (1 + exp (mu_ - s * s / Theta_))
     * (0 + exp (mu_ - s * s / Theta_) * - (2 * s / Theta_))).
Proof.
  apply (derivable_pt_lim_comp (fun s => 1 + exp (mu_ - s * s / Theta_)) ln).
  - apply (derivable_pt_lim_plus (fct_cte 1) (fun s => exp (mu_ - s * s / Theta_))).
    + apply derivable_pt_lim_const.
    + apply (derivable_pt_lim_comp (fun s => mu_ - s * s / Theta_) exp).
      * apply dlim_exponent.
      * apply derivable_pt_lim_exp.
  - apply derivable_pt_lim_ln. pose proof (exp_pos (mu_ - s * s / Theta_)). lra.
Qed.

Lemma dlim_log_difference :
  derivable_pt_lim
    (fun x => ln (1 + exp (mu_ - (y - x) * (y - x) / Theta_))
              - ln (1 + exp (mu_ - (y + x) * (y + x) / Theta_)))
    0
    (4 * y / Theta_ * (exp (mu_ - y * y / Theta_) / (1 + exp (mu_ - y * y / Theta_)))).
Proof.
  pose proof (exp_pos (mu_ - y * y / Theta_)) as Hp.
  replace (4 * y / Theta_ * (exp (mu_ - y * y / Theta_) / (1 + exp (mu_ - y * y / Theta_))))
    with (/ (1 + exp (mu_ - (y - 0) * (y - 0) / Theta_))
          * (0 + exp (mu_ - (y - 0) * (y - 0) / Theta_) * - (2 * (y - 0) / Theta_)) * (0 - 1)
          - / (1 + exp (mu_ - (y + 0) * (y + 0) / Theta_))
            * (0 + exp (mu_ - (y + 0) * (y + 0) / Theta_) * - (2 * (y + 0) / Theta_)) * (0 + 1)).
  2:{ replace (y - 0) with y by ring. replace (y + 0) with y by ring. field. lra. }
  apply (derivable_pt_lim_minus
           (fun x => ln (1 + exp (mu_ - (y - x) * (y - x) / Theta_)))
           (fun x => ln (1 + exp (mu_ - (y + x) * (y + x) / Theta_)))).
  - apply (derivable_pt_lim_comp (fun x => y - x)
             (fun s => ln (1 + exp (mu_ - s * s / Theta_)))).
    + apply (derivable_pt_lim_minus (fct_cte y) id).
      * apply derivable_pt_lim_const.
      * apply derivable_pt_lim_id.
    + apply dlim_log_term.
  - apply (derivable_pt_lim_comp (fun x => y + x)
             (fun s => ln (1 + exp (mu_ - s * s / Theta_)))).
    + apply (derivable_pt_lim_plus (fct_cte y) id).
      * apply derivable_pt_lim_const.
      * apply derivable_pt_lim_id.
    + apply dlim_log_term.
Qed.

(** The branch of [SsfHF::integrand] for [x = 0] is the limit of its branch
    for [x > 0], which is also the branch of the C [ssfHF] for [x > 0]. *)
Lemma SsfHF_integrand_limit_at_0 :
  limit1_in (fun x => SsfHF_integrand x Theta_ mu_ y) (fun x => x > 0)
    (SsfHF_integrand 0 Theta_ mu_ y) 0.
Proof.
  intros eps Heps.
  set (a := y * y / Theta_ - mu_).
  set (E := exp (mu_ - y * y / Theta_)).
  assert (HE : E = / exp a).
  { unfold E, a. rewrite <- exp_Ropp. f_equal. ring. }
  pose proof (exp_pos a) as Ha.
  set (C := -3 * Theta_ / 4 * y / (exp a + 1)).
  set (l := 4 * y / Theta_ * (E / (1 + E))).
  assert (HL : SsfHF_integrand 0 Theta_ mu_ y = C * l).
  { unfold SsfHF_integrand. rewrite (proj2 (Rgtb_false 0 0)) by lra.
    fold a. unfold C, l. rewrite HE. field. repeat split; lra. }
  set (M := Rabs C + 1).
  assert (HM : 0 < M) by (unfold M; pose proof (Rabs_pos C); lra).
  destruct (dlim_log_difference (eps / M)) as [delta Hdelta].
  { apply Rdiv_lt_0_compat; lra. }
  fold E in Hdelta. fold l in Hdelta.
  exists delta. split; [apply cond_pos|].
  intros x0 [Hx Hdist].
  set (x := x0 : R) in *.
  change (Rabs (x - 0) < delta) in Hdist.
  change (Rabs (SsfHF_integrand x Theta_ mu_ y - SsfHF_integrand 0 Theta_ mu_ y) < eps).
  rewrite Rminus_0_r in Hdist.
  specialize (Hdelta x ltac:(lra) Hdist).
  rewrite HL.
  assert (Hf : SsfHF_integrand x Theta_ mu_ y
          = C * ((ln (1 + exp (mu_ - (y - (0 + x)) * (y - (0 + x)) / Theta_))
                  - ln (1 + exp (mu_ - (y + (0 + x)) * (y + (0 + x)) / Theta_))
                  - (ln (1 + exp (mu_ - (y - 0) * (y - 0) / Theta_))
                     - ln (1 + exp (mu_ - (y + 0) * (y + 0) / Theta_)))) / x)).
  { unfold SsfHF_integrand. rewrite (proj2 (Rgtb_true x 0) Hx).
    replace (0 + x) with x by ring.
    replace (y - 0) with y by ring. replace (y + 0) with y by ring.
    pose proof (exp_pos (mu_ - (y - x) * (y - x) / Theta_)).
    pose proof (exp_pos (mu_ - (y + x) * (y + x) / Theta_)).
    unfold Rdiv at 4. rewrite ln_mult; [|lra|apply Rinv_0_lt_compat; lra].
    rewrite ln_Rinv by lra. fold a. unfold C. field. split; lra. }
  rewrite Hf.
  match goal with |- Rabs (C * ?q - C * l) < eps =>
    replace (C * q - C * l) with (C * (q - l)) by ring; set (Q := q) in * end.
  rewrite Rabs_mult.
  assert (Rabs C * Rabs (Q - l) <= Rabs C * (eps / M)).
  { apply Rmult_le_compat_l; [apply Rabs_pos | lra]. }
  assert (Rabs C * (eps / M) < eps).
  { unfold M. pose proof (Rabs_pos C).
    apply Rmult_lt_reg_r with (Rabs C + 1); [lra|].
    replace (Rabs C * (eps / (Rabs C + 1)) * (Rabs C + 1)) with (Rabs C * eps) by (field; lra).
    nra. }
  lra.
Qed.

End SmallWaveVector.

(** C9 at [y = 1], [x = 0], [Theta = 1], [mu = 0]: the two integrands are
    the same expression wherever [x > 0], and as [x] decreases to 0 the C
    integrand tends to the value of the C++ branch for [x = 0]; but the C
    branch for [x = 0] returns that value multiplied by
    [exp (y^2/Theta - mu)], here by [e]. *)
Theorem ssfHF_zero_branches_differ :
  ssfHF 1 0 default_input = exp 1 * SsfHF_integrand 0 1 0 1 /\
  ssfHF 1 0 default_input <> SsfHF_integrand 0 1 0 1 /\
  limit1_in (fun x => ssfHF 1 x default_input) (fun x => x > 0)
    (SsfHF_integrand 0 1 0 1) 0.
Proof.
  assert (E : ssfHF 1 0 default_input = exp 1 * SsfHF_integrand 0 1 0 1).
  { rewrite ssfHF_zero_branch by lra. simpl.
    replace (1 * 1 / 1 - 0) with 1 by lra. reflexivity. }
  split; [exact E|]. split.
  - rewrite E.
    assert (Hneg : SsfHF_integrand 0 1 0 1 < 0).
    { unfold SsfHF_integrand. Rdecide.
      pose proof (exp_pos (1 * 1 / 1 - 0)) as Hp.
      assert (0 < (1 + exp (1 * 1 / 1 - 0)) * (1 + exp (1 * 1 / 1 - 0))) by nra.
      apply Rmult_lt_reg_r with ((1 + exp (1 * 1 / 1 - 0)) * (1 + exp (1 * 1 / 1 - 0)));
        [assumption|].
      unfold Rdiv. rewrite Rmult_assoc, Rinv_l by lra. lra. }
    pose proof (exp_ineq1 1 ltac:(lra)) as He.
    nra.
  - intros eps Heps.
    destruct (SsfHF_integrand_limit_at_0 1 1 0 ltac:(lra) eps Heps) as (delta & Hd & H).
    exists delta. split; [exact Hd|].
    intros x [Hx Hdist].
    rewrite ssfHF_pos_branch by exact Hx. apply H. split; assumption.
Qed.

(** ** The static solver: ideal density response, Hartree-Fock factor,
    closure and internal energy *)

(** A loop whose pass [i] amounts to one write of cell [i]. *)
Lemma for_loop_fill_gen (n : Z) (F : Z -> R) (body : Z -> list R -> list R)
      (a : list R) :
  (forall i t, (0 <= i < n)%Z -> length t = length a -> body i t = wr t i (F i)) ->
  for_loop n body a = for_loop n (fun i a => wr a i (F i)) a.
Proof.
  intros Hb.
  destruct (Z.le_gt_cases 0 n) as [Hn|Hn]; [|now rewrite !for_loop_nonpos by lia].
  apply (for_loop_inv (fun k t => length t = length a /\
            t = for_loop k (fun i a => wr a i (F i)) a) n body a Hn).
  - split; [reflexivity|]. now rewrite for_loop_nonpos by lia.
  - intros i t Hi [Hl ->]. rewrite (Hb i _ Hi Hl). split.
    + now rewrite length_wr.
    + now rewrite for_loop_succ by lia.
Qed.

(** Zero, accumulate, scale: the pattern of the quadratures. *)
Lemma zero_accumulate (m i : Z) (s : Z -> R) (t : list R) :
  (0 <= i < Z.of_nat (length t))%Z ->
  for_loop m (fun jj a => wr a i (rd 0 a i + s jj)) (wr t i 0)
  = wr t i (sum_Z m s).
Proof.
  intros Hi. rewrite for_loop_accumulate by (rewrite length_wr; lia).
  rewrite wr_wr, rd_wr_eq by lia. f_equal. ring.
Qed.

(** A block of consecutive cells written in order. *)
Lemma for_loop_block {A} (d : A) (n off : Z) (F : Z -> A) (a : list A) :
  (0 <= off)%Z -> (off + n <= Z.of_nat (length a))%Z ->
  let r := for_loop n (fun i a => wr a (off + i) (F i)) a in
  length r = length a /\
  (forall i, (0 <= i < n)%Z -> rd d r (off + i) = F i) /\
  (forall c, (c < off \/ off + n <= c)%Z -> rd d r c = rd d a c).
Proof.
  intros Hoff Hlen r. subst r.
  destruct (Z.le_gt_cases 0 n) as [Hn|Hn].
  2:{ rewrite for_loop_nonpos by lia. repeat split; intros; lia || reflexivity. }
  apply (for_loop_inv (fun k t => length t = length a /\
     (forall i, (0 <= i < k)%Z -> rd d t (off + i) = F i) /\
     (forall c, (c < off \/ off + k <= c)%Z -> rd d t c = rd d a c)) n _ a Hn).
  - repeat split; intros; lia || reflexivity.
  - intros i t Hi (Hl & Hin & Hout). split; [now rewrite length_wr|]. split.
    + intros j Hj. destruct (Z.eq_dec j i) as [->|Hne].
      * apply rd_wr_eq. lia.
      * rewrite rd_wr_neq by lia. apply Hin. lia.
    + intros c Hc. rewrite rd_wr_neq by lia. apply Hout. lia.
Qed.

Lemma idx2_bound (i l n m : Z) :
  (0 <= i < n)%Z -> (0 <= l < m)%Z -> (0 <= idx2 i l n < n * m)%Z.
Proof. unfold idx2. intros Hi Hl. nia. Qed.

Lemma idx2_inj (i l i' l' n : Z) :
  (0 <= i < n)%Z -> (0 <= i' < n)%Z ->
  idx2 i l n = idx2 i' l' n -> i = i' /\ l = l'.
Proof.
  unfold idx2. intros Hi Hi' E.
  assert (l = l') by nia. subst. split; lia.
Qed.

(** The integrand that [compute_phil] sums for the frequency index [ll]. *)
Lemma compute_phil_fill (phil xx : list R) (ll : Z) (inp : input) :
  (nx inp <= Z.of_nat (length phil))%Z ->
  let r := compute_phil phil xx ll inp in
  length r = length phil /\
  forall i, (0 <= i < nx inp)%Z ->
    rd 0 r i =
    sum_Z (nx inp - 1)
      (fun j => if (ll =? 0)%Z then phix0 (rd 0 xx j) (rd 0 xx i) inp
                else phixl (rd 0 xx j) (rd 0 xx i) ll inp) * dx inp.
Proof.
  intros Hlen r. subst r.
  set (F := fun i => sum_Z (nx inp - 1)
      (fun j => if (ll =? 0)%Z then phix0 (rd 0 xx j) (rd 0 xx i) inp
                else phixl (rd 0 xx j) (rd 0 xx i) ll inp) * dx inp).
  assert (E : compute_phil phil xx ll inp
              = for_loop (nx inp) (fun i a => wr a i (F i)) phil).
  { unfold compute_phil. apply for_loop_fill_gen. intros i t Hi Hl.
    cbv zeta. unfold F.
    destruct (ll =? 0)%Z; rewrite zero_accumulate by lia;
      rewrite wr_wr, rd_wr_eq by lia; reflexivity. }
  rewrite E. destruct (for_loop_fill (nx inp) F phil Hlen) as (L & H & _).
  split; [exact L | exact H].
Qed.

Lemma compute_phi_cells_aux (junk : R) (phi xx : list R) (inp : input) :
  (0 <= nx inp)%Z -> (0 <= nl inp)%Z ->
  (nx inp * nl inp <= Z.of_nat (length phi))%Z ->
  let r := compute_phi junk phi xx inp in
  length r = length phi /\
  (forall i l, (0 <= i < nx inp)%Z -> (0 <= l < nl inp)%Z ->
     rd 0 r (idx2 i l (nx inp)) =
     sum_Z (nx inp - 1)
       (fun j => if (l =? 0)%Z then phix0 (rd 0 xx j) (rd 0 xx i) inp
                 else phixl (rd 0 xx j) (rd 0 xx i) l inp) * dx inp) /\
  (forall c, (nx inp * nl inp <= c)%Z -> rd 0 r c = rd 0 phi c).
Proof.
  intros Hnx Hnl Hlen r. subst r. unfold compute_phi.
  set (G := fun l i => sum_Z (nx inp - 1)
       (fun j => if (l =? 0)%Z then phix0 (rd 0 xx j) (rd 0 xx i) inp
                 else phixl (rd 0 xx j) (rd 0 xx i) l inp) * dx inp).
  set (body := fun (ll : Z) (s : list R * list R) => _).
  assert (H : let s := for_loop (nl inp) body (malloc_doubles junk (nx inp), phi) in
    Z.of_nat (length (fst s)) = nx inp /\ length (snd s) = length phi /\
    (forall i l, (0 <= i < nx inp)%Z -> (0 <= l < nl inp)%Z ->
       rd 0 (snd s) (idx2 i l (nx inp)) = G l i) /\
    (forall c, (nx inp * nl inp <= c)%Z -> rd 0 (snd s) c = rd 0 phi c)).
  { apply (for_loop_inv (fun k s =>
      Z.of_nat (length (fst s)) = nx inp /\ length (snd s) = length phi /\
      (forall i l, (0 <= i < nx inp)%Z -> (0 <= l < k)%Z ->
         rd 0 (snd s) (idx2 i l (nx inp)) = G l i) /\
      (forall c, (nx inp * k <= c)%Z -> rd 0 (snd s) c = rd 0 phi c))
      (nl inp) body _ Hnl).
    - cbn [fst snd]. unfold malloc_doubles. rewrite length_repeat_Z.
      repeat split; intros; lia || reflexivity.
    - intros k [phil p] Hk (Hl1 & Hl2 & Hin & Hout). cbn [fst snd] in *.
      unfold body. 
      destruct (compute_phil_fill phil xx k inp ltac:(lia)) as (L & V).
      set (phil' := compute_phil phil xx k inp) in *.
      assert (Eloop :
        for_loop (nx inp) (fun ii phi0 => wr phi0 (idx2 ii k (nx inp)) (rd 0 phil' ii)) p
        = for_loop (nx inp) (fun ii phi0 => wr phi0 (k * nx inp + ii)%Z (rd 0 phil' ii)) p).
      { apply for_loop_ext. intros; reflexivity. }
      rewrite Eloop.
      destruct (for_loop_block 0 (nx inp) (k * nx inp) (fun ii => rd 0 phil' ii) p)
        as (B1 & B2 & B3); [nia | nia |].
      cbn [fst snd]. split; [lia|]. split; [congruence|]. split.
      + intros i l Hi Hll. destruct (Z.eq_dec l k) as [->|Hne].
        * unfold idx2. rewrite B2 by lia. rewrite V by lia. reflexivity.
        * rewrite B3 by (unfold idx2; nia). apply Hin; lia.
      + intros c Hc. rewrite B3 by nia. apply Hout. nia. }
  cbv zeta in H. destruct H as (_ & H2 & H3 & H4). repeat split; assumption.
Qed.


(** X1. [compute_phi] stores the ideal density response row by row: for
    every wave-vector index [i < nx] and every Matsubara index [l < nl] the
    cell [idx2 i l nx] of [phi] receives the rectangle sum
    [dx * Sum_{j < nx-1} f(x_j, x_i)], where [f] is [phix0] for [l = 0] and
    [phixl] otherwise; the array keeps its length and no cell beyond
    [nx * nl] is written. The last grid point never enters the sum. *)
Theorem compute_phi_cells (junk : R) (phi xx : list R) (inp : input) :
  (0 <= nx inp)%Z -> (0 <= nl inp)%Z ->
  (nx inp * nl inp <= Z.of_nat (length phi))%Z ->
  let r := compute_phi junk phi xx inp in
  length r = length phi /\
  (forall i l, (0 <= i < nx inp)%Z -> (0 <= l < nl inp)%Z ->
     rd 0 r (idx2 i l (nx inp)) =
     sum_Z (nx inp - 1)
       (fun j => if (l =? 0)%Z then phix0 (rd 0 xx j) (rd 0 xx i) inp
                 else phixl (rd 0 xx j) (rd 0 xx i) l inp) * dx inp) /\
  (forall c, (nx inp * nl inp <= c)%Z -> rd 0 r c = rd 0 phi c).
Proof. exact (compute_phi_cells_aux junk phi xx inp). Qed.

Lemma compute_phi_cells_witness :
  length (compute_phi 0 (repeat 0 128) [1 / 20] stls_witness_input)
  = length (repeat 0 128).
Proof.
  apply (compute_phi_cells 0 (repeat 0 128) [1 / 20] stls_witness_input);
    vm_compute; congruence.
Defined.

Lemma sum_Z_nonneg n f : (forall i, (0 <= i < n)%Z -> 0 <= f i) -> 0 <= sum_Z n f.
Proof.
  intros H. unfold sum_Z.
  assert (K : forall k, (k <= Z.to_nat n)%nat -> 0 <= sum_upto k f).
  { induction k as [|k IH]; intros Hk; cbn [sum_upto]; [lra|].
    specialize (IH ltac:(lia)). specialize (H (Z.of_nat k) ltac:(lia)). lra. }
  apply K. lia.
Qed.

Lemma sum_Z_nonpos n f : (forall i, (0 <= i < n)%Z -> f i <= 0) -> sum_Z n f <= 0.
Proof.
  intros H.
  assert (K : 0 <= sum_Z n (fun i => -1 * f i)).
  { apply sum_Z_nonneg. intros i Hi. specialize (H i Hi). lra. }
  rewrite <- sum_Z_scal in K. lra.
Qed.

Lemma ln_nonneg u : 1 <= u -> 0 <= ln u.
Proof.
  intros [H | <-]; [|rewrite ln_1; lra].
  left. rewrite <- ln_1. apply ln_increasing; lra.
Qed.

Lemma ln_nonpos u : 0 < u -> u <= 1 -> ln u <= 0.
Proof.
  intros H0 [H | ->]; [|rewrite ln_1; lra].
  left. rewrite <- ln_1. apply ln_increasing; lra.
Qed.

Lemma phixl_nonneg_aux (yy xx : R) (ll : Z) (inp : input) :
  Theta inp <> 0 -> ll <> 0%Z -> 0 <= phixl yy xx ll inp.
Proof.
  intros HT Hl. unfold phixl. cbv zeta.
  destruct (Rgtb xx 0) eqn:Ex; [|lra]. apply Rgtb_true in Ex.
  set (T := 2 * PI * IZR ll * Theta inp).
  assert (HTne : T <> 0).
  { unfold T. pose proof PI_RGT_0.
    assert (IZR ll <> 0) by (now apply not_0_IZR).
    apply Rmult_integral_contrapositive_currified; [|exact HT].
    apply Rmult_integral_contrapositive_currified; [|assumption].
    apply Rmult_integral_contrapositive_currified; lra. }
  assert (HT2 : 0 < T * T) by (apply (Rsqr_pos_lt T HTne)).
  set (N := (xx * xx + 2 * xx * yy) * (xx * xx + 2 * xx * yy) + T * T).
  set (D := (xx * xx - 2 * xx * yy) * (xx * xx - 2 * xx * yy) + T * T).
  assert (HN : 0 < N).
  { unfold N. pose proof (Rle_0_sqr (xx * xx + 2 * xx * yy)) as Q. unfold Rsqr in Q. lra. }
  assert (HD : 0 < D).
  { unfold D. pose proof (Rle_0_sqr (xx * xx - 2 * xx * yy)) as Q. unfold Rsqr in Q. lra. }
  assert (HND : N - D = 8 * (xx * xx * xx) * yy) by (unfold N, D; ring).
  assert (Hx3 : 0 < xx * xx * xx) by (repeat apply Rmult_lt_0_compat; lra).
  set (E := exp (yy * yy / Theta inp - mu inp) + 1).
  assert (HE : 0 < E) by (unfold E; pose proof (exp_pos (yy * yy / Theta inp - mu inp)); lra).
  assert (Hpre : 0 < 1 / (2 * xx) / E).
  { apply Rdiv_lt_0_compat; [apply Rdiv_lt_0_compat|]; lra. }
  replace (1 / (2 * xx) * yy / E * ln (N / D))
    with (1 / (2 * xx) / E * (yy * ln (N / D))) by (field; lra).
  apply Rmult_le_pos; [lra|].
  destruct (Rle_lt_dec 0 yy) as [Hy|Hy].
  - apply Rmult_le_pos; [exact Hy|]. apply ln_nonneg.
    apply (Rmult_le_reg_r D); [exact HD|].
    unfold Rdiv. rewrite Rmult_assoc, Rinv_l by lra. nra.
  - assert (Hln : ln (N / D) <= 0).
    { apply ln_nonpos; [now apply Rdiv_lt_0_compat|].
      apply (Rmult_le_reg_r D); [exact HD|].
      unfold Rdiv. rewrite Rmult_assoc, Rinv_l by lra. nra. }
    nra.
Qed.

(** X2. The integrand [phixl] of the ideal density response at a non-zero
    Matsubara frequency is never negative (for every [yy] and [xx], provided
    [Theta] is not zero); hence, on any grid and for [dx >= 0], every cell
    of [phi] that [compute_phi] fills for a frequency index [l >= 1] is
    non-negative. *)
Theorem phixl_nonneg (junk : R) (phi xx : list R) (inp : input) :
  Theta inp <> 0 -> 0 <= dx inp ->
  (0 <= nx inp)%Z -> (0 <= nl inp)%Z ->
  (nx inp * nl inp <= Z.of_nat (length phi))%Z ->
  (forall yy x (l : Z), l <> 0%Z -> 0 <= phixl yy x l inp) /\
  (forall i l, (0 <= i < nx inp)%Z -> (1 <= l < nl inp)%Z ->
     0 <= rd 0 (compute_phi junk phi xx inp) (idx2 i l (nx inp))).
Proof.
  intros HT Hdx Hnx Hnl Hlen. split.
  - intros yy x l Hl. now apply phixl_nonneg_aux.
  - intros i l Hi Hl.
    destruct (compute_phi_cells_aux junk phi xx inp Hnx Hnl Hlen) as (_ & V & _).
    rewrite V by lia.
    assert (El : (l =? 0)%Z = false) by (apply Z.eqb_neq; lia). rewrite El.
    apply Rmult_le_pos; [|exact Hdx].
    apply sum_Z_nonneg. intros j _. apply phixl_nonneg_aux; [exact HT | lia].
Qed.

Lemma phixl_nonneg_witness : 0 <= phixl 1 1 1 stls_witness_input.
Proof.
  apply (phixl_nonneg 0 (repeat 0 128) [1 / 20] stls_witness_input);
    try (cbn; lra); try (vm_compute; congruence).
Defined.

(** *** Hartree-Fock structure factor *)

Lemma cosh_pos (a : R) : 0 < cosh a.
Proof. unfold cosh. pose proof (exp_pos a). pose proof (exp_pos (- a)). lra. Qed.

Lemma ssfHF_nonpos (yy xx : R) (inp : input) :
  0 < Theta inp -> ssfHF yy xx inp <= 0.
Proof.
  intros HT. unfold ssfHF. cbv zeta.
  destruct (Rgtb xx 0) eqn:Ex.
  - apply Rgtb_true in Ex.
    set (A := exp (mu inp - (yy - xx) * (yy - xx) / Theta inp)).
    set (B := exp (mu inp - (yy + xx) * (yy + xx) / Theta inp)).
    set (E := exp (yy * yy / Theta inp - mu inp) + 1).
    assert (HA : 0 < A) by apply exp_pos.
    assert (HB : 0 < B) by apply exp_pos.
    assert (HE : 0 < E) by (unfold E; pose proof (exp_pos (yy * yy / Theta inp - mu inp)); lra).
    assert (Hpre : 0 < 3 * Theta inp / (4 * xx) / E).
    { apply Rdiv_lt_0_compat; [apply Rdiv_lt_0_compat|]; lra. }
    replace (-3 * Theta inp / (4 * xx) * yy / E * ln ((1 + A) / (1 + B)))
      with (- (3 * Theta inp / (4 * xx) / E * (yy * ln ((1 + A) / (1 + B)))))
      by (field; lra).
    assert (Hd : (yy + xx) * (yy + xx) / Theta inp - (yy - xx) * (yy - xx) / Theta inp
                 = 4 * xx * yy / Theta inp) by (field; lra).
    assert (Hq : 0 < (1 + A) / (1 + B)) by (apply Rdiv_lt_0_compat; lra).
    assert (Hyln : 0 <= yy * ln ((1 + A) / (1 + B))).
    { destruct (Rle_lt_dec 0 yy) as [Hy|Hy].
      - apply Rmult_le_pos; [exact Hy|]. apply ln_nonneg.
        apply (Rmult_le_reg_r (1 + B)); [lra|].
        unfold Rdiv. rewrite Rmult_assoc, Rinv_l by lra.
        assert (B <= A).
        { unfold A, B. destruct (Req_dec yy 0) as [->|Hy0].
          - right. f_equal. field. lra.
          - left. apply exp_increasing.
            assert (0 < 4 * xx * yy / Theta inp).
            { apply Rdiv_lt_0_compat; [|lra]. nra. }
            lra. }
        lra.
      - assert (Hln : ln ((1 + A) / (1 + B)) <= 0).
        { apply ln_nonpos; [exact Hq|].
          apply (Rmult_le_reg_r (1 + B)); [lra|].
          unfold Rdiv. rewrite Rmult_assoc, Rinv_l by lra.
          assert (A < B).
          { unfold A, B. apply exp_increasing.
            assert (4 * xx * yy / Theta inp < 0).
            { assert (0 < 4 * xx * - yy / Theta inp).
              { apply Rdiv_lt_0_compat; [|lra]. nra. }
              unfold Rdiv in *. lra. }
            lra. }
          lra. }
        nra. }
    nra.
  - pose proof (cosh_pos (yy * yy / Theta inp - mu inp)) as HC.
    assert (0 <= yy * yy / (1 + cosh (yy * yy / Theta inp - mu inp))).
    { apply Rmult_le_pos; [nra|]. left. apply Rinv_0_lt_compat. lra. }
    unfold Rdiv in *. nra.
Qed.

Lemma compute_ssfHF_fill (SS xx : list R) (inp : input) :
  (nx inp <= Z.of_nat (length SS))%Z ->
  let r := compute_ssfHF SS xx inp in
  length r = length SS /\
  forall i, (0 <= i < nx inp)%Z ->
    rd 0 r i
    = sum_Z (nx inp - 1) (fun j => ssfHF (rd 0 xx j) (rd 0 xx i) inp) * dx inp + 1.
Proof.
  intros Hlen r. subst r.
  set (F := fun i =>
     sum_Z (nx inp - 1) (fun j => ssfHF (rd 0 xx j) (rd 0 xx i) inp) * dx inp + 1).
  assert (E : compute_ssfHF SS xx inp
              = for_loop (nx inp) (fun i a => wr a i (F i)) SS).
  { unfold compute_ssfHF. apply for_loop_fill_gen. intros i t Hi Hl.
    cbv zeta. unfold F. rewrite zero_accumulate by lia.
    rewrite !wr_wr. rewrite rd_wr_eq by lia. rewrite rd_wr_eq by lia.
    reflexivity. }
  rewrite E. destruct (for_loop_fill (nx inp) F SS Hlen) as (L & H & _).
  split; [exact L | exact H].
Qed.

(** X3. [compute_ssfHF] gives each of the [nx] cells the value
    [1 + dx * Sum_{j < nx-1} ssfHF(x_j, x_i)]. The integrand [ssfHF] is never
    positive when [Theta > 0], so for [dx >= 0] the Hartree-Fock structure
    factor never exceeds 1, on any grid. *)
Theorem compute_ssfHF_at_most_1 (SS xx : list R) (inp : input) :
  0 < Theta inp -> 0 <= dx inp ->
  (nx inp <= Z.of_nat (length SS))%Z ->
  forall i, (0 <= i < nx inp)%Z ->
    rd 0 (compute_ssfHF SS xx inp) i
    = 1 + dx inp * sum_Z (nx inp - 1) (fun j => ssfHF (rd 0 xx j) (rd 0 xx i) inp) /\
    rd 0 (compute_ssfHF SS xx inp) i <= 1.
Proof.
  intros HT Hdx Hlen i Hi.
  destruct (compute_ssfHF_fill SS xx inp Hlen) as (_ & V).
  rewrite V by exact Hi.
  assert (Hs : sum_Z (nx inp - 1) (fun j => ssfHF (rd 0 xx j) (rd 0 xx i) inp) <= 0).
  { apply sum_Z_nonpos. intros j _. now apply ssfHF_nonpos. }
  split; [ring | nra].
Qed.

Lemma compute_ssfHF_at_most_1_witness :
  rd 0 (compute_ssfHF [0; 0] [1 / 20; 3 / 20] slfc_witness_input) 0 <= 1.
Proof.
  apply (compute_ssfHF_at_most_1 [0; 0] [1 / 20; 3 / 20] slfc_witness_input);
    try (cbn; lra); cbn; lia.
Defined.

(** *** Static structure factor and closure *)

(** X4. The non-interacting limit of [compute_ssf]: when [rs = 0], or at a
    grid point where [G = 1], the structure factor is the Hartree-Fock one
    (at a grid point [x > 0]; it is 0 at a point [x <= 0]), whatever the
    ideal density response. *)
Theorem compute_ssf_without_coupling (SS SSHF GG phi xx : list R) (inp : input)
        (i : Z) :
  (nx inp <= Z.of_nat (length SS))%Z ->
  (0 <= i < nx inp)%Z ->
  rs inp = 0 \/ rd 0 GG i = 1 ->
  rd 0 (compute_ssf SS SSHF GG phi xx inp) i
  = if Rgtb (rd 0 xx i) 0 then rd 0 SSHF i else 0.
Proof.
  intros Hlen Hi H. rewrite compute_ssf_cell by assumption.
  destruct (Rgtb (rd 0 xx i) 0); [|reflexivity].
  unfold ssf_formula. cbv zeta. destruct H as [-> | ->]; ring.
Qed.

Lemma compute_ssf_without_coupling_witness :
  rd 0 (compute_ssf [0] [1 / 2] [1] (repeat 0 128) [1 / 20] stls_witness_input) 0
  = if Rgtb (rd 0 [1 / 20] 0) 0 then rd 0 [1 / 2] 0 else 0.
Proof.
  apply (compute_ssf_without_coupling [0] [1 / 2] [1] (repeat 0 128) [1 / 20]
           stls_witness_input 0).
  - cbn. lia.
  - cbn. lia.
  - right. reflexivity.
Defined.

Lemma slfc_at_S_1 (yy xx : R) : slfc yy xx 1 = 0.
Proof.
  unfold slfc. cbv zeta.
  destruct (Rgtb xx 0 && Rgtb yy 0); [|reflexivity].
  destruct (Rgtb xx yy); [ring|]. destruct (Rltb xx yy); ring.
Qed.

(** X5. [compute_slfc] never reads the last cell of the structure factor:
    two arrays [SS] that agree on the cells [0 .. nx-2] give the same local
    field correction, whatever they hold in cell [nx-1] and beyond. *)
Theorem compute_slfc_ignores_last_cell (GG SS SS' xx : list R) (inp : input) :
  (forall j, (0 <= j < nx inp - 1)%Z -> rd 0 SS j = rd 0 SS' j) ->
  compute_slfc GG SS xx inp = compute_slfc GG SS' xx inp.
Proof.
  intros H. unfold compute_slfc. apply for_loop_ext. intros i t Hi. cbv zeta.
  rewrite (for_loop_ext (nx inp - 1) _
             (fun jj G => wr G i (rd 0 G i
                + slfc (rd 0 xx jj) (rd 0 xx i) (rd 0 SS' jj)))).
  - reflexivity.
  - intros j u Hj. now rewrite (H j Hj).
Qed.

Lemma compute_slfc_ignores_last_cell_witness :
  compute_slfc [0; 0] [1 / 2; 0] [0; 1 / 10] slfc_witness_input
  = compute_slfc [0; 0] [1 / 2; 7] [0; 1 / 10] slfc_witness_input.
Proof.
  apply (compute_slfc_ignores_last_cell [0; 0] [1 / 2; 0] [1 / 2; 7] [0; 1 / 10]
           slfc_witness_input).
  intros j Hj. cbn in Hj. assert (j = 0%Z) by lia. subst j. reflexivity.
Defined.

(** X6. An uncorrelated structure factor gives no local field correction:
    if [S = 1] on the cells [0 .. nx-2], [compute_slfc] sets every cell of
    [G] to 0, on any grid. *)
Theorem compute_slfc_of_uncorrelated (GG SS xx : list R) (inp : input) :
  (nx inp <= Z.of_nat (length GG))%Z ->
  (forall j, (0 <= j < nx inp - 1)%Z -> rd 0 SS j = 1) ->
  forall i, (0 <= i < nx inp)%Z -> rd 0 (compute_slfc GG SS xx inp) i = 0.
Proof.
  intros Hlen H i Hi.
  destruct (compute_slfc_fill GG SS xx inp Hlen) as (_ & V).
  rewrite V by exact Hi. rewrite sum_Z_zero; [ring|].
  intros j Hj. rewrite (H j Hj). apply slfc_at_S_1.
Qed.

Lemma compute_slfc_of_uncorrelated_witness :
  rd 0 (compute_slfc [5; 5] [1; 0] [1 / 20; 3 / 20] slfc_witness_input) 1 = 0.
Proof.
  apply (compute_slfc_of_uncorrelated [5; 5] [1; 0] [1 / 20; 3 / 20]
           slfc_witness_input).
  - cbn. lia.
  - intros j Hj. cbn in Hj. assert (j = 0%Z) by lia. subst j. reflexivity.
  - cbn. lia.
Defined.

(** X7. A fixed point is stationary for the driver. If the closure applied
    to the current [S] reproduces the current [G] on the grid, one pass of
    the loop of [solve_stls] finds a residual of exactly 0, leaves [G]
    unchanged on the grid for every mixing parameter, and the loop test
    then fails (for [err_min_iter >= 0]), so the iteration stops. *)
Theorem stls_fixed_point_is_stationary
        (SSHF phi xx : list R) (inp : input) (s : stls_state) :
  (nx inp <= Z.of_nat (length (st_GG s)))%Z ->
  0 <= err_min_iter inp ->
  (forall i, (0 <= i < nx inp)%Z ->
     rd 0 (compute_slfc (st_GG_new s) (st_SS s) xx inp) i = rd 0 (st_GG s) i) ->
  let s' := stls_body SSHF phi xx inp s in
  st_iter_err s' = 0 /\
  (forall i, (0 <= i < nx inp)%Z -> rd 0 (st_GG s') i = rd 0 (st_GG s) i) /\
  stls_cond inp s' = false.
Proof.
  intros Hlen Herr Hfix s'.
  destruct (stls_body_step SSHF phi xx inp s Hlen) as (E1 & E2 & E3 & _).
  fold s' in E1, E2, E3.
  assert (Hres : st_iter_err s' = 0).
  { rewrite E2. unfold residual2. rewrite sum_Z_zero; [apply sqrt_0|].
    intros i Hi. rewrite E1, (Hfix i Hi). ring. }
  split; [exact Hres|]. split.
  - intros i Hi. rewrite (E3 i Hi), E1, (Hfix i Hi). ring.
  - unfold stls_cond. rewrite Hres.
    assert (E : Rgtb 0 (err_min_iter inp) = false) by (apply Rgtb_false; lra).
    rewrite E. apply andb_false_r.
Qed.

Lemma stls_fixed_point_is_stationary_witness :
  st_iter_err
    (stls_body [1] (repeat 0 128) [1 / 20] stls_witness_input
       (mkStls [0] [3] [1] 1 0)) = 0.
Proof.
  apply (stls_fixed_point_is_stationary [1] (repeat 0 128) [1 / 20]
           stls_witness_input (mkStls [0] [3] [1] 1 0)).
  - cbn. lia.
  - cbn. lra.
  - intros i Hi. cbn [st_GG_new st_SS st_GG].
    assert (i = 0%Z) by (cbn in Hi; lia). subst i.
    change (rd 0 [0] 0) with 0.
    destruct (compute_slfc_fill [3] [1] [1 / 20] stls_witness_input) as (_ & V).
    { cbn. lia. }
    rewrite V by exact Hi. rewrite sum_Z_zero; [ring|].
    intros j Hj. cbn in Hj. lia.
Defined.

(** *** Internal energy *)

(** X8. [compute_internal_energy] returns
    [dx * Sum_{j < nx-1} (S_j - 1) / (pi * rs * lambda)]: it never reads the
    last cell of [S], and for [rs > 0], [dx >= 0] and a structure factor
    that does not exceed 1 on the cells it reads, the interaction energy is
    not positive. *)
Theorem compute_internal_energy_sign (SS : list R) (inp : input) :
  0 < rs inp -> 0 <= dx inp ->
  (forall j, (0 <= j < nx inp - 1)%Z -> rd 0 SS j <= 1) ->
  compute_internal_energy SS inp
  = dx inp * sum_Z (nx inp - 1) (fun j => rd 0 SS j - 1) / (PI * rs inp * lambda) /\
  compute_internal_energy SS inp <= 0.
Proof.
  intros Hrs Hdx HS.
  assert (E : compute_internal_energy SS inp
    = dx inp * sum_Z (nx inp - 1) (fun j => rd 0 SS j - 1) / (PI * rs inp * lambda)).
  { unfold compute_internal_energy. cbv zeta. fold lambda. unfold uex.
    rewrite (for_loop_sum (nx inp - 1) (fun j => rd 0 SS j - 1) 0).
    f_equal. ring. }
  split; [exact E|]. rewrite E.
  assert (Hs : sum_Z (nx inp - 1) (fun j => rd 0 SS j - 1) <= 0).
  { apply sum_Z_nonpos. intros j Hj. specialize (HS j Hj). lra. }
  pose proof lambda_pos. pose proof PI_RGT_0.
  assert (Hden : 0 < PI * rs inp * lambda)
    by (apply Rmult_lt_0_compat; [apply Rmult_lt_0_compat|]; assumption).
  assert (Hinv : 0 < / (PI * rs inp * lambda)) by (now apply Rinv_0_lt_compat).
  assert (Hnum : dx inp * sum_Z (nx inp - 1) (fun j => rd 0 SS j - 1) <= 0) by nra.
  unfold Rdiv. nra.
Qed.

Lemma compute_internal_energy_sign_witness :
  compute_internal_energy [1 / 2; 9] slfc_witness_input <= 0.
Proof.
  apply (compute_internal_energy_sign [1 / 2; 9] slfc_witness_input).
  - cbn. lra.
  - cbn. lra.
  - intros j Hj. cbn in Hj. assert (j = 0%Z) by lia. subst j. cbn. lra.
Defined.

(** *** The binary restart file, continued *)








(** ** The integrands of the ideal density response at their special points *)

Section IdealResponseIntegrand.
Variable inp : input.
Variable y : R.
Hypothesis Theta_pos : 0 < Theta inp.
Hypothesis y_pos : 0 < y.

Let E0 : R :=
  exp (y * y / Theta inp - mu inp) + exp (- (y * y) / Theta inp + mu inp) + 2.

Lemma ln_quotient (a b : R) : 0 < a -> 0 < b -> ln (a / b) = ln a - ln b.
Proof.
  intros Ha Hb. unfold Rdiv.
  rewrite ln_mult; [|lra|now apply Rinv_0_lt_compat].
  rewrite ln_Rinv by lra. ring.
Qed.

Lemma phix0_denominator_pos : 0 < E0.
Proof.
  unfold E0. pose proof (exp_pos (y * y / Theta inp - mu inp)).
  pose proof (exp_pos (- (y * y) / Theta inp + mu inp)). lra.
Qed.

Lemma phix0_generic (x : R) :
  0 < x -> x <> 2 * y ->
  phix0 y x inp
  = 1 / (Theta inp * x)
    * ((y * y - x * x / 4) * ln ((2 * y + x) / Rabs (2 * y - x)) + x * y)
    * y / E0.
Proof.
  intros Hx Hne. unfold phix0. cbv zeta. fold E0.
  rewrite (proj2 (Rgtb_true x 0)) by lra.
  destruct (Rltb x (2 * y)) eqn:E.
  - apply Rltb_true in E. rewrite Rabs_pos_eq by lra. reflexivity.
  - apply Rltb_false in E.
    rewrite (proj2 (Rgtb_true x (2 * y))) by lra.
    rewrite Rabs_left by lra.
    replace (- (2 * y - x)) with (x - 2 * y) by ring. reflexivity.
Qed.

Lemma phix0_at_2y : phix0 y (2 * y) inp = 1 / Theta inp * (y * y) / E0.
Proof.
  unfold phix0. cbv zeta. fold E0.
  rewrite (proj2 (Rgtb_true (2 * y) 0)) by lra.
  rewrite (proj2 (Rltb_false (2 * y) (2 * y))) by lra.
  rewrite (proj2 (Rgtb_false (2 * y) (2 * y))) by lra.
  reflexivity.
Qed.

Lemma phix0_at_0 : phix0 y 0 inp = 2 / Theta inp * (y * y) / E0.
Proof.
  unfold phix0. cbv zeta. fold E0.
  rewrite (proj2 (Rgtb_false 0 0)) by lra. reflexivity.
Qed.

Lemma phix0_near_2y (x : R) :
  0 < x -> x <> 2 * y ->
  phix0 y x inp - phix0 y (2 * y) inp
  = - (y * y / (Theta inp * E0))
    * ((x / 2 * (x / 2) - y * y) / (2 * (x / 2) * y)
       * ln ((x / 2 + y) / Rabs (x / 2 - y))).
Proof.
  intros Hx Hne. rewrite phix0_generic, phix0_at_2y by assumption.
  pose proof phix0_denominator_pos as HE.
  assert (Habs : Rabs (2 * y - x) = 2 * Rabs (x / 2 - y)).
  { replace (2 * y - x) with (- 2 * (x / 2 - y)) by field.
    rewrite Rabs_mult. rewrite Rabs_left by lra. ring. }
  assert (Hpos : 0 < Rabs (x / 2 - y)) by (apply Rabs_pos_lt; lra).
  replace ((2 * y + x) / Rabs (2 * y - x)) with ((x / 2 + y) / Rabs (x / 2 - y)).
  2:{ rewrite Habs. field. lra. }
  field. repeat split; lra.
Qed.

Lemma phix0_limit_at_2y :
  limit1_in (fun x => phix0 y x inp) (fun x => x <> 2 * y)
    (phix0 y (2 * y) inp) (2 * y).
Proof.
  intros eps Heps.
  set (L := y * y / (Theta inp * E0)).
  set (M := Rabs L + 1).
  assert (HM : 0 < M) by (unfold M; pose proof (Rabs_pos L); lra).
  destruct (slfc_log_term_small y y_pos (eps / M)) as (delta & Hd & H).
  { apply Rdiv_lt_0_compat; lra. }
  exists (2 * delta). split; [lra|].
  intros x0 [Hne Hdist].
  set (x := x0 : R) in *.
  change (Rabs (x - 2 * y) < 2 * delta) in Hdist.
  change (Rabs (phix0 y x inp - phix0 y (2 * y) inp) < eps).
  assert (Hhalf : Rabs (x / 2 - y) < delta).
  { replace (x / 2 - y) with ((x - 2 * y) * / 2) by field.
    rewrite Rabs_mult, (Rabs_pos_eq (/ 2)) by lra. lra. }
  destruct (H (x / 2) ltac:(lra) Hhalf) as (Hxpos & Hsmall).
  rewrite phix0_near_2y by lra. fold L.
  rewrite Rabs_mult, Rabs_Ropp.
  match type of Hsmall with Rabs ?g < _ => set (G := g) in * end.
  assert (Rabs L * Rabs G <= Rabs L * (eps / M)).
  { apply Rmult_le_compat_l; [apply Rabs_pos | lra]. }
  assert (Rabs L * (eps / M) < eps).
  { unfold M. pose proof (Rabs_pos L).
    apply Rmult_lt_reg_r with (Rabs L + 1); [lra|].
    replace (Rabs L * (eps / (Rabs L + 1)) * (Rabs L + 1)) with (Rabs L * eps)
      by (field; lra).
    nra. }
  lra.
Qed.

Lemma dlim_log_ratio :
  derivable_pt_lim (fun x => ln (2 * y + x) - ln (2 * y - x)) 0 (1 / y).
Proof.
  replace (1 / y) with (/ (2 * y + 0) * (0 + 1) - / (2 * y - 0) * (0 - 1))
    by (field; lra).
  apply (derivable_pt_lim_minus (fun x => ln (2 * y + x)) (fun x => ln (2 * y - x))).
  - apply (derivable_pt_lim_comp (fun x => 2 * y + x) ln).
    + apply (derivable_pt_lim_plus (fct_cte (2 * y)) id).
      * apply derivable_pt_lim_const.
      * apply derivable_pt_lim_id.
    + apply derivable_pt_lim_ln. lra.
  - apply (derivable_pt_lim_comp (fun x => 2 * y - x) ln).
    + apply (derivable_pt_lim_minus (fct_cte (2 * y)) id).
      * apply derivable_pt_lim_const.
      * apply derivable_pt_lim_id.
    + apply derivable_pt_lim_ln. lra.
Qed.

Lemma phix0_near_0 (x : R) :
  0 < x -> x < 2 * y ->
  phix0 y x inp - phix0 y 0 inp
  = y / (Theta inp * E0)
    * ((y * y - x * x / 4)
       * ((ln (2 * y + (0 + x)) - ln (2 * y - (0 + x))
           - (ln (2 * y + 0) - ln (2 * y - 0))) / x - 1 / y)
       - x * x / (4 * y)).
Proof.
  intros Hx Hlt. rewrite phix0_generic, phix0_at_0 by lra.
  pose proof phix0_denominator_pos as HE.
  rewrite Rabs_pos_eq by lra.
  rewrite ln_quotient by lra.
  replace (0 + x) with x by ring.
  replace (2 * y + 0) with (2 * y) by ring.
  replace (2 * y - 0) with (2 * y) by ring.
  field. repeat split; lra.
Qed.

Lemma phix0_limit_at_0 :
  limit1_in (fun x => phix0 y x inp) (fun x => x > 0) (phix0 y 0 inp) 0.
Proof.
  intros eps Heps.
  pose proof phix0_denominator_pos as HE.
  set (C := y / (Theta inp * E0)).
  assert (HC : 0 < C).
  { unfold C. apply Rdiv_lt_0_compat; [lra|]. apply Rmult_lt_0_compat; lra. }
  set (e1 := eps / (2 * (C * (y * y)))).
  assert (Hyy : 0 < y * y) by nra.
  assert (He1 : 0 < e1).
  { unfold e1. apply Rdiv_lt_0_compat; [lra|]. nra. }
  destruct (dlim_log_ratio e1 He1) as [d1 Hd1].
  set (d2 := 2 * eps / C).
  assert (Hd2 : 0 < d2) by (unfold d2; apply Rdiv_lt_0_compat; lra).
  exists (Rmin d1 (Rmin y d2)). split.
  { apply Rmin_glb_lt; [apply cond_pos|]. apply Rmin_glb_lt; lra. }
  intros x0 [Hx Hdist].
  set (x := x0 : R) in *.
  change (Rabs (x - 0) < Rmin d1 (Rmin y d2)) in Hdist.
  change (Rabs (phix0 y x inp - phix0 y 0 inp) < eps).
  rewrite Rminus_0_r, Rabs_pos_eq in Hdist by lra.
  pose proof (Rmin_l d1 (Rmin y d2)) as Hm1.
  pose proof (Rmin_r d1 (Rmin y d2)) as Hm2.
  pose proof (Rmin_l y d2) as Hm3. pose proof (Rmin_r y d2) as Hm4.
  assert (Hxd1 : Rabs x < d1) by (rewrite Rabs_pos_eq; lra).
  specialize (Hd1 x ltac:(lra) Hxd1).
  rewrite phix0_near_0 by lra. fold C.
  match type of Hd1 with Rabs ?q < _ => set (Q := q) in * end.
  rewrite Rabs_mult, (Rabs_pos_eq C) by lra.
  assert (Hq : Rabs ((y * y - x * x / 4) * Q) <= y * y * e1).
  { rewrite Rabs_mult. apply Rmult_le_compat; try apply Rabs_pos; [|lra].
    rewrite Rabs_pos_eq by nra. nra. }
  assert (Hx2 : 0 <= x * x / (4 * y) <= x / 4).
  { split.
    - apply Rmult_le_pos; [nra|]. left. apply Rinv_0_lt_compat. lra.
    - apply (Rmult_le_reg_r (4 * y)); [lra|].
      replace (x * x / (4 * y) * (4 * y)) with (x * x) by (field; lra). nra. }
  assert (Htri : Rabs ((y * y - x * x / 4) * Q - x * x / (4 * y))
                 <= y * y * e1 + x / 4).
  { unfold Rminus at 1.
    eapply Rle_trans; [apply Rabs_triang|].
    rewrite Rabs_Ropp, (Rabs_pos_eq (x * x / (4 * y))) by lra. lra. }
  assert (K1 : C * (y * y * e1) = eps / 2).
  { unfold e1. field. split; lra. }
  assert (K2 : C * (x / 4) < eps / 2).
  { assert (Hxd2 : x < d2) by lra. unfold d2 in Hxd2.
    assert (C * x < 2 * eps).
    { apply (Rmult_lt_compat_l C) in Hxd2; [|lra].
      replace (C * (2 * eps / C)) with (2 * eps) in Hxd2 by (field; lra). lra. }
    lra. }
  assert (C * Rabs ((y * y - x * x / 4) * Q - x * x / (4 * y))
          <= C * (y * y * e1 + x / 4)).
  { apply Rmult_le_compat_l; lra. }
  lra.
Qed.

Lemma phixl_limit_at_0 (l : Z) :
  l <> 0%Z ->
  limit1_in (fun x => phixl y x l inp) (fun x => x > 0) (phixl y 0 l inp) 0.
Proof.
  intros Hl eps Heps.
  set (T := 2 * PI * IZR l * Theta inp).
  assert (HTne : T <> 0).
  { unfold T. pose proof PI_RGT_0.
    assert (IZR l <> 0) by (now apply not_0_IZR).
    apply Rmult_integral_contrapositive_currified; [|lra].
    apply Rmult_integral_contrapositive_currified; [|assumption].
    apply Rmult_integral_contrapositive_currified; lra. }
  assert (HT2 : 0 < T * T) by (apply (Rsqr_pos_lt T HTne)).
  set (K := 4 * (y * y) / (T * T)).
  assert (HK : 0 < K) by (unfold K; apply Rdiv_lt_0_compat; nra).
  exists (Rmin 1 (eps / K)). split.
  { apply Rmin_glb_lt; [lra|]. now apply Rdiv_lt_0_compat. }
  intros x0 [Hx Hdist].
  set (x := x0 : R) in *.
  change (Rabs (x - 0) < Rmin 1 (eps / K)) in Hdist.
  change (Rabs (phixl y x l inp - phixl y 0 l inp) < eps).
  rewrite Rminus_0_r, Rabs_pos_eq in Hdist by lra.
  pose proof (Rmin_l 1 (eps / K)) as Hm1. pose proof (Rmin_r 1 (eps / K)) as Hm2.
  assert (H0 : phixl y 0 l inp = 0).
  { unfold phixl. cbv zeta. now rewrite (proj2 (Rgtb_false 0 0)) by lra. }
  rewrite H0, Rminus_0_r.
  pose proof (phixl_nonneg_aux y x l inp ltac:(lra) Hl) as Hnn.
  rewrite Rabs_pos_eq by exact Hnn.
  unfold phixl. cbv zeta. fold T. rewrite (proj2 (Rgtb_true x 0)) by lra.
  set (N := (x * x + 2 * x * y) * (x * x + 2 * x * y) + T * T).
  set (D := (x * x - 2 * x * y) * (x * x - 2 * x * y) + T * T).
  assert (HD : T * T <= D).
  { unfold D. pose proof (Rle_0_sqr (x * x - 2 * x * y)) as Q. unfold Rsqr in Q. lra. }
  assert (HN : 0 < N).
  { unfold N. pose proof (Rle_0_sqr (x * x + 2 * x * y)) as Q. unfold Rsqr in Q. lra. }
  assert (HND : N - D = 8 * (x * x * x) * y) by (unfold N, D; ring).
  assert (Hx3 : 0 < x * x * x) by (repeat apply Rmult_lt_0_compat; lra).
  assert (Hq : 0 < N / D) by (apply Rdiv_lt_0_compat; lra).
  assert (Hln : ln (N / D) <= 8 * (x * x * x) * y / (T * T)).
  { eapply Rle_trans; [apply (ln_le_pred _ Hq)|].
    replace (N / D - 1) with ((N - D) / D) by (field; lra).
    rewrite HND. unfold Rdiv. apply Rmult_le_compat_l; [nra|].
    apply Rinv_le_contravar; lra. }
  set (E1 := exp (y * y / Theta inp - mu inp) + 1).
  assert (HE1 : 1 < E1) by (unfold E1; pose proof (exp_pos (y * y / Theta inp - mu inp)); lra).
  assert (Hpre : 0 < 1 / (2 * x) * y / E1 <= y / (2 * x)).
  { split.
    - apply Rdiv_lt_0_compat; [|lra]. apply Rmult_lt_0_compat; [|lra].
      apply Rdiv_lt_0_compat; lra.
    - apply (Rmult_le_reg_r E1); [lra|].
      replace (1 / (2 * x) * y / E1 * E1) with (y / (2 * x)) by (field; lra).
      assert (0 < y / (2 * x)) by (apply Rdiv_lt_0_compat; lra). nra. }
  assert (Hlnpos : 0 <= ln (N / D)).
  { apply ln_nonneg. apply (Rmult_le_reg_r D); [lra|].
    unfold Rdiv. rewrite Rmult_assoc, Rinv_l by lra. nra. }
  assert (Hb : 1 / (2 * x) * y / E1 * ln (N / D)
               <= y / (2 * x) * (8 * (x * x * x) * y / (T * T))).
  { apply Rmult_le_compat; lra. }
  replace (y / (2 * x) * (8 * (x * x * x) * y / (T * T))) with (K * (x * x)) in Hb
    by (unfold K; field; lra).
  assert (Hxx : x * x <= x) by nra.
  assert (HKx : K * x < eps).
  { assert (Hxe : x < eps / K) by lra.
    apply (Rmult_lt_compat_l K) in Hxe; [|lra].
    replace (K * (eps / K)) with eps in Hxe by (field; lra). lra. }
  nra.
Qed.

End IdealResponseIntegrand.

(** X11. The two special branches of [phix0] are the analytic limits of its
    generic branch: for [y > 0] and [Theta > 0], the value returned for
    [x = 2y] is the limit of [phix0(y, x)] as [x] tends to [2y] (from either
    side), and the value returned for [x <= 0] is, at [x = 0], the limit as
    [x] decreases to 0. The C++ [Idr::integrand(y)] is the same function of
    [x], [y], [Theta] and [mu]. *)
Theorem phix0_special_branches_are_limits (inp : input) (y : R) :
  0 < Theta inp -> 0 < y ->
  limit1_in (fun x => phix0 y x inp) (fun x => x <> 2 * y)
    (phix0 y (2 * y) inp) (2 * y) /\
  limit1_in (fun x => phix0 y x inp) (fun x => x > 0) (phix0 y 0 inp) 0 /\
  (forall x, Idr_integrand_0 x (Theta inp) (mu inp) y = phix0 y x inp).
Proof.
  intros HT Hy. split; [|split].
  - now apply phix0_limit_at_2y.
  - now apply phix0_limit_at_0.
  - intros x. reflexivity.
Qed.

Lemma phix0_special_branches_are_limits_witness :
  limit1_in (fun x => phix0 1 x default_input) (fun x => x > 0)
    (phix0 1 0 default_input) 0.
Proof.
  apply (phix0_special_branches_are_limits default_input 1); cbn; lra.
Defined.

(** X12. At a non-zero Matsubara frequency the integrand [phixl] is
    continuous at [x = 0] from the right: its value 0 for [x <= 0] is the
    limit of its [x > 0] branch as [x] decreases to 0 (for [y > 0] and
    [Theta > 0]). The C++ [Idr::integrand(y, l)] is the same function. *)
Theorem phixl_small_wave_vector_limit (inp : input) (y : R) (l : Z) :
  0 < Theta inp -> 0 < y -> l <> 0%Z ->
  phixl y 0 l inp = 0 /\
  limit1_in (fun x => phixl y x l inp) (fun x => x > 0) 0 0 /\
  (forall x, Idr_integrand_l x (Theta inp) (mu inp) y l = phixl y x l inp).
Proof.
  intros HT Hy Hl.
  assert (H0 : phixl y 0 l inp = 0).
  { unfold phixl. cbv zeta. now rewrite (proj2 (Rgtb_false 0 0)) by lra. }
  split; [exact H0|]. split.
  - rewrite <- H0 at 1. now apply phixl_limit_at_0.
  - intros x. reflexivity.
Qed.

Lemma phixl_small_wave_vector_limit_witness :
  limit1_in (fun x => phixl 1 x 1 default_input) (fun x => x > 0) 0 0.
Proof.
  apply (phixl_small_wave_vector_limit default_input 1 1);
    try (cbn; lra). congruence.
Defined.

(** ** The input reader *)

Lemma Rleb_true a b : Rleb a b = true <-> a <= b.
Proof. unfold Rleb. destruct (Rle_dec a b); split; intros; congruence || lra. Qed.

Lemma Rleb_false a b : Rleb a b = false <-> b < a.
Proof. unfold Rleb. destruct (Rle_dec a b); split; intros; congruence || lra. Qed.

(** The tests of [check_input], in order. *)
Lemma check_fold (conds : list (bool * string)) :
  forall st : list string * bool,
    let r := fold_left (fun st cm => check (fst cm) (snd cm) st) conds st in
    snd r = snd st || existsb fst conds /\
    (snd st = false -> (fst st = [] -> (fst r = [] <-> existsb fst conds = false))) /\
    length (fst r) = (length (fst st) + length (filter fst conds))%nat.
Proof.
  induction conds as [|[c m] conds IH]; intros st; cbn [fold_left existsb filter fst snd].
  - rewrite orb_false_r. repeat split; intros; auto; cbn; lia.
  - specialize (IH (check c m st)). cbv zeta in IH.
    destruct IH as (I1 & I2 & I3). unfold check in *. destruct c; cbn [fst snd] in *.
    + rewrite I1. split; [now rewrite !orb_true_r|]. split.
      * intros _ _. split; [|discriminate]. intros E. rewrite E in I3.
        rewrite length_app in I3. cbn in I3. lia.
      * rewrite I3, length_app. cbn. lia.
    + split; [exact I1|]. split; [exact I2 | exact I3].
Qed.

Lemma check_input_as_fold (inp : input) :
  check_input inp =
  let st := fold_left (fun st cm => check (fst cm) (snd cm) st)
    [ (Rleb (dx inp) 0,
       "The resolution of the wave vector grid must be larger than zero"%string);
      (Rleb (xmax inp) 0,
       "The cutoff of the wave vector grid must be larger than zero"%string);
      (Rltb (IZR (nIter inp)) 0,
       "The number of iterations must be a positive number"%string);
      (Rleb (err_min_iter inp) 0,
       "The minimum error for convergence must be larger than zero"%string);
      (Rleb (a_mix inp) 0,
       "The mixing parameter must be larger than 0.0"%string);
      (Rleb (IZR (nl inp)) 0,
       "The number of Matsubara frequencies must be larger than zero"%string);
      (Rleb (IZR (nThreads inp)) 0,
       "The number of OMP threads must be larger than zero"%string);
      (Rltb (rs inp) 0,
       "The quantum coupling parameter must be larger than zero"%string);
      (Rltb (Theta inp) 0,
       "The quantum degeneracy parameter must be positive"%string);
      (Rleb (vs_drs inp) 0,
       "The resolution of the coupling parameter grid must be larger than zero"%string);
      (Rleb (vs_dt inp) 0,
       "The resolution of the degeneracy parameter grid must be larger than zero"%string);
      (Rleb (vs_alpha inp) 0,
       "The free parameter for the VS schemes must be larger than zero"%string);
      (Rleb (vs_err_min_iter inp) 0,
       "The minimum error for convergence must be larger than zero"%string);
      (Rleb (vs_a_mix inp) 0,
       "The mixing parameter must be larger than 0.0"%string);
      (Rleb (dyn_dW inp) 0,
       "The resolution of the frequency grid must be larger than zero"%string);
      (Rleb (dyn_Wmax inp) 0,
       "The cutoff of the frequency grid must be larger than zero"%string);
      (Rleb (dyn_xtarget inp) 0,
       "The wave-vector used to compute the dynamic properties  must be larger than zero"%string) ]
    ([], false) in
  if snd st then (fst st, Fatal "exit(EXIT_FAILURE)") else (fst st, Done tt).
Proof. reflexivity. Qed.

(** The inputs that pass every test of [check_input]. *)
Lemma check_input_valid (inp : input) :
  let '(err, r) := check_input inp in
  (r = Done tt <->
     0 < dx inp /\ 0 < xmax inp /\ (0 <= nIter inp)%Z /\ 0 < err_min_iter inp /\
     0 < a_mix inp /\ (0 < nl inp)%Z /\ (0 < nThreads inp)%Z /\
     0 <= rs inp /\ 0 <= Theta inp /\
     0 < vs_drs inp /\ 0 < vs_dt inp /\ 0 < vs_alpha inp /\
     0 < vs_err_min_iter inp /\ 0 < vs_a_mix inp /\
     0 < dyn_dW inp /\ 0 < dyn_Wmax inp /\ 0 < dyn_xtarget inp) /\
  (r = Done tt <-> err = []) /\
  (r = Done tt \/ r = Fatal "exit(EXIT_FAILURE)").
Proof.
  rewrite check_input_as_fold. cbv zeta.
  match goal with |- context [fold_left ?f ?l ?s] =>
    destruct (check_fold l s) as (F1 & F2 & _); set (st := fold_left f l s) in * end.
  cbv zeta in F1, F2. cbn [snd fst orb] in F1, F2.
  specialize (F2 eq_refl eq_refl).
  cbn [existsb fst] in F1, F2.
  destruct (snd st) eqn:Es.
  - split; [|split; [|now right]].
    + split; [discriminate|]. intros H. exfalso.
      destruct H as (H1 & H2 & H3 & H4 & H5 & H6 & H7 & H8 & H9 & H10 & H11 & H12
                     & H13 & H14 & H15 & H16 & H17).
      apply IZR_le in H3. apply IZR_lt in H6, H7.
      rewrite (proj2 (Rleb_false _ _) H1), (proj2 (Rleb_false _ _) H2),
        (proj2 (Rltb_false _ _)), (proj2 (Rleb_false _ _) H4),
        (proj2 (Rleb_false _ _) H5), (proj2 (Rleb_false _ _) H6),
        (proj2 (Rleb_false _ _) H7), (proj2 (Rltb_false _ _)),
        (proj2 (Rltb_false _ _)), (proj2 (Rleb_false _ _) H10),
        (proj2 (Rleb_false _ _) H11), (proj2 (Rleb_false _ _) H12),
        (proj2 (Rleb_false _ _) H13), (proj2 (Rleb_false _ _) H14),
        (proj2 (Rleb_false _ _) H15), (proj2 (Rleb_false _ _) H16),
        (proj2 (Rleb_false _ _) H17) in F1 by lra.
      discriminate.
    + split; [discriminate|]. intros E. apply F2 in E. rewrite E in F1. discriminate.
  - split; [|split; [|now left]].
    + split; [|reflexivity]. intros _. symmetry in F1.
      repeat (apply orb_false_elim in F1; destruct F1 as [?C F1]).
      repeat match goal with
             | H : Rleb _ _ = false |- _ => apply Rleb_false in H
             | H : Rltb _ _ = false |- _ => apply Rltb_false in H
             end.
      repeat split; try lra; try (apply lt_IZR; lra); apply le_IZR; lra.
    + split; [|reflexivity]. intros _. apply F2. now rewrite <- F1.
Qed.

Lemma get_input_inv (L : libc) (argv : list (string * string)) (inp0 : input)
      (err : list string) (inp' : input) :
  get_input L argv inp0 = Some (err, Done inp') ->
  exists s,
    argp_parse L argv (set_default_parse_opt (mkReader inp0 false)) = Done s /\
    get_grid_size (r_in s) = Some inp' /\
    check_input inp' = (err, Done tt).
Proof.
  unfold get_input. cbv zeta.
  destruct (argp_parse L argv _) as [s|m|] eqn:Ep; try discriminate.
  destruct (get_grid_size (r_in s)) as [i|] eqn:Eg; try discriminate.
  destruct (check_input i) as [e [[]|m|]] eqn:Ec; try discriminate.
  intros H. injection H as <- <-. exists s. repeat split; assumption.
Qed.

Lemma get_input_accepts (L : libc) (argv : list (string * string))
      (inp0 : input) (s : reader_state) (n : Z) :
  argp_parse L argv (set_default_parse_opt (mkReader inp0 false)) = Done s ->
  snd (check_input (set_nx n (r_in s))) = Done tt ->
  IZR n <= xmax (r_in s) / dx (r_in s) < IZR n + 1 ->
  (INT_MIN <= n <= INT_MAX)%Z ->
  get_input L argv inp0 = Some ([], Done (set_nx n (r_in s))).
Proof.
  intros Hp Hc Hn Hr. unfold get_input. cbv zeta. rewrite Hp.
  unfold get_grid_size.
  assert (Ei : Int_part (xmax (r_in s) / dx (r_in s)) = n)
    by (now apply Int_part_unique).
  rewrite int_of_double_floor by (rewrite Ei; exact Hr). rewrite Ei.
  pose proof (check_input_valid (set_nx n (r_in s))) as V.
  destruct (check_input (set_nx n (r_in s))) as [err r]. cbn [snd] in Hc.
  subst r. destruct V as (_ & V2 & _). now rewrite (proj1 V2 eq_refl).
Qed.

Lemma check_input_of_valid (inp : input) :
  0 < dx inp -> 0 < xmax inp -> (0 <= nIter inp)%Z -> 0 < err_min_iter inp ->
  0 < a_mix inp -> (0 < nl inp)%Z -> (0 < nThreads inp)%Z ->
  0 <= rs inp -> 0 <= Theta inp ->
  0 < vs_drs inp -> 0 < vs_dt inp -> 0 < vs_alpha inp ->
  0 < vs_err_min_iter inp -> 0 < vs_a_mix inp ->
  0 < dyn_dW inp -> 0 < dyn_Wmax inp -> 0 < dyn_xtarget inp ->
  snd (check_input inp) = Done tt.
Proof.
  intros. pose proof (check_input_valid inp) as V.
  destruct (check_input inp) as [err r]. cbn [snd].
  apply (proj1 V). repeat split; assumption.
Qed.

(** X15. The reader does not compare the cutoff with the resolution: a
    command line [--dx=v] with [v] above the default cutoff 20 is accepted
    without any message, and leaves a grid of [nx = 0] points. *)
Theorem get_input_accepts_empty_grid
        (L : libc) (arg : string) (inp0 : input) :
  20 < atof L arg ->
  exists inp',
    get_input L [("dx"%string, arg)] inp0 = Some ([], Done inp') /\
    nx inp' = 0%Z /\ dx inp' = atof L arg /\ xmax inp' = 20.
Proof.
  intros Hv.
  set (s := on_input (set_dx (atof L arg))
              (set_default_parse_opt (mkReader inp0 false))).
  exists (set_nx 0 (r_in s)). split; [|repeat split].
  apply get_input_accepts.
  - reflexivity.
  - apply check_input_of_valid; cbn; lra || lia.
  - cbn. split.
    + apply Rlt_le. apply Rdiv_lt_0_compat; lra.
    + apply (Rmult_lt_reg_r (atof L arg)); [lra|].
      replace (20 / atof L arg * atof L arg) with 20 by (field; lra). lra.
  - unfold INT_MIN, INT_MAX. lia.
Qed.

Lemma get_input_accepts_empty_grid_witness :
  exists inp',
    get_input (mkLibc (fun _ => 30) (fun _ => 0%Z)) [("dx"%string, "30"%string)]
      default_input = Some ([], Done inp') /\
    nx inp' = 0%Z /\ dx inp' = 30 /\ xmax inp' = 20.
Proof.
  apply (get_input_accepts_empty_grid (mkLibc (fun _ => 30) (fun _ => 0%Z))
           "30"%string default_input).
  cbn. lra.
Defined.

(** *** The option table *)

Lemma options_keys :
  forall o, In o options -> o_key o <> ARGUMENT_QSTLS_IET_STATIC_SHORT.
Proof.
  assert (H : forallb (fun o => negb (o_key o =? ARGUMENT_QSTLS_IET_STATIC_SHORT)%Z)
                options = true) by reflexivity.
  intros o Ho. rewrite forallb_forall in H. specialize (H o Ho).
  apply negb_true_iff, Z.eqb_neq in H. exact H.
Qed.

Lemma parse_opt_keeps_static (L : libc) (key : Z) (arg : string) (arg_num : Z)
      (s s' : reader_state) (e : error_t) :
  key <> ARGUMENT_QSTLS_IET_STATIC_SHORT ->
  parse_opt L key arg arg_num s = Done (e, s') ->
  qstls_iet_static (r_in s') = qstls_iet_static (r_in s).
Proof.
  intros Hk. unfold parse_opt.
  repeat match goal with
  | |- context [(key =? ARGUMENT_QSTLS_IET_STATIC_SHORT)%Z] =>
      rewrite (proj2 (Z.eqb_neq key ARGUMENT_QSTLS_IET_STATIC_SHORT) Hk)
  | |- (if (key =? ?k)%Z then _ else _) = _ -> _ =>
      destruct (key =? k)%Z;
      [ try (intros H; injection H as <- <-; reflexivity) | ]
  end.
  - destruct (strtok_from arg) as [[v sv]|]; [|discriminate].
    destruct (strtok_from sv) as [[v2 sv2]|]; [|discriminate].
    intros H; injection H as <- <-; reflexivity.
  - destruct (strtok_from arg) as [[v sv]|]; [|discriminate].
    destruct (strtok_from sv) as [[v2 sv2]|]; [|discriminate].
    intros H; injection H as <- <-; reflexivity.
  - destruct (arg_num >? 0)%Z; [discriminate|].
    intros H; injection H as <- <-; reflexivity.
  - intros H; injection H as <- <-; reflexivity.
Qed.

Lemma argp_parse_keeps_static (L : libc) (argv : list (string * string)) :
  forall s s', argp_parse L argv s = Done s' ->
    qstls_iet_static (r_in s') = qstls_iet_static (r_in s).
Proof.
  induction argv as [|[name value] argv IH]; intros s s'; cbn [argp_parse].
  - intros H; injection H as <-; reflexivity.
  - destruct (argp_find name) as [o|] eqn:Ef; [|discriminate].
    apply find_some in Ef. destruct Ef as [Ho _].
    destruct (parse_opt L (o_key o) value 0 s) as [[[] s1]|m|] eqn:Ep;
      try discriminate.
    intros H. rewrite (IH _ _ H).
    exact (parse_opt_keeps_static L _ _ _ _ _ _ (options_keys o Ho) Ep).
Qed.

(** X16. No entry of the option table carries the key
    [ARGUMENT_QSTLS_IET_STATIC_SHORT]: the entry named [qstls-iet-static]
    reuses the key of [qstls-iet-fix]. So no command line changes the field
    [qstls_iet_static], which is 0 in every input that [get_input] returns,
    and the value given to [--qstls-iet-static] is stored as the name of the
    fixed-component file instead. *)
Theorem qstls_iet_static_is_never_set (L : libc) :
  (forall argv s s', argp_parse L argv s = Done s' ->
     qstls_iet_static (r_in s') = qstls_iet_static (r_in s)) /\
  (forall argv inp0 err inp', get_input L argv inp0 = Some (err, Done inp') ->
     qstls_iet_static inp' = 0%Z) /\
  (forall value s,
     argp_parse L [("qstls-iet-static"%string, value)] s
     = Done (on_input (set_qstls_iet_fixed_file value) s)).
Proof.
  split; [|split].
  - intros argv. apply argp_parse_keeps_static.
  - intros argv inp0 err inp' H.
    destruct (get_input_inv _ _ _ _ _ H) as (s & Hp & Hg & _).
    apply argp_parse_keeps_static in Hp.
    unfold get_grid_size in Hg. destruct (int_of_double _); [|discriminate].
    injection Hg as <-. cbn [qstls_iet_static set_nx]. rewrite Hp. reflexivity.
  - intros value s. reflexivity.
Qed.

(** *** Options that take two comma-separated values *)

Lemma skip_delims_token (l : list ascii) (rest : string) :
  l <> [] -> Forall (fun c => is_delim c = false) l ->
  skip_delims (string_of_list_ascii l ++ rest)
  = (string_of_list_ascii l ++ rest)%string.
Proof.
  destruct l as [|c l]; [congruence|]. intros _ H. inversion H as [|? ? Hc _]; subst.
  cbn. now rewrite Hc.
Qed.

Lemma take_token_comma (l : list ascii) (rest : string) :
  Forall (fun c => is_delim c = false) l ->
  take_token (string_of_list_ascii l ++ String ","%char rest)
  = (string_of_list_ascii l, rest).
Proof.
  induction l as [|c l IH]; intros H; cbn.
  - reflexivity.
  - inversion H as [|? ? Hc Hl]; subst. rewrite Hc, (IH Hl). reflexivity.
Qed.

Lemma take_token_end (l : list ascii) :
  Forall (fun c => is_delim c = false) l ->
  take_token (string_of_list_ascii l) = (string_of_list_ascii l, EmptyString).
Proof.
  induction l as [|c l IH]; intros H; cbn.
  - reflexivity.
  - inversion H as [|? ? Hc Hl]; subst. rewrite Hc, (IH Hl). reflexivity.
Qed.

Lemma strtok_first (l : list ascii) (rest : string) :
  l <> [] -> Forall (fun c => is_delim c = false) l ->
  strtok_from (string_of_list_ascii l ++ String ","%char rest)
  = Some (string_of_list_ascii l, rest).
Proof.
  intros Hne H. unfold strtok_from. rewrite skip_delims_token by assumption.
  rewrite <- (take_token_comma l rest H).
  destruct l as [|c l]; [congruence|]. reflexivity.
Qed.

Lemma strtok_last (l : list ascii) :
  l <> [] -> Forall (fun c => is_delim c = false) l ->
  strtok_from (string_of_list_ascii l) = Some (string_of_list_ascii l, EmptyString).
Proof.
  intros Hne H. unfold strtok_from.
  rewrite <- (take_token_end l H).
  destruct l as [|c l]; [congruence|].
  inversion H as [|? ? Hc _]; subst.
  cbn [string_of_list_ascii skip_delims]. rewrite Hc. reflexivity.
Qed.

Lemma strtok_single (l : list ascii) :
  Forall (fun c => is_delim c = false) l ->
  match strtok_from (string_of_list_ascii l) with
  | Some (_, saved) => strtok_from saved = None
  | None => True
  end.
Proof.
  intros H. destruct l as [|c l].
  - exact I.
  - rewrite strtok_last by (congruence || assumption). reflexivity.
Qed.

Lemma not_comma_is_delim (l : list ascii) :
  Forall (fun c => c <> ","%char) l -> Forall (fun c => is_delim c = false) l.
Proof.
  intros H. eapply Forall_impl; [|exact H].
  intros c Hc. unfold is_delim. now apply Ascii.eqb_neq.
Qed.

(** X17. The options [--guess-files] and [--mu-guess] need two values
    separated by a comma. For two non-empty values without commas,
    [v1,v2] stores [v1] and [v2] (as file names, and through [atof] as the
    bracket of the chemical potential); a single value without a comma ends
    the run with [exit(EXIT_FAILURE)]. *)
Theorem two_value_options (L : libc) (l1 l2 : list ascii) (arg_num : Z)
        (s : reader_state) :
  l1 <> [] -> l2 <> [] ->
  Forall (fun c => c <> ","%char) l1 -> Forall (fun c => c <> ","%char) l2 ->
  let v1 := string_of_list_ascii l1 in
  let v2 := string_of_list_ascii l2 in
  parse_opt L ARGUMENT_GUESS_FILES_SHORT (v1 ++ String ","%char v2) arg_num s
  = Done (NO_ERROR,
          on_input (set_guess_file2 v2) (on_input (set_guess_file1 v1) s)) /\
  parse_opt L ARGUMENT_MU_GUESS_SHORT (v1 ++ String ","%char v2) arg_num s
  = Done (NO_ERROR,
          on_input (set_mu_hi (atof L v2)) (on_input (set_mu_lo (atof L v1)) s)) /\
  parse_opt L ARGUMENT_GUESS_FILES_SHORT v1 arg_num s = Fatal "exit(EXIT_FAILURE)" /\
  parse_opt L ARGUMENT_MU_GUESS_SHORT v1 arg_num s = Fatal "exit(EXIT_FAILURE)".
Proof.
  intros N1 N2 H1 H2 v1 v2. subst v1 v2.
  apply not_comma_is_delim in H1, H2.
  pose proof (strtok_first l1 (string_of_list_ascii l2) N1 H1) as E1.
  pose proof (strtok_last l2 N2 H2) as E2.
  pose proof (strtok_last l1 N1 H1) as E3.
  assert (E4 : strtok_from EmptyString = None) by reflexivity.
  repeat split.
  - change (parse_opt L ARGUMENT_GUESS_FILES_SHORT
              (string_of_list_ascii l1 ++ String ","%char (string_of_list_ascii l2))
              arg_num s)
      with (match strtok_from (string_of_list_ascii l1
                                 ++ String ","%char (string_of_list_ascii l2)) with
            | Some (value, saved) =>
                let s := on_input (set_guess_file1 value) s in
                match strtok_from saved with
                | Some (value, _) =>
                    Done (NO_ERROR, on_input (set_guess_file2 value) s)
                | None => Fatal "exit(EXIT_FAILURE)"
                end
            | None => Fatal "exit(EXIT_FAILURE)"
            end).
    rewrite E1. cbv zeta. rewrite E2. reflexivity.
  - change (parse_opt L ARGUMENT_MU_GUESS_SHORT
              (string_of_list_ascii l1 ++ String ","%char (string_of_list_ascii l2))
              arg_num s)
      with (match strtok_from (string_of_list_ascii l1
                                 ++ String ","%char (string_of_list_ascii l2)) with
            | Some (value, saved) =>
                let s := on_input (set_mu_lo (atof L value)) s in
                match strtok_from saved with
                | Some (value, _) =>
                    Done (NO_ERROR, on_input (set_mu_hi (atof L value)) s)
                | None => Fatal "exit(EXIT_FAILURE)"
                end
            | None => Fatal "exit(EXIT_FAILURE)"
            end).
    rewrite E1. cbv zeta. rewrite E2. reflexivity.
  - change (parse_opt L ARGUMENT_GUESS_FILES_SHORT (string_of_list_ascii l1) arg_num s)
      with (match strtok_from (string_of_list_ascii l1) with
            | Some (value, saved) =>
                let s := on_input (set_guess_file1 value) s in
                match strtok_from saved with
                | Some (value, _) =>
                    Done (NO_ERROR, on_input (set_guess_file2 value) s)
                | None => Fatal "exit(EXIT_FAILURE)"
                end
            | None => Fatal "exit(EXIT_FAILURE)"
            end).
    rewrite E3. cbv zeta. rewrite E4. reflexivity.
  - change (parse_opt L ARGUMENT_MU_GUESS_SHORT (string_of_list_ascii l1) arg_num s)
      with (match strtok_from (string_of_list_ascii l1) with
            | Some (value, saved) =>
                let s := on_input (set_mu_lo (atof L value)) s in
                match strtok_from saved with
                | Some (value, _) =>
                    Done (NO_ERROR, on_input (set_mu_hi (atof L value)) s)
                | None => Fatal "exit(EXIT_FAILURE)"
                end
            | None => Fatal "exit(EXIT_FAILURE)"
            end).
    rewrite E3. cbv zeta. rewrite E4. reflexivity.
Qed.

Lemma two_value_options_witness :
  parse_opt (mkLibc (fun _ => 0) (fun _ => 0%Z)) ARGUMENT_GUESS_FILES_SHORT
    "a,b" 0 (mkReader default_input false)
  = Done (NO_ERROR,
          on_input (set_guess_file2 "b")
            (on_input (set_guess_file1 "a") (mkReader default_input false))).
Proof.
  apply (two_value_options (mkLibc (fun _ => 0) (fun _ => 0%Z))
           ["a"%char] ["b"%char] 0 (mkReader default_input false)).
  - discriminate.
  - discriminate.
  - repeat constructor; discriminate.
  - repeat constructor; discriminate.
Defined.

(** ** The dynamic QSTLS-IET iteration: error, mixing, slots of the tensor *)

Lemma sum_upto_zero_inv (n : nat) (f : Z -> R) :
  (forall i, (0 <= i < Z.of_nat n)%Z -> 0 <= f i) ->
  sum_upto n f = 0 -> forall i, (0 <= i < Z.of_nat n)%Z -> f i = 0.
Proof.
  induction n as [|n IH]; intros Hpos Hs i Hi; [lia|].
  cbn [sum_upto] in Hs.
  assert (H1 : 0 <= sum_upto n f).
  { pose proof (sum_Z_nonneg (Z.of_nat n) f) as K. unfold sum_Z in K.
    rewrite Nat2Z.id in K. apply K. intros j Hj. apply Hpos. lia. }
  pose proof (Hpos (Z.of_nat n) ltac:(lia)) as H2.
  destruct (Z.eq_dec i (Z.of_nat n)) as [->|Hne]; [lra|].
  apply IH; [intros j Hj; apply Hpos; lia | lra | lia].
Qed.

Lemma sum_Z_zero_inv (n : Z) (f : Z -> R) :
  (forall i, (0 <= i < n)%Z -> 0 <= f i) ->
  sum_Z n f = 0 -> forall i, (0 <= i < n)%Z -> f i = 0.
Proof.
  intros Hpos Hs i Hi. unfold sum_Z in Hs.
  apply (sum_upto_zero_inv (Z.to_nat n) f); try assumption; intros; try apply Hpos; lia.
Qed.

Lemma adr_iet_err_norm (psi_re psi_re_new : list R) (inp : input) :
  adr_iet_err psi_re psi_re_new inp
  = sqrt (sum_Z (nx inp)
            (fun i => (rd 0 psi_re i - rd 0 psi_re_new i)
                      * (rd 0 psi_re i - rd 0 psi_re_new i))).
Proof.
  unfold adr_iet_err. cbv zeta. f_equal.
  rewrite (for_loop_ext _ _
    (fun ii err => err + (rd 0 psi_re ii - rd 0 psi_re_new ii)
                         * (rd 0 psi_re ii - rd 0 psi_re_new ii))).
  - rewrite for_loop_sum. ring.
  - intros i t Hi. unfold idx2. rewrite Z.mul_0_l, Z.add_0_l.
    reflexivity.
Qed.

(** X18. The convergence test of the dynamic iteration looks at the first
    frequency only: [adr_iet_err] is the 2-norm of the difference of the two
    iterates over the cells [0 .. nx-1] (the column of frequency index 0),
    and it is 0 exactly when the iterates agree on these cells, whatever
    they hold at the other frequencies. *)
Theorem adr_iet_err_first_frequency_only (psi_re psi_re_new : list R) (inp : input) :
  adr_iet_err psi_re psi_re_new inp
  = sqrt (sum_Z (nx inp)
            (fun i => (rd 0 psi_re i - rd 0 psi_re_new i)
                      * (rd 0 psi_re i - rd 0 psi_re_new i))) /\
  (adr_iet_err psi_re psi_re_new inp = 0 <->
   forall i, (0 <= i < nx inp)%Z -> rd 0 psi_re i = rd 0 psi_re_new i).
Proof.
  pose proof (adr_iet_err_norm psi_re psi_re_new inp) as E.
  split; [exact E|]. rewrite E.
  set (f := fun i => (rd 0 psi_re i - rd 0 psi_re_new i)
                     * (rd 0 psi_re i - rd 0 psi_re_new i)).
  assert (Hf : forall i, 0 <= f i).
  { intros i. unfold f.
    exact (Rle_0_sqr (rd 0 psi_re i - rd 0 psi_re_new i)). }
  assert (Hs : 0 <= sum_Z (nx inp) f) by (apply sum_Z_nonneg; intros; apply Hf).
  split.
  - intros H0 i Hi. apply sqrt_eq_0 in H0; [|exact Hs].
    pose proof (sum_Z_zero_inv (nx inp) f (fun i _ => Hf i) H0 i Hi) as Z0.
    unfold f in Z0. apply Rmult_integral in Z0. lra.
  - intros H. rewrite sum_Z_zero; [apply sqrt_0|].
    intros i Hi. unfold f. rewrite (H i Hi). ring.
Qed.

Lemma adr_iet_update_cells_aux (psi_re psi_re_new : list R) (inp : input) :
  (0 <= nx inp)%Z -> (0 <= nW inp)%Z ->
  (nx inp * nW inp <= Z.of_nat (length psi_re))%Z ->
  let r := adr_iet_update psi_re psi_re_new inp in
  length r = length psi_re /\
  (forall i j, (0 <= i < nx inp)%Z -> (0 <= j < nW inp)%Z ->
     rd 0 r (idx2 i j (nx inp))
     = a_mix inp * rd 0 psi_re_new (idx2 i j (nx inp))
       + (1 - a_mix inp) * rd 0 psi_re (idx2 i j (nx inp))) /\
  (forall c, (nx inp * nW inp <= c)%Z -> rd 0 r c = rd 0 psi_re c).
Proof.
  intros Hnx HnW Hlen r. subst r. unfold adr_iet_update.
  set (mix := fun c => a_mix inp * rd 0 psi_re_new c + (1 - a_mix inp) * rd 0 psi_re c).
  set (done := fun (k m i j : Z) => ((i <? k) || ((i =? k) && (j <? m)))%Z).
  set (Inv := fun (k m : Z) (t : list R) =>
    length t = length psi_re /\
    (forall i j, (0 <= i < nx inp)%Z -> (0 <= j < nW inp)%Z ->
       rd 0 t (idx2 i j (nx inp))
       = if done k m i j then mix (idx2 i j (nx inp))
         else rd 0 psi_re (idx2 i j (nx inp))) /\
    (forall c, (nx inp * nW inp <= c)%Z -> rd 0 t c = rd 0 psi_re c)).
  assert (H : Inv (nx inp) 0%Z
    (for_loop (nx inp)
       (fun ii p => for_loop (nW inp)
          (fun jj p => wr p (idx2 ii jj (nx inp))
             (a_mix inp * rd 0 psi_re_new (idx2 ii jj (nx inp))
              + (1 - a_mix inp) * rd 0 p (idx2 ii jj (nx inp)))) p)
       psi_re)).
  { apply (for_loop_inv (fun k t => Inv k 0%Z t) (nx inp) _ psi_re Hnx).
    - unfold Inv, done. split; [reflexivity|]. split; [|reflexivity].
      intros i j Hi Hj.
      replace (i <? 0)%Z with false by (symmetry; apply Z.ltb_ge; lia).
      replace (j <? 0)%Z with false by (symmetry; apply Z.ltb_ge; lia).
      now rewrite andb_false_r.
    - intros k t Hk HI.
      assert (Hin : Inv k (nW inp)
        (for_loop (nW inp)
           (fun jj p => wr p (idx2 k jj (nx inp))
              (a_mix inp * rd 0 psi_re_new (idx2 k jj (nx inp))
               + (1 - a_mix inp) * rd 0 p (idx2 k jj (nx inp)))) t)).
      { apply (for_loop_inv (fun m t => Inv k m t) (nW inp) _ t HnW); [exact HI|].
        intros m u Hm (L & V & O). unfold Inv. split; [now rewrite length_wr|]. split.
        - intros i j Hi Hj.
          destruct (Z.eq_dec i k) as [->|Hik].
          + destruct (Z.eq_dec j m) as [->|Hjm].
            * rewrite rd_wr_eq by (rewrite L; pose proof (idx2_bound k m _ _ Hk Hm); lia).
              rewrite (V k m Hk Hm). unfold done.
              rewrite Z.ltb_irrefl, Z.eqb_refl.
              replace (m <? m)%Z with false by (symmetry; apply Z.ltb_irrefl).
              replace (m <? m + 1)%Z with true by (symmetry; apply Z.ltb_lt; lia).
              cbn [orb andb]. reflexivity.
            * rewrite rd_wr_neq by (intros E; apply idx2_inj in E; lia).
              rewrite (V k j Hi Hj). unfold done.
              rewrite Z.ltb_irrefl, Z.eqb_refl. cbn [orb andb].
              destruct (j <? m)%Z eqn:E1; destruct (j <? m + 1)%Z eqn:E2;
                try reflexivity;
                apply Z.ltb_lt in E1 || apply Z.ltb_ge in E1;
                apply Z.ltb_lt in E2 || apply Z.ltb_ge in E2; lia.
          + rewrite rd_wr_neq by (intros E; apply idx2_inj in E; lia).
            rewrite (V i j Hi Hj). unfold done.
            replace (i =? k)%Z with false by (symmetry; apply Z.eqb_neq; lia).
            reflexivity.
        - intros c Hc. rewrite rd_wr_neq; [now apply O|].
          pose proof (idx2_bound k m _ _ Hk Hm). lia. }
      destruct Hin as (L & V & O). unfold Inv. split; [exact L|]. split; [|exact O].
      intros i j Hi Hj. rewrite (V i j Hi Hj). unfold done.
      replace (j <? 0)%Z with false by (symmetry; apply Z.ltb_ge; lia).
      replace (j <? nW inp)%Z with true by (symmetry; apply Z.ltb_lt; lia).
      rewrite andb_false_r, andb_true_r, orb_false_r.
      destruct (i <? k)%Z eqn:E1; destruct (i =? k)%Z eqn:E2;
        destruct (i <? k + 1)%Z eqn:E3; try reflexivity;
        apply Z.ltb_lt in E1 || apply Z.ltb_ge in E1;
        apply Z.eqb_eq in E2 || apply Z.eqb_neq in E2;
        apply Z.ltb_lt in E3 || apply Z.ltb_ge in E3; lia. }
  destruct H as (L & V & O). split; [exact L|]. split; [|exact O].
  intros i j Hi Hj. rewrite (V i j Hi Hj). unfold done.
  replace (i <? nx inp)%Z with true by (symmetry; apply Z.ltb_lt; lia).
  reflexivity.
Qed.

(** X19. [adr_iet_update] mixes every cell of the [nx * nW] block exactly
    once: cell [idx2 i j nx] becomes
    [a_mix * psi_re_new + (1 - a_mix) * psi_re] of the values the two arrays
    hold in that cell before the call; the array keeps its length and the
    cells beyond the block are not written. *)
Theorem adr_iet_update_cells (psi_re psi_re_new : list R) (inp : input) :
  (0 <= nx inp)%Z -> (0 <= nW inp)%Z ->
  (nx inp * nW inp <= Z.of_nat (length psi_re))%Z ->
  let r := adr_iet_update psi_re psi_re_new inp in
  length r = length psi_re /\
  (forall i j, (0 <= i < nx inp)%Z -> (0 <= j < nW inp)%Z ->
     rd 0 r (idx2 i j (nx inp))
     = a_mix inp * rd 0 psi_re_new (idx2 i j (nx inp))
       + (1 - a_mix inp) * rd 0 psi_re (idx2 i j (nx inp))) /\
  (forall c, (nx inp * nW inp <= c)%Z -> rd 0 r c = rd 0 psi_re c).
Proof. exact (adr_iet_update_cells_aux psi_re psi_re_new inp). Qed.

Lemma adr_iet_update_cells_witness :
  length (adr_iet_update [1] [3] adr_witness_input) = length [1].
Proof.
  apply (adr_iet_update_cells [1] [3] adr_witness_input); cbn; lia.
Defined.

(** *** Slots of the fixed-kernel tensor *)

Lemma read_fixed_slot (buf t : list cell) (ii jj : Z) (inp : input) :
  (nx inp <= Z.of_nat (length buf))%Z ->
  let r := read_dynamic_adr_iet_fixed buf t ii jj inp in
  length r = length buf /\
  forall k, (0 <= k < nx inp)%Z ->
    rd None r k = rd None t (idx3 ii jj k (nx inp) (nW inp)).
Proof.
  intros Hlen r. subst r. unfold read_dynamic_adr_iet_fixed.
  rewrite (for_loop_ext _ _
    (fun kk var => wr var (0 + kk)%Z (rd None t (idx3 ii jj kk (nx inp) (nW inp)))))
    by (intros; reflexivity).
  destruct (for_loop_block None (nx inp) 0
              (fun kk => rd None t (idx3 ii jj kk (nx inp) (nW inp))) buf)
    as (L & V & _); [lia | unfold cell in *; lia |].
  split; [exact L|]. intros k Hk. exact (V k Hk).
Qed.

(** X20. Slots of the fixed-kernel tensor round-trip and do not interfere.
    After [write_dynamic_adr_iet_fixed] has stored a buffer in the slot
    [(ii, jj, _)], [read_dynamic_adr_iet_fixed] on the same slot returns the
    [nx] cells of that buffer, and on any other slot [(i, j, _)] it returns
    what the tensor held there before the write. *)
Theorem fixed_slot_round_trip (var buf t : list cell) (ii jj : Z) (inp : input) :
  (0 <= ii < nx inp)%Z -> (0 <= jj < nW inp)%Z ->
  Z.of_nat (length t) = (nx inp * nW inp * nx inp)%Z ->
  (nx inp <= Z.of_nat (length buf))%Z ->
  let t' := write_dynamic_adr_iet_fixed var t ii jj inp in
  (forall k, (0 <= k < nx inp)%Z ->
     rd None (read_dynamic_adr_iet_fixed buf t' ii jj inp) k = rd None var k) /\
  (forall i j, (0 <= i < nx inp)%Z -> (0 <= j < nW inp)%Z ->
     (i, j) <> (ii, jj) ->
     forall k, (0 <= k < nx inp)%Z ->
       rd None (read_dynamic_adr_iet_fixed buf t' i j inp) k
       = rd None (read_dynamic_adr_iet_fixed buf t i j inp) k).
Proof.
  intros Hi Hj Hlen Hbuf t'.
  destruct (write_fixed_slot var t ii jj inp Hi Hj Hlen) as (L & Vin & Vout).
  fold t' in L, Vin, Vout. split.
  - intros k Hk.
    destruct (read_fixed_slot buf t' ii jj inp Hbuf) as (_ & R).
    rewrite (R k Hk). exact (Vin k Hk).
  - intros i j Hi' Hj' Hne k Hk.
    destruct (read_fixed_slot buf t' i j inp Hbuf) as (_ & R).
    destruct (read_fixed_slot buf t i j inp Hbuf) as (_ & R0).
    rewrite (R k Hk), (R0 k Hk). apply Vout.
    intros k' Hk' E. apply idx3_inj in E; try lia.
    destruct E as (E1 & E2 & _). apply Hne. congruence.
Qed.

Lemma fixed_slot_round_trip_witness :
  rd None (read_dynamic_adr_iet_fixed [None]
             (write_dynamic_adr_iet_fixed [Some PosInf] [None] 0 0 adr_witness_input)
             0 0 adr_witness_input) 0
  = rd None [Some PosInf] 0.
Proof.
  apply (fixed_slot_round_trip [Some PosInf] [None] [None] 0 0 adr_witness_input);
    cbn; lia.
Defined.

(** *** The fixed-kernel file, continued *)



Lemma fread_items (size n : nat) :
  forall (fid : FILE) (items : list (list fbyte)) (fid' : FILE),
    fread size n fid = (items, fid') ->
    (length items <= n)%nat /\
    (length items = n ->
     length (f_rest fid) = (n * size + length (f_rest fid'))%nat /\
     f_eof fid' = f_eof fid).
Proof.
  induction n as [|n IH]; intros fid items fid' H; cbn [fread] in H.
  - injection H as <- <-. cbn. split; [lia|]. intros _. split; [lia | reflexivity].
  - destruct (Nat.leb_spec size (length (f_rest fid))) as [Hs|Hs].
    + destruct (fread size n (mkFILE (skipn size (f_rest fid)) (f_eof fid)))
        as [items0 fid0] eqn:E.
      injection H as <- <-. destruct (IH _ _ _ E) as (I1 & I2).
      cbn [length f_rest f_eof] in *. split; [lia|].
      intros Hl. destruct (I2 ltac:(lia)) as (I3 & I4).
      rewrite length_skipn in I3. split; [lia | exact I4].
    + injection H as <- <-. cbn [length]. split; [lia|]. intros; lia.
Qed.

Lemma check_header_done (dx_ : R) (nx_ : Z) (xmax_ dW : R) (nW_ : Z)
      (Wmax Theta_ rs_ : R) (inp : input) (it_read : nat) (fid fid' : FILE) :
  check_dynamic_qstls_iet dx_ nx_ xmax_ dW nW_ Wmax Theta_ rs_ inp it_read 8 fid
    true true false = Done fid' ->
  nx_ = nx inp /\ nW_ = nW inp /\ it_read = 8%nat /\ fid' = fid.
Proof.
  unfold check_dynamic_qstls_iet. cbn [andb].
  destruct (negb (nx_ =? nx inp)%Z) eqn:E1; [discriminate|].
  cbn [orb].
  destruct (Rgtb (Rabs (dx_ - dx inp)) DBL_TOL || Rgtb (Rabs (xmax_ - xmax inp)) DBL_TOL);
    [discriminate|].
  destruct (negb (nW_ =? nW inp)%Z) eqn:E2; [discriminate|].
  cbn [orb].
  destruct (Rgtb (Rabs (dW - dyn_dW inp)) DBL_TOL
            || Rgtb (Rabs (Wmax - dyn_Wmax inp)) DBL_TOL); [discriminate|].
  destruct (Rgtb (Rabs (Theta_ - Theta inp)) DBL_TOL
            || Rgtb (Rabs (rs_ - rs inp)) DBL_TOL); [discriminate|].
  destruct (it_read =? 8)%nat eqn:E3; cbn [negb]; [|discriminate].
  intros H. injection H as <-.
  apply negb_false_iff, Z.eqb_eq in E1. apply negb_false_iff, Z.eqb_eq in E2.
  apply Nat.eqb_eq in E3. repeat split; assumption.
Qed.

Lemma check_items_eof_done (dx_ : R) (nx_ : Z) (xmax_ dW : R) (nW_ : Z)
      (Wmax Theta_ rs_ : R) (inp : input) (it_read it_expected : nat)
      (fid fid' : FILE) :
  check_dynamic_qstls_iet dx_ nx_ xmax_ dW nW_ Wmax Theta_ rs_ inp
    it_read it_expected fid false true true = Done fid' ->
  it_read = it_expected /\ feof (snd (fread 4 1 fid)) = true.
Proof.
  unfold check_dynamic_qstls_iet. cbn [andb].
  destruct (it_read =? it_expected)%nat eqn:E; cbn [negb]; [|discriminate].
  destruct (fread 4 1 fid) as [it f]. cbn [snd].
  destruct (feof f); cbn [negb]; [|discriminate].
  intros _. apply Nat.eqb_eq in E. split; [exact E | reflexivity].
Qed.

Lemma feof_probe_bound (fid : FILE) :
  f_eof fid = false -> feof (snd (fread 4 1 fid)) = true ->
  (length (f_rest fid) < 4)%nat.
Proof.
  intros He H. destruct fid as [rest e]. cbn [f_eof] in He. subst e.
  rewrite feof_after_probe in H. now apply Nat.ltb_lt in H.
Qed.

(** X22. Whatever bytes a file holds, [read_fixed_dynamic_qstls_iet]
    returns normally only if the file has room for the header (56 bytes) and
    the four arrays of [nx * nW] doubles, and at most 3 bytes more: a file
    that is shorter, or longer by 4 bytes or more, ends the run. *)
Theorem read_fixed_file_size
        (uninit : file_header) (fopen : string -> option (list fbyte))
        (b_phi_re b_phi_im b_psi_re b_psi_im : list R) (inp : input)
        (content : list fbyte) (res : adr_arrays) :
  (0 <= nx inp * nW inp)%Z ->
  (4 * nx inp * nW inp + 8 <= INT_MAX)%Z ->
  fopen (dyn_adr_file inp) = Some content ->
  read_fixed_dynamic_qstls_iet uninit fopen b_phi_re b_phi_im b_psi_re b_psi_im inp
  = Done res ->
  (56 + 32 * Z.to_nat (nx inp * nW inp) <= length content
   <= 56 + 32 * Z.to_nat (nx inp * nW inp) + 3)%nat.
Proof.
  intros Hprod Hov Hopen. unfold INT_MAX in Hov.
  unfold read_fixed_dynamic_qstls_iet. rewrite Hopen.
  destruct (fread 4 1 (mkFILE content false)) as [i1 f1] eqn:E1.
  destruct (fread 8 1 f1) as [i2 f2] eqn:E2.
  destruct (fread 8 1 f2) as [i3 f3] eqn:E3.
  destruct (fread 4 1 f3) as [i4 f4] eqn:E4.
  destruct (fread 8 1 f4) as [i5 f5] eqn:E5.
  destruct (fread 8 1 f5) as [i6 f6] eqn:E6.
  destruct (fread 8 1 f6) as [i7 f7] eqn:E7.
  destruct (fread 8 1 f7) as [i8 f8] eqn:E8.
  cbv beta iota zeta.
  destruct (check_dynamic_qstls_iet _ _ _ _ _ _ _ _ inp _ 8 f8 true true false)
    as [g|m|] eqn:Ec1; try discriminate.
  apply check_header_done in Ec1. destruct Ec1 as (Hnx & HnW & Hit & ->).
  rewrite Hnx, HnW.
  set (n := size_t_of_int (nx inp * nW inp)).
  destruct (fread 8 n f8) as [a1 g1] eqn:A1.
  destruct (fread 8 n g1) as [a2 g2] eqn:A2.
  destruct (fread 8 n g2) as [a3 g3] eqn:A3.
  destruct (fread 8 n g3) as [a4 g4] eqn:A4.
  cbv beta iota zeta.
  destruct (check_dynamic_qstls_iet _ _ _ _ _ _ _ _ inp _ _ g4 false true true)
    as [g|m|] eqn:Ec2; try discriminate.
  intros _.
  apply check_items_eof_done in Ec2. destruct Ec2 as (Hcount & Heof).
  destruct (fread_items _ _ _ _ _ E1) as (K1 & R1).
  destruct (fread_items _ _ _ _ _ E2) as (K2 & R2).
  destruct (fread_items _ _ _ _ _ E3) as (K3 & R3).
  destruct (fread_items _ _ _ _ _ E4) as (K4 & R4).
  destruct (fread_items _ _ _ _ _ E5) as (K5 & R5).
  destruct (fread_items _ _ _ _ _ E6) as (K6 & R6).
  destruct (fread_items _ _ _ _ _ E7) as (K7 & R7).
  destruct (fread_items _ _ _ _ _ E8) as (K8 & R8).
  destruct (fread_items _ _ _ _ _ A1) as (M1 & S1).
  destruct (fread_items _ _ _ _ _ A2) as (M2 & S2).
  destruct (fread_items _ _ _ _ _ A3) as (M3 & S3).
  destruct (fread_items _ _ _ _ _ A4) as (M4 & S4).
  assert (Hn : n = Z.to_nat (nx inp * nW inp)).
  { unfold n, size_t_of_int. rewrite Z.mod_small by lia. reflexivity. }
  assert (Hexp : size_t_of_int (4 * nx inp * nW inp + 8) = (4 * n + 8)%nat).
  { unfold size_t_of_int. rewrite Z.mod_small by lia. rewrite Hn. lia. }
  rewrite Hexp in Hcount.
  destruct (R1 ltac:(lia)) as (L1 & F1). destruct (R2 ltac:(lia)) as (L2 & F2).
  destruct (R3 ltac:(lia)) as (L3 & F3). destruct (R4 ltac:(lia)) as (L4 & F4).
  destruct (R5 ltac:(lia)) as (L5 & F5). destruct (R6 ltac:(lia)) as (L6 & F6).
  destruct (R7 ltac:(lia)) as (L7 & F7). destruct (R8 ltac:(lia)) as (L8 & F8).
  destruct (S1 ltac:(lia)) as (N1 & G1). destruct (S2 ltac:(lia)) as (N2 & G2).
  destruct (S3 ltac:(lia)) as (N3 & G3). destruct (S4 ltac:(lia)) as (N4 & G4).
  cbn [f_rest f_eof] in *.
  assert (He : f_eof g4 = false) by congruence.
  pose proof (feof_probe_bound g4 He Heof) as Hlast.
  rewrite <- Hn. lia.
Qed.

Lemma read_fixed_file_size_witness :
  (56 + 32 * Z.to_nat (nx adr_witness_input * nW adr_witness_input)
   <= length (adr_witness_file ++ [Byte 0; Byte 0])
   <= 56 + 32 * Z.to_nat (nx adr_witness_input * nW adr_witness_input) + 3)%nat.
Proof.
  apply (read_fixed_file_size (mkHeader 0 0 0 0 0 0 0 0)
           (fun _ => Some (adr_witness_file ++ [Byte 0; Byte 0]))
           [0] [0] [0] [0] adr_witness_input
           (adr_witness_file ++ [Byte 0; Byte 0]) (mkAdr [1] [2] [3] [4])).
  - cbn. lia.
  - unfold INT_MAX. cbn. lia.
  - reflexivity.
  - apply (read_fixed_of_written (mkHeader 0 0 0 0 0 0 0 0)
             (fun _ => Some (adr_witness_file ++ [Byte 0; Byte 0]))
             [0] [0] [0] [0] [1] [2] [3] [4] adr_witness_input adr_witness_input
             [Byte 0; Byte 0]);
      try reflexivity; try (unfold INT_MAX; cbn; lia).
    apply header_agrees_refl.
Defined.

(** *** The first pass of the partially dynamic iteration *)

Lemma pd_initial_state_psi_re (junk : R) (psi_re : list R) (inp : input) :
  (nx inp * nW inp <= Z.of_nat (length psi_re))%Z ->
  let s0 := pd_initial_state junk psi_re inp in
  length (pd_psi_re s0) = length psi_re /\
  forall i j, (0 <= i < nx inp)%Z -> (0 <= j < nW inp)%Z ->
    rd 0 (pd_psi_re s0) (idx2 i j (nx inp)) = 0.
Proof.
  intros Hlen s0. subst s0. unfold pd_initial_state.
  set (t0 := repeat (@None dval) (Z.to_nat (nx inp * nW inp * nx inp))).
  set (Inv := fun (visited : Z -> Z -> Prop) (s : list R * list cell) =>
     length (fst s) = length psi_re /\
     forall i j, (0 <= i < nx inp)%Z -> (0 <= j < nW inp)%Z -> visited i j ->
       rd 0 (fst s) (idx2 i j (nx inp)) = 0).
  set (inner := fun (ii jj : Z) (s : list R * list cell) =>
     let '(psi_re, psi_re_fixed) := s in
     (wr psi_re (idx2 ii jj (nx inp)) 0,
      wr psi_re_fixed (idx2 ii jj (nx inp)) (Some PosInf))).
  assert (Hstep : forall ii jj s (visited : Z -> Z -> Prop),
    (0 <= ii < nx inp)%Z -> (0 <= jj < nW inp)%Z ->
    Inv visited s ->
    Inv (fun i j => visited i j \/ (i = ii /\ j = jj)) (inner ii jj s)).
  { intros ii jj [p f] visited Hii Hjj [L H]. unfold Inv, inner. cbn [fst] in *.
    split; [now rewrite length_wr|].
    intros i j Hi Hj Hv.
    destruct (Z.eq_dec (idx2 i j (nx inp)) (idx2 ii jj (nx inp))) as [E|Hne].
    - rewrite E. apply rd_wr_eq. rewrite L.
      pose proof (idx2_bound ii jj _ _ Hii Hjj). lia.
    - rewrite rd_wr_neq by (intros E; apply Hne; now symmetry).
      destruct Hv as [Hv | [-> ->]]; [now apply H | congruence]. }
  change (for_loop (nx inp)
            (fun ii s =>
               for_loop (nW inp)
                 (fun jj '(psi_re0, psi_re_fixed) =>
                    (wr psi_re0 (idx2 ii jj (nx inp)) 0,
                     wr psi_re_fixed (idx2 ii jj (nx inp)) (Some PosInf)))
                 s)
            (psi_re, t0))
    with (for_loop (nx inp) (fun ii s => for_loop (nW inp) (inner ii) s) (psi_re, t0)).
  pose proof (for_loop_inv_max
    (fun a s => Inv (fun i j => (i < a)%Z) s) (nx inp)
    (fun ii s => for_loop (nW inp) (inner ii) s) (psi_re, t0)) as Houter.
  destruct Houter as [L H].
  - split; [reflexivity|]. intros; lia.
  - intros ii s Hii HI.
    pose proof (for_loop_inv_max
      (fun b s => Inv (fun i j => (i < ii)%Z \/ (i = ii /\ (j < b)%Z)) s) (nW inp)
      (inner ii) s) as Hinner.
    destruct Hinner as [L2 H2].
    + destruct HI as [L1 H1]. split; [exact L1|].
      intros i j Hi Hj [Hv|[_ Hv]]; [now apply H1 | lia].
    + intros jj u Hjj HJ. pose proof (Hstep ii jj u _ Hii Hjj HJ) as [L3 H3].
      split; [exact L3|]. intros i j Hi Hj Hv. apply H3; try assumption.
      destruct Hv as [Hv|[-> Hv]]; [now left; left|].
      destruct (Z.eq_dec j jj) as [->|]; [now right | left; right; split; [reflexivity|lia]].
    + split; [exact L2|]. intros i j Hi Hj Hv. apply H2; try assumption.
      destruct (Z.eq_dec i ii) as [->|]; [right; split; [reflexivity|lia] | left; lia].
  - destruct (for_loop (nx inp) (fun ii s => for_loop (nW inp) (inner ii) s) (psi_re, t0))
      as [p f] eqn:E. cbn [pd_psi_re fst] in *.
    split; [exact L|]. intros i j Hi Hj. apply H; try assumption. lia.
Qed.

(** X27. The first pass of the partially dynamic iteration starts from
    [psi_re = 0]: after it, every cell of the [nx * nW] block of [psi_re]
    holds [a_mix] times the cell of the new iterate, the error is the
    2-norm of the new iterate over the first frequency, and the counter
    is 1. *)
Theorem pd_first_pass (N : iet_numerics) (junk : R)
        (psi_re phi_re SS bf : list R) (inp : input) :
  (0 <= nx inp)%Z -> (1 <= nW inp)%Z ->
  (nx inp * nW inp <= Z.of_nat (length psi_re))%Z ->
  let s1 := pd_body N junk phi_re SS bf inp (pd_initial_state junk psi_re inp) in
  (forall i j, (0 <= i < nx inp)%Z -> (0 <= j < nW inp)%Z ->
     rd 0 (pd_psi_re s1) (idx2 i j (nx inp))
     = a_mix inp * rd 0 (pd_psi_re_new s1) (idx2 i j (nx inp))) /\
  pd_iter_err s1
  = sqrt (sum_Z (nx inp)
            (fun i => rd 0 (pd_psi_re_new s1) i * rd 0 (pd_psi_re_new s1) i)) /\
  pd_iter_counter s1 = 1%Z.
Proof.
  intros Hnx HnW Hlen s1.
  destruct (pd_initial_state_psi_re junk psi_re inp Hlen) as (L0 & Z0).
  set (s0 := pd_initial_state junk psi_re inp) in *.
  assert (Hc0 : pd_iter_counter s0 = 0%Z).
  { unfold s0, pd_initial_state.
    destruct (for_loop _ _ _) as [p f]. reflexivity. }
  unfold s1, pd_body.
  destruct (compute_dynamic_adr_iet_re_lev1 N junk (pd_psi_re_new s0) (pd_psi_re s0)
              (pd_psi_re_fixed s0) phi_re SS bf inp) as [new fixed].
  cbn [pd_psi_re pd_psi_re_new pd_iter_err pd_iter_counter].
  destruct (adr_iet_update_cells_aux (pd_psi_re s0) new inp Hnx ltac:(lia)
              ltac:(rewrite L0; exact Hlen)) as (_ & V & _).
  split; [|split].
  - intros i j Hi Hj. rewrite (V i j Hi Hj), (Z0 i j Hi Hj). ring.
  - rewrite adr_iet_err_norm. f_equal. apply sum_Z_ext. intros i Hi.
    assert (E : rd 0 (pd_psi_re s0) i = 0).
    { pose proof (Z0 i 0%Z Hi ltac:(lia)) as K. unfold idx2 in K.
      now rewrite Z.mul_0_l, Z.add_0_l in K. }
    rewrite E. ring.
  - rewrite Hc0. reflexivity.
Qed.

Lemma pd_first_pass_witness :
  pd_iter_counter
    (pd_body (mkIetNumerics (fun _ _ _ => Finite 0) (fun _ _ => 2)) 0 [1] [1] [0]
       adr_witness_input (pd_initial_state 0 [5] adr_witness_input)) = 1%Z.
Proof.
  apply (pd_first_pass (mkIetNumerics (fun _ _ _ => Finite 0) (fun _ _ => 2)) 0
           [5] [1] [1] [0] adr_witness_input); cbn; lia.
Defined.

(** ** Comparisons of binary64 numbers *)

Section Binary64Facts.
Import PrimFloat.
Local Open Scope float_scope.

Lemma SFcompare_antisym (a b : SpecFloat.spec_float) :
  SpecFloat.SFcompare b a = option_map CompOpp (SpecFloat.SFcompare a b).
Proof.
  destruct a as [sa|sa| |sa ma ea], b as [sb|sb| |sb mb eb]; cbn;
    try reflexivity;
    try (destruct sa; reflexivity); try (destruct sb; reflexivity);
    try (destruct sa, sb; reflexivity).
  destruct sa, sb; cbn; try reflexivity.
  - rewrite (Z.compare_antisym ea eb).
    destruct (Z.compare ea eb); cbn; try reflexivity.
    fold (Pos.compare ma mb). fold (Pos.compare mb ma).
    rewrite (Pos.compare_antisym ma mb). reflexivity.
  - rewrite (Z.compare_antisym ea eb).
    destruct (Z.compare ea eb); cbn; try reflexivity.
    fold (Pos.compare ma mb). fold (Pos.compare mb ma).
    rewrite (Pos.compare_antisym ma mb).
    now destruct (Pos.compare ma mb).
Qed.

Lemma SFcompare_refl (a : SpecFloat.spec_float) :
  a <> SpecFloat.S754_nan -> SpecFloat.SFcompare a a = Some Eq.
Proof.
  destruct a as [s|s| |s m e]; cbn; intros H; try reflexivity.
  - now destruct s.
  - congruence.
  - rewrite Z.compare_refl. fold (Pos.compare m m). rewrite Pos.compare_refl.
    now destruct s.
Qed.

(** A double is NaN exactly when it differs from itself. *)
Lemma is_nan_spec (x : float) :
  is_nan x = true <-> FloatOps.Prim2SF x = SpecFloat.S754_nan.
Proof.
  unfold is_nan. rewrite FloatAxioms.eqb_spec. unfold SpecFloat.SFeqb.
  destruct (FloatOps.Prim2SF x) as [s|s| |s m e] eqn:E.
  - cbn. split; discriminate.
  - rewrite SFcompare_refl by discriminate. cbn. split; discriminate.
  - cbn. split; reflexivity.
  - rewrite SFcompare_refl by discriminate. cbn. split; discriminate.
Qed.

Lemma SFcompare_none (a b : SpecFloat.spec_float) :
  SpecFloat.SFcompare a b = None
  <-> a = SpecFloat.S754_nan \/ b = SpecFloat.S754_nan.
Proof.
  destruct a as [sa|sa| |sa ma ea], b as [sb|sb| |sb mb eb]; cbn;
    split; intros H; try discriminate; try reflexivity;
    try (now left); try (now right);
    try (destruct H as [H|H]; discriminate H).
Qed.

(** [x < y] is false exactly when [y <= x] or an operand is NaN. *)
Lemma ltb_false_iff (x y : float) :
  (x <? y) = false
  <-> (y <=? x) = true \/ is_nan x = true \/ is_nan y = true.
Proof.
  rewrite FloatAxioms.ltb_spec, FloatAxioms.leb_spec, !is_nan_spec.
  unfold SpecFloat.SFltb, SpecFloat.SFleb.
  rewrite (SFcompare_antisym (FloatOps.Prim2SF x) (FloatOps.Prim2SF y)).
  pose proof (SFcompare_none (FloatOps.Prim2SF x) (FloatOps.Prim2SF y)) as N.
  destruct (SpecFloat.SFcompare (FloatOps.Prim2SF x) (FloatOps.Prim2SF y))
    as [[| |]|]; cbn.
  - split; [now left | reflexivity].
  - split; [discriminate|]. intros [H|H]; [discriminate|].
    apply N in H. discriminate.
  - split; [now left | reflexivity].
  - split; [|reflexivity]. intros _. right. now apply N.
Qed.

(** [x <= y] is false exactly when [y < x] or an operand is NaN. *)
Lemma leb_false_iff (x y : float) :
  (x <=? y) = false
  <-> (y <? x) = true \/ is_nan x = true \/ is_nan y = true.
Proof.
  rewrite FloatAxioms.ltb_spec, FloatAxioms.leb_spec, !is_nan_spec.
  unfold SpecFloat.SFltb, SpecFloat.SFleb.
  rewrite (SFcompare_antisym (FloatOps.Prim2SF x) (FloatOps.Prim2SF y)).
  pose proof (SFcompare_none (FloatOps.Prim2SF x) (FloatOps.Prim2SF y)) as N.
  destruct (SpecFloat.SFcompare (FloatOps.Prim2SF x) (FloatOps.Prim2SF y))
    as [[| |]|]; cbn.
  - split; [discriminate|]. intros [H|H]; [discriminate|].
    apply N in H. discriminate.
  - split; [discriminate|]. intros [H|H]; [discriminate|].
    apply N in H. discriminate.
  - split; [now left | reflexivity].
  - split; [|reflexivity]. intros _. right. now apply N.
Qed.

Lemma is_nan_zero : is_nan 0 = false.
Proof. reflexivity. Qed.

Lemma leb_zero_false_iff (x : float) :
  (x <=? 0) = false <-> (0 <? x) = true \/ is_nan x = true.
Proof.
  rewrite leb_false_iff, is_nan_zero. intuition discriminate.
Qed.

Lemma ltb_zero_false_iff (x : float) :
  (x <? 0) = false <-> (0 <=? x) = true \/ is_nan x = true.
Proof.
  rewrite ltb_false_iff, is_nan_zero. intuition discriminate.
Qed.

Lemma ltb_nan_r (x y : float) : is_nan y = true -> (x <? y) = false.
Proof. intros H. apply ltb_false_iff. auto. Qed.

Lemma ltb_nan_l (x y : float) : is_nan x = true -> (x <? y) = false.
Proof. intros H. apply ltb_false_iff. auto. Qed.

Lemma leb_nan_l (x y : float) : is_nan x = true -> (x <=? y) = false.
Proof. intros H. apply leb_false_iff. auto. Qed.

End Binary64Facts.

(** ** The C++ classes: ground state *)

Lemma SsfHFGround_get_below_2 (x : R) :
  x < 2 -> 1 - SsfHFGround_get x = (2 - x) * (2 - x) * (x + 4) / 16.
Proof.
  intros Hx. unfold SsfHFGround_get. rewrite (proj2 (Rltb_true x 2) Hx). field.
Qed.

Lemma SsfHFGround_get_from_2 (x : R) : 2 <= x -> SsfHFGround_get x = 1.
Proof.
  intros Hx. unfold SsfHFGround_get. now rewrite (proj2 (Rltb_false x 2)) by lra.
Qed.

Lemma SsfHFGround_get_range (x : R) : 0 <= x -> 0 <= SsfHFGround_get x <= 1.
Proof.
  intros Hx. destruct (Rlt_le_dec x 2) as [H|H].
  - pose proof (SsfHFGround_get_below_2 x H) as E. split.
    + unfold SsfHFGround_get. rewrite (proj2 (Rltb_true x 2) H).
      assert (0 <= 12 - x * x) by nra.
      assert (0 <= x / 16) by lra. now apply Rmult_le_pos.
    + assert (0 <= (2 - x) * (2 - x) * (x + 4) / 16); [|lra].
      assert (0 <= (2 - x) * (2 - x)) by (apply Rle_0_sqr).
      assert (0 <= (2 - x) * (2 - x) * (x + 4)) by (apply Rmult_le_pos; lra).
      lra.
  - rewrite SsfHFGround_get_from_2 by exact H. lra.
Qed.

(** X23. The ground-state Hartree-Fock structure factor: it is 0 at
    [x = 0], stays within [0, 1] for [x >= 0], does not decrease, and is
    continuous at [x = 2], where its two branches meet. *)
Theorem SsfHFGround_get_shape :
  SsfHFGround_get 0 = 0 /\
  (forall x, 0 <= x -> 0 <= SsfHFGround_get x <= 1) /\
  (forall x y, 0 <= x -> x <= y -> SsfHFGround_get x <= SsfHFGround_get y) /\
  continuity_pt SsfHFGround_get 2.
Proof.
  split; [|split; [|split]].
  - unfold SsfHFGround_get. rewrite (proj2 (Rltb_true 0 2)) by lra. field.
  - apply SsfHFGround_get_range.
  - intros x y Hx Hxy. destruct (Rlt_le_dec y 2) as [Hy|Hy].
    + unfold SsfHFGround_get.
      rewrite (proj2 (Rltb_true x 2)), (proj2 (Rltb_true y 2)) by lra.
      assert (0 <= (y - x) * (12 - (x * x + x * y + y * y))).
      { apply Rmult_le_pos; [lra|]. nra. }
      nra.
    + rewrite (SsfHFGround_get_from_2 y Hy).
      apply SsfHFGround_get_range. exact Hx.
  - intros eps Heps. exists (Rmin 1 eps). split.
    { apply Rmin_glb_lt; lra. }
    intros x0 [_ Hdist]. set (x := x0 : R) in *.
    change (Rabs (x - 2) < Rmin 1 eps) in Hdist.
    change (Rabs (SsfHFGround_get x - SsfHFGround_get 2) < eps).
    pose proof (Rmin_l 1 eps). pose proof (Rmin_r 1 eps).
    rewrite (SsfHFGround_get_from_2 2) by lra.
    destruct (Rlt_le_dec x 2) as [Hx|Hx].
    + pose proof (SsfHFGround_get_below_2 x Hx) as E.
      rewrite Rabs_left1 in Hdist by lra.
      assert (Hd : 0 < 2 - x < 1) by lra.
      replace (SsfHFGround_get x - 1) with (- ((2 - x) * (2 - x) * (x + 4) / 16)) by lra.
      rewrite Rabs_Ropp, Rabs_pos_eq.
      * assert ((2 - x) * (2 - x) <= (2 - x)) by nra.
        assert (0 < x + 4 < 6) by lra.
        assert ((2 - x) * (2 - x) * (x + 4) <= (2 - x) * 6) by nra.
        lra.
      * assert (0 <= (2 - x) * (2 - x)) by (apply Rle_0_sqr).
        assert (0 <= (2 - x) * (2 - x) * (x + 4)) by (apply Rmult_le_pos; lra).
        lra.
    + rewrite SsfHFGround_get_from_2 by exact Hx.
      replace (1 - 1) with 0 by ring. rewrite Rabs_R0. exact Heps.
Qed.

(** X24. The imaginary part of the ground-state ideal density response.
    [IdrGround::im0] vanishes for [x <= 0] and, for [x > 0], at every
    frequency [Omega >= x^2 + 2x] (the range for which the dielectric
    function in [SsfGround] is written); it is odd in the frequency, not
    negative for [Omega >= 0], and equal to [pi * Omega / (4x)] while
    [(x/2 + Omega/(2x))^2 < 1]. *)
Theorem IdrGround_im0_support (Omega x : R) :
  (x <= 0 -> IdrGround_im0 Omega x = 0) /\
  (0 < x -> x * x + 2 * x <= Omega -> IdrGround_im0 Omega x = 0) /\
  IdrGround_im0 (- Omega) x = - IdrGround_im0 Omega x /\
  (0 <= Omega -> 0 <= IdrGround_im0 Omega x) /\
  (0 < x -> 0 <= Omega ->
   (x / 2 + Omega / (2 * x)) * (x / 2 + Omega / (2 * x)) < 1 ->
   IdrGround_im0 Omega x = PI * Omega / (4 * x)).
Proof.
  pose proof PI_RGT_0 as Hpi.
  split; [|split; [|split; [|split]]].
  - intros Hx. unfold IdrGround_im0. rewrite (proj2 (Rgtb_false x 0)) by lra.
    cbv zeta. ring.
  - intros Hx HO. unfold IdrGround_im0. rewrite (proj2 (Rgtb_true x 0) Hx).
    cbv zeta.
    assert (Hq : x / 2 + 1 <= Omega / (2 * x)).
    { apply (Rmult_le_reg_r (2 * x)); [lra|].
      replace (Omega / (2 * x) * (2 * x)) with Omega by (field; lra). nra. }
    rewrite (proj2 (Rltb_false _ 1)) by nra.
    rewrite (proj2 (Rltb_false _ 1)) by nra.
    ring.
  - unfold IdrGround_im0. destruct (Rgtb x 0) eqn:Ex; cbv zeta; [|ring].
    apply Rgtb_true in Ex.
    replace (x / 2 + - Omega / (2 * x)) with (x / 2 - Omega / (2 * x)) by (field; lra).
    replace (x / 2 - - Omega / (2 * x)) with (x / 2 + Omega / (2 * x)) by (field; lra).
    destruct (Rltb _ 1); destruct (Rltb _ 1); ring.
  - intros HO. unfold IdrGround_im0. destruct (Rgtb x 0) eqn:Ex; cbv zeta; [|lra].
    apply Rgtb_true in Ex.
    set (s := x / 2 + Omega / (2 * x)). set (d := x / 2 - Omega / (2 * x)).
    assert (Hsd : s * s - d * d = Omega) by (unfold s, d; field; lra).
    assert (Hpre : 0 < PI / (4 * x)) by (apply Rdiv_lt_0_compat; lra).
    replace (- PI / (4 * x)) with (- (PI / (4 * x))) by (field; lra).
    pose proof (Rle_0_sqr d) as Hd. unfold Rsqr in Hd.
    assert (K : forall A, A <= 0 -> 0 <= - (PI / (4 * x)) * A).
    { intros A HA. replace (- (PI / (4 * x)) * A) with (PI / (4 * x) * - A) by ring.
      apply Rmult_le_pos; lra. }
    destruct (Rlt_dec (s * s) 1) as [E1|E1];
      [rewrite (proj2 (Rltb_true _ _) E1) | rewrite (proj2 (Rltb_false _ _) E1)];
      (destruct (Rlt_dec (d * d) 1) as [E2|E2];
       [rewrite (proj2 (Rltb_true _ _) E2) | rewrite (proj2 (Rltb_false _ _) E2)]);
      apply K; lra.
  - intros Hx HO Hs. unfold IdrGround_im0. rewrite (proj2 (Rgtb_true x 0) Hx).
    cbv zeta.
    set (s := x / 2 + Omega / (2 * x)) in *. set (d := x / 2 - Omega / (2 * x)).
    assert (Hsd : s * s - d * d = Omega) by (unfold s, d; field; lra).
    pose proof (Rle_0_sqr d) as Hd. unfold Rsqr in Hd.
    rewrite (proj2 (Rltb_true (s * s) 1) Hs).
    rewrite (proj2 (Rltb_true (d * d) 1)) by lra.
    replace (1 - s * s - (1 - d * d)) with (- Omega) by lra.
    field. lra.
Qed.

Lemma IdrGround_im0_support_witness : IdrGround_im0 3 1 = 0.
Proof. apply (IdrGround_im0_support 3 1); lra. Defined.

(** ** The C++ classes: the input of a scheme *)

Lemma count_nonzero (v : list string) (s : string) :
  negb (count v s =? 0)%nat = true <-> In s v.
Proof.
  unfold count. rewrite negb_true_iff, Nat.eqb_neq.
  rewrite (count_occ_In string_dec). lia.
Qed.

Lemma count_zero (v : list string) (s : string) :
  negb (count v s =? 0)%nat = false <-> ~ In s v.
Proof.
  rewrite <- count_nonzero. destruct (negb _); split; congruence.
Qed.

Lemma theories_disjoint (s : string) : In s cTheories -> ~ In s qTheories.
Proof.
  unfold cTheories, qTheories. cbn [In].
  intros [H|[H|[H|[H|[H|[H|[H|[]]]]]]]]; subst s;
    intros [K|[K|[K|[K|[K|[]]]]]]; discriminate K.
Qed.

Lemma Input_setTheory_cases (theory_ : string) (this : Input) :
  (In theory_ cTheories /\ ~ In theory_ qTheories /\
   Input_setTheory theory_ this
   = (mkInputClass (Input_int2DScheme this) (Input_intError this) true false
        (Input_nThreads this) (Input_rs this) theory_ (Input_Theta this),
      Done tt)) \/
  (~ In theory_ cTheories /\ In theory_ qTheories /\
   Input_setTheory theory_ this
   = (mkInputClass (Input_int2DScheme this) (Input_intError this) false true
        (Input_nThreads this) (Input_rs this) theory_ (Input_Theta this),
      Done tt)) \/
  (~ In theory_ cTheories /\ ~ In theory_ qTheories /\
   Input_setTheory theory_ this
   = (mkInputClass (Input_int2DScheme this) (Input_intError this) false false
        (Input_nThreads this) (Input_rs this) (Input_theory this) (Input_Theta this),
      Fatal ("Invalid dielectric theory: " ++ theory_))).
Proof.
  unfold Input_setTheory. cbv zeta.
  destruct (negb (count cTheories theory_ =? 0)%nat) eqn:Ec;
    destruct (negb (count qTheories theory_ =? 0)%nat) eqn:Eq;
    cbn [negb andb orb Input_int2DScheme Input_intError Input_isClassicTheory
         Input_isQuantumTheory Input_nThreads Input_rs Input_theory Input_Theta].
  - apply count_nonzero in Ec, Eq. exfalso. exact (theories_disjoint _ Ec Eq).
  - apply count_nonzero in Ec. apply count_zero in Eq. left. repeat split; assumption.
  - apply count_zero in Ec. apply count_nonzero in Eq.
    right; left. repeat split; assumption.
  - apply count_zero in Ec, Eq. right; right. repeat split; assumption.
Qed.

(** X25. [Input::setTheory] accepts exactly the twelve names of the two
    lists, which are disjoint, so its assertion never fails. An accepted
    name is stored and sets exactly one of the flags. A rejected name
    raises the error, and the object it leaves keeps the former theory name
    but has both flags cleared: the flags are assigned before the name is
    checked. No other member changes. *)
Theorem Input_setTheory_behaviour (theory_ : string) (this : Input) :
  let this' := fst (Input_setTheory theory_ this) in
  let r := snd (Input_setTheory theory_ this) in
  (r = Done tt <-> In theory_ (cTheories ++ qTheories)) /\
  r <> Fatal "assert(!isClassicTheory || !isQuantumTheory)" /\
  (r = Done tt ->
   Input_theory this' = theory_ /\
   Input_isClassicTheory this' = negb (Input_isQuantumTheory this') /\
   (Input_isClassicTheory this' = true <-> In theory_ cTheories)) /\
  (r <> Done tt ->
   r = Fatal ("Invalid dielectric theory: " ++ theory_) /\
   Input_theory this' = Input_theory this /\
   Input_isClassicTheory this' = false /\ Input_isQuantumTheory this' = false) /\
  Input_int2DScheme this' = Input_int2DScheme this /\
  Input_intError this' = Input_intError this /\
  Input_nThreads this' = Input_nThreads this /\
  Input_rs this' = Input_rs this /\
  Input_Theta this' = Input_Theta this.
Proof.
  cbv zeta.
  destruct (Input_setTheory_cases theory_ this)
    as [(Hc & Hq & E) | [(Hc & Hq & E) | (Hc & Hq & E)]];
    rewrite E; cbn [fst snd Input_int2DScheme Input_intError Input_isClassicTheory
                    Input_isQuantumTheory Input_nThreads Input_rs Input_theory
                    Input_Theta negb].
  - repeat split; try reflexivity; try discriminate; try congruence; try tauto.
    intros _. apply in_or_app. now left.
  - repeat split; try reflexivity; try discriminate; try congruence; try tauto.
    intros _. apply in_or_app. now right.
  - repeat split; try reflexivity; try discriminate; try congruence; try tauto;
      intros K; apply in_app_or in K; tauto.
Qed.

Section InputWitness.
Import PrimFloat.

Lemma Input_setTheory_behaviour_witness :
  Input_theory
    (fst (Input_setTheory "NOPE" (mkInputClass "full" 1 true false 1 1 "STLS" 1)))
  = "STLS"%string /\
  Input_isClassicTheory
    (fst (Input_setTheory "NOPE" (mkInputClass "full" 1 true false 1 1 "STLS" 1)))
  = false.
Proof.
  destruct (Input_setTheory_behaviour "NOPE"
              (mkInputClass "full" 1 true false 1 1 "STLS" 1))
    as (_ & _ & _ & H & _).
  destruct H as (_ & H1 & H2 & _); [discriminate|].
  split; [exact H1 | exact H2].
Defined.

End InputWitness.

Section InputSetters.
Import PrimFloat.
Local Open Scope float_scope.

Lemma Input_do_keeps_valid (c : Input_call) (this : Input) :
  let valid := fun o : Input =>
    (Input_rs o <? 0) = false /\ (Input_Theta o <? 0) = false /\
    (Input_intError o <=? 0) = false /\
    (0 < Input_nThreads o)%Z /\
    In (Input_int2DScheme o) ["full"; "segregated"]%string /\
    Input_isClassicTheory o && Input_isQuantumTheory o = false in
  valid this -> valid (fst (Input_do c this)).
Proof.
  cbv zeta. intros (H1 & H2 & H3 & H4 & H5 & H6).
  destruct c as [r|t|s|s|e|n]; cbn [Input_do].
  - unfold Input_setCoupling. change zero with 0.
    destruct (r <? 0) eqn:E; cbn [fst].
    + repeat split; assumption.
    + cbn [Input_int2DScheme Input_intError Input_isClassicTheory
           Input_isQuantumTheory Input_nThreads Input_rs Input_theory Input_Theta].
      repeat split; assumption.
  - unfold Input_setDegeneracy. change zero with 0.
    destruct (t <? 0) eqn:E; cbn [fst].
    + repeat split; assumption.
    + cbn [Input_int2DScheme Input_intError Input_isClassicTheory
           Input_isQuantumTheory Input_nThreads Input_rs Input_theory Input_Theta].
      repeat split; assumption.
  - destruct (Input_setTheory_cases s this)
      as [(_ & _ & E) | [(_ & _ & E) | (_ & _ & E)]];
      rewrite E;
      cbn [fst Input_int2DScheme Input_intError Input_isClassicTheory
           Input_isQuantumTheory Input_nThreads Input_rs Input_theory Input_Theta];
      repeat split; try assumption; reflexivity.
  - unfold Input_setInt2DScheme. cbv zeta.
    destruct (count ["full"; "segregated"]%string s =? 0)%nat eqn:E; cbn [fst].
    + repeat split; assumption.
    + cbn [Input_int2DScheme Input_intError Input_isClassicTheory
           Input_isQuantumTheory Input_nThreads Input_rs Input_theory Input_Theta].
      repeat split; try assumption.
      apply count_nonzero. now rewrite E.
  - unfold Input_setIntError. change zero with 0.
    destruct (e <=? 0) eqn:E; cbn [fst].
    + repeat split; assumption.
    + cbn [Input_int2DScheme Input_intError Input_isClassicTheory
           Input_isQuantumTheory Input_nThreads Input_rs Input_theory Input_Theta].
      repeat split; assumption.
  - unfold Input_setNThreads. destruct (n <=? 0)%Z eqn:E; cbn [fst].
    + repeat split; assumption.
    + apply Z.leb_gt in E.
      cbn [Input_int2DScheme Input_intError Input_isClassicTheory
           Input_isQuantumTheory Input_nThreads Input_rs Input_theory Input_Theta].
      repeat split; assumption.
Qed.

(** X26. The setters of [Input] never store a value that fails their
    test. If for an object the tests [rs < 0], [Theta < 0] and
    [intError <= 0] are false, it has at least one thread, a known scheme
    for the 2D integrals and at most one of the two theory flags set, then
    the same holds after any sequence of calls of its setters, whatever the
    arguments and whether or not a call raises an error. This does not make
    the members numbers: each test is false on NaN, so [rs] and [Theta] are
    then non-negative or NaN and [intError] is positive or NaN, and
    [setCoupling], [setDegeneracy] and [setIntError] store a NaN argument
    without an error. *)
Theorem Input_setters_store_what_passes (cs : list Input_call) (this : Input) :
  (Input_rs this <? 0) = false -> (Input_Theta this <? 0) = false ->
  (Input_intError this <=? 0) = false ->
  (0 < Input_nThreads this)%Z ->
  In (Input_int2DScheme this) ["full"; "segregated"]%string ->
  Input_isClassicTheory this && Input_isQuantumTheory this = false ->
  let this' := Input_do_all cs this in
  ((Input_rs this' <? 0) = false /\ (Input_Theta this' <? 0) = false /\
   (Input_intError this' <=? 0) = false /\
   (0 < Input_nThreads this')%Z /\
   In (Input_int2DScheme this') ["full"; "segregated"]%string /\
   Input_isClassicTheory this' && Input_isQuantumTheory this' = false) /\
  (B64.not_negative_or_nan (Input_rs this') /\
   B64.not_negative_or_nan (Input_Theta this') /\
   B64.positive_or_nan (Input_intError this')) /\
  (forall o : Input,
     snd (Input_setCoupling nan o) = Done tt /\
     is_nan (Input_rs (fst (Input_setCoupling nan o))) = true /\
     snd (Input_setDegeneracy nan o) = Done tt /\
     is_nan (Input_Theta (fst (Input_setDegeneracy nan o))) = true /\
     snd (Input_setIntError nan o) = Done tt /\
     is_nan (Input_intError (fst (Input_setIntError nan o))) = true).
Proof.
  intros H1 H2 H3 H4 H5 H6 this'.
  assert (V : (Input_rs this' <? 0) = false /\ (Input_Theta this' <? 0) = false /\
              (Input_intError this' <=? 0) = false /\
              (0 < Input_nThreads this')%Z /\
              In (Input_int2DScheme this') ["full"; "segregated"]%string /\
              Input_isClassicTheory this' && Input_isQuantumTheory this' = false).
  { subst this'. revert this H1 H2 H3 H4 H5 H6. unfold Input_do_all.
    induction cs as [|c cs IH]; intros this H1 H2 H3 H4 H5 H6; cbn [fold_left].
    - repeat split; assumption.
    - destruct (Input_do_keeps_valid c this) as (K1 & K2 & K3 & K4 & K5 & K6).
      { repeat split; assumption. }
      apply IH; assumption. }
  split; [exact V|]. split.
  - destruct V as (V1 & V2 & V3 & _).
    unfold B64.not_negative_or_nan, B64.positive_or_nan.
    apply ltb_zero_false_iff in V1, V2. apply leb_zero_false_iff in V3.
    repeat split; assumption.
  - intros o. repeat split; reflexivity.
Qed.

Lemma Input_setters_store_what_passes_witness :
  (Input_rs
     (Input_do_all [call_setCoupling (-1); call_setTheory "NOPE";
                    call_setCoupling 2; call_setCoupling nan]
        (mkInputClass "full" 1 true false 1 1 "STLS" 1)) <? 0) = false.
Proof.
  apply (Input_setters_store_what_passes
           [call_setCoupling (-1); call_setTheory "NOPE"; call_setCoupling 2;
            call_setCoupling nan]
           (mkInputClass "full" 1 true false 1 1 "STLS" 1));
    cbn; try lia; try reflexivity.
  now left.
Defined.

End InputSetters.

(** ** The debug output of the reader *)

(** X28. [print_input] never shows the number of grid points: its output is
    the same for two inputs that differ only in [nx], and the line labelled
    [Number of grid points] carries [nIter], the value that the next line
    shows as the maximum number of iterations. *)
Theorem print_input_ignores_nx
        (printf : string -> list printf_arg -> string) (inp : input) :
  (forall n, print_input printf (set_nx n inp) = print_input printf inp) /\
  nth 15 (print_input printf inp) EmptyString
  = printf "Number of grid points: %d\n"%string [arg_d (nIter inp)] /\
  nth 16 (print_input printf inp) EmptyString
  = printf "Maximum number of iterations: %d\n"%string [arg_d (nIter inp)] /\
  length (print_input printf inp) = 33%nat.
Proof.
  split; [|split; [|split]].
  - intros n. reflexivity.
  - reflexivity.
  - reflexivity.
  - reflexivity.
Qed.

(** ** The C++ classes: integration limits of the ground-state structure
    factor *)

Lemma IdrGround_im0_sign (Omega x : R) :
  0 < x -> 0 <= Omega ->
  let s := x / 2 + Omega / (2 * x) in
  let d := x / 2 - Omega / (2 * x) in
  (d * d < 1 -> 0 < Omega -> 0 < IdrGround_im0 Omega x) /\
  (1 <= d * d -> IdrGround_im0 Omega x = 0) /\
  (Omega = 0 -> IdrGround_im0 Omega x = 0).
Proof.
  intros Hx HO s d. pose proof PI_RGT_0 as Hpi.
  assert (Hsd : s * s - d * d = Omega) by (unfold s, d; field; lra).
  assert (Hpre : 0 < PI / (4 * x)) by (apply Rdiv_lt_0_compat; lra).
  unfold IdrGround_im0. rewrite (proj2 (Rgtb_true x 0) Hx). cbv zeta.
  fold s d.
  replace (- PI / (4 * x)) with (- (PI / (4 * x))) by (field; lra).
  split; [|split].
  - intros Hd HO'.
    rewrite (proj2 (Rltb_true (d * d) 1) Hd).
    assert (K : forall A, A < 0 -> 0 < - (PI / (4 * x)) * A).
    { intros A HA. replace (- (PI / (4 * x)) * A) with (PI / (4 * x) * - A) by ring.
      apply Rmult_lt_0_compat; lra. }
    destruct (Rlt_dec (s * s) 1) as [E1|E1];
      [rewrite (proj2 (Rltb_true _ _) E1) | rewrite (proj2 (Rltb_false _ _) E1)];
      apply K; lra.
  - intros Hd.
    rewrite (proj2 (Rltb_false (d * d) 1)) by lra.
    rewrite (proj2 (Rltb_false (s * s) 1)) by lra.
    ring.
  - intros H0. assert (Es : s = d) by (unfold s, d; rewrite H0; field; lra).
    rewrite Es. destruct (Rltb (d * d) 1); ring.
Qed.

(** X29. The limits of the frequency integral in [Rpa::computeSsfGround]
    are exactly the support of the integrand's factor [IdrGround::im0]: for
    [x > 0] and [Omega >= 0], the imaginary part of the ideal density
    response is positive if [yMin < Omega < yMax] and is 0 if
    [Omega <= yMin] or [Omega >= yMax], where [yMax = x (x + 2)] and
    [yMin = x (x - 2)] for [x > 2], [yMin = 0] otherwise. *)
Theorem computeSsfGround_limits_are_support (Omega x : R) :
  0 < x -> 0 <= Omega ->
  let yMin := fst (Rpa_computeSsfGround_limits x) in
  let yMax := snd (Rpa_computeSsfGround_limits x) in
  0 <= yMin < yMax /\
  (yMin < Omega < yMax -> 0 < IdrGround_im0 Omega x) /\
  (Omega <= yMin \/ yMax <= Omega -> IdrGround_im0 Omega x = 0).
Proof.
  intros Hx HO. cbv zeta.
  destruct (IdrGround_im0_sign Omega x Hx HO) as (Hpos & Hzero & Hnull).
  cbv zeta in Hpos, Hzero.
  set (d := x / 2 - Omega / (2 * x)) in *.
  assert (Hd : d * (2 * x) = x * x - Omega) by (unfold d; field; lra).
  assert (Hlow : Omega < x * (x + 2) <-> -1 < d).
  { split; intros H.
    - apply (Rmult_lt_reg_r (2 * x)); [lra|]. rewrite Hd. nra.
    - apply (Rmult_lt_compat_r (2 * x)) in H; [|lra]. rewrite Hd in H. nra. }
  assert (Hup : x * (x - 2) < Omega <-> d < 1).
  { split; intros H.
    - apply (Rmult_lt_reg_r (2 * x)); [lra|]. rewrite Hd. nra.
    - apply (Rmult_lt_compat_r (2 * x)) in H; [|lra]. rewrite Hd in H. nra. }
  unfold Rpa_computeSsfGround_limits. cbv zeta. cbn [fst snd].
  destruct (Rgtb x 2) eqn:E; [apply Rgtb_true in E | apply Rgtb_false in E].
  - split; [nra|]. split.
    + intros [H1 H2]. apply Hpos; [|nra].
      apply Hlow in H2. apply Hup in H1. nra.
    + intros [H|H]; apply Hzero.
      * assert (~ d < 1) by (intros K; apply Hup in K; lra). nra.
      * assert (~ -1 < d) by (intros K; apply Hlow in K; lra). nra.
  - split; [nra|]. split.
    + intros [H1 H2]. apply Hpos; [|lra].
      apply Hlow in H2. assert (d < 1) by (apply Hup; nra). nra.
    + intros [H|H].
      * apply Hnull. lra.
      * apply Hzero.
        assert (~ -1 < d) by (intros K; apply Hlow in K; lra). nra.
Qed.

Lemma computeSsfGround_limits_are_support_witness : 0 < IdrGround_im0 1 1.
Proof.
  destruct (computeSsfGround_limits_are_support 1 1) as (_ & H & _); [lra | lra |].
  apply H. unfold Rpa_computeSsfGround_limits.
  rewrite (proj2 (Rgtb_false 1 2)) by lra. cbn [fst snd]. lra.
Defined.

(** ** The fixed-point driver over binary64 *)

Lemma for_loop_fill_any {A} (d : A) (n : Z) (F : Z -> A) (a : list A) :
  (n <= Z.of_nat (length a))%Z ->
  let r := for_loop n (fun i a => wr a i (F i)) a in
  length r = length a /\
  (forall i, (0 <= i < n)%Z -> rd d r i = F i) /\
  (forall i, (n <= i)%Z -> rd d r i = rd d a i).
Proof.
  intros Hlen r. subst r.
  destruct (Z.le_gt_cases 0 n) as [Hn|Hn].
  - apply (for_loop_inv (fun k t => (k <= n)%Z -> length t = length a /\
        (forall i, (0 <= i < k)%Z -> rd d t i = F i) /\
        (forall i, (k <= i)%Z -> rd d t i = rd d a i)) n _ a Hn); [ | | lia].
    + intros _. repeat split; auto. intros; lia.
    + intros i t Hi IH _. destruct IH as (L & Hlo & Hhi); [lia|].
      split; [now rewrite length_wr|]. split.
      * intros j Hj. destruct (Z.eq_dec j i) as [->|Hne].
        -- apply rd_wr_eq. lia.
        -- rewrite rd_wr_neq by lia. apply Hlo. lia.
      * intros j Hj. rewrite rd_wr_neq by lia. apply Hhi. lia.
  - rewrite for_loop_nonpos by lia. repeat split; auto. intros; lia.
Qed.

Lemma pair_loop_split {A B} (n : Z) (f : Z -> A -> A) (g : Z -> B -> B) (a : A) (b : B) :
  for_loop n (fun ii '(x, y) => (f ii x, g ii y)) (a, b)
  = (for_loop n f a, for_loop n g b).
Proof.
  destruct (Z.le_gt_cases 0 n) as [Hn|Hn]; [|now rewrite !for_loop_nonpos by lia].
  apply (for_loop_inv (fun k t => t = (for_loop k f a, for_loop k g b)) n _ _ Hn).
  - now rewrite !for_loop_nonpos by lia.
  - intros i t Hi ->. now rewrite !for_loop_succ by lia.
Qed.

Section Binary64Driver.
Import PrimFloat.
Local Open Scope float_scope.

Variable M : B64.libm.

Lemma b64_mixing_loop (n : Z) (a : float) (GG_new GG : list float) :
  (n <= Z.of_nat (length GG))%Z ->
  let r := for_loop n
      (fun ii '(iter_err, G) =>
         (iter_err + (rd 0 GG_new ii - rd 0 G ii) * (rd 0 GG_new ii - rd 0 G ii),
          wr G ii (a * rd 0 GG_new ii + (1 - a) * rd 0 G ii)))
      (0, GG) in
  fst r = B64.sum_sq_upto (Z.to_nat n) GG_new GG /\
  length (snd r) = length GG /\
  (forall i, (0 <= i < n)%Z ->
     rd 0 (snd r) i = a * rd 0 GG_new i + (1 - a) * rd 0 GG i) /\
  (forall i, (n <= i)%Z -> rd 0 (snd r) i = rd 0 GG i).
Proof.
  intros Hlen r. subst r.
  destruct (Z.le_gt_cases 0 n) as [Hn|Hn].
  2:{ rewrite for_loop_nonpos by lia. simpl.
      replace (Z.to_nat n) with 0%nat by lia. repeat split; auto. intros; lia. }
  apply (for_loop_inv (fun k (t : float * list float) => (k <= n)%Z ->
     fst t = B64.sum_sq_upto (Z.to_nat k) GG_new GG /\
     length (snd t) = length GG /\
     (forall i, (0 <= i < k)%Z ->
        rd 0 (snd t) i = a * rd 0 GG_new i + (1 - a) * rd 0 GG i) /\
     (forall i, (k <= i)%Z -> rd 0 (snd t) i = rd 0 GG i)) n _ _ Hn); [ | | lia].
  - intros _. simpl. repeat split; auto. intros; lia.
  - intros i [e G] Hi IH _. destruct IH as (He & Hl & Hlo & Hhi); [lia|].
    cbn [fst snd] in *.
    replace (Z.to_nat (i + 1)) with (S (Z.to_nat i)) by lia.
    cbn [B64.sum_sq_upto]. rewrite Z2Nat.id by lia. rewrite (Hhi i) by lia.
    split; [now rewrite He|]. split; [now rewrite length_wr|]. split.
    + intros j Hj. destruct (Z.eq_dec j i) as [->|Hne].
      * apply rd_wr_eq. lia.
      * rewrite rd_wr_neq by lia. apply Hlo. lia.
    + intros j Hj. rewrite rd_wr_neq by lia. apply Hhi. lia.
Qed.

Lemma b64_stls_body_step (SSHF phi xx : list float) (inp : B64.input)
      (s : B64.stls_state) :
  (B64.nx inp <= Z.of_nat (length (B64.st_GG s)))%Z ->
  let s' := B64.stls_body M SSHF phi xx inp s in
  B64.st_GG_new s' = B64.compute_slfc M (B64.st_GG_new s) (B64.st_SS s) xx inp /\
  B64.st_iter_err s'
  = B64.residual2 (B64.nx inp) (B64.st_GG_new s') (B64.st_GG s) /\
  (forall i, (0 <= i < B64.nx inp)%Z ->
     rd 0 (B64.st_GG s') i
     = B64.a_mix inp * rd 0 (B64.st_GG_new s') i
       + (1 - B64.a_mix inp) * rd 0 (B64.st_GG s) i) /\
  B64.st_SS s' = B64.compute_ssf M (B64.st_SS s) SSHF (B64.st_GG s') phi xx inp /\
  B64.st_iter_counter s' = (B64.st_iter_counter s + 1)%Z /\
  length (B64.st_GG s') = length (B64.st_GG s).
Proof.
  intros Hlen s'. subst s'. unfold B64.stls_body.
  pose proof (b64_mixing_loop (B64.nx inp) (B64.a_mix inp)
                (B64.compute_slfc M (B64.st_GG_new s) (B64.st_SS s) xx inp)
                (B64.st_GG s) Hlen) as H.
  cbv zeta in H. destruct (for_loop _ _ _) as [e G]. cbn [fst snd] in H.
  cbn [B64.st_GG B64.st_GG_new B64.st_SS B64.st_iter_err B64.st_iter_counter].
  destruct H as (He & Hl & Hlo & _). unfold B64.residual2. rewrite He.
  repeat split; auto.
Qed.

Lemma b64_stls_counter_iter (SSHF phi xx : list float) (inp : B64.input)
      (s : B64.stls_state) (k : nat) :
  B64.st_iter_counter (Nat.iter k (B64.stls_body M SSHF phi xx inp) s)
  = (B64.st_iter_counter s + Z.of_nat k)%Z.
Proof.
  induction k as [|k IH]; [simpl; lia|].
  rewrite Nat.iter_succ. unfold B64.stls_body at 1.
  destruct (for_loop _ _ _) as [e G]. cbn [B64.st_iter_counter]. lia.
Qed.

Lemma b64_stls_GG_length_iter (SSHF phi xx : list float) (inp : B64.input)
      (s : B64.stls_state) (k : nat) :
  (B64.nx inp <= Z.of_nat (length (B64.st_GG s)))%Z ->
  length (B64.st_GG (Nat.iter k (B64.stls_body M SSHF phi xx inp) s))
  = length (B64.st_GG s).
Proof.
  intros Hlen. induction k as [|k IH]; [reflexivity|].
  rewrite Nat.iter_succ.
  destruct (b64_stls_body_step SSHF phi xx inp
              (Nat.iter k (B64.stls_body M SSHF phi xx inp) s))
    as (_ & _ & _ & _ & _ & L); [rewrite IH; exact Hlen|].
  now rewrite L.
Qed.

Lemma b64_stls_initial_guess_spec (GG GG_new SS SSHF phi xx : list float)
      (inp : B64.input) :
  (B64.nx inp <= Z.of_nat (length GG))%Z ->
  (B64.nx inp <= Z.of_nat (length GG_new))%Z ->
  let s0 := B64.stls_initial_guess M GG GG_new SS SSHF phi xx inp in
  (forall i, (0 <= i < B64.nx inp)%Z ->
     rd 0 (B64.st_GG s0) i = 0 /\ rd 0 (B64.st_GG_new s0) i = 1) /\
  B64.st_SS s0 = B64.compute_ssf M SS SSHF (B64.st_GG s0) phi xx inp /\
  B64.st_iter_err s0 = 1 /\ B64.st_iter_counter s0 = 0%Z /\
  length (B64.st_GG s0) = length GG.
Proof.
  intros H1 H2 s0. subst s0. unfold B64.stls_initial_guess.
  rewrite (pair_loop_split (B64.nx inp) (fun ii a => wr a ii 0) (fun ii a => wr a ii 1)).
  cbn [B64.st_GG B64.st_GG_new B64.st_SS B64.st_iter_err B64.st_iter_counter].
  destruct (for_loop_fill_any 0 (B64.nx inp) (fun _ => 0) GG H1) as (L1 & F1 & _).
  destruct (for_loop_fill_any 0 (B64.nx inp) (fun _ => 1) GG_new H2) as (L2 & F2 & _).
  repeat split; auto.
Qed.

(** A tolerance of 1 or more stops the loop before its first pass. *)
Lemma b64_stls_cond_initial (GG GG_new SS SSHF phi xx : list float)
      (inp : B64.input) :
  (1 <=? B64.err_min_iter inp) = true ->
  B64.stls_cond inp (B64.stls_initial_guess M GG GG_new SS SSHF phi xx inp) = false.
Proof.
  intros H. unfold B64.stls_cond, B64.stls_initial_guess.
  destruct (for_loop _ _ _) as [G Gn].
  cbn [B64.st_iter_err B64.st_iter_counter].
  rewrite (proj2 (ltb_false_iff (B64.err_min_iter inp) 1)) by (now left).
  apply andb_false_r.
Qed.

End Binary64Driver.

Section Binary64DriverClaims.
Import PrimFloat.
Local Open Scope float_scope.

(** C2 (amended). [solve_stls] in binary64: the initial guess is [G = 0],
    [G_new = 1] with [S] computed from that [G], and the variable
    [iter_err] starts at 1; every pass computes [G_new] from the current
    [S], sets [iter_err] to the residual [||G_new - G||_2] against the [G]
    before mixing, replaces [G] by [a_mix G_new + (1 - a_mix) G] and
    recomputes [S]. The loop goes on exactly while fewer than [nIter]
    passes are done and [iter_err > err_min_iter] holds: it ends after the
    first number [k] of passes at which [k] has reached [nIter] or the
    comparison is false, that is [iter_err <= err_min_iter] or one of the
    two is NaN. So at most [nIter] passes run, none when [nIter <= 0], and
    none when [err_min_iter >= 1], whatever the residual of the initial
    guess is. *)
Theorem solve_stls_loop_binary64
  (M : B64.libm) (inp : B64.input) (GG GG_new SS SSHF phi xx : list float)
  (fuel : nat) :
  (B64.nx inp <= Z.of_nat (length GG))%Z ->
  (B64.nx inp <= Z.of_nat (length GG_new))%Z ->
  (Z.to_nat (B64.nIter inp) <= fuel)%nat ->
  let s0 := B64.stls_initial_guess M GG GG_new SS SSHF phi xx inp in
  let body := B64.stls_body M SSHF phi xx inp in
  (forall i, (0 <= i < B64.nx inp)%Z ->
     rd 0 (B64.st_GG s0) i = 0 /\ rd 0 (B64.st_GG_new s0) i = 1) /\
  B64.st_SS s0 = B64.compute_ssf M SS SSHF (B64.st_GG s0) phi xx inp /\
  B64.st_iter_err s0 = 1 /\
  (forall n : nat,
     let s := Nat.iter n body s0 in
     let s' := body s in
     B64.st_GG_new s' = B64.compute_slfc M (B64.st_GG_new s) (B64.st_SS s) xx inp /\
     B64.st_iter_err s'
     = B64.residual2 (B64.nx inp) (B64.st_GG_new s') (B64.st_GG s) /\
     (forall i, (0 <= i < B64.nx inp)%Z ->
        rd 0 (B64.st_GG s') i
        = B64.a_mix inp * rd 0 (B64.st_GG_new s') i
          + (1 - B64.a_mix inp) * rd 0 (B64.st_GG s) i) /\
     B64.st_SS s' = B64.compute_ssf M (B64.st_SS s) SSHF (B64.st_GG s') phi xx inp) /\
  exists k : nat,
    B64.solve_stls M fuel GG GG_new SS SSHF phi xx inp = Some (Nat.iter k body s0) /\
    B64.st_iter_counter (Nat.iter k body s0) = Z.of_nat k /\
    (Z.of_nat k <= Z.max 0 (B64.nIter inp))%Z /\
    (forall j, (j < k)%nat ->
       (B64.err_min_iter inp <? B64.st_iter_err (Nat.iter j body s0)) = true /\
       (Z.of_nat j < B64.nIter inp)%Z) /\
    ((B64.nIter inp <= Z.of_nat k)%Z \/
     (B64.st_iter_err (Nat.iter k body s0) <=? B64.err_min_iter inp) = true \/
     is_nan (B64.st_iter_err (Nat.iter k body s0)) = true \/
     is_nan (B64.err_min_iter inp) = true) /\
    ((1 <=? B64.err_min_iter inp) = true -> k = 0%nat).
Proof.
  intros H1 H2 Hfuel s0 body.
  destruct (b64_stls_initial_guess_spec M GG GG_new SS SSHF phi xx inp H1 H2)
    as (Hinit & HS & Herr & Hcnt & Hlen0).
  fold s0 in Hinit, HS, Herr, Hcnt, Hlen0.
  split; [exact Hinit|]. split; [exact HS|]. split; [exact Herr|]. split.
  - intros n s s'. subst s s'.
    destruct (b64_stls_body_step M SSHF phi xx inp (Nat.iter n body s0))
      as (A & B & C & D & _).
    + unfold body. rewrite b64_stls_GG_length_iter; rewrite Hlen0; exact H1.
    + repeat split; assumption.
  - assert (Hcount : forall j, B64.st_iter_counter (Nat.iter j body s0) = Z.of_nat j).
    { intros j. unfold body. rewrite b64_stls_counter_iter. rewrite Hcnt. lia. }
    assert (Hstop : B64.stls_cond inp
                      (Nat.iter (Z.to_nat (B64.nIter inp)) body s0) = false).
    { unfold B64.stls_cond. rewrite Hcount.
      replace (Z.of_nat (Z.to_nat (B64.nIter inp)) <? B64.nIter inp)%Z
        with false; [reflexivity|].
      symmetry. apply Z.ltb_ge. lia. }
    destruct (first_stop (B64.stls_cond inp) body s0 _ Hstop) as (k & Hk & Hs & Hl).
    exists k. split.
    { unfold B64.solve_stls. fold s0. fold body. apply while_loop_iter; auto. lia. }
    split; [apply Hcount|]. split; [lia|]. split; [|split].
    + intros j Hj. specialize (Hl j Hj). unfold B64.stls_cond in Hl.
      apply andb_true_iff in Hl. destruct Hl as [A B].
      rewrite Hcount in A. apply Z.ltb_lt in A. auto.
    + unfold B64.stls_cond in Hs. rewrite Hcount in Hs.
      apply andb_false_iff in Hs. destruct Hs as [A | B].
      * left. apply Z.ltb_ge in A. exact A.
      * right. apply ltb_false_iff in B. tauto.
    + intros Hbig. destruct k as [|k]; [reflexivity|]. exfalso.
      specialize (Hl 0%nat ltac:(lia)).
      change (Nat.iter 0 body s0) with s0 in Hl. unfold s0 in Hl. rewrite (b64_stls_cond_initial M) in Hl by exact Hbig.
      discriminate.
Qed.

Lemma solve_stls_loop_binary64_witness :
  exists k : nat,
    B64.solve_stls (B64.mkLibm (fun x => x) (fun x _ => x)) 1000
      [0] [0] [0] [1] (repeat 0 128) [0.5] (B64.set_nx 1 B64.default_input)
    = Some (Nat.iter k
              (B64.stls_body (B64.mkLibm (fun x => x) (fun x _ => x))
                 [1] (repeat 0 128) [0.5] (B64.set_nx 1 B64.default_input))
              (B64.stls_initial_guess (B64.mkLibm (fun x => x) (fun x _ => x))
                 [0] [0] [0] [1] (repeat 0 128) [0.5]
                 (B64.set_nx 1 B64.default_input))).
Proof.
  destruct (solve_stls_loop_binary64 (B64.mkLibm (fun x => x) (fun x _ => x))
              (B64.set_nx 1 B64.default_input)
              [0] [0] [0] [1] (repeat 0 128) [0.5] 1000%nat)
    as (_ & _ & _ & _ & k & Hk & _).
  - simpl. lia.
  - simpl. lia.
  - simpl. lia.
  - exists k. exact Hk.
Defined.

(** C2, as stated, fails: the loop does not test the residual of the
    initial guess. With [err_min_iter = 1], which [check_input] accepts,
    [nIter = 1000] and four grid points, no pass runs, although
    [||G_new - G||_2 = 2] exceeds [err_min_iter] and no pass has been
    made. *)
Lemma solve_stls_skips_initial_residual :
  let inp := B64.set_nx 4 (B64.set_err_min_iter 1 B64.default_input) in
  snd (B64.check_input inp) = Done tt /\
  (0 < B64.nIter inp)%Z /\
  forall (M : B64.libm) (fuel : nat) (SS SSHF phi xx : list float),
    let s0 := B64.stls_initial_guess M [0; 0; 0; 0] [0; 0; 0; 0] SS SSHF phi xx inp in
    B64.solve_stls M fuel [0; 0; 0; 0] [0; 0; 0; 0] SS SSHF phi xx inp = Some s0 /\
    B64.st_iter_counter s0 = 0%Z /\
    B64.residual2 4 (B64.st_GG_new s0) (B64.st_GG s0) = 2 /\
    (B64.err_min_iter inp
     <? B64.residual2 4 (B64.st_GG_new s0) (B64.st_GG s0)) = true.
Proof.
  cbv zeta. split; [reflexivity|]. split; [reflexivity|].
  intros M fuel SS SSHF phi xx.
  set (inp := B64.set_nx 4 (B64.set_err_min_iter 1 B64.default_input)).
  assert (Hc : B64.stls_cond inp
                 (B64.stls_initial_guess M [0; 0; 0; 0] [0; 0; 0; 0] SS SSHF phi xx inp)
               = false).
  { apply b64_stls_cond_initial. reflexivity. }
  split.
  { unfold B64.solve_stls. destruct fuel; cbn [while_loop]; now rewrite Hc. }
  assert (HG : B64.st_GG
                 (B64.stls_initial_guess M [0; 0; 0; 0] [0; 0; 0; 0] SS SSHF phi xx inp)
               = [0; 0; 0; 0]) by reflexivity.
  assert (HN : B64.st_GG_new
                 (B64.stls_initial_guess M [0; 0; 0; 0] [0; 0; 0; 0] SS SSHF phi xx inp)
               = [1; 1; 1; 1]) by reflexivity.
  rewrite HG, HN. repeat split; reflexivity.
Qed.

End Binary64DriverClaims.

(** ** The input reader over binary64 *)

Section Binary64Reader.
Import PrimFloat.
Local Open Scope float_scope.

Lemma b64_check_input_as_fold (inp : B64.input) :
  B64.check_input inp =
  let st := fold_left (fun st cm => check (fst cm) (snd cm) st)
    [ (B64.dx inp <=? 0,
       "The resolution of the wave vector grid must be larger than zero"%string);
      (B64.xmax inp <=? 0,
       "The cutoff of the wave vector grid must be larger than zero"%string);
      ((B64.nIter inp <? 0)%Z,
       "The number of iterations must be a positive number"%string);
      (B64.err_min_iter inp <=? 0,
       "The minimum error for convergence must be larger than zero"%string);
      (B64.a_mix inp <=? 0,
       "The mixing parameter must be larger than 0.0"%string);
      ((B64.nl inp <=? 0)%Z,
       "The number of Matsubara frequencies must be larger than zero"%string);
      ((B64.nThreads inp <=? 0)%Z,
       "The number of OMP threads must be larger than zero"%string);
      (B64.rs inp <? 0,
       "The quantum coupling parameter must be larger than zero"%string);
      (B64.Theta inp <? 0,
       "The quantum degeneracy parameter must be positive"%string);
      (B64.vs_drs inp <=? 0,
       "The resolution of the coupling parameter grid must be larger than zero"%string);
      (B64.vs_dt inp <=? 0,
       "The resolution of the degeneracy parameter grid must be larger than zero"%string);
      (B64.vs_alpha inp <=? 0,
       "The free parameter for the VS schemes must be larger than zero"%string);
      (B64.vs_err_min_iter inp <=? 0,
       "The minimum error for convergence must be larger than zero"%string);
      (B64.vs_a_mix inp <=? 0,
       "The mixing parameter must be larger than 0.0"%string);
      (B64.dyn_dW inp <=? 0,
       "The resolution of the frequency grid must be larger than zero"%string);
      (B64.dyn_Wmax inp <=? 0,
       "The cutoff of the frequency grid must be larger than zero"%string);
      (B64.dyn_xtarget inp <=? 0,
       "The wave-vector used to compute the dynamic properties  must be larger than zero"%string) ]
    ([], false) in
  if snd st then (fst st, Fatal "exit(EXIT_FAILURE)") else (fst st, Done tt).
Proof. reflexivity. Qed.

Lemma b64_check_input_valid (inp : B64.input) :
  ((snd (B64.check_input inp) = Done tt <->
     (B64.dx inp <=? 0) = false /\ (B64.xmax inp <=? 0) = false /\
     (B64.nIter inp <? 0)%Z = false /\ (B64.err_min_iter inp <=? 0) = false /\
     (B64.a_mix inp <=? 0) = false /\ (B64.nl inp <=? 0)%Z = false /\
     (B64.nThreads inp <=? 0)%Z = false /\ (B64.rs inp <? 0) = false /\
     (B64.Theta inp <? 0) = false /\ (B64.vs_drs inp <=? 0) = false /\
     (B64.vs_dt inp <=? 0) = false /\ (B64.vs_alpha inp <=? 0) = false /\
     (B64.vs_err_min_iter inp <=? 0) = false /\ (B64.vs_a_mix inp <=? 0) = false /\
     (B64.dyn_dW inp <=? 0) = false /\ (B64.dyn_Wmax inp <=? 0) = false /\
     (B64.dyn_xtarget inp <=? 0) = false) /\
   (snd (B64.check_input inp) = Done tt <-> fst (B64.check_input inp) = [])) /\
  (snd (B64.check_input inp) = Done tt
   \/ snd (B64.check_input inp) = Fatal "exit(EXIT_FAILURE)").
Proof.
  split.
  - rewrite b64_check_input_as_fold. cbv zeta.
    match goal with |- context [fold_left ?f ?l ?s] =>
      destruct (check_fold l s) as (F1 & F2 & _); set (st := fold_left f l s) in * end.
    cbv zeta in F1, F2. cbn [snd fst orb] in F1, F2.
    specialize (F2 eq_refl eq_refl). cbn [existsb fst] in F1, F2.
    destruct (snd st) eqn:Es; cbn [snd fst].
    + split.
      * split; [discriminate|]. intros H. exfalso.
        destruct H as (H1 & H2 & H3 & H4 & H5 & H6 & H7 & H8 & H9 & H10 & H11 & H12
                       & H13 & H14 & H15 & H16 & H17).
        rewrite H1, H2, H3, H4, H5, H6, H7, H8, H9, H10, H11, H12, H13, H14,
          H15, H16, H17 in F1. discriminate.
      * split; [discriminate|]. intros E. apply F2 in E. rewrite E in F1. discriminate.
    + split.
      * split; [|reflexivity]. intros _. symmetry in F1.
        repeat (apply orb_false_elim in F1; destruct F1 as [?C F1]).
        repeat split; assumption.
      * split; [|reflexivity]. intros _. apply F2. now rewrite <- F1.
  - rewrite b64_check_input_as_fold. cbv zeta.
    destruct (snd (fold_left _ _ _)); [now right | now left].
Qed.

(** The inputs that pass every test of [check_input], with the tests on
    doubles read as "positive or NaN" and "not negative or NaN". *)
Lemma b64_check_input_accepts (inp : B64.input) :
  snd (B64.check_input inp) = Done tt <->
     B64.positive_or_nan (B64.dx inp) /\ B64.positive_or_nan (B64.xmax inp) /\
     (0 <= B64.nIter inp)%Z /\
     B64.positive_or_nan (B64.err_min_iter inp) /\
     B64.positive_or_nan (B64.a_mix inp) /\
     (0 < B64.nl inp)%Z /\ (0 < B64.nThreads inp)%Z /\
     B64.not_negative_or_nan (B64.rs inp) /\
     B64.not_negative_or_nan (B64.Theta inp) /\
     B64.positive_or_nan (B64.vs_drs inp) /\ B64.positive_or_nan (B64.vs_dt inp) /\
     B64.positive_or_nan (B64.vs_alpha inp) /\
     B64.positive_or_nan (B64.vs_err_min_iter inp) /\
     B64.positive_or_nan (B64.vs_a_mix inp) /\
     B64.positive_or_nan (B64.dyn_dW inp) /\
     B64.positive_or_nan (B64.dyn_Wmax inp) /\
     B64.positive_or_nan (B64.dyn_xtarget inp).
Proof.
  rewrite (proj1 (proj1 (b64_check_input_valid inp))).
  unfold B64.positive_or_nan, B64.not_negative_or_nan.
  rewrite !leb_zero_false_iff, !ltb_zero_false_iff, Z.ltb_ge, !Z.leb_gt.
  reflexivity.
Qed.

(** X13. [check_input] lets the run continue exactly when none of its
    seventeen tests holds: [nIter >= 0], [nl > 0], [nThreads > 0], and for
    the doubles, each test being false on NaN, [dx], [xmax],
    [err_min_iter], [a_mix], [vs_drs], [vs_dt], [vs_alpha],
    [vs_err_min_iter], [vs_a_mix], [dyn_dW], [dyn_Wmax] and [dyn_xtarget]
    positive or NaN, [rs] and [Theta] non-negative or NaN. It ends the run
    if and only if it has written at least one message to [stderr]. In
    particular [Theta = 0], [rs = 0] and a mixing parameter above 1 pass,
    and an accepted input stays accepted when [dx], [rs] and [Theta] are
    replaced by NaN. *)
Theorem check_input_accepts_iff_binary64 (inp : B64.input) :
  (snd (B64.check_input inp) = Done tt <->
     B64.positive_or_nan (B64.dx inp) /\ B64.positive_or_nan (B64.xmax inp) /\
     (0 <= B64.nIter inp)%Z /\
     B64.positive_or_nan (B64.err_min_iter inp) /\
     B64.positive_or_nan (B64.a_mix inp) /\
     (0 < B64.nl inp)%Z /\ (0 < B64.nThreads inp)%Z /\
     B64.not_negative_or_nan (B64.rs inp) /\
     B64.not_negative_or_nan (B64.Theta inp) /\
     B64.positive_or_nan (B64.vs_drs inp) /\ B64.positive_or_nan (B64.vs_dt inp) /\
     B64.positive_or_nan (B64.vs_alpha inp) /\
     B64.positive_or_nan (B64.vs_err_min_iter inp) /\
     B64.positive_or_nan (B64.vs_a_mix inp) /\
     B64.positive_or_nan (B64.dyn_dW inp) /\
     B64.positive_or_nan (B64.dyn_Wmax inp) /\
     B64.positive_or_nan (B64.dyn_xtarget inp)) /\
  (snd (B64.check_input inp) = Done tt <-> fst (B64.check_input inp) = []) /\
  (snd (B64.check_input inp) = Fatal "exit(EXIT_FAILURE)"
   <-> fst (B64.check_input inp) <> []) /\
  (snd (B64.check_input inp) = Done tt ->
   snd (B64.check_input
          (B64.set_Theta nan (B64.set_rs nan (B64.set_dx nan inp))))
   = Done tt).
Proof.
  pose proof (b64_check_input_valid inp) as [[F1 F2] K].
  split; [|split; [|split]].
  - apply b64_check_input_accepts.
  - exact F2.
  - destruct K as [E|E]; rewrite E.
    + split; [discriminate|]. intros Hne. exfalso. apply Hne. now apply F2.
    + split; [|reflexivity]. intros _ Hnil. apply F2 in Hnil. congruence.
  - intros E. apply F1 in E.
    apply (proj2 (proj1 (proj1 (b64_check_input_valid
             (B64.set_Theta nan (B64.set_rs nan (B64.set_dx nan inp))))))).
    cbn [B64.set_Theta B64.set_rs B64.set_dx B64.dx B64.xmax B64.nIter
         B64.err_min_iter B64.a_mix B64.nl B64.nThreads B64.rs B64.Theta
         B64.vs_drs B64.vs_dt B64.vs_alpha B64.vs_err_min_iter B64.vs_a_mix
         B64.dyn_dW B64.dyn_Wmax B64.dyn_xtarget].
    destruct E as (H1 & H2 & H3 & H4 & H5 & H6 & H7 & H8 & H9 & H10
                   & H11 & H12 & H13 & H14 & H15 & H16 & H17).
    repeat split; try assumption; reflexivity.
Qed.

End Binary64Reader.

Section Binary64GridSize.
Import PrimFloat.
Local Open Scope float_scope.

Lemma positive_Prim2SF (x : float) :
  (0 <? x) = true ->
  (exists m e, FloatOps.Prim2SF x = SpecFloat.S754_finite false m e)
  \/ FloatOps.Prim2SF x = SpecFloat.S754_infinity false.
Proof.
  rewrite FloatAxioms.ltb_spec. unfold SpecFloat.SFltb.
  change (FloatOps.Prim2SF 0) with (SpecFloat.S754_zero false).
  destruct (FloatOps.Prim2SF x) as [s|s| |s m e]; cbn; try discriminate.
  - destruct s; [discriminate|]. now right.
  - destruct s; [discriminate|]. left. now exists m, e.
Qed.

Lemma zero_Prim2SF (x : float) :
  (x =? 0) = true -> exists s, FloatOps.Prim2SF x = SpecFloat.S754_zero s.
Proof.
  rewrite FloatAxioms.eqb_spec. unfold SpecFloat.SFeqb.
  change (FloatOps.Prim2SF 0) with (SpecFloat.S754_zero false).
  destruct (FloatOps.Prim2SF x) as [s|s| |s m e]; cbn; try discriminate.
  - intros _. now exists s.
  - destruct s; discriminate.
  - destruct s; discriminate.
Qed.

(** The sign of what [binary_round_aux] returns is the sign it is given. *)
Lemma binary_round_aux_sign (s : bool) (m e : Z) (l : SpecFloat.location) :
  let r := SpecFloat.binary_round_aux FloatOps.prec FloatOps.emax s m e l in
  r = SpecFloat.S754_zero s \/ r = SpecFloat.S754_infinity s \/
  r = SpecFloat.S754_nan \/ exists m' e', r = SpecFloat.S754_finite s m' e'.
Proof.
  unfold SpecFloat.binary_round_aux.
  destruct (SpecFloat.shr_fexp _ _ m e l) as [mrs' e'].
  destruct (SpecFloat.shr_fexp _ _ _ e' SpecFloat.loc_Exact) as [mrs'' e''].
  destruct (SpecFloat.shr_m mrs'') as [|p|p].
  - now left.
  - destruct (e'' <=? FloatOps.emax - FloatOps.prec)%Z.
    + right; right; right. now exists p, e''.
    + right; now left.
  - right; right; now left.
Qed.

Lemma int_of_floor_nonneg (x : float) (n : Z) :
  (FloatOps.Prim2SF x = SpecFloat.S754_zero false \/
   FloatOps.Prim2SF x = SpecFloat.S754_infinity false \/
   FloatOps.Prim2SF x = SpecFloat.S754_nan \/
   exists m e, FloatOps.Prim2SF x = SpecFloat.S754_finite false m e) ->
  B64.int_of_floor x = Some n -> (0 <= n <= INT_MAX)%Z.
Proof.
  unfold B64.int_of_floor.
  intros [E | [E | [E | (m & e & E)]]]; rewrite E; try discriminate.
  - intros H. injection H as <-. unfold INT_MAX. lia.
  - cbv zeta.
    destruct ((INT_MIN <=? Z.shiftl (Z.pos m) e) && (Z.shiftl (Z.pos m) e <=? INT_MAX))%Z
      eqn:R; [|discriminate].
    intros H. injection H as <-. apply andb_true_iff in R. destruct R as [_ R].
    apply Z.leb_le in R. split; [|exact R]. apply Z.shiftl_nonneg. lia.
Qed.

Lemma div_undefined (x y : float) :
  is_nan y = true \/ is_nan x = true \/ (y =? 0) = true ->
  B64.int_of_floor (x / y) = None.
Proof.
  intros H. unfold B64.int_of_floor. rewrite FloatAxioms.div_spec.
  unfold FloatAxioms.SF64div, SpecFloat.SFdiv.
  destruct H as [H | [H | H]].
  - apply is_nan_spec in H. rewrite H.
    now destruct (FloatOps.Prim2SF x).
  - apply is_nan_spec in H. now rewrite H.
  - destruct (zero_Prim2SF y H) as [s E]. rewrite E.
    now destruct (FloatOps.Prim2SF x).
Qed.

Lemma div_positive (x y : float) (n : Z) :
  (0 <? x) = true -> (0 <? y) = true ->
  B64.int_of_floor (x / y) = Some n -> (0 <= n <= INT_MAX)%Z.
Proof.
  intros Hx Hy. apply int_of_floor_nonneg.
  rewrite FloatAxioms.div_spec. unfold FloatAxioms.SF64div, SpecFloat.SFdiv.
  destruct (positive_Prim2SF x Hx) as [(mx & ex & Ex) | Ex];
    destruct (positive_Prim2SF y Hy) as [(my & ey & Ey) | Ey];
    rewrite Ex, Ey; cbn [xorb].
  - destruct (SpecFloat.SFdiv_core_binary _ _ _ _ _ _) as [[mz ez] lz].
    pose proof (binary_round_aux_sign false mz ez lz) as B. cbv zeta in B.
    tauto.
  - now left.
  - right; now left.
  - right; right; now left.
Qed.

(** X14. [get_input] computes the number of grid points before it checks
    the input, in binary64. When [dx] or [xmax] is NaN or [dx] is zero,
    the conversion [(int)floor(xmax/dx)] is undefined, and the check that
    follows comes too late for it. When the conversion is defined and
    [check_input] then accepts the record, [dx] and [xmax] are positive and
    not NaN, [nx] is that integer and lies between 0 and [INT_MAX], there
    is at least one Matsubara frequency, the iteration bound is not
    negative, and the mixing parameter, the tolerance, [rs] and [Theta]
    have passed their tests (each may still be NaN). With the defaults of
    [set_default_parse_opt] the grid has 200 points. *)
Theorem get_grid_size_then_check_input (inp : B64.input) :
  (is_nan (B64.dx inp) = true \/ is_nan (B64.xmax inp) = true \/
   (B64.dx inp =? 0) = true ->
   B64.get_grid_size inp = None) /\
  (forall inp' : B64.input,
     B64.get_grid_size inp = Some inp' ->
     snd (B64.check_input inp') = Done tt ->
     fst (B64.check_input inp') = [] /\
     B64.dx inp' = B64.dx inp /\ B64.xmax inp' = B64.xmax inp /\
     (0 <? B64.dx inp) = true /\ (0 <? B64.xmax inp) = true /\
     B64.int_of_floor (B64.xmax inp / B64.dx inp) = Some (B64.nx inp') /\
     (0 <= B64.nx inp' <= INT_MAX)%Z /\
     (1 <= B64.nl inp')%Z /\ (0 <= B64.nIter inp')%Z /\
     B64.positive_or_nan (B64.a_mix inp') /\
     B64.positive_or_nan (B64.err_min_iter inp') /\
     B64.not_negative_or_nan (B64.Theta inp') /\
     B64.not_negative_or_nan (B64.rs inp')) /\
  (exists inp' : B64.input,
     B64.get_grid_size B64.default_input = Some inp' /\
     snd (B64.check_input inp') = Done tt /\ B64.nx inp' = 200%Z).
Proof.
  split; [|split].
  - intros H. unfold B64.get_grid_size. rewrite div_undefined; [reflexivity|].
    tauto.
  - intros inp' Hg Hc. unfold B64.get_grid_size in Hg.
    destruct (B64.int_of_floor (B64.xmax inp / B64.dx inp)) as [n|] eqn:En;
      [|discriminate].
    injection Hg as <-.
    pose proof (proj2 (proj1 (b64_check_input_valid (B64.set_nx n inp)))) as B.
    apply b64_check_input_accepts in Hc as V.
    destruct V as (H1 & H2 & H3 & H4 & H5 & H6 & H7 & H8 & H9 & _).
    cbn [B64.set_nx B64.dx B64.xmax B64.nx B64.nl B64.nIter B64.a_mix
         B64.err_min_iter B64.Theta B64.rs] in *.
    assert (Dx : (0 <? B64.dx inp) = true).
    { destruct H1 as [H|H]; [exact H|].
      rewrite div_undefined in En by tauto. discriminate. }
    assert (Xm : (0 <? B64.xmax inp) = true).
    { destruct H2 as [H|H]; [exact H|].
      rewrite div_undefined in En by tauto. discriminate. }
    pose proof (div_positive _ _ _ Xm Dx En) as R.
    split; [now apply B|].
    repeat split; try assumption; try reflexivity; lia.
  - eexists. split; [vm_compute; reflexivity|]. split; reflexivity.
Qed.

End Binary64GridSize.

(** ** The wave-vector grid under rounding *)

Lemma unit_roundoff_val : unit_roundoff = / 9007199254740992.
Proof. unfold unit_roundoff. f_equal. lra. Qed.

Lemma unit_roundoff_pos : 0 < unit_roundoff.
Proof. rewrite unit_roundoff_val. lra. Qed.

Lemma Rabs_bound_inv (a b : R) : Rabs a <= b -> - b <= a <= b.
Proof.
  intros H. pose proof (Rle_abs a) as H1. pose proof (Rle_abs (- a)) as H2.
  rewrite Rabs_Ropp in H2. lra.
Qed.

Section RoundedGrid.
Variable fl : R -> R.
Hypothesis fl_mono : forall a b : R, a <= b -> fl a <= fl b.
Hypothesis fl_int : forall z : Z, (Z.abs z <= 2 ^ 53)%Z -> fl (IZR z) = IZR z.
Variables lo hi : R.
Hypothesis lo_nonneg : 0 <= lo.
Hypothesis fl_err :
  forall x : R, lo <= Rabs x <= hi -> Rabs (fl x - x) <= unit_roundoff * Rabs x.

Lemma fl_pos_bounds (x : R) :
  0 <= x -> lo <= x <= hi ->
  (1 - unit_roundoff) * x <= fl x <= (1 + unit_roundoff) * x.
Proof.
  intros Hx Hr. pose proof (fl_err x) as H. rewrite (Rabs_right x) in H by lra.
  specialize (H Hr). apply Rabs_bound_inv in H. lra.
Qed.

(** The floor of a rounded quotient is the floor of the quotient, or one
    more when the quotient rounds up to the next integer. *)
Lemma floor_of_rounded (q : R) :
  0 <= q -> q < IZR INT_MAX ->
  (Int_part q <= Int_part (fl q) <= Int_part q + 1)%Z.
Proof.
  intros H0 Hmax. destruct (base_Int_part q) as [A B].
  set (n := Int_part q) in *.
  assert (Hn0 : (0 <= n)%Z).
  { apply le_IZR. destruct (Z_lt_le_dec n 0) as [Hneg|]; [|now apply IZR_le].
    assert (Hle : (n + 1 <= 0)%Z) by lia.
    apply IZR_le in Hle. rewrite plus_IZR in Hle. lra. }
  assert (Hn1 : (n <= INT_MAX)%Z).
  { apply le_IZR. lra. }
  unfold INT_MAX in *.
  assert (L : IZR n <= fl q).
  { rewrite <- (fl_int n) by lia. apply fl_mono. lra. }
  assert (U : fl q <= IZR (n + 1)).
  { rewrite <- (fl_int (n + 1)) by lia. apply fl_mono. rewrite plus_IZR. lra. }
  destruct (base_Int_part (fl q)) as [C D].
  split.
  - assert (H : (n < Int_part (fl q) + 1)%Z).
    { apply lt_IZR. rewrite plus_IZR. lra. }
    lia.
  - apply le_IZR. lra.
Qed.

Section GridPoints.
Variable dx_ : R.
Hypothesis dx_pos : 0 < dx_.
Hypothesis dx_lo : 2 * lo <= dx_.
Hypothesis dx_hi : 4294967296 * dx_ <= hi.


Lemma cgrid_bounds (k : nat) :
  INR k + 1 <= 2147483648 ->
  Rabs (Rnd.running_sum fl (fl (dx_ / 2)) dx_ k - (INR k + 1 / 2) * dx_)
  <= (INR k + 1) * (INR k + 1) * unit_roundoff * dx_
  /\ 0 < Rnd.running_sum fl (fl (dx_ / 2)) dx_ k.
Proof.
  pose proof unit_roundoff_val as Hu.
  induction k as [|k IH]; intros Hk.
  - change (Rnd.running_sum fl (fl (dx_ / 2)) dx_ 0) with (fl (dx_ / 2)). change (INR 0) with 0.
    pose proof (fl_pos_bounds (dx_ / 2) ltac:(lra) ltac:(lra)) as [A B].
    assert (Hud : 0 < unit_roundoff * dx_)
      by (apply Rmult_lt_0_compat; [apply unit_roundoff_pos | exact dx_pos]).
    split; [apply Rabs_le; split; nra|].
    assert (0 < (1 - unit_roundoff) * (dx_ / 2)); [|lra].
    apply Rmult_lt_0_compat; [rewrite Hu|]; lra.
  - rewrite S_INR in *. destruct IH as [E P]; [lra|].
    pose proof (pos_INR k) as Hk0.
    apply Rabs_bound_inv in E.
    assert (Hx : Rnd.running_sum fl (fl (dx_ / 2)) dx_ k + dx_ <= (2 * INR k + 3) * dx_).
    { assert ((INR k + 1) * (INR k + 1) * unit_roundoff <= INR k + 1).
      { rewrite Hu. assert ((INR k + 1) * / 9007199254740992 <= 1) by lra. nra. }
      nra. }
    change (Rnd.running_sum fl (fl (dx_ / 2)) dx_ (S k)) with (fl (Rnd.running_sum fl (fl (dx_ / 2)) dx_ k + dx_)).
    pose proof (fl_pos_bounds (Rnd.running_sum fl (fl (dx_ / 2)) dx_ k + dx_)
                  ltac:(lra) ltac:(nra)) as [A B].
    assert (Hud : 0 <= unit_roundoff * dx_) by (pose proof unit_roundoff_pos; nra).
    split; [apply Rabs_le; split|].
    + nra.
    + nra.
    + assert (0 < (1 - unit_roundoff) * (Rnd.running_sum fl (fl (dx_ / 2)) dx_ k + dx_)); [|lra].
      apply Rmult_lt_0_compat; [rewrite Hu|]; lra.
Qed.

Lemma cgrid_increases (k : nat) :
  INR k + 1 <= 2147483648 -> Rnd.running_sum fl (fl (dx_ / 2)) dx_ k < Rnd.running_sum fl (fl (dx_ / 2)) dx_ (S k).
Proof.
  intros Hk. pose proof unit_roundoff_val as Hu.
  destruct (cgrid_bounds k Hk) as [E P].
  pose proof (pos_INR k) as Hk0. apply Rabs_bound_inv in E.
  assert (Hx : Rnd.running_sum fl (fl (dx_ / 2)) dx_ k + dx_ <= (2 * INR k + 3) * dx_).
  { assert ((INR k + 1) * (INR k + 1) * unit_roundoff <= INR k + 1).
    { rewrite Hu. assert ((INR k + 1) * / 9007199254740992 <= 1) by lra. nra. }
    nra. }
  change (Rnd.running_sum fl (fl (dx_ / 2)) dx_ (S k)) with (fl (Rnd.running_sum fl (fl (dx_ / 2)) dx_ k + dx_)).
  pose proof (fl_pos_bounds (Rnd.running_sum fl (fl (dx_ / 2)) dx_ k + dx_)
                ltac:(lra) ltac:(nra)) as [A B].
  assert (H3 : unit_roundoff * (Rnd.running_sum fl (fl (dx_ / 2)) dx_ k + dx_) < dx_).
  { assert (unit_roundoff * (Rnd.running_sum fl (fl (dx_ / 2)) dx_ k + dx_)
            <= unit_roundoff * ((2 * INR k + 3) * dx_)).
    { apply Rmult_le_compat_l; [rewrite Hu|]; lra. }
    assert (unit_roundoff * (2 * INR k + 3) < 1) by (rewrite Hu; lra).
    nra. }
  lra.
Qed.

Lemma cppgrid_bounds (k : nat) :
  INR k <= 134217728 ->
  Rabs (Rnd.running_sum fl 0 dx_ k - INR k * dx_) <= INR k * INR k * unit_roundoff * dx_.
Proof.
  pose proof unit_roundoff_val as Hu.
  induction k as [|k IH]; intros Hk.
  - change (Rnd.running_sum fl 0 dx_ 0) with 0. change (INR 0) with 0. apply Rabs_le. split; lra.
  - rewrite S_INR in *. specialize (IH ltac:(lra)).
    pose proof (pos_INR k) as Hk0. apply Rabs_bound_inv in IH.
    assert (Hs : INR k * INR k * unit_roundoff <= INR k).
    { rewrite Hu. assert (INR k * / 9007199254740992 <= 1) by lra. nra. }
    assert (H0 : 0 <= Rnd.running_sum fl 0 dx_ k) by nra.
    assert (Hx : Rnd.running_sum fl 0 dx_ k + dx_ <= (2 * INR k + 1) * dx_) by nra.
    change (Rnd.running_sum fl 0 dx_ (S k)) with (fl (Rnd.running_sum fl 0 dx_ k + dx_)).
    pose proof (fl_pos_bounds (Rnd.running_sum fl 0 dx_ k + dx_)
                  ltac:(lra) ltac:(nra)) as [A B].
    assert (Hud : 0 <= unit_roundoff * dx_) by (pose proof unit_roundoff_pos; nra).
    apply Rabs_le; split; nra.
Qed.

End GridPoints.

Lemma rnd_wave_vector_grid_cells (xx0 : list R) (inp : input) :
  (1 <= nx inp)%Z ->
  (nx inp <= Z.of_nat (length xx0))%Z ->
  let xx := Rnd.wave_vector_grid fl xx0 inp in
  length xx = length xx0 /\
  forall i, (0 <= i < nx inp)%Z ->
    rd 0 xx i = Rnd.running_sum fl (fl (dx inp / 2)) (dx inp) (Z.to_nat i).
Proof.
  intros Hn Hlen xx. subst xx. unfold Rnd.wave_vector_grid.
  apply (for_range_inv (fun k t => length t = length xx0 /\
           forall i, (0 <= i < k)%Z ->
             rd 0 t i = Rnd.running_sum fl (fl (dx inp / 2)) (dx inp) (Z.to_nat i))
           1 (nx inp)); [lia | | ].
  - split; [apply length_wr|]. intros i Hi. replace i with 0%Z by lia.
    rewrite rd_wr_eq by lia. reflexivity.
  - intros i t Hi [L H]. split; [now rewrite length_wr|].
    intros j Hj. destruct (Z.eq_dec j i) as [->|Hne].
    + rewrite rd_wr_eq by lia. rewrite H by lia.
      replace (Z.to_nat i) with (S (Z.to_nat (i - 1))) by lia. reflexivity.
    + rewrite rd_wr_neq by lia. apply H. lia.
Qed.

Lemma rnd_last_grid (dx_ : R) (k : nat) :
  last (map (Rnd.running_sum fl 0 dx_) (seq 0 (S k))) 0 = Rnd.running_sum fl 0 dx_ k.
Proof. rewrite seq_S, map_app. cbn [map Nat.add]. apply last_last. Qed.

Lemma rnd_buildWvGrid_iter (dx_ : R) (k : nat) :
  Nat.iter k (fun wvg => wvg ++ [fl (last wvg 0 + dx_)]) ([] ++ [0])
  = map (Rnd.running_sum fl 0 dx_) (seq 0 (S k)).
Proof.
  induction k as [|k IH].
  - reflexivity.
  - rewrite Nat.iter_succ, IH. cbv beta. rewrite rnd_last_grid.
    rewrite (seq_S (S k)), map_app. cbn [map Nat.add]. reflexivity.
Qed.

Lemma rnd_grid_size (inp : input) :
  dx inp > 0 -> xmax inp > dx inp -> xmax inp / dx inp < IZR INT_MAX ->
  Rnd.get_grid_size fl inp
  = Some (set_nx (Int_part (fl (xmax inp / dx inp))) inp) /\
  (Int_part (xmax inp / dx inp) <= Int_part (fl (xmax inp / dx inp))
   <= Int_part (xmax inp / dx inp) + 1)%Z /\
  (1 <= Int_part (fl (xmax inp / dx inp)) <= INT_MAX)%Z.
Proof.
  intros Hdx Hx Hmax.
  set (q := xmax inp / dx inp) in *.
  assert (Hq : 1 < q).
  { unfold q. apply Rmult_lt_reg_r with (dx inp); [lra|].
    replace (xmax inp / dx inp * dx inp) with (xmax inp) by (field; lra). lra. }
  pose proof (floor_of_rounded q ltac:(lra) Hmax) as F.
  destruct (base_Int_part q) as [A B].
  assert (H1 : (1 <= Int_part q)%Z).
  { assert (0 < Int_part q)%Z by (apply lt_IZR; lra). lia. }
  assert (H2 : (Int_part q < INT_MAX)%Z) by (apply lt_IZR; lra).
  split; [|split; [exact F | lia]].
  unfold Rnd.get_grid_size. fold q.
  rewrite int_of_double_floor; [reflexivity|].
  unfold INT_MIN, INT_MAX in *. lia.
Qed.

Lemma rnd_buildWvGrid_points (dx_ xmax_ : R) :
  dx_ > 0 -> 2 * lo <= dx_ -> 4294967296 * dx_ <= hi ->
  xmax_ >= dx_ -> xmax_ / dx_ <= 67108864 ->
  exists n : nat,
    (1 <= n)%nat /\
    xmax_ / dx_ - 1 <= INR n <= xmax_ / dx_ + 2 /\
    Rnd.running_sum fl 0 dx_ (n - 1) < xmax_ <= Rnd.running_sum fl 0 dx_ n /\
    forall fuel, (n <= fuel)%nat ->
      Rnd.Rpa_buildWvGrid fl fuel dx_ xmax_
      = Done (map (Rnd.running_sum fl 0 dx_) (seq 0 (S n))).
Proof.
  intros Hdx Hlo Hhi Hx Hbig. pose proof unit_roundoff_val as Hu.
  set (q := xmax_ / dx_) in *.
  assert (Hq : 1 <= q).
  { unfold q. apply Rmult_le_reg_r with dx_; [lra|].
    replace (xmax_ / dx_ * dx_) with xmax_ by (field; lra). lra. }
  assert (Hxq : xmax_ = q * dx_) by (unfold q; field; lra).
  set (cond := fun wvg : list R => Rltb (last wvg 0) xmax_).
  set (body := fun wvg : list R => wvg ++ [fl (last wvg 0 + dx_)]).
  destruct (archimed q) as [U1 U2].
  assert (Hup : (0 < up q)%Z) by (apply lt_IZR; lra).
  set (N := S (Z.to_nat (up q))).
  assert (HN : INR N = IZR (up q) + 1).
  { unfold N. rewrite S_INR, INR_IZR_INZ, Z2Nat.id by lia. reflexivity. }
  assert (Hstop : cond (Nat.iter N body ([] ++ [0])) = false).
  { unfold cond, body. rewrite rnd_buildWvGrid_iter, rnd_last_grid.
    apply Rltb_false.
    pose proof (cppgrid_bounds dx_ Hdx Hlo Hhi N ltac:(lra)) as E.
    apply Rabs_bound_inv in E.
    assert (Hs : INR N * INR N * unit_roundoff <= 1).
    { rewrite Hu. assert (0 <= INR N <= 67108866) by lra.
      assert (INR N * INR N <= 67108866 * 67108866) by nra. lra. }
    assert (INR N * INR N * unit_roundoff * dx_ <= dx_) by nra.
    assert (INR N * dx_ > (q + 1) * dx_) by nra.
    lra. }
  destruct (first_stop cond body ([] ++ [0]) N Hstop) as (n & Hn & Hs & Hl).
  assert (H0 : (1 <= n)%nat).
  { destruct n; [|lia]. unfold cond in Hs. simpl in Hs. apply Rltb_false in Hs. lra. }
  assert (Hle : INR n <= INR N) by (apply le_INR; exact Hn).
  assert (Hge : xmax_ <= Rnd.running_sum fl 0 dx_ n).
  { unfold cond, body in Hs. rewrite rnd_buildWvGrid_iter, rnd_last_grid in Hs.
    apply Rltb_false in Hs. lra. }
  exists n. split; [exact H0|]. split; [|split].
  - split; [|lra].
    pose proof (cppgrid_bounds dx_ Hdx Hlo Hhi n ltac:(lra)) as E.
    apply Rabs_bound_inv in E. pose proof (pos_INR n) as Hn0.
    assert (Hs1 : INR n * INR n * unit_roundoff <= 1).
    { rewrite Hu. assert (INR n * INR n <= 67108866 * 67108866) by nra. lra. }
    assert (INR n * INR n * unit_roundoff * dx_ <= dx_) by nra.
    assert (q * dx_ <= (INR n + 1) * dx_) by lra.
    assert (q <= INR n + 1); [|lra].
    apply Rmult_le_reg_r with dx_; lra.
  - split; [|exact Hge].
    specialize (Hl (n - 1)%nat ltac:(lia)). unfold cond, body in Hl.
    rewrite rnd_buildWvGrid_iter, rnd_last_grid in Hl. now apply Rltb_true in Hl.
  - intros fuel Hfuel. unfold Rnd.Rpa_buildWvGrid.
    assert (E : Rltb xmax_ dx_ = false) by (apply Rltb_false; lra).
    rewrite E. fold cond. fold body.
    rewrite (while_loop_iter cond body n fuel _ Hfuel Hl Hs).
    unfold body. now rewrite rnd_buildWvGrid_iter.
Qed.

(** C4 (amended). The grids with every arithmetic result rounded, for a
    rounding [fl] that is monotone, exact on the integers up to [2^53] and
    of relative error at most [2^-53] on the range [lo, hi] of magnitudes
    (for binary64 the normal range, [lo = 2^-1022] and [hi = 2^1023]),
    with [dx > 0], [xmax > dx], [dx >= 2 lo] and [2^32 dx <= hi]. In the C
    program, when [xmax/dx] is below [INT_MAX], [get_grid_size] sets [nx]
    to the integer part of the rounded quotient, which is the integer part
    of [xmax/dx] or one more, and [wave_vector_grid] fills these [nx] cells
    with [x[0] = fl(dx/2)] and [x[i] = fl(x[i-1] + dx)]: every point is
    positive, within [(i+1)^2 2^-53 dx] of [(i + 1/2) dx], and the grid
    increases strictly. The C++ [Rpa::buildWvGrid] builds another grid:
    when [xmax/dx <= 2^26] it ends with the [n + 1] points [0],
    [fl(0 + dx)], ..., each within [k^2 2^-53 dx] of [k dx], where [n >= 1]
    is the first index whose point is not below [xmax], and
    [xmax/dx - 1 <= n <= xmax/dx + 2]. *)
Theorem wave_vector_grid_under_rounding (inp : input) (xx0 : list R) :
  dx inp > 0 ->
  xmax inp > dx inp ->
  2 * lo <= dx inp ->
  4294967296 * dx inp <= hi ->
  (xmax inp / dx inp < IZR INT_MAX ->
   exists inp',
     Rnd.get_grid_size fl inp = Some inp' /\
     nx inp' = Int_part (fl (xmax inp / dx inp)) /\
     (Int_part (xmax inp / dx inp) <= nx inp' <= Int_part (xmax inp / dx inp) + 1)%Z /\
     (1 <= nx inp')%Z /\
     dx inp' = dx inp /\ xmax inp' = xmax inp /\
     (Z.of_nat (length xx0) = nx inp' ->
      let xx := Rnd.wave_vector_grid fl xx0 inp' in
      Z.of_nat (length xx) = nx inp' /\
      rd 0 xx 0 = fl (dx inp / 2) /\
      (forall i, (0 <= i)%Z -> (i + 1 < nx inp')%Z ->
         rd 0 xx (i + 1) = fl (rd 0 xx i + dx inp) /\ rd 0 xx i < rd 0 xx (i + 1)) /\
      (forall i, (0 <= i < nx inp')%Z ->
         Rabs (rd 0 xx i - (IZR i + 1 / 2) * dx inp)
         <= (IZR i + 1) * (IZR i + 1) * unit_roundoff * dx inp /\
         0 < rd 0 xx i)))
  /\
  (xmax inp / dx inp <= 67108864 ->
   exists n : nat,
     (1 <= n)%nat /\
     xmax inp / dx inp - 1 <= INR n <= xmax inp / dx inp + 2 /\
     Rnd.running_sum fl 0 (dx inp) (n - 1) < xmax inp
       <= Rnd.running_sum fl 0 (dx inp) n /\
     (forall k, (k <= n)%nat ->
        Rabs (Rnd.running_sum fl 0 (dx inp) k - INR k * dx inp)
        <= INR k * INR k * unit_roundoff * dx inp) /\
     forall fuel, (n <= fuel)%nat ->
       Rnd.Rpa_buildWvGrid fl fuel (dx inp) (xmax inp)
       = Done (map (Rnd.running_sum fl 0 (dx inp)) (seq 0 (S n)))).
Proof.
  intros Hdx Hx Hlo Hhi. split.
  - intros Hmax.
    destruct (rnd_grid_size inp Hdx Hx Hmax) as (Hg & Hf & Hr).
    set (n := Int_part (fl (xmax inp / dx inp))) in *.
    exists (set_nx n inp).
    split; [exact Hg|]. split; [reflexivity|]. split; [exact Hf|].
    split; [simpl; lia|]. split; [reflexivity|]. split; [reflexivity|].
    intros Hlen xx. simpl in Hlen.
    destruct (rnd_wave_vector_grid_cells xx0 (set_nx n inp)) as [L H];
      [simpl; lia | simpl; lia | ].
    fold xx in L, H. simpl in H.
    assert (Hb : forall i, (0 <= i < n)%Z -> INR (Z.to_nat i) + 1 <= 2147483648).
    { intros i Hi. rewrite INR_IZR_INZ, Z2Nat.id by lia.
      unfold INT_MAX in Hr.
      assert (IZR i <= IZR 2147483646) by (apply IZR_le; lia). lra. }
    split; [simpl; lia|]. split; [|split].
    + rewrite H by lia. reflexivity.
    + intros i Hi0 Hi1. simpl in Hi1. rewrite !H by lia.
      replace (Z.to_nat (i + 1)) with (S (Z.to_nat i)) by lia.
      split; [reflexivity|].
      apply cgrid_increases; [exact Hdx | exact Hlo | exact Hhi |]. apply Hb. lia.
    + intros i Hi. simpl in Hi. rewrite H by lia.
      pose proof (cgrid_bounds (dx inp) Hdx Hlo Hhi (Z.to_nat i) (Hb i Hi)) as B.
      rewrite INR_IZR_INZ, Z2Nat.id in B by lia. exact B.
  - intros Hbig.
    destruct (rnd_buildWvGrid_points (dx inp) (xmax inp) Hdx Hlo Hhi ltac:(lra) Hbig)
      as (n & H1 & H2 & H3 & H4).
    exists n. split; [exact H1|]. split; [exact H2|]. split; [exact H3|].
    split; [|exact H4].
    intros k Hk. apply cppgrid_bounds; [exact Hdx | exact Hlo | exact Hhi |].
    assert (INR k <= INR n) by (apply le_INR; exact Hk). lra.
Qed.

End RoundedGrid.

Lemma wave_vector_grid_under_rounding_witness :
  exists inp',
    Rnd.get_grid_size (fun x => x) default_input = Some inp' /\ nx inp' = 200%Z.
Proof.
  destruct (wave_vector_grid_under_rounding (fun x => x)
              (fun a b H => H) (fun z _ => eq_refl) 0 1000000000000
              (Rle_refl 0)
              (fun x _ =>
                 eq_ind_r (fun y => Rabs y <= unit_roundoff * Rabs x)
                   (eq_ind_r (fun y => y <= unit_roundoff * Rabs x)
                      (Rmult_le_pos _ _ (Rlt_le _ _ unit_roundoff_pos) (Rabs_pos x))
                      Rabs_R0)
                   (Rminus_diag x))
              default_input (repeat 0 200))
    as [A _].
  - simpl. lra.
  - simpl. lra.
  - simpl. lra.
  - simpl. lra.
  - destruct A as (inp' & Hg & Hn & _).
    + simpl. unfold INT_MAX. replace (20 / (1 / 10)) with 200 by field. lra.
    + exists inp'. split; [exact Hg|]. rewrite Hn. simpl.
      apply Int_part_unique.
      replace (20 / (1 / 10)) with 200 by field. lra.
Defined.

(** With the identity for [fl] the three functions are those of the exact
    reading. *)
Lemma Rnd_exact (inp : input) (xx : list R) (fuel : nat) (dx_ xmax_ : R) :
  Rnd.get_grid_size (fun x => x) inp = get_grid_size inp /\
  Rnd.wave_vector_grid (fun x => x) xx inp = wave_vector_grid xx inp /\
  Rnd.Rpa_buildWvGrid (fun x => x) fuel dx_ xmax_ = Rpa_buildWvGrid fuel dx_ xmax_.
Proof. repeat split; reflexivity. Qed.

Section Binary64Grid.
Import PrimFloat.
Local Open Scope float_scope.

(** The grids in binary64 at the defaults of the sources. The double
    nearest to 0.1 is [0x1.999999999999ap-4 = 7205759403792794 * 2^-56],
    above 1/10. In C the default [xmax = 20], [dx = 0.1] gives 200 points
    although the quotient of the two doubles is below 200: it rounds up to
    200. The quotient of the doubles nearest to 0.3 and 0.1 rounds to
    2.9999999999999996 and gives 2 points. In C++ the defaults [dx = 0.1],
    [xmax = 10] give 102 points, the last one 10.09999999999998: the sum of
    a hundred rounded additions of [dx] is still below 10. *)
Lemma grid_sizes_in_binary64 :
  FloatOps.Prim2SF 0x1.999999999999ap-4
  = SpecFloat.S754_finite false 7205759403792794 (-56) /\
  (20 * 2 ^ 56 < 200 * 7205759403792794)%Z /\
  option_map B64.nx (B64.get_grid_size B64.default_input) = Some 200%Z /\
  (0x1.3333333333333p-2 / 0x1.999999999999ap-4 = 0x1.7ffffffffffffp+1 /\
   option_map B64.nx
     (B64.get_grid_size
        (B64.set_xmax 0x1.3333333333333p-2 B64.default_input)) = Some 2%Z) /\
  (exists g,
     B64.Rpa_buildWvGrid 200 0x1.999999999999ap-4 10 = Done g /\
     length g = 102%nat /\
     (nth 100 g 0 <? 10) = true /\
     nth 101 g 0 = 0x1.4333333333328p+3).
Proof.
  split; [vm_compute; reflexivity|]. split; [lia|].
  split; [vm_compute; reflexivity|]. split.
  - split; vm_compute; reflexivity.
  - eexists. split; [vm_compute; reflexivity|]. repeat split; vm_compute; reflexivity.
Qed.

End Binary64Grid.

(** ** The Hartree-Fock integrand, where the programs evaluate it *)

Lemma SsfHF_integrand_zero_branch (x Theta_ mu_ y : R) :
  x <= 0 ->
  SsfHF_integrand x Theta_ mu_ y
  = -3 * (y * y) / ((1 + exp (y * y / Theta_ - mu_)) * (1 + exp (y * y / Theta_ - mu_))).
Proof.
  intros Hx. unfold SsfHF_integrand.
  now rewrite (proj2 (Rgtb_false x 0)) by lra.
Qed.

Lemma ssfHF_zero_branches_equal_iff (y x : R) (inp : input) :
  x <= 0 ->
  (ssfHF y x inp = SsfHF_integrand x (Theta inp) (mu inp) y
   <-> y = 0 \/ y * y / Theta inp = mu inp).
Proof.
  intros Hx. rewrite (ssfHF_zero_branch y x inp Hx).
  rewrite (SsfHF_integrand_zero_branch x _ _ y Hx).
  set (a := y * y / Theta inp - mu inp).
  pose proof (exp_pos a) as Ha.
  assert (Hd : 0 < (1 + exp a) * (1 + exp a)) by nra.
  set (c := -3 * (y * y) / ((1 + exp a) * (1 + exp a))).
  assert (Hc : c = 0 <-> y = 0).
  { unfold c. split.
    - intros H. apply (Rmult_eq_compat_r ((1 + exp a) * (1 + exp a))) in H.
      unfold Rdiv in H. rewrite Rmult_assoc, Rinv_l, Rmult_0_l in H by lra.
      assert (y * y = 0) by lra. destruct (Rmult_integral _ _ H0); assumption.
    - intros ->. unfold Rdiv. ring. }
  split.
  - intros H. assert (H1 : (exp a - 1) * c = 0) by lra.
    destruct (Rmult_integral _ _ H1) as [E|E].
    + right. assert (E1 : exp a = exp 0) by (rewrite exp_0; lra).
      apply exp_inv in E1. unfold a in E1. lra.
    + left. now apply Hc.
  - intros [H|H].
    + apply Hc in H. rewrite H. ring.
    + assert (E : a = 0) by (unfold a; lra). rewrite E, exp_0. ring.
Qed.

(** C9 (amended). For every [x > 0] the C integrand [ssfHF] and the C++
    integrand [SsfHF::integrand] are the same function. Their branches for
    [x <= 0] are not: the C form is [exp (y^2/Theta - mu)] times the C++
    form, so the two agree there only for [y = 0] or [y^2 = mu Theta]. The
    C++ form is the limit of the common expression as [x] decreases to 0
    (for [Theta > 0]). The C solver never reaches the other branch: the
    points of [wave_vector_grid] are positive for [dx > 0], and
    [compute_ssfHF] on that grid is the sum of the C++ integrand. *)
Theorem ssfHF_integrands_agree_on_grid (inp : input) (y : R) :
  Theta inp > 0 ->
  (forall x, x > 0 -> ssfHF y x inp = SsfHF_integrand x (Theta inp) (mu inp) y) /\
  (forall x, x <= 0 ->
     ssfHF y x inp
     = exp (y * y / Theta inp - mu inp) * SsfHF_integrand x (Theta inp) (mu inp) y /\
     (ssfHF y x inp = SsfHF_integrand x (Theta inp) (mu inp) y
      <-> y = 0 \/ y * y / Theta inp = mu inp)) /\
  limit1_in (fun x => ssfHF y x inp) (fun x => x > 0)
    (SsfHF_integrand 0 (Theta inp) (mu inp) y) 0 /\
  (forall SS xx0 : list R,
     dx inp > 0 -> (1 <= nx inp)%Z ->
     (nx inp <= Z.of_nat (length SS))%Z ->
     (nx inp <= Z.of_nat (length xx0))%Z ->
     let xx := wave_vector_grid xx0 inp in
     forall i, (0 <= i < nx inp)%Z ->
       0 < rd 0 xx i /\
       rd 0 (compute_ssfHF SS xx inp) i
       = 1 + dx inp
             * sum_Z (nx inp - 1)
                 (fun j => SsfHF_integrand (rd 0 xx i) (Theta inp) (mu inp) (rd 0 xx j))).
Proof.
  intros HT. split; [|split; [|split]].
  - intros x Hx. now apply ssfHF_pos_branch.
  - intros x Hx. split.
    + now apply ssfHF_zero_branch.
    + now apply ssfHF_zero_branches_equal_iff.
  - intros eps Heps.
    destruct (SsfHF_integrand_limit_at_0 y (Theta inp) (mu inp) HT eps Heps)
      as (delta & Hd & H).
    exists delta. split; [exact Hd|].
    intros x [Hx Hdist].
    rewrite ssfHF_pos_branch by exact Hx. apply H. split; assumption.
  - intros SS xx0 Hdx Hn HlS Hlx xx i Hi.
    destruct (wave_vector_grid_cells xx0 inp Hn Hlx) as [_ Hc].
    fold xx in Hc.
    assert (Hp : forall k, (0 <= k < nx inp)%Z -> 0 < rd 0 xx k).
    { intros k Hk. rewrite Hc by exact Hk.
      assert (0 <= IZR k) by (apply IZR_le; lia). nra. }
    split; [now apply Hp|].
    destruct (compute_ssfHF_fill SS xx inp HlS) as [_ Hf].
    rewrite Hf by exact Hi.
    rewrite (sum_Z_ext _ _
               (fun j => SsfHF_integrand (rd 0 xx i) (Theta inp) (mu inp) (rd 0 xx j))).
    + ring.
    + intros j Hj. apply ssfHF_pos_branch. now apply Hp.
Qed.

Lemma ssfHF_integrands_agree_on_grid_witness :
  ssfHF 1 (1 / 20) default_input = SsfHF_integrand (1 / 20) 1 0 1.
Proof.
  destruct (ssfHF_integrands_agree_on_grid default_input 1) as (H & _).
  - simpl. lra.
  - apply (H (1 / 20)). lra.
Defined.

(** ** The parallel region with several threads *)

(** The initialisation loop leaves the cells beyond [nx * nW] unwritten. *)
Lemma pd_initial_state_unwritten (junk : R) (psi_re : list R) (inp : input) :
  forall c, (nx inp * nW inp <= c)%Z ->
    rd None (pd_psi_re_fixed (pd_initial_state junk psi_re inp)) c = None.
Proof.
  intros c Hc. unfold pd_initial_state.
  set (t0 := repeat (@None dval) (Z.to_nat (nx inp * nW inp * nx inp))).
  assert (H0 : rd None t0 c = None).
  { unfold rd, t0. destruct (c <? 0)%Z; [reflexivity|].
    destruct (Nat.lt_ge_cases (Z.to_nat c)
                (length (repeat (@None dval) (Z.to_nat (nx inp * nW inp * nx inp)))))
      as [Hlt|Hge].
    - apply (@nth_repeat_lt (option dval)). now rewrite repeat_length in Hlt.
    - now apply nth_overflow. }
  assert (H : rd None
     (snd (for_loop (nx inp)
        (fun ii s =>
           for_loop (nW inp)
             (fun jj '(psi_re0, psi_re_fixed) =>
                (wr psi_re0 (idx2 ii jj (nx inp)) 0,
                 wr psi_re_fixed (idx2 ii jj (nx inp)) (Some PosInf)))
             s)
        (psi_re, t0))) c = None).
  { apply (for_loop_inv_max (fun _ (s : list R * list cell) => rd None (snd s) c = None)).
    - exact H0.
    - intros a s Ha Hs.
      apply (for_loop_inv_max (fun _ (t : list R * list cell) => rd None (snd t) c = None)).
      + exact Hs.
      + intros b [p f] Hb Ht. cbn [snd] in *. rewrite rd_wr_neq; [exact Ht|].
        unfold idx2. nia. }
  destruct (for_loop _ _ _) as [p f]. exact H.
Qed.

(** An iteration that reads the fixed component leaves the tensor alone. *)
Lemma lev1_iteration_read (N : iet_numerics) (psi_re phi_re SS bf : list R)
      (inp : input) (ii : Z) (s : lev1_state) :
  l_psi_re_fixed (lev1_iteration N psi_re phi_re SS bf inp false ii s)
  = l_psi_re_fixed s.
Proof.
  unfold lev1_iteration.
  apply (for_loop_inv_max (fun _ t => l_psi_re_fixed t = l_psi_re_fixed s)).
  - reflexivity.
  - intros b t _ Ht. exact Ht.
Qed.

(** An iteration that computes the fixed component populates the slots
    [(ii, 0)], ..., [(ii, nW - 1)] and writes no other cell. *)
Lemma lev1_iteration_write (N : iet_numerics) (psi_re phi_re SS bf : list R)
      (inp : input) (ii : Z) (s : lev1_state) :
  (0 <= ii < nx inp)%Z ->
  Z.of_nat (length (l_psi_re_fixed s)) = (nx inp * nW inp * nx inp)%Z ->
  (nx inp <= Z.of_nat (length (l_int_lev1_2 s)))%Z ->
  let s' := lev1_iteration N psi_re phi_re SS bf inp true ii s in
  length (l_psi_re_fixed s') = length (l_psi_re_fixed s) /\
  (nx inp <= Z.of_nat (length (l_int_lev1_2 s')))%Z /\
  (forall j, (0 <= j < nW inp)%Z -> slot_populated N (l_psi_re_fixed s') inp ii j) /\
  (forall c, (forall j k, (0 <= j < nW inp)%Z -> (0 <= k < nx inp)%Z ->
                c <> idx3 ii j k (nx inp) (nW inp)) ->
     rd None (l_psi_re_fixed s') c = rd None (l_psi_re_fixed s) c).
Proof.
  intros Hii Hlen Hbuf s'. subst s'. unfold lev1_iteration.
  pose proof (for_loop_inv_max
    (fun b t =>
       length (l_psi_re_fixed t) = length (l_psi_re_fixed s) /\
       (nx inp <= Z.of_nat (length (l_int_lev1_2 t)))%Z /\
       (forall j, (0 <= j < b)%Z -> (j < nW inp)%Z ->
          slot_populated N (l_psi_re_fixed t) inp ii j) /\
       (forall c, (forall j k, (0 <= j < nW inp)%Z -> (0 <= k < nx inp)%Z ->
                     c <> idx3 ii j k (nx inp) (nW inp)) ->
          rd None (l_psi_re_fixed t) c = rd None (l_psi_re_fixed s) c))
    (nW inp)
    (fun jj s =>
       let int_lev1_1 :=
         compute_dynamic_adr_iet_re_lev1_1 (l_int_lev1_1 s) psi_re phi_re
           SS bf inp in
       let '(int_lev1_2, psi_re_fixed) :=
         if true then
           let int_lev1_2 :=
             compute_dynamic_adr_iet_re_lev2 N (l_int_lev1_2 s) jj ii inp in
           (int_lev1_2,
            write_dynamic_adr_iet_fixed int_lev1_2 (l_psi_re_fixed s)
              ii jj inp)
         else
           (read_dynamic_adr_iet_fixed (l_int_lev1_2 s)
              (l_psi_re_fixed s) ii jj inp,
            l_psi_re_fixed s) in
       let psi_re_new :=
         wr (l_psi_re_new s) (idx2 ii jj (nx inp))
            (cquad_lev1 N int_lev1_1 int_lev1_2) in
       mkLev1 psi_re_new psi_re_fixed int_lev1_1 int_lev1_2)
    s) as H.
  destruct H as (L & B & Hpop & Hout).
  - split; [reflexivity|]. split; [exact Hbuf|]. split; [intros; lia | reflexivity].
  - intros b t Hb (L & B & Hpop & Hout).
    cbn [l_psi_re_fixed l_int_lev1_2 l_psi_re_new l_int_lev1_1].
    destruct (lev2_fills N (l_int_lev1_2 t) b ii inp B) as [L2 F2].
    destruct (write_fixed_slot
                (compute_dynamic_adr_iet_re_lev2 N (l_int_lev1_2 t) b ii inp)
                (l_psi_re_fixed t) ii b inp Hii Hb) as (Lw & Hin & Hother).
    { rewrite L. exact Hlen. }
    split; [now rewrite Lw|]. split; [now rewrite L2|]. split.
    + intros j Hj Hj' k Hk. destruct (Z.eq_dec j b) as [->|Hne].
      * rewrite Hin by exact Hk. now apply F2.
      * rewrite Hother; [apply Hpop; [lia | exact Hj' | exact Hk]|].
        intros k' Hk' E. apply idx3_inj in E; lia.
    + intros c Hc. rewrite Hother; [now apply Hout|].
      intros k Hk. apply Hc; lia.
  - split; [exact L|]. split; [exact B|]. split; [|exact Hout].
    intros j Hj. apply Hpop; lia.
Qed.

Lemma differs_from_INFINITY_value (v : dval) :
  v <> PosInf -> differs_from_INFINITY (Some v) = true.
Proof. destruct v; intros H; [reflexivity | congruence | reflexivity]. Qed.

Lemma race_invariant_step (N : iet_numerics) (psi_re phi_re SS bf : list R)
      (inp : input) (T0 : list cell) (own0 : list Z) (t : nat) (r : omp_region) :
  (0 < nx inp)%Z -> (0 < nW inp)%Z ->
  lev2_value N 0 0 0 <> PosInf ->
  (forall i, In i own0 -> (0 <= i < nx inp)%Z) ->
  race_invariant inp T0 own0 r ->
  race_invariant inp T0 own0 (omp_step N psi_re phi_re SS bf inp t r).
Proof.
  intros Hnx HnW Hv Hown
    (th0 & th1 & Eth & T0t & F0 & I0 & B0 & T1t & F1 & L & D & Hout).
  unfold omp_step. rewrite Eth.
  destruct t as [|[|t]]; cbn [nth_error].
  - rewrite T0t. cbn [negb].
    destruct (th_iterations th0) as [|ii rest] eqn:Eit.
    + exists th0, th1. repeat split; try assumption. now rewrite Eit.
    + rewrite F0.
      assert (Hii : (0 <= ii < nx inp)%Z) by (apply Hown, I0; now left).
      destruct (lev1_iteration_write N psi_re phi_re SS bf inp ii
                  (mkLev1 (rg_psi_re_new r) (rg_psi_re_fixed r)
                     (th_int_lev1_1 th0) (th_int_lev1_2 th0)) Hii L B0)
        as (Lw & Bw & Hpop & Hw).
      cbn [l_psi_re_fixed l_int_lev1_2] in Lw, Bw, Hw.
      eexists; exists th1. cbn [rg_threads rg_psi_re_fixed upd].
      split; [reflexivity|].
      cbn [th_tested th_compute_fixed th_iterations th_int_lev1_2].
      repeat split; try assumption; try reflexivity.
      * intros i Hi. apply I0. now right.
      * unfold cell in *. rewrite Lw. exact L.
      * destruct (Z.eq_dec ii 0) as [->|Hne].
        -- pose proof (Hpop 0%Z ltac:(lia) 0%Z ltac:(lia)) as H.
           replace (idx3 0 0 0 (nx inp) (nW inp)) with 0%Z in H
             by (unfold idx3; lia).
           rewrite H. now apply differs_from_INFINITY_value.
        -- rewrite Hw; [exact D|].
           intros j k Hj Hk E.
           replace 0%Z with (idx3 0 0 0 (nx inp) (nW inp)) in E
             by (unfold idx3; lia).
           apply idx3_inj in E; lia.
      * intros c Hc. rewrite Hw; [now apply Hout|].
        intros j k Hj Hk. apply Hc; try assumption. apply I0. now left.
  - rewrite T1t. cbn [negb].
    destruct (th_iterations th1) as [|ii rest] eqn:Eit.
    + exists th0, th1. repeat split; try assumption.
    + rewrite F1.
      pose proof (lev1_iteration_read N psi_re phi_re SS bf inp ii
                    (mkLev1 (rg_psi_re_new r) (rg_psi_re_fixed r)
                       (th_int_lev1_1 th1) (th_int_lev1_2 th1))) as Er.
      cbn [l_psi_re_fixed] in Er.
      exists th0. eexists. cbn [rg_threads rg_psi_re_fixed upd].
      split; [reflexivity|].
      cbn [th_tested th_compute_fixed th_iterations th_int_lev1_2].
      rewrite Er. repeat split; try assumption; reflexivity.
  - assert (E : nth_error (@nil omp_thread) t = None) by (now destruct t).
    rewrite E. exists th0, th1. repeat split; assumption.
Qed.

Lemma race_invariant_run (N : iet_numerics) (psi_re phi_re SS bf : list R)
      (inp : input) (T0 : list cell) (own0 : list Z) (sched : list nat) :
  (0 < nx inp)%Z -> (0 < nW inp)%Z ->
  lev2_value N 0 0 0 <> PosInf ->
  (forall i, In i own0 -> (0 <= i < nx inp)%Z) ->
  forall r : omp_region,
    race_invariant inp T0 own0 r ->
    race_invariant inp T0 own0
      (fold_left (fun r t => omp_step N psi_re phi_re SS bf inp t r) sched r).
Proof.
  intros Hnx HnW Hv Hown.
  induction sched as [|t sched IH]; intros r Hr; cbn [fold_left].
  - exact Hr.
  - apply IH. now apply race_invariant_step.
Qed.

(** The late test. Thread 0 makes its test on the initialised tensor and
    runs its first iteration, [ii = 0]; thread 1 makes its test only then. *)
Lemma race_prefix (N : iet_numerics) (junk : R) (psi_re_new psi_re phi_re SS bf : list R)
      (inp : input) (T0 : list cell) (c0 c1 : list Z) :
  (0 < nx inp)%Z -> (0 < nW inp)%Z ->
  (forall i, In i c0 -> (0 <= i < nx inp)%Z) ->
  Z.of_nat (length T0) = (nx inp * nW inp * nx inp)%Z ->
  rd None T0 0 = Some PosInf ->
  lev2_value N 0 0 0 <> PosInf ->
  race_invariant inp T0 (0%Z :: c0)
    (omp_parallel N junk psi_re_new psi_re T0 phi_re SS bf inp
       [0%Z :: c0; c1] [0; 0; 1]%nat).
Proof.
  intros Hnx HnW Hc0 Hlen Hcell Hv.
  unfold omp_parallel. cbn [map fold_left].
  (* thread 0 makes its test *)
  unfold omp_step at 3.
  cbn [rg_threads nth_error omp_thread_start th_tested negb rg_psi_re_fixed
       th_compute_fixed th_int_lev1_1 th_int_lev1_2 th_iterations rg_psi_re_new upd].
  rewrite Hcell. cbn [differs_from_INFINITY].
  (* thread 0 runs ii = 0 *)
  unfold omp_step at 2.
  cbn [rg_threads nth_error th_tested negb rg_psi_re_fixed
       th_compute_fixed th_int_lev1_1 th_int_lev1_2 th_iterations rg_psi_re_new upd].
  destruct (lev1_iteration_write N psi_re phi_re SS bf inp 0
              (mkLev1 psi_re_new T0 (malloc_doubles junk (nx inp))
                 (repeat None (Z.to_nat (nx inp)))))
    as (Lw & Bw & Hpop & Hw).
  { lia. }
  { exact Hlen. }
  { cbn [l_int_lev1_2]. rewrite length_repeat_Z. lia. }
  set (s := lev1_iteration N psi_re phi_re SS bf inp true 0
              (mkLev1 psi_re_new T0 (malloc_doubles junk (nx inp))
                 (repeat None (Z.to_nat (nx inp))))) in *.
  cbn [l_psi_re_fixed l_int_lev1_2] in Lw, Bw, Hw.
  (* thread 1 makes its test *)
  unfold omp_step.
  cbn [rg_threads nth_error omp_thread_start th_tested negb rg_psi_re_fixed
       th_compute_fixed th_int_lev1_1 th_int_lev1_2 th_iterations rg_psi_re_new upd].
  assert (E0 : rd None (l_psi_re_fixed s) 0 = Some (lev2_value N 0 0 0)).
  { pose proof (Hpop 0%Z ltac:(lia) 0%Z ltac:(lia)) as H.
    replace (idx3 0 0 0 (nx inp) (nW inp)) with 0%Z in H by (unfold idx3; lia).
    exact H. }
  rewrite E0, (differs_from_INFINITY_value _ Hv).
  eexists. eexists. split; [reflexivity|].
  cbn [th_tested th_compute_fixed th_iterations th_int_lev1_2 rg_psi_re_fixed].
  repeat split; try reflexivity; try assumption.
  - intros i Hi. now right.
  - unfold cell in *. rewrite Lw. exact Hlen.
  - rewrite E0. now apply differs_from_INFINITY_value.
  - intros c Hc. apply Hw. intros j k Hj Hk. apply Hc; try assumption. now left.
Qed.

(** Once entry [0] of the tensor differs from [INFINITY], no thread of any
    later region computes the fixed component: the tensor stays as it is. *)
Lemma omp_reads_only (N : iet_numerics) (psi_re phi_re SS bf : list R)
      (inp : input) (T : list cell) (sched : list nat) :
  differs_from_INFINITY (rd None T 0) = true ->
  forall r : omp_region,
    rg_psi_re_fixed r = T ->
    Forall (fun th => th_tested th = true -> th_compute_fixed th = false)
      (rg_threads r) ->
    rg_psi_re_fixed
      (fold_left (fun r t => omp_step N psi_re phi_re SS bf inp t r) sched r)
    = T.
Proof.
  intros Hd. induction sched as [|t sched IH]; intros r ET HF; cbn [fold_left].
  - exact ET.
  - assert (Hupd : forall (l : list omp_thread) (n : nat) (v : omp_thread),
              Forall (fun th => th_tested th = true -> th_compute_fixed th = false) l ->
              (th_tested v = true -> th_compute_fixed v = false) ->
              Forall (fun th => th_tested th = true -> th_compute_fixed th = false)
                (upd l n v)).
    { induction l as [|h l IHl]; intros [|n] v Hl Hvv; cbn [upd];
        try constructor; inversion Hl; subst; auto. }
    unfold omp_step.
    destruct (nth_error (rg_threads r) t) as [th|] eqn:En; [|now apply IH].
    assert (Hth : th_tested th = true -> th_compute_fixed th = false).
    { apply nth_error_In in En. rewrite Forall_forall in HF. now apply HF. }
    destruct (th_tested th) eqn:Et; cbn [negb].
    + destruct (th_iterations th) as [|ii rest]; [now apply IH|].
      rewrite (Hth eq_refl).
      apply IH; cbn [rg_psi_re_fixed rg_threads].
      * now rewrite lev1_iteration_read.
      * apply Hupd; [exact HF|]. reflexivity.
    + apply IH; cbn [rg_psi_re_fixed rg_threads]; [exact ET|].
      apply Hupd; [exact HF|]. cbn [th_tested th_compute_fixed].
      intros _. rewrite ET, Hd. reflexivity.
Qed.

(** With one thread the region is the sequential pass. *)
Lemma omp_one_thread_iterations (N : iet_numerics) (psi_re phi_re SS bf : list R)
      (inp : input) (f : bool) (l : list nat) :
  forall s : lev1_state,
    fold_left (fun r t => omp_step N psi_re phi_re SS bf inp t r)
      (repeat 0%nat (length l))
      (mkRegion (l_psi_re_new s) (l_psi_re_fixed s)
         [mkThread f true (l_int_lev1_1 s) (l_int_lev1_2 s) (map Z.of_nat l)])
    = let s' := fold_left
                  (fun s i => lev1_iteration N psi_re phi_re SS bf inp f (Z.of_nat i) s)
                  l s in
      mkRegion (l_psi_re_new s') (l_psi_re_fixed s')
        [mkThread f true (l_int_lev1_1 s') (l_int_lev1_2 s') []].
Proof.
  induction l as [|i l IH]; intros s.
  - reflexivity.
  - cbn [length repeat fold_left map].
    replace (omp_step N psi_re phi_re SS bf inp 0
               (mkRegion (l_psi_re_new s) (l_psi_re_fixed s)
                  [mkThread f true (l_int_lev1_1 s) (l_int_lev1_2 s)
                     (Z.of_nat i :: map Z.of_nat l)]))
      with (let s1 := lev1_iteration N psi_re phi_re SS bf inp f (Z.of_nat i) s in
            mkRegion (l_psi_re_new s1) (l_psi_re_fixed s1)
              [mkThread f true (l_int_lev1_1 s1) (l_int_lev1_2 s1) (map Z.of_nat l)])
      by (destruct s; reflexivity).
    apply (IH (lev1_iteration N psi_re phi_re SS bf inp f (Z.of_nat i) s)).
Qed.

Lemma omp_one_thread (N : iet_numerics) (junk : R)
      (psi_re_new psi_re : list R) (T : list cell)
      (phi_re SS bf : list R) (inp : input) :
  let r := omp_parallel N junk psi_re_new psi_re T phi_re SS bf inp
             [map Z.of_nat (seq 0 (Z.to_nat (nx inp)))]
             (repeat 0%nat (S (Z.to_nat (nx inp)))) in
  (rg_psi_re_new r, rg_psi_re_fixed r)
  = compute_dynamic_adr_iet_re_lev1 N junk psi_re_new psi_re T phi_re SS bf inp
  /\ omp_finished r = true.
Proof.
  intros r. subst r. unfold omp_parallel.
  cbn [repeat fold_left map].
  set (f := if differs_from_INFINITY (rd None T 0) then false else true).
  replace (omp_step N psi_re phi_re SS bf inp 0
             (mkRegion psi_re_new T
                [omp_thread_start junk inp (map Z.of_nat (seq 0 (Z.to_nat (nx inp))))]))
    with (mkRegion psi_re_new T
            [mkThread f true (malloc_doubles junk (nx inp))
               (repeat None (Z.to_nat (nx inp)))
               (map Z.of_nat (seq 0 (Z.to_nat (nx inp))))])
    by reflexivity.
  pose proof (omp_one_thread_iterations N psi_re phi_re SS bf inp f
                (seq 0 (Z.to_nat (nx inp)))
                (mkLev1 psi_re_new T (malloc_doubles junk (nx inp))
                   (repeat None (Z.to_nat (nx inp))))) as H.
  rewrite length_seq in H. cbn [l_psi_re_new l_psi_re_fixed l_int_lev1_1 l_int_lev1_2] in H.
  rewrite H. cbv zeta. cbn [rg_psi_re_new rg_psi_re_fixed]. split; reflexivity.
Qed.

(** C6 fails when the region runs on two threads and the second makes its
    test late. On one thread the first pass populates every slot. On two
    threads, thread 0 owning [ii = 0] and the iterations [c0], thread 1
    the iterations [c1]: if thread 1 tests [psi_re_fixed[0]] after thread 0
    has written the slot [(0, 0)], it leaves with [compute_fixed = false]
    and reads its slots instead of computing them. Whatever the rest of
    the schedule, at its end and at every point before it, each cell of a
    slot of [c1] holds what the initialisation left there, [INFINITY] or
    nothing, so the slot is not populated; and no later pass changes the
    tensor, since entry [0] of the tensor now differs from [INFINITY] for
    every thread. Of the layout [idx3] the proof uses that distinct index
    triples have distinct cells and that the triple [(0, 0, 0)] is cell
    [0]. *)
Theorem fixed_kernel_test_races
  (N : iet_numerics) (junk : R) (psi_re phi_re SS bf : list R) (inp : input)
  (c0 c1 : list Z) (rest : list nat) :
  (2 <= nx inp)%Z -> (1 <= nW inp)%Z ->
  lev2_value N 0 0 0 <> PosInf ->
  (forall i, In i c0 -> (0 <= i < nx inp)%Z) ->
  (forall i, In i c1 -> (0 <= i < nx inp)%Z /\ ~ In i (0%Z :: c0)) ->
  let s0 := pd_initial_state junk psi_re inp in
  let one_thread :=
    compute_dynamic_adr_iet_re_lev1 N junk (pd_psi_re_new s0) (pd_psi_re s0)
      (pd_psi_re_fixed s0) phi_re SS bf inp in
  let r :=
    omp_parallel N junk (pd_psi_re_new s0) (pd_psi_re s0) (pd_psi_re_fixed s0)
      phi_re SS bf inp [0%Z :: c0; c1] ([0; 0; 1]%nat ++ rest) in
  (forall i j, (0 <= i < nx inp)%Z -> (0 <= j < nW inp)%Z ->
     slot_populated N (snd one_thread) inp i j) /\
  (exists th0 th1,
     rg_threads r = [th0; th1] /\
     th_tested th1 = true /\ th_compute_fixed th1 = false) /\
  (forall i j, In i c1 -> (0 <= j < nW inp)%Z ->
     (forall k, (0 <= k < nx inp)%Z ->
        let c := rd None (rg_psi_re_fixed r) (idx3 i j k (nx inp) (nW inp)) in
        c = rd None (pd_psi_re_fixed s0) (idx3 i j k (nx inp) (nW inp)) /\
        (c = Some PosInf \/ c = None)) /\
     ~ slot_populated N (rg_psi_re_fixed r) inp i j) /\
  (forall (junk' : R) (psi_re_new' psi_re' : list R)
          (chunks : list (list Z)) (schedule : list nat),
     rg_psi_re_fixed
       (omp_parallel N junk' psi_re_new' psi_re' (rg_psi_re_fixed r)
          phi_re SS bf inp chunks schedule)
     = rg_psi_re_fixed r).
Proof.
  intros Hnx HnW Hv Hc0 Hc1 s0 one_thread r.
  destruct (pd_initial_state_tensor junk psi_re inp) as [L0 Hsent].
  fold s0 in L0, Hsent.
  assert (Hpos : (0 <= nx inp * nW inp * nx inp)%Z) by nia.
  rewrite Z.max_r in L0 by exact Hpos.
  assert (Hcell0 : rd None (pd_psi_re_fixed s0) 0 = Some PosInf).
  { pose proof (Hsent 0%Z 0%Z ltac:(lia) ltac:(lia)) as H. unfold slot_sentinel in H.
    replace (idx3 0 0 0 (nx inp) (nW inp)) with 0%Z in H by (unfold idx3; lia).
    exact H. }
  assert (Hinv : race_invariant inp (pd_psi_re_fixed s0) (0%Z :: c0) r).
  { unfold r, omp_parallel. rewrite fold_left_app.
    apply race_invariant_run; try assumption; try lia.
    - intros i [<-|Hi]; [lia | now apply Hc0].
    - apply (race_prefix N junk (pd_psi_re_new s0) (pd_psi_re s0) phi_re SS bf
               inp (pd_psi_re_fixed s0) c0 c1); try assumption; lia. }
  destruct Hinv as (th0 & th1 & Eth & _ & _ & _ & _ & T1t & F1 & L & D & Hout).
  assert (Hkeep : forall i j k, In i c1 -> (0 <= j < nW inp)%Z -> (0 <= k < nx inp)%Z ->
            rd None (rg_psi_re_fixed r) (idx3 i j k (nx inp) (nW inp))
            = rd None (pd_psi_re_fixed s0) (idx3 i j k (nx inp) (nW inp))).
  { intros i j k Hi Hj Hk. apply Hout. intros i' j' k' Hi' Hj' Hk' E.
    destruct (Hc1 i Hi) as [Hr Hn].
    assert (Hr' : (0 <= i' < nx inp)%Z).
    { destruct Hi' as [<-|Hi']; [lia | now apply Hc0]. }
    apply idx3_inj in E; try assumption. destruct E as (-> & _ & _). now apply Hn. }
  split; [|split; [|split]].
  - intros i j Hi Hj.
    destruct (lev1_pass_tensor N junk (pd_psi_re_new s0) (pd_psi_re s0)
                (pd_psi_re_fixed s0) phi_re SS bf inp) as [_ H].
    fold one_thread in H. apply H; try assumption.
    now rewrite Hcell0.
  - exists th0, th1. repeat split; assumption.
  - intros i j Hi Hj. destruct (Hc1 i Hi) as [Hr _].
    assert (Hk1 : forall k, (1 <= k < nx inp)%Z ->
              rd None (rg_psi_re_fixed r) (idx3 i j k (nx inp) (nW inp)) = None).
    { intros k Hk. rewrite Hkeep by (try assumption; lia).
      apply pd_initial_state_unwritten. unfold idx3. nia. }
    split.
    + intros k Hk c. subst c. split; [now apply Hkeep|].
      destruct (Z.eq_dec k 0) as [->|Hne].
      * left. rewrite Hkeep by (try assumption; lia). now apply Hsent.
      * right. apply Hk1. lia.
    + intros Hp. specialize (Hp 1%Z ltac:(lia)). rewrite Hk1 in Hp by lia.
      discriminate.
  - intros junk' psi_re_new' psi_re' chunks schedule. unfold omp_parallel.
    apply omp_reads_only; [exact D | reflexivity|].
    apply Forall_forall. intros th Hth. apply in_map_iff in Hth.
    destruct Hth as (c & <- & _). cbn [omp_thread_start th_tested]. discriminate.
Qed.

Lemma fixed_kernel_test_races_witness :
  ~ slot_populated (mkIetNumerics (fun _ _ _ => Finite 0) (fun _ _ => 0))
      (rg_psi_re_fixed
         (omp_parallel (mkIetNumerics (fun _ _ _ => Finite 0) (fun _ _ => 0)) 0
            (pd_psi_re_new (pd_initial_state 0 [0; 0] (set_nW 1 (set_nx 2 default_input))))
            (pd_psi_re (pd_initial_state 0 [0; 0] (set_nW 1 (set_nx 2 default_input))))
            (pd_psi_re_fixed (pd_initial_state 0 [0; 0] (set_nW 1 (set_nx 2 default_input))))
            [1; 1] [1; 1] [0; 0] (set_nW 1 (set_nx 2 default_input))
            [[0%Z]; [1%Z]] ([0; 0; 1]%nat ++ [1%nat])))
      (set_nW 1 (set_nx 2 default_input)) 1 0.
Proof.
  destruct (fixed_kernel_test_races
              (mkIetNumerics (fun _ _ _ => Finite 0) (fun _ _ => 0)) 0
              [0; 0] [1; 1] [1; 1] [0; 0] (set_nW 1 (set_nx 2 default_input))
              [] [1%Z] [1%nat])
    as (_ & _ & H & _).
  - simpl. lia.
  - simpl. lia.
  - discriminate.
  - intros i [].
  - intros i [<-|[]]. split; [simpl; lia|]. intros [E|[]]. discriminate E.
  - destruct (H 1%Z 0%Z) as (_ & Hn).
    + now left.
    + simpl. lia.
    + exact Hn.
Defined.
